(** * A verified model of package [encrypt] (asterogo)

    The package wraps AES-GCM behind a [Service] ([Encrypt], [Decrypt],
    [EncryptBytes], [DecryptBytes]) and adds four reflection-driven record
    transformers ([EncryptStruct], [DecryptStruct], [EncryptFields],
    [DecryptFields]).

    Layout: Part I holds the definitions -- first the pieces of the Go
    standard library the package calls (encoding/base64, crypto/subtle,
    crypto/cipher, crypto/aes, io, crypto/rand, reflect), each in a module
    named after its Go package, then the package itself, function by
    function.  Part II holds the lemmas and the theorems about them.

    The model also covers the pure parts of three other packages of the
    repository: the bounding box of package astrortsp, the caller field of
    package astrolog, and the configuration loader of package astroenv
    with the pieces of strings, strconv, os and godotenv it calls. Their
    definitions close Part I and their theorems close Part II. *)

From Stdlib Require Import NArith ZArith List Strings.String Strings.Byte Strings.Ascii.
From Stdlib Require Import DecimalString DecimalPos Lia Bool.
From stdpp Require Import base option list strings gmap.
Import ListNotations.

#[local] Set Warnings "-register-all".

(* ================================================================= *)
(** * Part I -- definitions                                            *)
(* ================================================================= *)

(** ** Go values: bytes, strings, errors, results *)

(** [uint(b)]: a byte widened to an unsigned integer. *)
Definition u8 (b : byte) : N := Byte.to_N b.

(** [byte(n)]: an unsigned integer truncated to its low eight bits. *)
Definition byte_of_N (n : N) : byte :=
  match Byte.of_N (n mod 256) with
  | Some b => b
  | None => x00
  end.

(** [[]byte(s)] and [string(b)]: a Go string is its byte sequence. *)
Definition bytes_of_string (s : string) : list byte := list_byte_of_string s.
Definition string_of_bytes (b : list byte) : string := string_of_list_byte b.

(** The error values that can reach a caller of the package: its own five
    sentinels (encrypt_func.go, lines 16-22) and the errors of the library
    functions it calls. *)
Inductive error : Type :=
| ErrMissingKey
| ErrInvalidKeyLength
| ErrEncryptionFailed
| ErrDecryptionFailed
| ErrInvalidData
| aes_KeySizeError (k : nat)      (* crypto/aes: invalid key size k *)
| cipher_errOpen                  (* cipher: message authentication failed *)
| cipher_errBlockSize             (* cipher: NewGCM requires 128-bit block cipher *)
| base64_CorruptInputError        (* illegal base64 data (offset not kept) *)
| io_EOF
| io_ErrUnexpectedEOF.

(** The text [err.Error()] prints for each error value. *)
Definition error_text (e : error) : string :=
  match e with
  | ErrMissingKey => "encryption key is missing"
  | ErrInvalidKeyLength => "key must be 16, 24, or 32 bytes"
  | ErrEncryptionFailed => "encryption failed"
  | ErrDecryptionFailed => "decryption failed"
  | ErrInvalidData => "invalid encrypted data"
  | aes_KeySizeError k =>
      "crypto/aes: invalid key size " ++ NilZero.string_of_uint (Nat.to_uint k)
  | cipher_errOpen => "cipher: message authentication failed"
  | cipher_errBlockSize => "cipher: NewGCM requires 128-bit block cipher"
  | base64_CorruptInputError => "illegal base64 data"
  | io_EOF => "EOF"
  | io_ErrUnexpectedEOF => "unexpected EOF"
  end.

(** What a Go call can do: return a value with a nil error ([Ok]), return a
    non-nil error ([Err], the value beside it is the zero value and is not
    kept), or panic. *)
Inductive result (A : Type) : Type :=
| Ok (a : A)
| Err (e : error)
| Panic (msg : string).

Arguments Ok {A} a.
Arguments Err {A} e.
Arguments Panic {A} msg.

Definition bind {A B : Type} (x : result A) (f : A -> result B) : result B :=
  match x with
  | Ok a => f a
  | Err e => Err e
  | Panic m => Panic m
  end.

Notation "x <- c ;; k" := (bind c (fun x => k))
  (at level 100, c at next level, right associativity).

(** Equality of byte sequences, as a boolean. *)
Definition bytes_eqb (x y : list byte) : bool :=
  (length x =? length y)%nat && forallb (fun p => Byte.eqb (fst p) (snd p)) (combine x y).

(* ----------------------------------------------------------------- *)
(** ** encoding/base64 (StdEncoding)                                   *)
(* ----------------------------------------------------------------- *)

Module base64.

(** The standard alphabet of RFC 4648 and the padding character. *)
Definition encodeStd : string :=
  "ABCDEFGHIJKLMNOPQRSTUVWXYZabcdefghijklmnopqrstuvwxyz0123456789+/".

Definition StdPadding : byte := "="%byte.

(** [enc.encode[i]] *)
Definition encode (i : N) : byte :=
  nth (N.to_nat i) (bytes_of_string encodeStd) x00.

(** [enc.decodeMap[c]]: the index of [c] in the alphabet, 0xff when [c] is
    not in it. *)
Fixpoint index_of (c : byte) (l : list byte) (i : N) : N :=
  match l with
  | [] => 255
  | x :: l' => if Byte.eqb x c then i else index_of c l' (N.succ i)
  end.

Definition decodeMap (c : byte) : N := index_of c (bytes_of_string encodeStd) 0.

(** [Encode]: three source bytes give four characters; a final group of one
    or two bytes is padded with ['=']. *)
Fixpoint Encode (src : list byte) : list byte :=
  match src with
  | [] => []
  | [a] =>
      let val := N.shiftl (u8 a) 16 in
      [ encode (N.land (N.shiftr val 18) 63);
        encode (N.land (N.shiftr val 12) 63);
        StdPadding; StdPadding ]
  | [a; b] =>
      let val := N.lor (N.shiftl (u8 a) 16) (N.shiftl (u8 b) 8) in
      [ encode (N.land (N.shiftr val 18) 63);
        encode (N.land (N.shiftr val 12) 63);
        encode (N.land (N.shiftr val 6) 63);
        StdPadding ]
  | a :: b :: c :: rest =>
      let val := N.lor (N.lor (N.shiftl (u8 a) 16) (N.shiftl (u8 b) 8)) (u8 c) in
      encode (N.land (N.shiftr val 18) 63)
      :: encode (N.land (N.shiftr val 12) 63)
      :: encode (N.land (N.shiftr val 6) 63)
      :: encode (N.land val 63)
      :: Encode rest
  end.

Definition EncodeToString (src : list byte) : string :=
  string_of_bytes (Encode src).

(** The decoder skips carriage returns and line feeds wherever they occur. *)
Definition is_newline (c : byte) : bool :=
  Byte.eqb c "010"%byte || Byte.eqb c "013"%byte.

(** The 24-bit value of four 6-bit digits, and its three bytes. *)
Definition quantum (d0 d1 d2 d3 : N) : N :=
  N.lor (N.lor (N.lor (N.shiftl d0 18) (N.shiftl d1 12)) (N.shiftl d2 6)) d3.

(** [decodeQuantum], over the input with the newlines removed: groups of
    four alphabet characters; the last group may end in one or two padding
    characters and nothing may follow it; anything else is corrupt input.
    The encoding is not strict: the unused low bits of a padded group are
    not checked. *)
Fixpoint decodeQuanta (src : list byte) : option (list byte) :=
  match src with
  | [] => Some []
  | c0 :: c1 :: c2 :: c3 :: rest =>
      let d0 := decodeMap c0 in
      let d1 := decodeMap c1 in
      let d2 := decodeMap c2 in
      let d3 := decodeMap c3 in
      if (d0 =? 255)%N || (d1 =? 255)%N then None
      else if (d2 =? 255)%N then
        (* "xx==" ends the input *)
        if Byte.eqb c2 StdPadding && Byte.eqb c3 StdPadding then
          match rest with
          | [] => Some [byte_of_N (N.shiftr (quantum d0 d1 0 0) 16)]
          | _ => None
          end
        else None
      else if (d3 =? 255)%N then
        (* "xxx=" ends the input *)
        if Byte.eqb c3 StdPadding then
          match rest with
          | [] =>
              let val := quantum d0 d1 d2 0 in
              Some [byte_of_N (N.shiftr val 16); byte_of_N (N.shiftr val 8)]
          | _ => None
          end
        else None
      else
        let val := quantum d0 d1 d2 d3 in
        match decodeQuanta rest with
        | Some out =>
            Some (byte_of_N (N.shiftr val 16)
                  :: byte_of_N (N.shiftr val 8)
                  :: byte_of_N val :: out)
        | None => None
        end
  | _ => None
  end.

Definition Decode (src : list byte) : option (list byte) :=
  decodeQuanta (List.filter (fun c => negb (is_newline c)) src).

Definition DecodeString (s : string) : result (list byte) :=
  match Decode (bytes_of_string s) with
  | Some data => Ok data
  | None => Err base64_CorruptInputError
  end.

End base64.

(* ----------------------------------------------------------------- *)
(** ** crypto/subtle                                                   *)
(* ----------------------------------------------------------------- *)

Module subtle.

(** [XORBytes(dst, x, y)]: the bytewise xor of the first
    [min(len(x), len(y))] bytes. *)
Definition xor_byte (a b : byte) : byte := byte_of_N (N.lxor (u8 a) (u8 b)).

Definition XORBytes (x y : list byte) : list byte := zip_with xor_byte x y.

(** [ConstantTimeCompare(x, y)]: 1 when the two slices have the same length
    and contents, 0 otherwise. *)
Definition ConstantTimeCompare (x y : list byte) : N :=
  if bytes_eqb x y then 1%N else 0%N.

End subtle.

(* ----------------------------------------------------------------- *)
(** ** crypto/cipher: the Block and AEAD interfaces, and GCM           *)
(* ----------------------------------------------------------------- *)

Module cipher.

(** [cipher.Block], as far as GCM uses it: the block size and the
    encryption of one block. *)
Record Block : Type := {
  BlockSize : nat;
  Encrypt : list byte -> list byte
}.

(** [cipher.AEAD]. [Seal(dst, nonce, plaintext, additionalData)] appends the
    sealed message to [dst]; [Open(dst, nonce, ciphertext, additionalData)]
    appends the opened plaintext to [dst] or returns an error. *)
Record AEAD : Type := {
  NonceSize : nat;
  Overhead : nat;
  Seal : list byte -> list byte -> list byte -> list byte -> result (list byte);
  Open : list byte -> list byte -> list byte -> list byte -> result (list byte)
}.

Definition gcmBlockSize : nat := 16.
Definition gcmTagSize : nat := 16.
Definition gcmStandardNonceSize : nat := 12.

(** The largest plaintext GCM seals: [((1<<32)-2) * BlockSize] bytes. *)
Definition gcmMaxPlaintext : N := ((2 ^ 32 - 2) * 16)%N.

(** Big-endian integers: [byteorder.BEUint..] and [byteorder.BEPutUint..]. *)
Definition be_uint (l : list byte) : N :=
  fold_left (fun acc b => (acc * 256 + u8 b)%N) l 0%N.

Fixpoint be_bytes (n : nat) (x : N) : list byte :=
  match n with
  | O => []
  | S n' => byte_of_N (N.shiftr x (8 * N.of_nat n')) :: be_bytes n' x
  end.

(** Multiplication in GF(2^128) (NIST SP 800-38D, algorithm 1): the bits of
    [x] are read from the leftmost one, [v] is shifted right and reduced by
    R = 11100001 || 0^120. *)
Definition gcmR : N := N.shiftl 225 120.

Fixpoint gfmul_loop (n : nat) (x z v : N) : N :=
  match n with
  | O => z
  | S n' =>
      let z' := if N.testbit x (N.of_nat n') then N.lxor z v else z in
      let v' := if N.odd v then N.lxor (N.shiftr v 1) gcmR else N.shiftr v 1 in
      gfmul_loop n' x z' v'
  end.

Definition gfmul (x y : N) : N := gfmul_loop 128 x 0%N y.

(** The [i]-th 16-byte block of [data], the last one padded with zeros. *)
Definition blockAt (data : list byte) (i : nat) : N :=
  let chunk := take 16 (drop (16 * i) data) in
  be_uint (chunk ++ replicate (16 - length chunk) x00).

(** [g.update(&y, data)]: GHASH over the blocks of [data]. *)
Definition update (h y : N) (data : list byte) : N :=
  fold_left (fun y i => gfmul (N.lxor y (blockAt data i)) h)
            (seq 0 ((length data + 15) / 16)) y.

(** [g.auth]: the tag of a ciphertext. *)
Definition auth (b : Block) (ciphertext additionalData tagMask : list byte) : list byte :=
  let h := be_uint (Encrypt b (replicate 16 x00)) in
  let y := update h 0%N additionalData in
  let y := update h y ciphertext in
  let y := N.lxor y (N.lor (N.shiftl (N.of_nat (length additionalData) * 8) 64)
                           (N.of_nat (length ciphertext) * 8)) in
  let y := gfmul y h in
  subtle.XORBytes (be_bytes 16 y) tagMask.

(** [g.deriveCounter] for the standard 12-byte nonce: nonce || 0 0 0 1. *)
Definition deriveCounter (nonce : list byte) : list byte :=
  nonce ++ [x00; x00; x00; x01].

(** [gcmInc32]: the last four bytes, as a big-endian integer, plus one,
    wrapping around. *)
Definition gcmInc32 (counter : list byte) : list byte :=
  take 12 counter ++ be_bytes 4 ((be_uint (drop 12 counter) + 1) mod 2 ^ 32).

(** [g.counterCrypt]: CTR mode, one mask block per 16 bytes of input. The
    fuel is the input length, which the loop never exhausts. *)
Fixpoint counterCrypt_loop (fuel : nat) (b : Block) (inp counter : list byte) : list byte :=
  match fuel with
  | O => []
  | S fuel' =>
      match inp with
      | [] => []
      | _ =>
          subtle.XORBytes (take 16 inp) (Encrypt b counter)
          ++ counterCrypt_loop fuel' b (drop 16 inp) (gcmInc32 counter)
      end
  end.

Definition counterCrypt (b : Block) (inp counter : list byte) : list byte :=
  counterCrypt_loop (length inp) b inp counter.

(** [gcm.Seal] *)
Definition gcm_Seal (b : Block) (dst nonce plaintext data : list byte) : result (list byte) :=
  if negb (length nonce =? gcmStandardNonceSize)%nat then
    Panic "crypto/cipher: incorrect nonce length given to GCM"
  else if (gcmMaxPlaintext <? N.of_nat (length plaintext))%N then
    Panic "crypto/cipher: message too large for GCM"
  else
    let counter := deriveCounter nonce in
    let tagMask := Encrypt b counter in
    let counter := gcmInc32 counter in
    let out := counterCrypt b plaintext counter in
    let tag := auth b out data tagMask in
    Ok (dst ++ out ++ tag).

(** [gcm.Open] *)
Definition gcm_Open (b : Block) (dst nonce ciphertext data : list byte) : result (list byte) :=
  if negb (length nonce =? gcmStandardNonceSize)%nat then
    Panic "crypto/cipher: incorrect nonce length given to GCM"
  else if (length ciphertext <? gcmTagSize)%nat then
    Err cipher_errOpen
  else if (gcmMaxPlaintext + N.of_nat gcmTagSize <? N.of_nat (length ciphertext))%N then
    Err cipher_errOpen
  else
    let tag := drop (length ciphertext - gcmTagSize) ciphertext in
    let ciphertext := take (length ciphertext - gcmTagSize) ciphertext in
    let counter := deriveCounter nonce in
    let tagMask := Encrypt b counter in
    let counter := gcmInc32 counter in
    let expectedTag := auth b ciphertext data tagMask in
    if negb (subtle.ConstantTimeCompare (take gcmTagSize expectedTag) tag =? 1)%N then
      Err cipher_errOpen
    else
      Ok (dst ++ counterCrypt b ciphertext counter).

(** [cipher.NewGCM]: GCM with the standard nonce and tag sizes; it needs a
    cipher with 128-bit blocks. *)
Definition NewGCM (b : Block) : result AEAD :=
  if negb (BlockSize b =? gcmBlockSize)%nat then Err cipher_errBlockSize
  else Ok {| NonceSize := gcmStandardNonceSize;
             Overhead := gcmTagSize;
             Seal := gcm_Seal b;
             Open := gcm_Open b |}.

End cipher.

(* ----------------------------------------------------------------- *)
(** ** crypto/aes (FIPS-197)                                           *)
(* ----------------------------------------------------------------- *)

Module aes.

Definition BlockSize : nat := 16.

(** Arithmetic in GF(2^8) modulo x^8 + x^4 + x^3 + x + 1. *)
Definition xtime (a : N) : N :=
  let s := N.land (N.shiftl a 1) 255 in
  if N.testbit a 7 then N.lxor s 27 else s.

Fixpoint gmul_loop (n : nat) (a b acc : N) : N :=
  match n with
  | O => acc
  | S n' =>
      gmul_loop n' (xtime a) (N.shiftr b 1) (if N.odd b then N.lxor acc a else acc)
  end.

Definition gmul (a b : N) : N := gmul_loop 8 a b 0%N.

(** The multiplicative inverse, a^254 (0 is sent to 0). *)
Definition ginv (a : N) : N :=
  let a2 := gmul a a in
  let a4 := gmul a2 a2 in
  let a8 := gmul a4 a4 in
  let a16 := gmul a8 a8 in
  let a32 := gmul a16 a16 in
  let a64 := gmul a32 a32 in
  let a128 := gmul a64 a64 in
  gmul a2 (gmul a4 (gmul a8 (gmul a16 (gmul a32 (gmul a64 a128))))).

Definition rotl8 (x k : N) : N :=
  N.land (N.lor (N.shiftl x k) (N.shiftr x (8 - k))) 255.

(** The S-box: the inverse followed by the affine map. *)
Definition sbox_calc (a : N) : N :=
  let b := ginv a in
  N.lxor (N.lxor (N.lxor (N.lxor (N.lxor b (rotl8 b 1)) (rotl8 b 2)) (rotl8 b 3)) (rotl8 b 4)) 99.

Definition sbox_table : list N :=
  Eval vm_compute in map (fun i => sbox_calc (N.of_nat i)) (seq 0 256).

Definition sbox (a : N) : N := nth (N.to_nat a) sbox_table 0%N.

(** Key expansion, over the flat list of key-schedule bytes (four per word). *)
Definition subWord (w : list N) : list N := map sbox w.

Definition rotWord (w : list N) : list N :=
  match w with
  | a :: r => r ++ [a]
  | [] => []
  end.

Definition xorWords (a b : list N) : list N := zip_with N.lxor a b.

Definition rcon (j : nat) : list N := [Nat.iter (j - 1) xtime 1%N; 0%N; 0%N; 0%N].

Definition wordAt (w : list N) (i : nat) : list N := take 4 (drop (4 * i) w).

Fixpoint expand (n i Nk : nat) (w : list N) : list N :=
  match n with
  | O => w
  | S n' =>
      let temp := wordAt w (i - 1) in
      let temp :=
        if (i mod Nk =? 0)%nat then xorWords (subWord (rotWord temp)) (rcon (i / Nk))
        else if (6 <? Nk)%nat && (i mod Nk =? 4)%nat then subWord temp
        else temp in
      expand n' (S i) Nk (w ++ xorWords (wordAt w (i - Nk)) temp)
  end.

Definition expandKey (key : list byte) : list N :=
  let Nk := (length key / 4)%nat in
  let Nr := (Nk + 6)%nat in
  expand (4 * (Nr + 1) - Nk) Nk Nk (map u8 key).

(** The round functions, on the state as 16 bytes in input order (byte
    [r + 4c] is row [r], column [c]). *)
Definition shiftRows (s : list N) : list N :=
  map (fun i => nth ((i mod 4) + 4 * ((i / 4 + i mod 4) mod 4))%nat s 0%N) (seq 0 16).

Definition mixColumn (col : list N) : list N :=
  match col with
  | [a0; a1; a2; a3] =>
      [ N.lxor (N.lxor (N.lxor (gmul 2 a0) (gmul 3 a1)) a2) a3;
        N.lxor (N.lxor (N.lxor a0 (gmul 2 a1)) (gmul 3 a2)) a3;
        N.lxor (N.lxor (N.lxor a0 a1) (gmul 2 a2)) (gmul 3 a3);
        N.lxor (N.lxor (N.lxor (gmul 3 a0) a1) a2) (gmul 2 a3) ]
  | _ => col
  end.

Definition mixColumns (s : list N) : list N :=
  flat_map (fun c => mixColumn (wordAt s c)) (seq 0 4).

Definition addRoundKey (s k : list N) : list N := zip_with N.lxor s k.

Definition roundKey (w : list N) (r : nat) : list N := take 16 (drop (16 * r) w).

(** [aesCipher.Encrypt] on one 16-byte block. *)
Definition encryptBlock (w : list N) (Nr : nat) (src : list byte) : list byte :=
  let s := addRoundKey (map u8 (take 16 src)) (roundKey w 0) in
  let s := fold_left
             (fun s r => addRoundKey (mixColumns (shiftRows (map sbox s))) (roundKey w r))
             (seq 1 (Nr - 1)) s in
  let s := addRoundKey (shiftRows (map sbox s)) (roundKey w Nr) in
  map (fun i => byte_of_N (nth i s 0%N)) (seq 0 16).

(** [aes.NewCipher]: the key must be 16, 24 or 32 bytes long; any other
    length is a [KeySizeError]. *)
Definition NewCipher (key : list byte) : result cipher.Block :=
  let k := length key in
  if (k =? 16)%nat || (k =? 24)%nat || (k =? 32)%nat then
    let w := expandKey key in
    let Nr := (k / 4 + 6)%nat in
    Ok {| cipher.BlockSize := BlockSize; cipher.Encrypt := encryptBlock w Nr |}
  else Err (aes_KeySizeError k).

End aes.

(* ----------------------------------------------------------------- *)
(** ** crypto/rand and io                                              *)
(* ----------------------------------------------------------------- *)

Module rand.

(** [rand.Reader], the system's random source, as the sequence of bytes it
    is going to deliver. Reading consumes them from the front; a source
    that runs dry stands for one that fails. *)
Definition Reader : Type := list byte.

End rand.

Module io.

(** [io.ReadFull(r, buf)] with [len(buf) = n]: exactly [n] bytes, or an
    error ([EOF] if nothing could be read, [ErrUnexpectedEOF] after a
    partial read). *)
Definition ReadFull (r : rand.Reader) (n : nat) : result (list byte) * rand.Reader :=
  if decide (n <= length r) then (Ok (take n r), drop n r)
  else (Err (if decide (length r = 0) then io_EOF else io_ErrUnexpectedEOF), []).

End io.

(* ----------------------------------------------------------------- *)
(** ** Go data and package reflect                                     *)
(* ----------------------------------------------------------------- *)

(** A struct tag, as the key/value pairs it lists in order, and a field
    declaration: its name, its package path (empty exactly for exported
    fields), its tag, and whether it is an embedded field. *)
Definition StructTag : Type := list (string * string).

Record StructField : Type := {
  Name : string;
  PkgPath : string;
  Tag : StructTag;
  Anonymous : bool
}.

#[global] Instance StructField_eq_dec : EqDecision StructField.
Proof. solve_decision. Defined.

(** Go types, as far as [reflect] looks at them here: the element type of
    a pointer and the fields of a struct, each with its own type. The
    other types are told apart by kind only. *)
Inductive rtype : Type :=
| TInterface
| TBool
| TInt
| TString
| TSlice
| TPtr (elem : rtype)
| TStruct (fields : list (StructField * rtype)).

(** [*structType]: a struct type, given by its fields. *)
Abbreviation structType := (list (StructField * rtype)).

(** The values a caller can pass as [interface{}]: the nil interface,
    scalars, strings, byte slices, pointers and structs (the declared
    fields, in declaration order, each with its value). A pointer either
    points to a value ([inl]) or is nil ([inr]), and a nil pointer still
    has an element type. The package compares a kind only with [Ptr],
    [Struct] and [String], so the kinds left out (floats, maps, arrays,
    ...) behave like the scalars here. Data is a tree: a pointer owns what
    it points to, so neither two pointers to one struct nor a struct type
    that contains a pointer to itself can be written down. *)
Inductive value : Type :=
| Nil
| VBool (b : bool)
| VInt (n : Z)
| VString (s : string)
| VBytes (b : list byte)
| VPtr (target : value + rtype)
| VStruct (fields : list (StructField * value)).

Module reflect.

Inductive Kind : Type :=
| Invalid | Bool | Int | Interface | Ptr | Slice | String | Struct.

#[global] Instance Kind_eq_dec : EqDecision Kind.
Proof. solve_decision. Defined.

(** [k.String()] *)
Definition Kind_String (k : Kind) : string :=
  match k with
  | Invalid => "invalid"
  | Bool => "bool"
  | Int => "int"
  | Interface => "interface"
  | Ptr => "ptr"
  | Slice => "slice"
  | String => "string"
  | Struct => "struct"
  end.

(** The message of the [ValueError] a method panics with when it is called
    on a Value of the wrong kind. *)
Definition ValueError (method : string) (k : Kind) : string :=
  match k with
  | Invalid => "reflect: call of " ++ method ++ " on zero Value"
  | _ => "reflect: call of " ++ method ++ " on " ++ Kind_String k ++ " Value"
  end.

(** A [reflect.Value] refers to a place in the caller's data: [Deref] steps
    through a pointer, [Fld i] selects the i-th field of a struct. *)
Inductive step : Type :=
| Deref
| Fld (i : nat).

Definition path : Type := list step.

Fixpoint load (m : value) (p : path) : option value :=
  match p with
  | [] => Some m
  | Deref :: p' =>
      match m with
      | VPtr (inl t) => load t p'
      | _ => None
      end
  | Fld i :: p' =>
      match m with
      | VStruct fs =>
          match fs !! i with
          | Some (_, x) => load x p'
          | None => None
          end
      | _ => None
      end
  end.

Fixpoint store (m : value) (p : path) (x : value) : value :=
  match p with
  | [] => x
  | Deref :: p' =>
      match m with
      | VPtr (inl t) => VPtr (inl (store t p' x))
      | _ => m
      end
  | Fld i :: p' =>
      match m with
      | VStruct fs =>
          match fs !! i with
          | Some (sf, y) => VStruct (<[i := (sf, store y p' x)]> fs)
          | None => m
          end
      | _ => m
      end
  end.

(** [reflect.Value]: the zero Value, or the value found at a place together
    with the place and the flags that decide settability: [flagAddr]
    (reached through a pointer), [flagStickyRO] (reached through an
    unexported field that is not embedded) and [flagEmbedRO] (the Value is
    itself an unexported embedded field). *)
Inductive Value : Type :=
| ZeroValue
| MkValue (this : value) (ptr : path) (flagAddr flagStickyRO flagEmbedRO : bool).

(** [reflect.Type] *)
Abbreviation Type_ := rtype.

Definition kind_of (x : value) : Kind :=
  match x with
  | Nil => Interface
  | VBool _ => Bool
  | VInt _ => Int
  | VString _ => String
  | VBytes _ => Slice
  | VPtr _ => Ptr
  | VStruct _ => Struct
  end.

(** [t.Kind()] *)
Definition Type_Kind (t : Type_) : Kind :=
  match t with
  | TInterface => Interface
  | TBool => Bool
  | TInt => Int
  | TString => String
  | TSlice => Slice
  | TPtr _ => Ptr
  | TStruct _ => Struct
  end.

(** [reflect.TypeOf(x)]: the type a value has. *)
Fixpoint TypeOf (x : value) : Type_ :=
  match x with
  | Nil => TInterface
  | VBool _ => TBool
  | VInt _ => TInt
  | VString _ => TString
  | VBytes _ => TSlice
  | VPtr (inl t) => TPtr (TypeOf t)
  | VPtr (inr elem) => TPtr elem
  | VStruct fs => TStruct (map (fun '(sf, y) => (sf, TypeOf y)) fs)
  end.

(** [reflect.ValueOf(v)]: the zero Value for the nil interface. *)
Definition ValueOf (v : value) : Value :=
  match v with
  | Nil => ZeroValue
  | _ => MkValue v [] false false false
  end.

(** [v.Kind()]: [Invalid] for the zero Value. *)
Definition Value_Kind (v : Value) : Kind :=
  match v with
  | ZeroValue => Invalid
  | MkValue x _ _ _ _ => kind_of x
  end.

(** [v.IsValid()] *)
Definition Value_IsValid (v : Value) : bool :=
  match v with
  | ZeroValue => false
  | MkValue _ _ _ _ _ => true
  end.

(** [v.IsNil()] on a pointer. *)
Definition Value_IsNil (v : Value) : bool :=
  match v with
  | MkValue (VPtr (inr _)) _ _ _ _ => true
  | _ => false
  end.

(** [v.Elem()] on a pointer: the zero Value for a nil pointer, else the
    pointee, which is addressable and keeps the read-only flags. (On kinds
    other than pointer and interface Go panics; [Elem] is called only on
    pointers.) *)
Definition Value_Elem (v : Value) : Value :=
  match v with
  | MkValue (VPtr (inl t)) p _ sticky embed => MkValue t (p ++ [Deref]) true sticky embed
  | _ => ZeroValue
  end.

(** [v.NumField()] and [v.Type()] on a struct. (On other kinds
    [NumField] panics; the package calls it only on structs.) *)
Definition Value_NumField (v : Value) : nat :=
  match v with
  | MkValue (VStruct fs) _ _ _ _ => length fs
  | _ => 0
  end.

Definition Value_Type (v : Value) : Type_ :=
  match v with
  | MkValue x _ _ _ _ => TypeOf x
  | ZeroValue => TInterface
  end.

(** The declared fields of a struct type. *)
Definition Type_fields (t : Type_) : list StructField :=
  match t with
  | TStruct fs => map fst fs
  | _ => []
  end.

(** [t.Field(i)], for [i] below the number of fields. *)
Definition Type_Field (t : Type_) (i : nat) : StructField :=
  nth i (Type_fields t) {| Name := ""; PkgPath := ""; Tag := []; Anonymous := false |}.

(** [tag.Get(key)]: the value of the first pair with that key, the empty
    string when there is none. *)
Fixpoint StructTag_Get (tag : StructTag) (key : string) : string :=
  match tag with
  | [] => ""
  | (k, x) :: tag' => if decide (k = key) then x else StructTag_Get tag' key
  end.

(** [v.Field(i)], for [i] below the number of fields, read from the current
    data [m]. The field keeps the struct's addressability and its sticky
    read-only flag, not its embedded one; an unexported field is read-only,
    sticky unless it is embedded. *)
Definition Value_Field (m : value) (v : Value) (i : nat) : Value :=
  match v with
  | MkValue _ p a sticky _ =>
      match load m p with
      | Some (VStruct fs) =>
          match fs !! i with
          | Some (sf, x) =>
              let unexported := negb (bool_decide (PkgPath sf = "")) in
              MkValue x (p ++ [Fld i]) a
                      (sticky || (unexported && negb (Anonymous sf)))
                      (unexported && Anonymous sf)
          | None => ZeroValue
          end
      | _ => ZeroValue
      end
  | ZeroValue => ZeroValue
  end.

(** The first declared field with that name, counting from [i]. *)
Fixpoint lookup_name (t : list StructField) (name : string) (i : nat) : option nat :=
  match t with
  | [] => None
  | sf :: t' => if decide (Name sf = name) then Some i else lookup_name t' name (S i)
  end.

(** Struct types are compared by their fields. (Go compares type
    identities; two distinct types with the same fields are one type
    here, which leaves the search below with the same answer: it only
    asks whether a name is reached once or more than once at a depth.) *)
Fixpoint Type_eqb (t u : Type_) : bool :=
  match t, u with
  | TInterface, TInterface => true
  | TBool, TBool => true
  | TInt, TInt => true
  | TString, TString => true
  | TSlice, TSlice => true
  | TPtr a, TPtr b => Type_eqb a b
  | TStruct fs, TStruct gs =>
      (fix fields_eqb (fs gs : structType) : bool :=
         match fs, gs with
         | [], [] => true
         | (f, a) :: fs', (g, b) :: gs' =>
             bool_decide (f = g) && Type_eqb a b && fields_eqb fs' gs'
         | _, _ => false
         end) fs gs
  | _, _ => false
  end.

(** The work queue of [FieldByNameFunc]: a struct type to look into and the
    index sequence that leads to it. *)
Record fieldScan : Type := {
  typ : structType;
  index : list nat
}.

(** [map[*structType]int] and [map[*structType]bool]. A type that was
    never entered counts 0. *)
Definition counts : Type := list (structType * nat).

Fixpoint count_of (c : counts) (t : structType) : nat :=
  match c with
  | [] => 0
  | (u, n) :: c' => if Type_eqb (TStruct u) (TStruct t) then n else count_of c' t
  end.

Definition was_visited (visited : list structType) (t : structType) : bool :=
  existsb (fun u => Type_eqb (TStruct u) (TStruct t)) visited.

(** What the search has found and queued so far at one depth: [found] is
    set once a field matched ([ok] in the source). *)
Record search : Type := {
  found : option (list nat);
  next : list fieldScan;
  nextCount : counts
}.

(** The loop over the fields of one struct type of the current depth
    ([for i := range t.Fields]), from field [i] on. [None] stands for the
    early [return StructField{}, false]: the name appeared more than once
    at this depth. *)
Fixpoint scan_fields (match_ : string -> bool) (count_t : nat) (scan_index : list nat)
  (fields : structType) (i : nat) (st : search) : option search :=
  match fields with
  | [] => Some st
  | (f, ftyp) :: fields' =>
      if match_ (Name f) then
        if (1 <? count_t) || bool_decide (is_Some (found st)) then None
        else scan_fields match_ count_t scan_index fields' (S i)
               {| found := Some (scan_index ++ [i]);
                  next := next st; nextCount := nextCount st |}
      else
        let ntyp := if Anonymous f
                    then Some (match ftyp with TPtr elem => elem | _ => ftyp end)
                    else None in
        match found st, ntyp with
        | None, Some (TStruct styp) =>
            if 0 <? count_of (nextCount st) styp then
              scan_fields match_ count_t scan_index fields' (S i)
                {| found := None; next := next st;
                   nextCount := (styp, 2) :: nextCount st |}
            else
              scan_fields match_ count_t scan_index fields' (S i)
                {| found := None;
                   next := next st ++ [{| typ := styp; index := scan_index ++ [i] |}];
                   nextCount := (styp, if 1 <? count_t then 2 else 1) :: nextCount st |}
        | _, _ => scan_fields match_ count_t scan_index fields' (S i) st
        end
  end.

(** The loop over the types of the current depth
    ([for _, scan := range current]). *)
Fixpoint scan_level (match_ : string -> bool) (count : counts) (current : list fieldScan)
  (visited : list structType) (st : search) : option (search * list structType) :=
  match current with
  | [] => Some (st, visited)
  | scan :: current' =>
      if was_visited visited (typ scan) then scan_level match_ count current' visited st
      else
        match scan_fields match_ (count_of count (typ scan)) (index scan) (typ scan) 0 st with
        | None => None
        | Some st' => scan_level match_ count current' (typ scan :: visited) st'
        end
  end.

(** The outer loop ([for len(next) > 0]), one depth per iteration. Each
    depth queues only types nested in those it looked into, so the loop
    ends; [fuel] bounds the number of depths. *)
Fixpoint search_levels (fuel : nat) (match_ : string -> bool) (next_ : list fieldScan)
  (nextCount_ : counts) (visited : list structType) : option (list nat) :=
  match fuel with
  | 0 => None
  | S fuel' =>
      match next_ with
      | [] => None
      | _ =>
          match scan_level match_ nextCount_ next_ visited
                           {| found := None; next := []; nextCount := [] |} with
          | None => None
          | Some (st, visited') =>
              match found st with
              | Some index => Some index
              | None => search_levels fuel' match_ (next st) (nextCount st) visited'
              end
          end
      end
  end.

(** How deep types are nested in a type. *)
Fixpoint depth (t : Type_) : nat :=
  match t with
  | TPtr elem => S (depth elem)
  | TStruct fs => S (list_max (map (fun '(_, u) => depth u) fs))
  | _ => 0
  end.

(** [t.FieldByNameFunc(match)] on a struct type: the index sequence of the
    one field, at the least depth where a field matches, that matches. *)
Definition Type_FieldByNameFunc (t : structType) (match_ : string -> bool)
  : option (list nat) :=
  search_levels (depth (TStruct t)) match_ [{| typ := t; index := [] |}] [] [].

(** [t.FieldByName(name)] on a struct type: the index sequence the name
    resolves to. A declared field of that name is found at once; a struct
    without embedded fields has no other; the empty name resolves to
    nothing. *)
Definition Type_FieldByName (t : Type_) (name : string) : option (list nat) :=
  match t with
  | TStruct fields =>
      if decide (name = "") then None
      else
        match lookup_name (map fst fields) name 0 with
        | Some i => Some [i]
        | None =>
            if existsb (fun fld => Anonymous (fst fld)) fields
            then Type_FieldByNameFunc fields (String.eqb name)
            else None
        end
  | _ => None
  end.

(** [v.Kind() == Pointer && v.typ().Elem().Kind() == Struct] *)
Definition pointer_to_struct (v : Value) : bool :=
  match v with
  | MkValue (VPtr (inl (VStruct _))) _ _ _ _ => true
  | MkValue (VPtr (inr (TStruct _))) _ _ _ _ => true
  | _ => false
  end.

(** The loop of [v.FieldByIndex(index)]: after the first step an embedded
    pointer to a struct is followed, and a nil one panics. *)
Fixpoint FieldByIndex_loop (m : value) (v : Value) (index : list nat) (first : bool)
  : result Value :=
  match index with
  | [] => Ok v
  | x :: index' =>
      if negb first && pointer_to_struct v then
        if Value_IsNil v
        then Panic "reflect: indirection through nil pointer to embedded struct"
        else FieldByIndex_loop m (Value_Field m (Value_Elem v) x) index' false
      else FieldByIndex_loop m (Value_Field m v x) index' false
  end.

(** [v.FieldByIndex(index)] *)
Definition Value_FieldByIndex (m : value) (v : Value) (index : list nat) : result Value :=
  match index with
  | [x] => Ok (Value_Field m v x)
  | _ =>
      if decide (Value_Kind v = Struct) then FieldByIndex_loop m v index true
      else Panic (ValueError "reflect.Value.FieldByIndex" (Value_Kind v))
  end.

(** [v.FieldByName(name)]: panics unless [v] is a struct; the zero Value
    when the name resolves to no field. *)
Definition Value_FieldByName (m : value) (v : Value) (name : string) : result Value :=
  if decide (Value_Kind v = Struct) then
    match Type_FieldByName (Value_Type v) name with
    | Some index => Value_FieldByIndex m v index
    | None => Ok ZeroValue
    end
  else Panic (ValueError "reflect.Value.FieldByName" (Value_Kind v)).

(** [v.CanSet()]: addressable and not read-only. *)
Definition Value_CanSet (v : Value) : bool :=
  match v with
  | ZeroValue => false
  | MkValue _ _ a sticky embed => a && negb (sticky || embed)
  end.

(** [v.String()] on a string. *)
Definition Value_String (v : Value) : string :=
  match v with
  | MkValue (VString s) _ _ _ _ => s
  | _ => ""
  end.

(** [v.SetString(x)] on a settable string: the data with [x] written at
    the place [v] refers to. *)
Definition Value_SetString (m : value) (v : Value) (x : string) : value :=
  match v with
  | MkValue _ p _ _ _ => store m p (VString x)
  | ZeroValue => m
  end.

End reflect.
(* ----------------------------------------------------------------- *)
(** ** Package encrypt: the cipher core (encrypt_func.go, lines 1-111) *)
(* ----------------------------------------------------------------- *)

Record Service : Type := {
  gcm : cipher.AEAD
}.

(** [NewService] (lines 25-37). *)
Definition NewService (key : list byte) : result Service :=
  match aes.NewCipher key with
  | Err err => Err err
  | Panic msg => Panic msg
  | Ok block =>
      match cipher.NewGCM block with
      | Err err => Err err
      | Panic msg => Panic msg
      | Ok gcm => Ok {| gcm := gcm |}
      end
  end.

(** [Encrypt] (lines 40-52). The random source is threaded through. *)
Definition Encrypt (s : Service) (plaintext : string) (r : rand.Reader)
  : result string * rand.Reader :=
  if decide (plaintext = "") then (Ok "", r)
  else
    match io.ReadFull r (cipher.NonceSize (gcm s)) with
    | (Ok nonce, r') =>
        (ciphertext <- cipher.Seal (gcm s) nonce nonce (bytes_of_string plaintext) [] ;;
         Ok (base64.EncodeToString ciphertext), r')
    | (_, r') => (Err ErrEncryptionFailed, r')
    end.

(** [Decrypt] (lines 55-77). *)
Definition Decrypt (s : Service) (ciphertext : string) : result string :=
  if decide (ciphertext = "") then Ok ""
  else
    match base64.DecodeString ciphertext with
    | Ok data =>
        let nonceSize := cipher.NonceSize (gcm s) in
        if decide (length data < nonceSize) then Err ErrInvalidData
        else
          let nonce := take nonceSize data in
          let encrypted := drop nonceSize data in
          match cipher.Open (gcm s) [] nonce encrypted [] with
          | Ok plaintext => Ok (string_of_bytes plaintext)
          | Err _ => Err ErrDecryptionFailed
          | Panic msg => Panic msg
          end
    | _ => Err ErrInvalidData
    end.

(** [EncryptBytes] (lines 80-91). *)
Definition EncryptBytes (s : Service) (plaintext : list byte) (r : rand.Reader)
  : result (list byte) * rand.Reader :=
  if decide (length plaintext = 0) then (Ok [], r)
  else
    match io.ReadFull r (cipher.NonceSize (gcm s)) with
    | (Ok nonce, r') => (cipher.Seal (gcm s) nonce nonce plaintext [], r')
    | (_, r') => (Err ErrEncryptionFailed, r')
    end.

(** [DecryptBytes] (lines 94-111). *)
Definition DecryptBytes (s : Service) (ciphertext : list byte) : result (list byte) :=
  if decide (length ciphertext = 0) then Ok []
  else
    let nonceSize := cipher.NonceSize (gcm s) in
    if decide (length ciphertext < nonceSize) then Err ErrInvalidData
    else
      let nonce := take nonceSize ciphertext in
      let encrypted := drop nonceSize ciphertext in
      match cipher.Open (gcm s) [] nonce encrypted [] with
      | Ok plaintext => Ok plaintext
      | Err _ => Err ErrDecryptionFailed
      | Panic msg => Panic msg
      end.

(* ----------------------------------------------------------------- *)
(** ** Package encrypt: the record transformers (lines 337-491)        *)
(* ----------------------------------------------------------------- *)

(** A call mutates the caller's data in place and consumes randomness, so
    each transformer maps the data [v] and the random source to the
    returned error, the data after the call and the rest of the source. *)
Definition effect : Type := result unit * value * rand.Reader.

(** A [for] loop whose body either falls through to the next iteration
    ([continue], or the end of the body), returns an error, or panics.
    After the last iteration the function returns nil. *)
Fixpoint for_range {A : Type} (xs : list A)
  (body : A -> value -> rand.Reader -> effect) (m : value) (r : rand.Reader) : effect :=
  match xs with
  | [] => (Ok tt, m, r)
  | x :: xs' =>
      match body x m r with
      | (Ok _, m', r') => for_range xs' body m' r'
      | stop => stop
      end
  end.

(** [EncryptStruct] (lines 344-383). *)
Definition EncryptStruct (s : Service) (v : value) (r : rand.Reader) : effect :=
  let val := reflect.ValueOf v in
  let val := if decide (reflect.Value_Kind val = reflect.Ptr)
             then reflect.Value_Elem val else val in
  if decide (reflect.Value_Kind val <> reflect.Struct) then (Ok tt, v, r)
  else
    let typ := reflect.Value_Type val in
    for_range (seq 0 (reflect.Value_NumField val))
      (fun i m r =>
         let field := reflect.Value_Field m val i in
         let typeField := reflect.Type_Field typ i in
         let tag := reflect.StructTag_Get (Tag typeField) "encrypt" in
         if decide (tag <> "true") then (Ok tt, m, r)
         else if bool_decide (reflect.Value_Kind field <> reflect.String)
                 || negb (reflect.Value_CanSet field) then (Ok tt, m, r)
         else
           let plaintext := reflect.Value_String field in
           if decide (plaintext = "") then (Ok tt, m, r)
           else
             match Encrypt s plaintext r with
             | (Ok encrypted, r') => (Ok tt, reflect.Value_SetString m field encrypted, r')
             | (Err err, r') => (Err err, m, r')
             | (Panic msg, r') => (Panic msg, m, r')
             end)
      v r.

(** [DecryptStruct] (lines 386-425). *)
Definition DecryptStruct (s : Service) (v : value) (r : rand.Reader) : effect :=
  let val := reflect.ValueOf v in
  let val := if decide (reflect.Value_Kind val = reflect.Ptr)
             then reflect.Value_Elem val else val in
  if decide (reflect.Value_Kind val <> reflect.Struct) then (Ok tt, v, r)
  else
    let typ := reflect.Value_Type val in
    for_range (seq 0 (reflect.Value_NumField val))
      (fun i m r =>
         let field := reflect.Value_Field m val i in
         let typeField := reflect.Type_Field typ i in
         let tag := reflect.StructTag_Get (Tag typeField) "encrypt" in
         if decide (tag <> "true") then (Ok tt, m, r)
         else if bool_decide (reflect.Value_Kind field <> reflect.String)
                 || negb (reflect.Value_CanSet field) then (Ok tt, m, r)
         else
           let ciphertext := reflect.Value_String field in
           if decide (ciphertext = "") then (Ok tt, m, r)
           else
             match Decrypt s ciphertext with
             | Ok decrypted => (Ok tt, reflect.Value_SetString m field decrypted, r)
             | Err err => (Err err, m, r)
             | Panic msg => (Panic msg, m, r)
             end)
      v r.

(** [EncryptFields] (lines 428-458). *)
Definition EncryptFields (s : Service) (v : value) (fieldNames : list string)
  (r : rand.Reader) : effect :=
  let val := reflect.ValueOf v in
  let val := if decide (reflect.Value_Kind val = reflect.Ptr)
             then reflect.Value_Elem val else val in
  for_range fieldNames
    (fun fieldName m r =>
       match reflect.Value_FieldByName m val fieldName with
       | Ok field =>
           if negb (reflect.Value_IsValid field) || negb (reflect.Value_CanSet field)
           then (Ok tt, m, r)
           else if decide (reflect.Value_Kind field <> reflect.String) then (Ok tt, m, r)
           else
             let plaintext := reflect.Value_String field in
             if decide (plaintext = "") then (Ok tt, m, r)
             else
               match Encrypt s plaintext r with
               | (Ok encrypted, r') => (Ok tt, reflect.Value_SetString m field encrypted, r')
               | (Err err, r') => (Err err, m, r')
               | (Panic msg, r') => (Panic msg, m, r')
               end
       | Err err => (Err err, m, r)
       | Panic msg => (Panic msg, m, r)
       end)
    v r.

(** [DecryptFields] (lines 461-491). *)
Definition DecryptFields (s : Service) (v : value) (fieldNames : list string)
  (r : rand.Reader) : effect :=
  let val := reflect.ValueOf v in
  let val := if decide (reflect.Value_Kind val = reflect.Ptr)
             then reflect.Value_Elem val else val in
  for_range fieldNames
    (fun fieldName m r =>
       match reflect.Value_FieldByName m val fieldName with
       | Ok field =>
           if negb (reflect.Value_IsValid field) || negb (reflect.Value_CanSet field)
           then (Ok tt, m, r)
           else if decide (reflect.Value_Kind field <> reflect.String) then (Ok tt, m, r)
           else
             let ciphertext := reflect.Value_String field in
             if decide (ciphertext = "") then (Ok tt, m, r)
             else
               match Decrypt s ciphertext with
               | Ok decrypted => (Ok tt, reflect.Value_SetString m field decrypted, r)
               | Err err => (Err err, m, r)
               | Panic msg => (Panic msg, m, r)
               end
       | Err err => (Err err, m, r)
       | Panic msg => (Panic msg, m, r)
       end)
    v r.

(* ----------------------------------------------------------------- *)
(** ** Contracts of the library interfaces                             *)
(* ----------------------------------------------------------------- *)

(** What GCM needs from a [cipher.Block]: 128-bit blocks, and [Encrypt]
    filling a whole block. *)
Definition Block_ok (b : cipher.Block) : Prop :=
  cipher.BlockSize b = 16 /\ forall x, length (cipher.Encrypt b x) = 16.

(** What the package relies on from a [cipher.AEAD]. With a nonce of the
    right size and a plaintext within the size limit, [Seal] appends to
    [dst] a message [Overhead] bytes longer than the plaintext, which
    [Open] under the same nonce gives back; [Seal] has no error result;
    [Open] with a nonce of the right size does not panic, and rejects
    every message shorter than [Overhead]. *)
Record AEAD_ok (a : cipher.AEAD) : Prop := {
  nonce_size_pos : 0 < cipher.NonceSize a;
  seal_open : forall dst nonce plaintext data,
    length nonce = cipher.NonceSize a ->
    (N.of_nat (length plaintext) <= cipher.gcmMaxPlaintext)%N ->
    exists sealed,
      cipher.Seal a dst nonce plaintext data = Ok (dst ++ sealed)
      /\ length sealed = length plaintext + cipher.Overhead a
      /\ cipher.Open a [] nonce sealed data = Ok plaintext;
  seal_large : forall dst nonce plaintext data,
    length nonce = cipher.NonceSize a ->
    (cipher.gcmMaxPlaintext < N.of_nat (length plaintext))%N ->
    exists msg, cipher.Seal a dst nonce plaintext data = Panic msg;
  open_no_panic : forall nonce ciphertext data msg,
    length nonce = cipher.NonceSize a ->
    cipher.Open a [] nonce ciphertext data <> Panic msg;
  open_short : forall nonce ciphertext data,
    length nonce = cipher.NonceSize a ->
    length ciphertext < cipher.Overhead a ->
    cipher.Open a [] nonce ciphertext data = Err cipher_errOpen
}.

(* ----------------------------------------------------------------- *)
(** ** The transformers, read as functions on the list of fields       *)
(* ----------------------------------------------------------------- *)

(** The four transformers are two loops, each written once for [Encrypt]
    and once for [Decrypt]. [cipher_op] is what the two directions have in
    common: a text operation that may consume randomness. *)
Definition cipher_op : Type := string -> rand.Reader -> result string * rand.Reader.

Definition encrypt_op (s : Service) : cipher_op := Encrypt s.
Definition decrypt_op (s : Service) : cipher_op := fun c r => (Decrypt s c, r).

(** The body of the loop of [EncryptStruct] / [DecryptStruct], and the
    function around it, with the text operation as a parameter. *)
Definition struct_body (op : cipher_op) (val : reflect.Value) (typ : reflect.Type_)
  (i : nat) (m : value) (r : rand.Reader) : effect :=
  let field := reflect.Value_Field m val i in
  let typeField := reflect.Type_Field typ i in
  let tag := reflect.StructTag_Get (Tag typeField) "encrypt" in
  if decide (tag <> "true") then (Ok tt, m, r)
  else if bool_decide (reflect.Value_Kind field <> reflect.String)
          || negb (reflect.Value_CanSet field) then (Ok tt, m, r)
  else
    let text := reflect.Value_String field in
    if decide (text = "") then (Ok tt, m, r)
    else
      match op text r with
      | (Ok text', r') => (Ok tt, reflect.Value_SetString m field text', r')
      | (Err err, r') => (Err err, m, r')
      | (Panic msg, r') => (Panic msg, m, r')
      end.

Definition transformStruct (op : cipher_op) (v : value) (r : rand.Reader) : effect :=
  let val := reflect.ValueOf v in
  let val := if decide (reflect.Value_Kind val = reflect.Ptr)
             then reflect.Value_Elem val else val in
  if decide (reflect.Value_Kind val <> reflect.Struct) then (Ok tt, v, r)
  else
    for_range (seq 0 (reflect.Value_NumField val))
              (struct_body op val (reflect.Value_Type val)) v r.

(** The same for [EncryptFields] / [DecryptFields]. *)
Definition fields_body (op : cipher_op) (val : reflect.Value)
  (fieldName : string) (m : value) (r : rand.Reader) : effect :=
  match reflect.Value_FieldByName m val fieldName with
  | Ok field =>
      if negb (reflect.Value_IsValid field) || negb (reflect.Value_CanSet field)
      then (Ok tt, m, r)
      else if decide (reflect.Value_Kind field <> reflect.String) then (Ok tt, m, r)
      else
        let text := reflect.Value_String field in
        if decide (text = "") then (Ok tt, m, r)
        else
          match op text r with
          | (Ok text', r') => (Ok tt, reflect.Value_SetString m field text', r')
          | (Err err, r') => (Err err, m, r')
          | (Panic msg, r') => (Panic msg, m, r')
          end
  | Err err => (Err err, m, r)
  | Panic msg => (Panic msg, m, r)
  end.

Definition transformFields (op : cipher_op) (v : value) (fieldNames : list string)
  (r : rand.Reader) : effect :=
  let val := reflect.ValueOf v in
  let val := if decide (reflect.Value_Kind val = reflect.Ptr)
             then reflect.Value_Elem val else val in
  for_range fieldNames (fields_body op val) v r.

(** A field as the loops see it. *)
Abbreviation field := (StructField * value)%type.

Definition exported (sf : StructField) : bool := bool_decide (PkgPath sf = "").

Definition tagged (sf : StructField) : bool :=
  bool_decide (reflect.StructTag_Get (Tag sf) "encrypt" = "true").

(** A field the text operation is applied to once it is selected: a
    settable, non-empty string. *)
Definition transformable (fld : field) : Prop :=
  exported (fst fld) = true /\ exists text, snd fld = VString text /\ text <> ""%string.

(** One settable field under the text operation: a non-empty string is
    replaced by the result, or the error is returned and the field kept;
    anything else is skipped. *)
Definition transform_field (op : cipher_op) (fld : field) (r : rand.Reader)
  : result unit * field * rand.Reader :=
  match fld with
  | (sf, VString text) =>
      if decide (text = "") then (Ok tt, fld, r)
      else
        match op text r with
        | (Ok text', r') => (Ok tt, (sf, VString text'), r')
        | (Err err, r') => (Err err, fld, r')
        | (Panic msg, r') => (Panic msg, fld, r')
        end
  | _ => (Ok tt, fld, r)
  end.

(** The tag-driven loop over the fields of an addressable struct. *)
Fixpoint tagged_fields (op : cipher_op) (fs : list field) (r : rand.Reader)
  : result unit * list field * rand.Reader :=
  match fs with
  | [] => (Ok tt, [], r)
  | fld :: rest =>
      if tagged (fst fld) && exported (fst fld) then
        match transform_field op fld r with
        | (Ok _, fld', r') =>
            let '(res, rest', r'') := tagged_fields op rest r' in
            (res, fld' :: rest', r'')
        | (stop, fld', r') => (stop, fld' :: rest, r')
        end
      else
        let '(res, rest', r') := tagged_fields op rest r in
        (res, fld :: rest', r')
  end.

(** The declared field a name stands for: the first one of that name; the
    empty name stands for none. *)
Definition declared_field (t : list StructField) (name : string) : option nat :=
  if decide (name = "") then None else reflect.lookup_name t name 0.

(** A struct type without embedded fields: a name then resolves to a
    declared field or to nothing. *)
Definition no_embedded (fs : list field) : Prop :=
  Forall (fun fld => Anonymous (fst fld) = false) fs.

(** The name-driven loop over the fields of an addressable struct without
    embedded fields. *)
Definition named_field (op : cipher_op) (fs : list field) (name : string)
  (r : rand.Reader) : result unit * list field * rand.Reader :=
  match declared_field (map fst fs) name with
  | Some i =>
      match fs !! i with
      | Some fld =>
          if exported (fst fld) then
            let '(res, fld', r') := transform_field op fld r in
            (res, <[i := fld']> fs, r')
          else (Ok tt, fs, r)
      | None => (Ok tt, fs, r)
      end
  | None => (Ok tt, fs, r)
  end.

Fixpoint named_fields (op : cipher_op) (fs : list field) (names : list string)
  (r : rand.Reader) : result unit * list field * rand.Reader :=
  match names with
  | [] => (Ok tt, fs, r)
  | name :: names' =>
      match named_field op fs name r with
      | (Ok _, fs', r') => named_fields op fs' names' r'
      | stop => stop
      end
  end.

(** The data a transformer can change: a struct, passed by pointer or by
    value. *)
Definition is_record (v : value) : Prop :=
  match v with
  | VStruct _ | VPtr (inl (VStruct _)) => True
  | _ => False
  end.

(* ----------------------------------------------------------------- *)
(** ** Notions the statements use                                      *)
(* ----------------------------------------------------------------- *)

(** A key of valid length: 16, 24 or 32 bytes. *)
Definition valid_key_length (key : list byte) : Prop :=
  length key = 16 \/ length key = 24 \/ length key = 32.

(** Text that is not even well-formed: not standard base64, or decoding to
    fewer bytes than one nonce. *)
Definition malformed (nonceSize : nat) (c : string) : Prop :=
  base64.DecodeString c = Err base64_CorruptInputError
  \/ exists data, base64.DecodeString c = Ok data /\ length data < nonceSize.

(** Text that is well-formed but does not pass the authenticated open. *)
Definition unauthentic (s : Service) (c : string) : Prop :=
  exists data e,
    base64.DecodeString c = Ok data
    /\ cipher.NonceSize (gcm s) <= length data
    /\ cipher.Open (gcm s) [] (take (cipher.NonceSize (gcm s)) data)
                   (drop (cipher.NonceSize (gcm s)) data) [] = Err e.

(** The same for a raw blob. *)
Definition unauthentic_bytes (s : Service) (c : list byte) : Prop :=
  exists e,
    cipher.NonceSize (gcm s) <= length c
    /\ cipher.Open (gcm s) [] (take (cipher.NonceSize (gcm s)) c)
                   (drop (cipher.NonceSize (gcm s)) c) [] = Err e.

(** A field the tag-driven transformers select: its [encrypt] tag is
    ["true"], it is exported (so settable through a pointer) and of string
    kind. *)
Definition tag_selected (fld : field) : Prop :=
  reflect.StructTag_Get (Tag (fst fld)) "encrypt" = "true"
  /\ PkgPath (fst fld) = ""
  /\ exists text, snd fld = VString text.

(** The Value a transformer starts from on a pointer to a struct with the
    fields [fs]: what [reflect.ValueOf(v).Elem()] gives. *)
Definition pointee (fs : list field) : reflect.Value :=
  reflect.MkValue (VStruct fs) [reflect.Deref] true false false.

(** A name the name-driven transformers skip on the fields [fs] of a
    struct passed by pointer: it resolves to no field, neither a declared
    one nor one promoted from an embedded struct, or it resolves to a field
    that is not settable or not of string kind. *)
Definition name_skipped (fs : list field) (name : string) : Prop :=
  match reflect.Type_FieldByName (reflect.TypeOf (VStruct fs)) name with
  | None => True
  | Some index =>
      match reflect.Value_FieldByIndex (VPtr (inl (VStruct fs))) (pointee fs) index with
      | Ok field =>
          reflect.Value_CanSet field = false
          \/ reflect.Value_Kind field <> reflect.String
      | _ => False
      end
  end.
(* ----------------------------------------------------------------- *)
(** ** The tag-driven transform as section 4.2 of the specification
       words it                                                        *)
(* ----------------------------------------------------------------- *)

(** "Traverses the record's members in declaration order. For each member:
    if the member is itself a nested composite, recurse into it before
    continuing; otherwise inspect the member's protection metadata ..."
    [settable] says whether the record was reached through a reference and
    through exported members only. *)
Fixpoint spec_transformTagged (op : cipher_op) (settable : bool) (x : value)
  (r : rand.Reader) {struct x} : result unit * value * rand.Reader :=
  match x with
  | VStruct fs =>
      let '(res, fs', r') :=
        (fix members (fs : list field) (r : rand.Reader)
           : result unit * list field * rand.Reader :=
           match fs with
           | [] => (Ok tt, [], r)
           | (sf, y) :: rest =>
               match y with
               | VStruct _ =>
                   match spec_transformTagged op (settable && exported sf) y r with
                   | (Ok _, y', r') =>
                       let '(res, rest', r'') := members rest r' in
                       (res, (sf, y') :: rest', r'')
                   | (stop, y', r') => (stop, (sf, y') :: rest, r')
                   end
               | _ =>
                   if tagged sf && (settable && exported sf) then
                     match transform_field op (sf, y) r with
                     | (Ok _, fld', r') =>
                         let '(res, rest', r'') := members rest r' in
                         (res, fld' :: rest', r'')
                     | (stop, fld', r') => (stop, fld' :: rest, r')
                     end
                   else
                     let '(res, rest', r') := members rest r in
                     (res, (sf, y) :: rest', r')
               end
           end) fs r in
      (res, VStruct fs', r')
  | _ => (Ok tt, x, r)
  end.

(** [EncryptRecord(ref)] of the specification: the traversal through a
    reference to a record. *)
Definition spec_EncryptRecord (s : Service) (v : value) (r : rand.Reader) : effect :=
  match v with
  | VPtr (inl x) =>
      let '(res, x', r') := spec_transformTagged (encrypt_op s) true x r in
      (res, VPtr (inl x'), r')
  | _ => (Ok tt, v, r)
  end.

(* ----------------------------------------------------------------- *)
(** ** Concrete data for the examples                                  *)
(* ----------------------------------------------------------------- *)

Definition key16 : list byte := bytes_of_string "0123456789abcdef".
Definition other_key16 : list byte := bytes_of_string "fedcba9876543210".

(** The Service [NewService key16] returns. *)
Definition block16 : cipher.Block :=
  {| cipher.BlockSize := aes.BlockSize;
     cipher.Encrypt := aes.encryptBlock (aes.expandKey key16) 10 |}.

Definition service16 : Service :=
  {| gcm := {| cipher.NonceSize := cipher.gcmStandardNonceSize;
               cipher.Overhead := cipher.gcmTagSize;
               cipher.Seal := cipher.gcm_Seal block16;
               cipher.Open := cipher.gcm_Open block16 |} |}.

(** Thirty-nine bytes of randomness: enough for three nonces. *)
Definition tape : rand.Reader :=
  bytes_of_string "nonce-number1nonce-number2nonce-number3".

(** Twelve bytes: enough for one nonce only. *)
Definition short_tape : rand.Reader := bytes_of_string "nonce-number".

Definition public (name : string) (tag : StructTag) : StructField :=
  {| Name := name; PkgPath := ""; Tag := tag; Anonymous := false |}.

Definition private (name : string) (tag : StructTag) : StructField :=
  {| Name := name; PkgPath := "main"; Tag := tag; Anonymous := false |}.

(** An embedded field of an exported type, and one of an unexported
    type. *)
Definition embedded (name : string) : StructField :=
  {| Name := name; PkgPath := ""; Tag := []; Anonymous := true |}.

Definition embedded_private (name : string) : StructField :=
  {| Name := name; PkgPath := "main"; Tag := []; Anonymous := true |}.

Definition encrypt_true : StructTag := [("json", "email"); ("encrypt", "true")].

(** [type User struct { Name string; Email string `encrypt:"true"`;
    Phone string `encrypt:"true"`; Age int `encrypt:"true"`;
    secret string `encrypt:"true"` }] *)
Definition user_fields : list field :=
  [ (public "Name" [], VString "Alice");
    (public "Email" encrypt_true, VString "a@b.com");
    (public "Phone" [("encrypt", "true")], VString "+123");
    (public "Age" [("encrypt", "true")], VInt 33);
    (private "secret" [("encrypt", "true")], VString "hidden") ].

Definition user : value := VStruct user_fields.

(** A record with the tagged field one level down, and one with it two
    levels down. *)
Definition contact : value :=
  VStruct [ (public "Email" encrypt_true, VString "a@b.com") ].

Definition nested1 : value := VStruct [ (public "Contact" [], contact) ].

Definition nested2 : value := VStruct [ (public "Profile" [], nested1) ].

(** The nested record held through a pointer field. *)
Definition nested_ptr : value := VStruct [ (public "Contact" [], VPtr (inl contact)) ].

(** The ciphertext of "a@b.com" under [key16] with the first twelve bytes
    of [tape] as the nonce. *)
Definition email_sealed : string := "bm9uY2UtbnVtYmVy5H+ATDmoXLl2FcGy+WAh6IpzRM4eCNY=".

(** A stored [User] whose [Phone] column holds text that was never
    encrypted. *)
Definition stored_user : value :=
  VStruct [ (public "Name" [], VString "Alice");
            (public "Email" encrypt_true, VString email_sealed);
            (public "Phone" [("encrypt", "true")], VString "garbage!");
            (public "Age" [("encrypt", "true")], VInt 33) ].


(** [type Contact struct { Email string `encrypt:"true"` }] embedded in
    [type Wrapper struct { Contact; Note string }]: [Email] is promoted to
    [Wrapper]. *)
Definition wrapper : value :=
  VStruct [ (embedded "Contact", contact); (public "Note" [], VString "n") ].

Definition wrapper_sealed : value :=
  VStruct [ (embedded "Contact",
             VStruct [ (public "Email" encrypt_true, VString email_sealed) ]);
            (public "Note" [], VString "n") ].

(** [type WrapperPtr struct { *Contact; Note string }], with the embedded
    pointer set and with it nil. *)
Definition wrapper_ptr : value :=
  VStruct [ (embedded "Contact", VPtr (inl contact)); (public "Note" [], VString "n") ].

Definition wrapper_nil : value :=
  VStruct [ (embedded "Contact", VPtr (inr (reflect.TypeOf contact)));
            (public "Note" [], VString "n") ].

(** A nil [*User]. *)
Definition nil_user : value := VPtr (inr (reflect.TypeOf user)).
(* ----------------------------------------------------------------- *)
(** ** Helpers for the known-answer tests                              *)
(* ----------------------------------------------------------------- *)

Definition hex_digit (c : ascii) : N :=
  let n := N_of_ascii c in
  if (n <? 58)%N then (n - 48)%N else (n - 87)%N.

(** The bytes a lower-case hexadecimal string denotes. *)
Fixpoint unhex (s : string) : list byte :=
  match s with
  | String a (String b r) => byte_of_N (hex_digit a * 16 + hex_digit b) :: unhex r
  | _ => []
  end.

Definition aes_encrypt (key src : string) : result (list byte) :=
  blk <- aes.NewCipher (unhex key) ;; Ok (cipher.Encrypt blk (unhex src)).

Definition gcm_seal (key nonce plaintext : string) : result (list byte) :=
  blk <- aes.NewCipher (unhex key) ;;
  aead <- cipher.NewGCM blk ;;
  cipher.Seal aead [] (unhex nonce) (unhex plaintext) [].

(* ----------------------------------------------------------------- *)
(** ** Package encrypt: what a run over a record draws                 *)
(* ----------------------------------------------------------------- *)

(** A field that [EncryptStruct] hands to [Encrypt] when the struct is
    passed by pointer: tagged, exported, and holding a non-empty string. *)
Definition encrypts (fld : field) : bool :=
  tagged (fst fld) && exported (fst fld)
  && match snd fld with
     | VString text => negb (String.eqb text "")
     | _ => false
     end.

(** The number of nonces a complete run of [EncryptStruct] draws. *)
Definition nonces_drawn (fs : list field) : nat := length (List.filter encrypts fs).

(** A field whose text, if it holds one, is within the size GCM seals. *)
Definition sealable (fld : field) : bool :=
  match snd fld with
  | VString text => (N.of_nat (length (bytes_of_string text)) <=? cipher.gcmMaxPlaintext)%N
  | _ => true
  end.

(** Two blobs that differ at most in their last sixteen bytes, the
    authentication tag. *)
Definition same_but_tag (c c' : list byte) : Prop :=
  length c' = length c /\ take (length c - 16) c' = take (length c - 16) c.

(** A text with its carriage returns and line feeds removed. *)
Definition without_newlines (c : string) : list byte :=
  List.filter (fun b => negb (base64.is_newline b)) (bytes_of_string c).

(** [User] after [EncryptStruct] with the nonces of [tape]: [Email] and
    [Phone] are sealed. *)
Definition phone_sealed : string := "MW5vbmNlLW51bWJl0ipAPJySy1RHkzqNo4+oplJK/YA=".

Definition sealed_user : value :=
  VStruct [ (public "Name" [], VString "Alice");
            (public "Email" encrypt_true, VString email_sealed);
            (public "Phone" [("encrypt", "true")], VString phone_sealed);
            (public "Age" [("encrypt", "true")], VInt 33);
            (private "secret" [("encrypt", "true")], VString "hidden") ].

(** [User] after [EncryptFields] with ["Phone"; "Email"; "Phone"]: [Phone]
    is sealed twice. *)
Definition resealed_user : value :=
  VStruct [ (public "Name" [], VString "Alice");
            (public "Email" encrypt_true,
             VString "MW5vbmNlLW51bWJlmFsQISRrkHUZcupXsY962hGHKd6UwOg=");
            (public "Phone" [("encrypt", "true")],
             VString "cjJub25jZS1udW1ifww6KzNOXMg+lDsmYNGoFhR6r+Fj2KUi6S48pj94hxjE7TpEgJiR9xv4KMRmRcQlBc1rkVcatwiwXHK0");
            (public "Age" [("encrypt", "true")], VInt 33);
            (private "secret" [("encrypt", "true")], VString "hidden") ].

(** A sealed blob, and the same blob with the last byte of its tag changed. *)
Definition blob : list byte :=
  unhex "6e6f6e63652d6e756d626572e47f804c39a85cb97615c1b2f96021e88a7344ce1e08d6".

Definition forged_blob : list byte :=
  unhex "6e6f6e63652d6e756d626572e47f804c39a85cb97615c1b2f96021e88a7344ce1e08d7".


(* ----------------------------------------------------------------- *)
(** ** Notions about names promoted from embedded structs              *)
(* ----------------------------------------------------------------- *)

(** What an index sequence found in the struct type [root] looks like: one
    index, of a declared field that matches, or more than one, the first
    of an embedded field. *)
Definition found_in_root (root : structType) (match_ : string -> bool) (idx : list nat)
  : Prop :=
  exists i rest f u,
    idx = i :: rest /\ root !! i = Some (f, u)
    /\ (rest = [] -> match_ (Name f) = true)
    /\ (rest <> [] -> Anonymous f = true).

(** The same for the entries of the work queue. *)
Definition scan_in_root (root : structType) (sc : reflect.fieldScan) : Prop :=
  (reflect.index sc = [] /\ reflect.typ sc = root)
  \/ exists i rest f u,
       reflect.index sc = i :: rest /\ root !! i = Some (f, u) /\ Anonymous f = true.

Definition search_in_root (root : structType) (match_ : string -> bool)
  (st : reflect.search) : Prop :=
  (forall idx, reflect.found st = Some idx -> found_in_root root match_ idx)
  /\ Forall (scan_in_root root) (reflect.next st).

(** Every type waiting in the queue is nested at most [d] deep. *)
Definition scans_below (d : nat) (scans : list reflect.fieldScan) : Prop :=
  Forall (fun sc => reflect.depth (TStruct (reflect.typ sc)) <= d) scans.

(** The place a Value refers to. *)
Definition ptr_of (v : reflect.Value) : reflect.path :=
  match v with
  | reflect.MkValue _ p _ _ _ => p
  | reflect.ZeroValue => []
  end.

(** The panic of [FieldByIndex] on a nil embedded pointer. *)
Definition nil_embedded : string :=
  "reflect: indirection through nil pointer to embedded struct".

(** A value whose struct, if it is one or points to one, has no embedded
    field. *)
Definition plain (v : value) : Prop :=
  match v with
  | VStruct fs | VPtr (inl (VStruct fs)) => no_embedded fs
  | _ => True
  end.

(** The Value the four transformers start from: [reflect.ValueOf(v)],
    after [Elem] when that is a pointer. *)
Definition start_of (v : value) : reflect.Value :=
  let val := reflect.ValueOf v in
  if decide (reflect.Value_Kind val = reflect.Ptr) then reflect.Value_Elem val else val.

(** The data with every string blanked: resolving a name looks at
    nothing else. *)
Fixpoint shape (x : value) : value :=
  match x with
  | VString _ => VString ""
  | VPtr (inl t) => VPtr (inl (shape t))
  | VStruct fs => VStruct (map (fun '(sf, y) => (sf, shape y)) fs)
  | _ => x
  end.

(** Two Values that refer to the same place with the same flags and hold
    data of the same shape. *)
Definition Vsame (f f' : reflect.Value) : Prop :=
  match f, f' with
  | reflect.ZeroValue, reflect.ZeroValue => True
  | reflect.MkValue x q a s e, reflect.MkValue x' q' a' s' e' =>
      shape x = shape x' /\ q = q' /\ a = a' /\ s = s' /\ e = e'
  | _, _ => False
  end.

(** The place a name leads the name-driven loop to: the field the name
    resolves to, if it is settable and of string kind. *)
Definition target (val : reflect.Value) (name : string) (m : value)
  : result (option reflect.path) :=
  match reflect.Value_FieldByName m val name with
  | Ok field =>
      if negb (reflect.Value_IsValid field) || negb (reflect.Value_CanSet field)
      then Ok None
      else if decide (reflect.Value_Kind field <> reflect.String) then Ok None
      else Ok (Some (ptr_of field))
  | Err e => Err e
  | Panic msg => Panic msg
  end.

(** The text operation applied to the string at a place. *)
Definition cell_step (op : cipher_op) (t : result (option reflect.path)) (m : value)
  (r : rand.Reader) : effect :=
  match t with
  | Ok (Some q) =>
      match reflect.load m q with
      | Some (VString text) =>
          if decide (text = "") then (Ok tt, m, r)
          else
            match op text r with
            | (Ok text', r') => (Ok tt, reflect.store m q (VString text'), r')
            | (Err err, r') => (Err err, m, r')
            | (Panic msg, r') => (Panic msg, m, r')
            end
      | _ => (Ok tt, m, r)
      end
  | Ok None => (Ok tt, m, r)
  | Err e => (Err e, m, r)
  | Panic msg => (Panic msg, m, r)
  end.

#[global] Instance step_eq_dec : EqDecision reflect.step.
Proof. solve_decision. Defined.
(* ----------------------------------------------------------------- *)
(** ** Package astrortsp: the bounding box (extract_box_rectangle.go)  *)
(* ----------------------------------------------------------------- *)

Module astrortsp.

(** Go's [int], 64 bits wide on the platforms the module is built for: an
    integer between [minInt] and [maxInt], with arithmetic that wraps
    around. *)
Definition minInt : Z := - 2 ^ 63.
Definition maxInt : Z := 2 ^ 63 - 1.

Definition is_int (z : Z) : Prop := (minInt <= z <= maxInt)%Z.

Definition wrap (z : Z) : Z := ((z + 2 ^ 63) mod 2 ^ 64 - 2 ^ 63)%Z.

(** [a - b] on [int]. *)
Definition sub (a b : Z) : Z := wrap (a - b).

(** [type Point struct { X, Y int }] (lines 3-5). *)
Module Point.
Record t : Type := { X : Z; Y : Z }.
End Point.

(** [type Rectangle struct { X, Y, Width, Height int }] (lines 7-9). *)
Module Rectangle.
Record t : Type := { X : Z; Y : Z; Width : Z; Height : Z }.
End Rectangle.

(** The body of the loop of [ExtractBoundingBox] (lines 21-34): the
    running minima and maxima after one more point. *)
Definition widen (acc : Z * Z * Z * Z) (p : Point.t) : Z * Z * Z * Z :=
  let '(minX, maxX, minY, maxY) := acc in
  let minX := if (Point.X p <? minX)%Z then Point.X p else minX in
  let maxX := if (Point.X p >? maxX)%Z then Point.X p else maxX in
  let minY := if (Point.Y p <? minY)%Z then Point.Y p else minY in
  let maxY := if (Point.Y p >? maxY)%Z then Point.Y p else maxY in
  (minX, maxX, minY, maxY).

(** [ExtractBoundingBox] (lines 11-42). *)
Definition ExtractBoundingBox (p1 p2 p3 p4 : Point.t) : Rectangle.t :=
  let points := [p1; p2; p3; p4] in
  let '(minX, maxX, minY, maxY) :=
    fold_left widen (drop 1 points) (Point.X p1, Point.X p1, Point.Y p1, Point.Y p1) in
  {| Rectangle.X := minX;
     Rectangle.Y := minY;
     Rectangle.Width := sub maxX minX;
     Rectangle.Height := sub maxY minY |}.

(** Points whose coordinates are [int]s. *)
Definition valid_point (p : Point.t) : Prop := is_int (Point.X p) /\ is_int (Point.Y p).

End astrortsp.

(** The corners of a skewed quadrilateral, and two points at the two ends
    of the [int] range. *)
Definition point (x y : Z) : astrortsp.Point.t :=
  {| astrortsp.Point.X := x; astrortsp.Point.Y := y |}.

Definition corner1 : astrortsp.Point.t := point 10 20.
Definition corner2 : astrortsp.Point.t := point 30 5.
Definition corner3 : astrortsp.Point.t := point 15 40.
Definition corner4 : astrortsp.Point.t := point 25 25.

Definition far_left : astrortsp.Point.t := point astrortsp.minInt 0.
Definition far_right : astrortsp.Point.t := point astrortsp.maxInt 0.

(* ----------------------------------------------------------------- *)
(** ** strings                                                         *)
(* ----------------------------------------------------------------- *)

Module strings.

(** The text before and after the first occurrence of the byte [sep]
    ([Index] followed by the two slicings of [genSplit]). *)
Fixpoint cut (s : string) (sep : ascii) : option (string * string) :=
  match s with
  | EmptyString => None
  | String c rest =>
      if Ascii.eqb c sep then Some (EmptyString, rest)
      else
        match cut rest sep with
        | Some (before, after) => Some (String c before, after)
        | None => None
        end
  end.

(** [genSplit(s, sep, 0, n)] for [n > 0]: at most [n] pieces, the last one
    being the unsplit remainder. The package calls it with one-byte
    separators only (["/"] and [","]), so the separator is a byte here. *)
Fixpoint genSplit (s : string) (sep : ascii) (n : nat) : list string :=
  match n with
  | 0 => []
  | 1 => [s]
  | S n' =>
      match cut s sep with
      | Some (before, after) => before :: genSplit after sep n'
      | None => [s]
      end
  end.

Definition SplitN (s : string) (sep : ascii) (n : nat) : list string := genSplit s sep n.

(** [Split(s, sep)] is [genSplit] with [n = Count(s, sep) + 1]; any bound
    above the number of separators gives the same pieces. *)
Definition Split (s : string) (sep : ascii) : list string :=
  genSplit s sep (String.length s + 1).

(** [HasSuffix] and [TrimSuffix]. *)
Definition HasSuffix (s suffix : string) : bool :=
  (String.length suffix <=? String.length s)%nat
  && String.eqb (substring (String.length s - String.length suffix)
                           (String.length suffix) s) suffix.

Definition TrimSuffix (s suffix : string) : string :=
  if HasSuffix s suffix
  then substring 0 (String.length s - String.length suffix) s
  else s.

(** [unicode.IsSpace], on the UTF-8 bytes: the encodings of the white
    space characters, which are the ASCII ones (tab, LF, VT, FF, CR,
    space), U+0085, U+00A0, U+1680, U+2000 to U+200A, U+2028, U+2029,
    U+202F, U+205F and U+3000. A byte sequence starts (ends) with a white
    space character exactly when it starts (ends) with one of these: the
    decoder accepts no other encoding of them, and gives U+FFFD, which is
    not white space, for a malformed sequence. *)
Definition White_Space : list (list byte) :=
  map unhex
    [ "09"; "0a"; "0b"; "0c"; "0d"; "20"; "c285"; "c2a0"; "e19a80";
      "e28080"; "e28081"; "e28082"; "e28083"; "e28084"; "e28085"; "e28086";
      "e28087"; "e28088"; "e28089"; "e2808a"; "e280a8"; "e280a9"; "e280af";
      "e2819f"; "e38080" ]%string.

Fixpoint starts_with (prefix s : list byte) : bool :=
  match prefix, s with
  | [], _ => true
  | p :: prefix', c :: s' => Byte.eqb p c && starts_with prefix' s'
  | _ :: _, [] => false
  end.

(** The width of the white space character [s] starts with, if any; and
    the same for the end of a sequence given in reverse. *)
Definition space_width (s : list byte) : option nat :=
  option_map (@length byte) (List.find (fun w => starts_with w s) White_Space).

Definition space_width_rev (s : list byte) : option nat :=
  option_map (@length byte) (List.find (fun w => starts_with (rev w) s) White_Space).

(** Dropping white space characters from the front, with a given
    recogniser; the fuel is the length, which is never exhausted. *)
Fixpoint trim (width : list byte -> option nat) (fuel : nat) (s : list byte) : list byte :=
  match fuel with
  | 0 => s
  | S fuel' =>
      match width s with
      | Some w => trim width fuel' (drop w s)
      | None => s
      end
  end.

Definition TrimLeft (s : list byte) : list byte := trim space_width (length s) s.

Definition TrimRight (s : list byte) : list byte :=
  rev (trim space_width_rev (length s) (rev s)).

(** [TrimSpace]: leading and trailing white space removed. *)
Definition TrimSpace (s : string) : string :=
  string_of_bytes (TrimRight (TrimLeft (bytes_of_string s))).

End strings.

(* ----------------------------------------------------------------- *)
(** ** Package astrolog: the caller field (logger.go, lines 89-101)    *)
(* ----------------------------------------------------------------- *)

Module astrolog.

(** [stripCallerPath] (lines 91-101). [parts] is never empty, so the index
    [len(parts)-1] is always in range. *)
Definition stripCallerPath (file : string) : string :=
  if decide (file = "") then file
  else
    let parts := strings.Split file "/" in
    let base := List.last parts EmptyString in
    let base := strings.TrimSuffix base ".go" in
    base.

End astrolog.

(** A text in which the byte [c] does not occur. *)
Fixpoint free_of (c : ascii) (s : string) : bool :=
  match s with
  | EmptyString => true
  | String x rest => negb (Ascii.eqb x c) && free_of c rest
  end.

(* ----------------------------------------------------------------- *)
(** ** strconv                                                         *)
(* ----------------------------------------------------------------- *)

Module strconv.

(** The two causes a [*NumError] carries. *)
Inductive NumError : Type :=
| ErrSyntax
| ErrRange.

Definition maxUint64 : N := 2 ^ 64 - 1.

(** The loop of [ParseUint(s, 10, 64)]: a byte that is not a decimal digit
    is a syntax error; a digit that would take the value past [maxUint64]
    is a range error, found before the bytes after it are looked at. *)
Fixpoint ParseUint_loop (s : list byte) (n : N) : N + NumError :=
  match s with
  | [] => inl n
  | c :: rest =>
      if (48 <=? u8 c)%N && (u8 c <=? 57)%N then
        let d := (u8 c - 48)%N in
        if (maxUint64 / 10 + 1 <=? n)%N then inr ErrRange
        else
          let n := (n * 10)%N in
          let n1 := ((n + d) mod 2 ^ 64)%N in
          if (n1 <? n)%N || (maxUint64 <? n1)%N then inr ErrRange
          else ParseUint_loop rest n1
      else inr ErrSyntax
  end.

Definition ParseUint (s : list byte) : N + NumError :=
  match s with
  | [] => inr ErrSyntax
  | _ => ParseUint_loop s 0
  end.

(** [ParseInt(s, 10, 64)]: an optional sign, then [ParseUint]; the
    magnitude must fit in 63 bits, or be 2^63 after a minus sign. *)
Definition ParseInt (s : string) : Z + NumError :=
  match bytes_of_string s with
  | [] => inr ErrSyntax
  | c :: rest =>
      let neg := Byte.eqb c "-" in
      let digits := if Byte.eqb c "+" || neg then rest else c :: rest in
      match ParseUint digits with
      | inr ErrSyntax => inr ErrSyntax
      | inr ErrRange => inr ErrRange
      | inl un =>
          let cutoff := (2 ^ 63)%N in
          if negb neg && (cutoff <=? un)%N then inr ErrRange
          else if neg && (cutoff <? un)%N then inr ErrRange
          else inl (if neg then - Z.of_N un else Z.of_N un)%Z
      end
  end.

(** [ParseBool]: twelve spellings are accepted. *)
Definition ParseBool (str : string) : option bool :=
  if bool_decide (str ∈ ["1"; "t"; "T"; "TRUE"; "true"; "True"]%string) then Some true
  else if bool_decide (str ∈ ["0"; "f"; "F"; "FALSE"; "false"; "False"]%string) then Some false
  else None.

End strconv.

(* ----------------------------------------------------------------- *)
(** ** os and godotenv: the process environment                        *)
(* ----------------------------------------------------------------- *)

Module os.

(** The environment of the process: the variables that are set, each with
    its value. *)
Definition Environ : Type := gmap string string.

(** [Getenv(key)]: the value, empty when the variable is not set. *)
Definition Getenv (env : Environ) (key : string) : string :=
  default EmptyString (env !! key).

(** [Setenv(key, value)] fails, and sets nothing, for an empty key and for
    a key with ['='] or a NUL byte or a value with a NUL byte. *)
Definition settable (key value : string) : bool :=
  negb (String.eqb key "") && free_of "=" key && free_of "000" key && free_of "000" value.

Definition Setenv (env : Environ) (key value : string) : Environ :=
  if settable key value then <[key := value]> env else env.

End os.

Module godotenv.

(** [Load()], given what [.env] holds ([None] when the file cannot be read
    or parsed, which is the error case): every variable of the file that
    is not set in the environment yet is set, ignoring the error of
    [Setenv]; variables that are set, even to the empty string, are
    kept. *)
Definition Load (dotenv : option (gmap string string)) (env : os.Environ)
  : option os.Environ :=
  match dotenv with
  | None => None
  | Some envMap =>
      Some (map_fold (fun key value acc =>
                        match env !! key with
                        | Some _ => acc
                        | None => os.Setenv acc key value
                        end) env envMap)
  end.

End godotenv.

(* ----------------------------------------------------------------- *)
(** ** Package astroenv: loading a configuration struct                *)
(* ----------------------------------------------------------------- *)

Module astroenv.

(** [reflect.Kind]. *)
Inductive Kind : Type :=
| Invalid | Bool | Int | Int8 | Int16 | Int32 | Int64
| Uint | Uint8 | Uint16 | Uint32 | Uint64 | Uintptr
| Float32 | Float64 | Complex64 | Complex128
| Array | Chan | Func | Interface | Map | Pointer | Slice
| String | Struct | UnsafePointer.

(** The kinds [setField] converts to, and those it has no case for. *)
Inductive IntKind : Type := KInt | KInt8 | KInt16 | KInt32 | KInt64.

Inductive FloatKind : Type := KFloat32 | KFloat64.

Inductive OtherKind : Type :=
| KUint | KUint8 | KUint16 | KUint32 | KUint64 | KUintptr
| KComplex64 | KComplex128
| KArray | KChan | KFunc | KInterface | KMap | KPointer | KSlice | KUnsafePointer.

(** The values of the fields of a configuration struct. An integer is kept
    with its kind, a float as its bit pattern; of a value of a kind
    [setField] does not support only the kind matters. [int] is taken as
    64 bits wide, as on a 64-bit platform. *)
Inductive value : Type :=
| VBool (b : bool)
| VInt (k : IntKind) (n : Z)
| VFloat (k : FloatKind) (bits : N)
| VString (s : string)
| VStruct (fields : list (StructField * value))
| VOther (k : OtherKind).

Definition kind_of_int (k : IntKind) : Kind :=
  match k with
  | KInt => Int | KInt8 => Int8 | KInt16 => Int16 | KInt32 => Int32 | KInt64 => Int64
  end.

Definition kind_of_float (k : FloatKind) : Kind :=
  match k with KFloat32 => Float32 | KFloat64 => Float64 end.

Definition kind_of_other (k : OtherKind) : Kind :=
  match k with
  | KUint => Uint | KUint8 => Uint8 | KUint16 => Uint16 | KUint32 => Uint32
  | KUint64 => Uint64 | KUintptr => Uintptr
  | KComplex64 => Complex64 | KComplex128 => Complex128
  | KArray => Array | KChan => Chan | KFunc => Func | KInterface => Interface
  | KMap => Map | KPointer => Pointer | KSlice => Slice
  | KUnsafePointer => UnsafePointer
  end.

(** [v.Kind()] *)
Definition Value_Kind (v : value) : Kind :=
  match v with
  | VBool _ => Bool
  | VInt k _ => kind_of_int k
  | VFloat k _ => kind_of_float k
  | VString _ => String
  | VStruct _ => Struct
  | VOther k => kind_of_other k
  end.

(** The width of an integer kind ([int] has 64 bits), and a 64-bit integer
    converted to it: the low bits, read as a signed number. *)
Definition bits (k : IntKind) : Z :=
  match k with
  | KInt8 => 8 | KInt16 => 16 | KInt32 => 32 | KInt | KInt64 => 64
  end.

Definition convert (k : IntKind) (n : Z) : Z :=
  ((n + 2 ^ (bits k - 1)) mod 2 ^ bits k - 2 ^ (bits k - 1))%Z.

(** The errors of the package, with the data their messages print. *)
Inductive error : Type :=
| CouldNotLoadDotenv
    (* Warning: Could not load .env file: ... *)
| ExpectedStructPointer
    (* LoadEnv: expected a pointer to a struct, got ... *)
| MissingRequired (key fieldName : string)
    (* missing required env variable "key" (for field "fieldName") *)
| CannotParseInt (fieldName rawVal : string) (err : strconv.NumError)
    (* field "fieldName": cannot parse "rawVal" as int: ... *)
| CannotParseBool (fieldName rawVal : string)
    (* field "fieldName": cannot parse "rawVal" as bool (use true/false/1/0): ... *)
| CannotParseFloat (fieldName rawVal : string)
    (* field "fieldName": cannot parse "rawVal" as float: ... *)
| UnsupportedType (fieldName : string) (k : Kind).
    (* field "fieldName": unsupported type k *)

(** What a call does: return a value with a nil error, return a non-nil
    error, or panic. *)
Inductive outcome (A : Type) : Type :=
| Returns (a : A)
| Fails (e : error)
| Panics (msg : string).

Arguments Returns {A} a.
Arguments Fails {A} e.
Arguments Panics {A} msg.

(** [parseTag] (lines 79-88). *)
Definition parseTag (tag : string) : string * string * bool :=
  let parts := strings.SplitN tag "," 2 in
  let key := strings.TrimSpace (nth 0 parts EmptyString) in
  if decide (length parts = 2) then
    (key, strings.TrimSpace (nth 1 parts EmptyString), true)
  else (key, EmptyString, false).

(** [resolveValue] (lines 91-101). *)
Definition resolveValue (env : os.Environ) (key defaultVal : string) (hasDefault : bool)
  (fieldName : string) : outcome string :=
  let val := os.Getenv env key in
  if decide (val <> EmptyString) then Returns val
  else if hasDefault then Returns defaultVal
  else Fails (MissingRequired key fieldName).

Section Loader.

(** [strconv.ParseFloat(s, 64)], giving the bit pattern of the float or
    [None] for an error, and the conversion [float32(f)]; the loader is
    modelled for any two such functions. *)
Variable ParseFloat : string -> option N.
Variable float32 : N -> N.

(** The setters of package reflect panic on a read-only value ([ro]): an
    unexported field, or one reached through an unexported field that is
    not embedded; the struct itself is addressable, it is reached through
    the pointer the caller passes. *)
Definition set (ro : bool) (method : string) (v : value) : outcome value :=
  if ro then
    Panics ("reflect: reflect.Value." +:+ method
            +:+ " using value obtained using unexported field")
  else Returns v.

(** [setField] (lines 104-136), returning the field's new value. *)
Definition setField (ro : bool) (field : value) (fieldName rawVal : string)
  : outcome value :=
  match field with
  | VString _ => set ro "SetString" (VString rawVal)
  | VInt k _ =>
      match strconv.ParseInt rawVal with
      | inr err => Fails (CannotParseInt fieldName rawVal err)
      | inl n => set ro "SetInt" (VInt k (convert k n))
      end
  | VBool _ =>
      match strconv.ParseBool rawVal with
      | None => Fails (CannotParseBool fieldName rawVal)
      | Some b => set ro "SetBool" (VBool b)
      end
  | VFloat k _ =>
      match ParseFloat rawVal with
      | None => Fails (CannotParseFloat fieldName rawVal)
      | Some f =>
          set ro "SetFloat"
              (VFloat k (match k with KFloat32 => float32 f | KFloat64 => f end))
      end
  | _ => Fails (UnsupportedType fieldName (Value_Kind field))
  end.

(** One field that is not a struct (lines 54-71): skipped without an [env]
    tag, otherwise resolved and set. *)
Definition parseField (env : os.Environ) (ro : bool) (fieldType : StructField)
  (field : value) : outcome value :=
  let tag := reflect.StructTag_Get (Tag fieldType) "env" in
  if decide (tag = EmptyString) then Returns field
  else
    let '(key, defaultVal, hasDefault) := parseTag tag in
    match resolveValue env key defaultVal hasDefault (Name fieldType) with
    | Returns rawVal => setField ro field (Name fieldType) rawVal
    | Fails err => Fails err
    | Panics msg => Panics msg
    end.

(** The loop of [parseStruct] (lines 42-72) over the fields from some
    index on, given what [parseStruct] does on a nested struct. It returns
    the fields as the loop leaves them: on an error or a panic the fields
    already set keep their new values. [ro] is the struct's
    [flagStickyRO]: [v.Field(i)] hands it on, and sets it for an
    unexported field that is not embedded; an unexported embedded field is
    read-only itself ([flagEmbedRO]) without making its own fields so. *)
Definition parseFields (env : os.Environ)
  (parseStruct : bool -> value -> outcome unit * value)
  : bool -> list (StructField * value) -> outcome unit * list (StructField * value) :=
  fix loop (ro : bool) (fields : list (StructField * value)) :=
    match fields with
    | [] => (Returns tt, [])
    | (fieldType, field) :: rest =>
        let unexported := negb (exported fieldType) in
        match field with
        | VStruct _ =>
            match parseStruct (ro || (unexported && negb (Anonymous fieldType))) field with
            | (Returns _, field') =>
                let '(res, rest') := loop ro rest in
                (res, (fieldType, field') :: rest')
            | (stop, field') => (stop, (fieldType, field') :: rest)
            end
        | _ =>
            match parseField env (ro || unexported) fieldType field with
            | Returns field' =>
                let '(res, rest') := loop ro rest in
                (res, (fieldType, field') :: rest')
            | Fails err => (Fails err, fields)
            | Panics msg => (Panics msg, fields)
            end
        end
    end.

(** [parseStruct] (lines 39-75), on a struct; [v.Type().NumField()] panics
    on anything else, which no call in the package reaches (the message
    here leaves out the name of the type). *)
Fixpoint parseStruct (env : os.Environ) (ro : bool) (v : value) {struct v}
  : outcome unit * value :=
  match v with
  | VStruct fields =>
      let '(res, fields') := parseFields env (parseStruct env) ro fields in
      (res, VStruct fields')
  | _ => (Panics "reflect: NumField of non-struct type", v)
  end.

(** What the caller passes as [cfg interface{}]: nil, a pointer (nil or to
    a value), or a value that is not a pointer. *)
Inductive config : Type :=
| Nil
| Ptr (target : option value)
| NotPtr (v : value).

(** [LoadEnvVarible] (lines 22-35): the error, the data behind [cfg] and
    the environment after the call. The value behind the pointer is
    parsed only if it is a struct. *)
Definition LoadEnvVarible (dotenv : option (gmap string string)) (env : os.Environ)
  (cfg : config) : outcome unit * config * os.Environ :=
  match godotenv.Load dotenv env with
  | None => (Fails CouldNotLoadDotenv, cfg, env)
  | Some env =>
      match cfg with
      | Ptr (Some (VStruct fields)) =>
          let '(res, v) := parseStruct env false (VStruct fields) in
          (res, Ptr (Some v), env)
      | _ => (Fails ExpectedStructPointer, cfg, env)
      end
  end.

End Loader.

End astroenv.

(* ----------------------------------------------------------------- *)
(** ** The loader, read on the leaves of the configuration             *)
(* ----------------------------------------------------------------- *)

(** A leaf of a configuration struct: a field that is not a struct, at any
    depth, with its declaration and with the flag telling whether it is
    read-only: unexported, or inside a struct held in an unexported field
    that is not embedded. *)
Abbreviation leaf := (bool * StructField * astroenv.value)%type.

(** The leaves of the fields of a struct, in the order the loader visits
    them. *)
Definition leaves_of (leaves : bool -> astroenv.value -> list leaf)
  : bool -> list (StructField * astroenv.value) -> list leaf :=
  fix go (ro : bool) (fields : list (StructField * astroenv.value)) :=
    match fields with
    | [] => []
    | (fieldType, field) :: rest =>
        let unexported := negb (exported fieldType) in
        match field with
        | astroenv.VStruct _ =>
            leaves (ro || (unexported && negb (Anonymous fieldType))) field
        | _ => [(ro || unexported, fieldType, field)]
        end ++ go ro rest
    end.

Fixpoint leaves (ro : bool) (v : astroenv.value) {struct v} : list leaf :=
  match v with
  | astroenv.VStruct fields => leaves_of leaves ro fields
  | _ => []
  end.

(** The struct types, without the values: what a struct looks like once
    its leaves are taken out. *)
Definition skeleton_of (skeleton : astroenv.value -> astroenv.value)
  : list (StructField * astroenv.value) -> list (StructField * astroenv.value) :=
  fix go (fields : list (StructField * astroenv.value)) :=
    match fields with
    | [] => []
    | (fieldType, field) :: rest => (fieldType, skeleton field) :: go rest
    end.

Fixpoint skeleton (v : astroenv.value) {struct v} : astroenv.value :=
  match v with
  | astroenv.VStruct fields => astroenv.VStruct (skeleton_of skeleton fields)
  | _ => astroenv.VBool false
  end.

Section Leaves.

Variable ParseFloat : string -> option N.
Variable float32 : N -> N.

(** The loop of the loader over a flat list of leaves: each is resolved and
    set in turn, and the first error or panic ends the run, leaving that
    leaf and the later ones as they were. *)
Fixpoint parseLeaves (env : os.Environ) (ls : list leaf)
  : astroenv.outcome unit * list leaf :=
  match ls with
  | [] => (astroenv.Returns tt, [])
  | (ro, fieldType, field) :: rest =>
      match astroenv.parseField ParseFloat float32 env ro fieldType field with
      | astroenv.Returns field' =>
          let '(res, rest') := parseLeaves env rest in
          (res, (ro, fieldType, field') :: rest')
      | astroenv.Fails err => (astroenv.Fails err, ls)
      | astroenv.Panics msg => (astroenv.Panics msg, ls)
      end
  end.

(** A leaf after a successful load: untouched without an [env] tag,
    otherwise holding the converted value of the variable or of the
    default. *)
Definition loaded (env : os.Environ) (before after : leaf) : Prop :=
  let '(ro, fieldType, field) := before in
  let tag := reflect.StructTag_Get (Tag fieldType) "env" in
  exists field', after = (ro, fieldType, field')
    /\ if decide (tag = EmptyString) then field' = field
       else
         exists rawVal,
           astroenv.resolveValue env (astroenv.parseTag tag).1.1 (astroenv.parseTag tag).1.2
                                 (astroenv.parseTag tag).2 (Name fieldType)
           = astroenv.Returns rawVal
           /\ ro = false
           /\ astroenv.setField ParseFloat float32 false field (Name fieldType) rawVal
              = astroenv.Returns field'.

End Leaves.

(** An integer within the range of a kind, and the decimal text of an
    integer, with a minus sign when it is negative. *)
Definition in_range (k : astroenv.IntKind) (n : Z) : Prop :=
  (- 2 ^ (astroenv.bits k - 1) <= n < 2 ^ (astroenv.bits k - 1))%Z.

Definition decimal (z : Z) : string := NilZero.string_of_int (Z.to_int z).

(** The configuration of the package's example (part_003, lines 19-28),
    as declared and before anything is loaded:
    [type ConfigExample struct { DEBUG_LEVEL string `env:"DEBUG_LEVEL,info"`;
    Port int `env:"PORT,3000"`; Server struct { Port int
    `env:"SERVER_PORT,8080"` } }]. *)
Definition env_tag (tag : string) : StructTag := [("env", tag)]%string.

Definition ConfigExample : astroenv.value :=
  astroenv.VStruct
    [ (public "DEBUG_LEVEL" (env_tag "DEBUG_LEVEL,info"), astroenv.VString "");
      (public "Port" (env_tag "PORT,3000"), astroenv.VInt astroenv.KInt 0);
      (public "Server" [],
       astroenv.VStruct
         [ (public "Port" (env_tag "SERVER_PORT,8080"), astroenv.VInt astroenv.KInt 0) ]) ].

(** A process environment that sets [PORT] and sets [DEBUG_LEVEL] to the
    empty string, and a [.env] file. *)
Definition process_env : os.Environ :=
  <["PORT" := "9090"]> (<["DEBUG_LEVEL" := ""]> ∅)%string.

Definition dotenv_file : gmap string string :=
  <["SERVER_HOST" := "0.0.0.0"]> (<["SERVER_DEBUG" := "true"]>
    (<["DEBUG_LEVEL" := "debug"]> ∅))%string.

Definition loaded_env : os.Environ :=
  default ∅ (godotenv.Load (Some dotenv_file) process_env).

Definition ConfigLoaded : astroenv.value :=
  astroenv.VStruct
    [ (public "DEBUG_LEVEL" (env_tag "DEBUG_LEVEL,info"), astroenv.VString "info");
      (public "Port" (env_tag "PORT,3000"), astroenv.VInt astroenv.KInt 9090);
      (public "Server" [],
       astroenv.VStruct
         [ (public "Port" (env_tag "SERVER_PORT,8080"),
            astroenv.VInt astroenv.KInt 8080) ]) ].

(** A configuration whose second field names a required variable that is
    not set, and one with a tagged unexported field. *)
Definition ConfigRequired : astroenv.value :=
  astroenv.VStruct
    [ (public "Host" (env_tag "SERVER_HOST,localhost"), astroenv.VString "");
      (public "Token" (env_tag "API_TOKEN"), astroenv.VString "");
      (public "Debug" (env_tag "SERVER_DEBUG,false"), astroenv.VBool false) ].

Definition ConfigSecret : astroenv.value :=
  astroenv.VStruct
    [ (private "secret" (env_tag "SECRET,s3cr3t"), astroenv.VString "") ].

(** [type base struct { Port int `env:"PORT,3000"` }] embedded in
    [type ConfigEmbedded struct { base }]: the embedded field is
    unexported, its field [Port] is exported and can be set. The same
    struct held in a named unexported field, [type ConfigHidden struct {
    inner base }], cannot. *)
Definition ConfigEmbedded : astroenv.value :=
  astroenv.VStruct
    [ (embedded_private "base",
       astroenv.VStruct
         [ (public "Port" (env_tag "PORT,3000"), astroenv.VInt astroenv.KInt 0) ]) ].

Definition ConfigEmbeddedLoaded : astroenv.value :=
  astroenv.VStruct
    [ (embedded_private "base",
       astroenv.VStruct
         [ (public "Port" (env_tag "PORT,3000"), astroenv.VInt astroenv.KInt 9090) ]) ].

Definition ConfigHidden : astroenv.value :=
  astroenv.VStruct
    [ (private "inner" [],
       astroenv.VStruct
         [ (public "Port" (env_tag "PORT,3000"), astroenv.VInt astroenv.KInt 0) ]) ].

(** The examples have no field of a float kind; for them [ParseFloat] is
    taken to reject every text. *)
Definition no_floats : string -> option N := fun _ => None.

(* ================================================================= *)
(** * Part II -- lemmas and theorems                                   *)
(* ================================================================= *)

Ltac Zify.zify_post_hook ::= Z.to_euclidean_division_equations.

(** ** Bytes and strings *)

Lemma u8_lt (b : byte) : (u8 b < 256)%N.
Proof. unfold u8. pose proof (Byte.to_N_bounded b). lia. Qed.

Lemma byte_of_N_u8 (b : byte) : byte_of_N (u8 b) = b.
Proof.
  unfold byte_of_N. rewrite N.mod_small by apply u8_lt.
  unfold u8. now rewrite Byte.of_to_N.
Qed.

Lemma u8_byte_of_N (n : N) : u8 (byte_of_N n) = (n mod 256)%N.
Proof.
  unfold byte_of_N, u8.
  destruct (Byte.of_N (n mod 256)) as [b|] eqn:E.
  - now apply Byte.to_of_N.
  - apply Byte.of_N_None_iff in E. lia.
Qed.

Lemma byte_of_N_small (n : N) (b : byte) : (n mod 256)%N = u8 b -> byte_of_N n = b.
Proof.
  intros H. unfold byte_of_N. rewrite H. unfold u8. now rewrite Byte.of_to_N.
Qed.

Lemma u8_inj (a b : byte) : u8 a = u8 b -> a = b.
Proof. intros H. rewrite <- (byte_of_N_u8 a), <- (byte_of_N_u8 b). now rewrite H. Qed.

Lemma bytes_of_string_of_bytes (l : list byte) : bytes_of_string (string_of_bytes l) = l.
Proof. apply list_byte_of_string_of_list_byte. Qed.

Lemma string_of_bytes_of_string (s : string) : string_of_bytes (bytes_of_string s) = s.
Proof. apply string_of_list_byte_of_string. Qed.

Lemma string_of_bytes_inj (a b : list byte) : string_of_bytes a = string_of_bytes b -> a = b.
Proof.
  intros H. rewrite <- (bytes_of_string_of_bytes a), <- (bytes_of_string_of_bytes b).
  now rewrite H.
Qed.

Lemma string_of_bytes_nonempty (l : list byte) : l <> [] -> string_of_bytes l <> ""%string.
Proof.
  intros Hl H. apply Hl. apply string_of_bytes_inj. rewrite H. reflexivity.
Qed.

Lemma bytes_of_string_nonempty (s : string) : s <> ""%string -> bytes_of_string s <> [].
Proof.
  intros Hs H. apply Hs. rewrite <- (string_of_bytes_of_string s), H. reflexivity.
Qed.

Lemma bytes_eqb_eq (x y : list byte) : bytes_eqb x y = true <-> x = y.
Proof.
  unfold bytes_eqb. split.
  - revert y. induction x as [|a x IH]; intros [|b y] H; simpl in *; try discriminate; auto.
    apply andb_true_iff in H as [Hl H]. apply andb_true_iff in H as [Hab H].
    apply Byte.byte_dec_bl in Hab. subst b. f_equal. apply IH.
    now rewrite Hl, H.
  - intros <-. rewrite Nat.eqb_refl. simpl.
    induction x as [|a x IH]; simpl; auto.
    now rewrite Byte.byte_dec_lb.
Qed.

(** ** Bit operations as arithmetic *)

Lemma lor_shifted (hi lo n : N) : (lo < 2 ^ n)%N -> N.lor (N.shiftl hi n) lo = (hi * 2 ^ n + lo)%N.
Proof.
  intros Hlo. rewrite N.shiftl_mul_pow2.
  rewrite <- N.lxor_lor, <- N.add_nocarry_lxor; auto.
  all: apply N.bits_inj; intro k; rewrite N.land_spec, N.bits_0.
  all: destruct (N.lt_ge_cases k n) as [Hk|Hk].
  all: try (rewrite N.mul_pow2_bits_low by assumption; reflexivity).
  all: rewrite <- (N.mod_small lo (2 ^ n)) by assumption.
  all: rewrite N.mod_pow2_bits_high by assumption; apply andb_false_r.
Qed.

Lemma lor_add (x lo n : N) :
  (x mod 2 ^ n = 0)%N -> (lo < 2 ^ n)%N -> N.lor x lo = (x + lo)%N.
Proof.
  intros Hx Hlo.
  assert (E : x = (x / 2 ^ n * 2 ^ n)%N).
  { pose proof (N.div_mod' x (2 ^ n)). lia. }
  rewrite E at 1. rewrite <- N.shiftl_mul_pow2, lor_shifted by assumption. lia.
Qed.

Ltac pow_consts :=
  change (2 ^ 6)%N with 64%N in *; change (2 ^ 8)%N with 256%N in *;
  change (2 ^ 12)%N with 4096%N in *; change (2 ^ 16)%N with 65536%N in *;
  change (2 ^ 18)%N with 262144%N in *.

Ltac lor_sum x lo n :=
  rewrite (lor_add x lo n) by (rewrite ?N.shiftl_mul_pow2; pow_consts; lia).

Lemma land_63 (x : N) : N.land x 63 = (x mod 64)%N.
Proof. change 63%N with (N.ones 6). now rewrite N.land_ones. Qed.

Lemma land_255 (x : N) : N.land x 255 = (x mod 256)%N.
Proof. change 255%N with (N.ones 8). now rewrite N.land_ones. Qed.

(** ** encoding/base64: decoding undoes encoding *)

Lemma base64_decodeMap_encode (i : N) : (i < 64)%N -> base64.decodeMap (base64.encode i) = i.
Proof.
  intros H. rewrite <- (N2Nat.id i). assert (Hn : N.to_nat i < 64) by lia.
  generalize dependent (N.to_nat i). clear. intros n Hn.
  do 64 (destruct n as [|n]; [reflexivity|]). lia.
Qed.

Lemma base64_encode_not_newline (i : N) : base64.is_newline (base64.encode i) = false.
Proof.
  unfold base64.encode.
  assert (H : Forall (fun c => base64.is_newline c = false)
                     (bytes_of_string base64.encodeStd)).
  { repeat constructor. }
  remember (bytes_of_string base64.encodeStd) as l. clear Heql.
  revert l H. induction (N.to_nat i) as [|n IH]; intros [|c l] H; simpl; auto.
  - now inversion H.
  - apply IH. now inversion H.
Qed.

Lemma base64_decodeMap_padding : base64.decodeMap base64.StdPadding = 255%N.
Proof. reflexivity. Qed.

Lemma base64_quantum_eq (d0 d1 d2 d3 : N) :
  (d1 < 64)%N -> (d2 < 64)%N -> (d3 < 64)%N ->
  base64.quantum d0 d1 d2 d3 = (d0 * 262144 + d1 * 4096 + d2 * 64 + d3)%N.
Proof.
  intros H1 H2 H3. unfold base64.quantum.
  rewrite !N.shiftl_mul_pow2.
  lor_sum (d0 * 2 ^ 18)%N (d1 * 2 ^ 12)%N 18%N.
  lor_sum (d0 * 2 ^ 18 + d1 * 2 ^ 12)%N (d2 * 2 ^ 6)%N 12%N.
  lor_sum (d0 * 2 ^ 18 + d1 * 2 ^ 12 + d2 * 2 ^ 6)%N d3 6%N.
  pow_consts. lia.
Qed.

Lemma base64_group3 (a b c : N) :
  (b < 256)%N -> (c < 256)%N ->
  N.lor (N.lor (N.shiftl a 16) (N.shiftl b 8)) c = (a * 65536 + b * 256 + c)%N.
Proof.
  intros Hb Hc.
  rewrite !N.shiftl_mul_pow2.
  lor_sum (a * 2 ^ 16)%N (b * 2 ^ 8)%N 16%N.
  lor_sum (a * 2 ^ 16 + b * 2 ^ 8)%N c 8%N.
  pow_consts. lia.
Qed.

Lemma land_63_lt (x : N) : (N.land x 63 < 64)%N.
Proof. rewrite land_63. lia. Qed.

Lemma base64_digit_ok (d : N) :
  (d < 64)%N ->
  base64.decodeMap (base64.encode d) = d /\ (d =? 255)%N = false.
Proof.
  intros H. split; [now apply base64_decodeMap_encode|]. apply N.eqb_neq. lia.
Qed.

Ltac base64_digits :=
  repeat match goal with
  | |- context [base64.decodeMap (base64.encode (N.land ?x 63))] =>
      let H1 := fresh in let H2 := fresh in
      destruct (base64_digit_ok (N.land x 63) (land_63_lt x)) as [H1 H2];
      rewrite !H1, ?H2; clear H1 H2
  end.

Lemma base64_decodeQuanta_Encode (src : list byte) :
  base64.decodeQuanta (base64.Encode src) = Some src.
Proof.
  remember (length src) as n eqn:Hn.
  assert (Hle : length src <= n) by lia. clear Hn.
  revert src Hle. induction n as [|n IH]; intros src Hle.
  { destruct src; [reflexivity | simpl in Hle; lia]. }
  destruct src as [|a [|b [|c rest]]].
  - reflexivity.
  - cbn [base64.Encode base64.decodeQuanta]. base64_digits.
    rewrite base64_decodeMap_padding. cbn [orb N.eqb Pos.eqb].
    replace (Byte.eqb base64.StdPadding base64.StdPadding) with true by reflexivity.
    cbn [andb]. do 2 f_equal. apply byte_of_N_small.
    pose proof (u8_lt a).
    rewrite base64_quantum_eq by (rewrite ?land_63; lia).
    rewrite !land_63, !N.shiftr_div_pow2, !N.shiftl_mul_pow2. pow_consts. lia.
  - cbn [base64.Encode base64.decodeQuanta]. base64_digits.
    rewrite base64_decodeMap_padding. cbn [orb N.eqb Pos.eqb].
    replace (Byte.eqb base64.StdPadding base64.StdPadding) with true by reflexivity.
    pose proof (u8_lt a). pose proof (u8_lt b).
    rewrite base64_quantum_eq by (rewrite ?land_63; lia).
    replace (N.lor (N.shiftl (u8 a) 16) (N.shiftl (u8 b) 8))
      with (u8 a * 65536 + u8 b * 256)%N.
    2:{ rewrite !N.shiftl_mul_pow2.
        lor_sum (u8 a * 2 ^ 16)%N (u8 b * 2 ^ 8)%N 16%N. pow_consts. lia. }
    do 2 f_equal; [|f_equal]; apply byte_of_N_small;
      rewrite !land_63, !N.shiftr_div_pow2; pow_consts; lia.
  - cbn [base64.Encode base64.decodeQuanta]. base64_digits.
    cbn [orb]. rewrite IH by (simpl in Hle; lia).
    pose proof (u8_lt a). pose proof (u8_lt b). pose proof (u8_lt c).
    rewrite base64_quantum_eq by (rewrite ?land_63; lia).
    rewrite base64_group3 by assumption.
    do 2 f_equal; [|f_equal; [|f_equal]]; apply byte_of_N_small;
      rewrite !land_63, ?N.shiftr_div_pow2; pow_consts; lia.
Qed.

Lemma base64_Encode_no_newline (src : list byte) :
  List.filter (fun c => negb (base64.is_newline c)) (base64.Encode src) = base64.Encode src.
Proof.
  remember (length src) as n eqn:Hn.
  assert (Hle : length src <= n) by lia. clear Hn.
  revert src Hle. induction n as [|n IH]; intros src Hle.
  { destruct src; [reflexivity | simpl in Hle; lia]. }
  destruct src as [|a [|b [|c rest]]]; cbn [base64.Encode List.filter].
  - reflexivity.
  - rewrite !base64_encode_not_newline. reflexivity.
  - rewrite !base64_encode_not_newline. reflexivity.
  - rewrite !base64_encode_not_newline. cbn [negb].
    rewrite IH by (simpl in Hle; lia). reflexivity.
Qed.

(** [DecodeString] undoes [EncodeToString]. *)
Lemma base64_DecodeString_EncodeToString (src : list byte) :
  base64.DecodeString (base64.EncodeToString src) = Ok src.
Proof.
  unfold base64.DecodeString, base64.EncodeToString, base64.Decode.
  rewrite bytes_of_string_of_bytes, base64_Encode_no_newline, base64_decodeQuanta_Encode.
  reflexivity.
Qed.

Lemma base64_EncodeToString_inj (a b : list byte) :
  base64.EncodeToString a = base64.EncodeToString b -> a = b.
Proof.
  intros H.
  pose proof (base64_DecodeString_EncodeToString a) as Ha.
  rewrite H, base64_DecodeString_EncodeToString in Ha. congruence.
Qed.

Lemma base64_EncodeToString_nonempty (src : list byte) :
  src <> [] -> base64.EncodeToString src <> ""%string.
Proof.
  intros Hs. apply string_of_bytes_nonempty.
  destruct src as [|a [|b [|c rest]]]; [congruence| | |]; discriminate.
Qed.

(** ** Known-answer tests for the library models *)

(** RFC 4648, section 10. *)
Example base64_rfc4648 :
  map (fun s => base64.EncodeToString (bytes_of_string s))
      [""; "f"; "fo"; "foo"; "foob"; "fooba"; "foobar"]%string
  = [""; "Zg=="; "Zm8="; "Zm9v"; "Zm9vYg=="; "Zm9vYmE="; "Zm9vYmFy"]%string.
Proof. reflexivity. Qed.

Example base64_decode_rfc4648 :
  map base64.DecodeString ["Zg=="; "Zm8="; "Zm9vYmFy"]%string
  = map (fun s => Ok (bytes_of_string s)) ["f"; "fo"; "foobar"]%string.
Proof. reflexivity. Qed.

(** Line breaks are skipped; bad padding, stray characters and trailing
    garbage are corrupt input. *)
Example base64_decode_newline :
  base64.Decode (bytes_of_string "Zm9v" ++ ["010"%byte] ++ bytes_of_string "YmFy")
  = Some (bytes_of_string "foobar").
Proof. reflexivity. Qed.

Example base64_decode_corrupt :
  map base64.DecodeString ["not-base64!!"; "Zg="; "Zg"; "Z"; "Zg==Zg=="; "=Zg="]%string
  = repeat (Err base64_CorruptInputError) 6.
Proof. reflexivity. Qed.

(** FIPS-197, appendix C: AES-128, AES-192, AES-256. *)
Example aes128_fips197 :
  aes_encrypt "000102030405060708090a0b0c0d0e0f" "00112233445566778899aabbccddeeff"
  = Ok (unhex "69c4e0d86a7b0430d8cdb78070b4c55a").
Proof. vm_compute. reflexivity. Qed.

Example aes192_fips197 :
  aes_encrypt "000102030405060708090a0b0c0d0e0f1011121314151617"
              "00112233445566778899aabbccddeeff"
  = Ok (unhex "dda97ca4864cdfe06eaf70a0ec0d7191").
Proof. vm_compute. reflexivity. Qed.

Example aes256_fips197 :
  aes_encrypt "000102030405060708090a0b0c0d0e0f101112131415161718191a1b1c1d1e1f"
              "00112233445566778899aabbccddeeff"
  = Ok (unhex "8ea2b7ca516745bfeafc49904b496089").
Proof. vm_compute. reflexivity. Qed.

(** The GCM specification (McGrew and Viega), test cases 1, 2 and 3: the
    ciphertext followed by the tag. *)
Example gcm_test_case_1 :
  gcm_seal "00000000000000000000000000000000" "000000000000000000000000" ""
  = Ok (unhex "58e2fccefa7e3061367f1d57a4e7455a").
Proof. vm_compute. reflexivity. Qed.

Example gcm_test_case_2 :
  gcm_seal "00000000000000000000000000000000" "000000000000000000000000"
           "00000000000000000000000000000000"
  = Ok (unhex "0388dace60b6a392f328c2b971b2fe78ab6e47d42cec13bdf53a67b21257bddf").
Proof. vm_compute. reflexivity. Qed.

Example gcm_test_case_3 :
  gcm_seal "feffe9928665731c6d6a8f9467308308" "cafebabefacedbaddecaf888"
           "d9313225f88406e5a55909c5aff5269a86a7a9531534f7da2e4c303d8a318a721c3c0c95956809532fcf0e2449a6b525b16aedf5aa0de657ba637b391aafd255"
  = Ok (unhex "42831ec2217774244b7221b784d0d49ce3aa212f2c02a4e035c17e2329aca12e21d514b25466931c7d8f6a5aac84aa051ba30b396a0aac973d58e091473f59854d5c2af327cd64a62cf35abd2ba6fab4").
Proof. vm_compute. reflexivity. Qed.

(** Test cases 7, 13 and 14: 192-bit and 256-bit keys. *)
Example gcm_test_case_7 :
  gcm_seal "000000000000000000000000000000000000000000000000"
           "000000000000000000000000" ""
  = Ok (unhex "cd33b28ac773f74ba00ed1f312572435").
Proof. vm_compute. reflexivity. Qed.

Example gcm_test_case_13 :
  gcm_seal "0000000000000000000000000000000000000000000000000000000000000000"
           "000000000000000000000000" ""
  = Ok (unhex "530f8afbc74536b9a963b4f1c4cb738b").
Proof. vm_compute. reflexivity. Qed.

Example gcm_test_case_14 :
  gcm_seal "0000000000000000000000000000000000000000000000000000000000000000"
           "000000000000000000000000" "00000000000000000000000000000000"
  = Ok (unhex "cea7403d4d606b6e074ec5d3baf39d18d0d1c8a799996bf0265b98b5d48ab919").
Proof. vm_compute. reflexivity. Qed.

(** ** crypto/subtle and crypto/cipher: GCM opens what it seals *)

Lemma lxor_small (a b : N) : (a < 256)%N -> (b < 256)%N -> (N.lxor a b < 256)%N.
Proof.
  intros Ha Hb.
  assert (E : (N.lxor a b mod 2 ^ 8 = N.lxor a b)%N).
  { apply N.bits_inj. intro k. destruct (N.lt_ge_cases k 8) as [Hk|Hk].
    - now rewrite N.mod_pow2_bits_low.
    - rewrite N.mod_pow2_bits_high, N.lxor_spec by assumption.
      rewrite <- (N.mod_small a (2 ^ 8)), <- (N.mod_small b (2 ^ 8)) by assumption.
      now rewrite !N.mod_pow2_bits_high. }
  rewrite <- E. change (2 ^ 8)%N with 256%N. lia.
Qed.

Lemma xor_byte_involutive (a m : byte) : subtle.xor_byte (subtle.xor_byte a m) m = a.
Proof.
  apply u8_inj. unfold subtle.xor_byte.
  pose proof (u8_lt a). pose proof (u8_lt m).
  rewrite !u8_byte_of_N.
  rewrite (N.mod_small (N.lxor (u8 a) (u8 m))) by now apply lxor_small.
  rewrite N.lxor_assoc, N.lxor_nilpotent, N.lxor_0_r. now apply N.mod_small.
Qed.

Lemma XORBytes_length (x y : list byte) :
  length (subtle.XORBytes x y) = Nat.min (length x) (length y).
Proof. apply length_zip_with. Qed.

Lemma XORBytes_involutive (x m : list byte) :
  length x <= length m -> subtle.XORBytes (subtle.XORBytes x m) m = x.
Proof.
  unfold subtle.XORBytes. revert m.
  induction x as [|a x IH]; intros [|b m] H; simpl in *; try lia; auto.
  rewrite xor_byte_involutive, IH by lia. reflexivity.
Qed.

Lemma ConstantTimeCompare_refl (x : list byte) : subtle.ConstantTimeCompare x x = 1%N.
Proof.
  unfold subtle.ConstantTimeCompare.
  now rewrite (proj2 (bytes_eqb_eq x x) eq_refl).
Qed.

Lemma be_bytes_length (n : nat) (x : N) : length (cipher.be_bytes n x) = n.
Proof. induction n as [|n IH]; simpl; auto. Qed.

Section GCM.

Variable b : cipher.Block.
Hypothesis Hb : Block_ok b.

Lemma counterCrypt_loop_nil (fuel : nat) (counter : list byte) :
  cipher.counterCrypt_loop fuel b [] counter = [].
Proof. destruct fuel; reflexivity. Qed.

Lemma counterCrypt_loop_step (fuel : nat) (inp counter : list byte) :
  cipher.counterCrypt_loop (S fuel) b inp counter
  = subtle.XORBytes (take 16 inp) (cipher.Encrypt b counter)
    ++ cipher.counterCrypt_loop fuel b (drop 16 inp) (cipher.gcmInc32 counter).
Proof.
  destruct inp as [|x inp]; [|reflexivity].
  simpl. now rewrite counterCrypt_loop_nil.
Qed.

Lemma counterCrypt_loop_length (fuel : nat) (inp counter : list byte) :
  length inp <= fuel ->
  length (cipher.counterCrypt_loop fuel b inp counter) = length inp.
Proof.
  revert inp counter. induction fuel as [|fuel IH]; intros inp counter H.
  { destruct inp; [reflexivity | simpl in H; lia]. }
  rewrite counterCrypt_loop_step, length_app, XORBytes_length, IH.
  - rewrite (proj2 Hb), length_take, length_drop. lia.
  - rewrite length_drop. lia.
Qed.

Lemma counterCrypt_loop_involutive (fuel : nat) (inp counter : list byte) :
  length inp <= fuel ->
  cipher.counterCrypt_loop fuel b (cipher.counterCrypt_loop fuel b inp counter) counter = inp.
Proof.
  revert inp counter. induction fuel as [|fuel IH]; intros inp counter H.
  { destruct inp; [reflexivity | simpl in H; lia]. }
  rewrite (counterCrypt_loop_step fuel inp).
  set (X := subtle.XORBytes (take 16 inp) (cipher.Encrypt b counter)).
  set (R := cipher.counterCrypt_loop fuel b (drop 16 inp) (cipher.gcmInc32 counter)).
  assert (HX : length X = Nat.min 16 (length inp)).
  { unfold X. rewrite XORBytes_length, (proj2 Hb), length_take. lia. }
  assert (HR : length R = length inp - 16).
  { unfold R. rewrite counterCrypt_loop_length; rewrite length_drop; lia. }
  assert (Hsplit : take 16 (X ++ R) = X /\ drop 16 (X ++ R) = R).
  { destruct (decide (16 <= length inp)) as [Hlen|Hlen].
    - rewrite take_app_length', drop_app_length' by lia. auto.
    - assert (R = []) as -> by (apply length_zero_iff_nil; lia).
      rewrite app_nil_r, take_ge, drop_ge by lia. auto. }
  rewrite counterCrypt_loop_step. destruct Hsplit as [-> ->].
  unfold X at 1. rewrite XORBytes_involutive
    by (rewrite (proj2 Hb), length_take; lia).
  unfold R. rewrite IH by (rewrite length_drop; lia).
  apply take_drop.
Qed.

Lemma counterCrypt_length (inp counter : list byte) :
  length (cipher.counterCrypt b inp counter) = length inp.
Proof. apply counterCrypt_loop_length. lia. Qed.

Lemma counterCrypt_involutive (inp counter : list byte) :
  cipher.counterCrypt b (cipher.counterCrypt b inp counter) counter = inp.
Proof.
  unfold cipher.counterCrypt at 1. rewrite counterCrypt_length.
  apply counterCrypt_loop_involutive. lia.
Qed.

Lemma auth_length (ciphertext data tagMask : list byte) :
  length tagMask = 16 -> length (cipher.auth b ciphertext data tagMask) = 16.
Proof.
  intros H. unfold cipher.auth. rewrite XORBytes_length, be_bytes_length, H. reflexivity.
Qed.

(** Within the size limit [Seal] appends the ciphertext and a 16-byte tag. *)
Lemma gcm_Seal_ok (dst nonce plaintext data : list byte) :
  length nonce = 12 ->
  (N.of_nat (length plaintext) <= cipher.gcmMaxPlaintext)%N ->
  exists sealed,
    cipher.gcm_Seal b dst nonce plaintext data = Ok (dst ++ sealed)
    /\ length sealed = length plaintext + 16
    /\ cipher.gcm_Open b [] nonce sealed data = Ok plaintext.
Proof.
  intros Hn Hp.
  set (counter := cipher.deriveCounter nonce).
  set (tagMask := cipher.Encrypt b counter).
  set (out := cipher.counterCrypt b plaintext (cipher.gcmInc32 counter)).
  set (tag := cipher.auth b out data tagMask).
  assert (Hout : length out = length plaintext) by apply counterCrypt_length.
  assert (Htag : length tag = 16) by (apply auth_length, (proj2 Hb)).
  exists (out ++ tag). split; [|split].
  - unfold cipher.gcm_Seal. rewrite Hn. cbn [Nat.eqb cipher.gcmStandardNonceSize negb].
    destruct (N.ltb_spec cipher.gcmMaxPlaintext (N.of_nat (length plaintext))); [lia|].
    reflexivity.
  - rewrite length_app. lia.
  - unfold cipher.gcm_Open. rewrite Hn. cbn [Nat.eqb cipher.gcmStandardNonceSize negb].
    rewrite length_app, Hout, Htag. unfold cipher.gcmTagSize.
    destruct (Nat.ltb_spec (length plaintext + 16) 16); [lia|].
    destruct (N.ltb_spec (cipher.gcmMaxPlaintext + N.of_nat 16)
                         (N.of_nat (length plaintext + 16))); [lia|].
    replace (length plaintext + 16 - 16) with (length out) by lia.
    rewrite take_app_length, drop_app_length.
    fold counter. fold tagMask. fold tag.
    rewrite take_ge by lia. rewrite ConstantTimeCompare_refl. cbn [N.eqb Pos.eqb negb].
    unfold out. rewrite counterCrypt_involutive. reflexivity.
Qed.

Lemma gcm_Seal_large (dst nonce plaintext data : list byte) :
  length nonce = 12 ->
  (cipher.gcmMaxPlaintext < N.of_nat (length plaintext))%N ->
  cipher.gcm_Seal b dst nonce plaintext data = Panic "crypto/cipher: message too large for GCM".
Proof.
  intros Hn Hp. unfold cipher.gcm_Seal.
  rewrite Hn. cbn [Nat.eqb cipher.gcmStandardNonceSize negb].
  destruct (N.ltb_spec cipher.gcmMaxPlaintext (N.of_nat (length plaintext))); [reflexivity|lia].
Qed.

Lemma gcm_Open_no_panic (nonce ciphertext data : list byte) (msg : string) :
  length nonce = 12 -> cipher.gcm_Open b [] nonce ciphertext data <> Panic msg.
Proof.
  intros Hn. unfold cipher.gcm_Open.
  rewrite Hn. cbn [Nat.eqb cipher.gcmStandardNonceSize negb].
  repeat match goal with |- context [if ?c then _ else _] => destruct c end; discriminate.
Qed.

Lemma gcm_Open_short (nonce ciphertext data : list byte) :
  length nonce = 12 -> length ciphertext < 16 ->
  cipher.gcm_Open b [] nonce ciphertext data = Err cipher_errOpen.
Proof.
  intros Hn Hc. unfold cipher.gcm_Open.
  rewrite Hn. cbn [Nat.eqb cipher.gcmStandardNonceSize negb]. unfold cipher.gcmTagSize.
  destruct (Nat.ltb_spec (length ciphertext) 16); [reflexivity|lia].
Qed.

(** GCM over a well-behaved block cipher meets the AEAD contract. *)
Lemma NewGCM_ok (a : cipher.AEAD) : cipher.NewGCM b = Ok a -> AEAD_ok a.
Proof.
  unfold cipher.NewGCM. rewrite (proj1 Hb). cbn [Nat.eqb cipher.gcmBlockSize negb].
  intros [= <-]. constructor; cbn [cipher.NonceSize cipher.Overhead cipher.Seal cipher.Open].
  - unfold cipher.gcmStandardNonceSize. lia.
  - intros. now apply gcm_Seal_ok.
  - intros. eexists. now apply gcm_Seal_large.
  - intros. now apply gcm_Open_no_panic.
  - intros. now apply gcm_Open_short.
Qed.

End GCM.

(** ** crypto/aes *)

Lemma aes_encryptBlock_length (w : list N) (Nr : nat) (src : list byte) :
  length (aes.encryptBlock w Nr src) = 16.
Proof. unfold aes.encryptBlock. now rewrite length_map, length_seq. Qed.

Lemma aes_NewCipher_ok (key : list byte) (blk : cipher.Block) :
  aes.NewCipher key = Ok blk -> Block_ok blk.
Proof.
  unfold aes.NewCipher.
  destruct (_ || _); [|discriminate]. intros [= <-]. split; [reflexivity|].
  intros x. apply aes_encryptBlock_length.
Qed.

Lemma aes_NewCipher_valid (key : list byte) :
  length key = 16 \/ length key = 24 \/ length key = 32 ->
  exists blk, aes.NewCipher key = Ok blk.
Proof.
  intros H. unfold aes.NewCipher.
  destruct H as [-> | [-> | ->]]; cbn [Nat.eqb orb]; eexists; reflexivity.
Qed.

Lemma aes_NewCipher_invalid (key : list byte) :
  ~ (length key = 16 \/ length key = 24 \/ length key = 32) ->
  aes.NewCipher key = Err (aes_KeySizeError (length key)).
Proof.
  intros H. unfold aes.NewCipher.
  destruct (Nat.eqb_spec (length key) 16); [tauto|].
  destruct (Nat.eqb_spec (length key) 24); [tauto|].
  destruct (Nat.eqb_spec (length key) 32); [tauto|]. reflexivity.
Qed.

(** ** NewService *)

Lemma NewService_ok (key : list byte) (s : Service) :
  NewService key = Ok s -> AEAD_ok (gcm s).
Proof.
  unfold NewService.
  destruct (aes.NewCipher key) as [blk| |] eqn:Hk; try discriminate.
  destruct (cipher.NewGCM blk) as [a| |] eqn:Hg; try discriminate.
  intros [= <-]. cbn [gcm]. eapply NewGCM_ok; eauto. eapply aes_NewCipher_ok; eauto.
Qed.

Lemma NewService_NonceSize (key : list byte) (s : Service) :
  NewService key = Ok s -> cipher.NonceSize (gcm s) = 12 /\ cipher.Overhead (gcm s) = 16.
Proof.
  unfold NewService.
  destruct (aes.NewCipher key) as [blk| |] eqn:Hk; try discriminate.
  unfold cipher.NewGCM. destruct (negb _); try discriminate.
  intros [= <-]. split; reflexivity.
Qed.

(** ** The cipher core *)

Lemma ReadFull_Ok (r r' : rand.Reader) (n : nat) (buf : list byte) :
  io.ReadFull r n = (Ok buf, r') ->
  n <= length r /\ buf = take n r /\ r' = drop n r /\ length buf = n.
Proof.
  unfold io.ReadFull. destruct (decide (n <= length r)) as [H|H]; [|discriminate].
  intros [= <- <-]. rewrite length_take. repeat split; auto. lia.
Qed.

Lemma ReadFull_enough (r : rand.Reader) (n : nat) :
  n <= length r -> io.ReadFull r n = (Ok (take n r), drop n r).
Proof. intros H. unfold io.ReadFull. now rewrite decide_True. Qed.

Section Core.

Variable s : Service.
Hypothesis Hs : AEAD_ok (gcm s).

Local Abbreviation nonceSize := (cipher.NonceSize (gcm s)).

(** What a successful [EncryptBytes] returns: the nonce it drew, followed
    by a sealed message that opens to the plaintext. *)
Lemma EncryptBytes_Ok (p : list byte) (r r' : rand.Reader) (c : list byte) :
  p <> [] -> EncryptBytes s p r = (Ok c, r') ->
  nonceSize <= length r /\ r' = drop nonceSize r /\
  exists sealed,
    c = take nonceSize r ++ sealed
    /\ length sealed = length p + cipher.Overhead (gcm s)
    /\ cipher.Open (gcm s) [] (take nonceSize r) sealed [] = Ok p.
Proof.
  intros Hp. unfold EncryptBytes.
  rewrite decide_False by (destruct p; [congruence | discriminate]).
  destruct (io.ReadFull r (cipher.NonceSize (gcm s))) as [[nonce| |] r1] eqn:HR;
    try discriminate.
  apply ReadFull_Ok in HR as (Hlen & -> & -> & Hn).
  intros [= Hseal <-]. split; [exact Hlen|]. split; [reflexivity|].
  destruct (N.le_gt_cases (N.of_nat (length p)) cipher.gcmMaxPlaintext) as [Hsz|Hsz].
  - destruct (seal_open _ Hs (take nonceSize r) (take nonceSize r) p [] Hn Hsz)
      as (sealed & Hseal' & Hl & Hopen).
    rewrite Hseal' in Hseal. injection Hseal as <-.
    exists sealed. auto.
  - destruct (seal_large _ Hs (take nonceSize r) (take nonceSize r) p [] Hn Hsz)
      as (msg & Hpanic).
    congruence.
Qed.

(** With enough random bytes and a plaintext within GCM's limit,
    [EncryptBytes] succeeds. *)
Lemma EncryptBytes_succeeds (p : list byte) (r : rand.Reader) :
  p <> [] -> nonceSize <= length r ->
  (N.of_nat (length p) <= cipher.gcmMaxPlaintext)%N ->
  exists c, EncryptBytes s p r = (Ok c, drop nonceSize r).
Proof.
  intros Hp Hr Hsz. unfold EncryptBytes.
  rewrite decide_False by (destruct p; [congruence | discriminate]).
  rewrite ReadFull_enough by assumption.
  assert (Hn : length (take nonceSize r) = nonceSize) by (rewrite length_take; lia).
  destruct (seal_open _ Hs (take nonceSize r) (take nonceSize r) p [] Hn Hsz)
    as (sealed & -> & _). eauto.
Qed.

(** [Encrypt] is [EncryptBytes] followed by the base64 encoding. *)
Lemma Encrypt_EncryptBytes (p : string) (r : rand.Reader) :
  p <> ""%string ->
  Encrypt s p r =
  (c <- fst (EncryptBytes s (bytes_of_string p) r) ;; Ok (base64.EncodeToString c),
   snd (EncryptBytes s (bytes_of_string p) r)).
Proof.
  intros Hp. unfold Encrypt, EncryptBytes.
  rewrite decide_False by assumption.
  rewrite decide_False.
  2:{ intros H. apply length_zero_iff_nil in H. now apply bytes_of_string_nonempty in H. }
  destruct (io.ReadFull r (cipher.NonceSize (gcm s))) as [[nonce| |] r1]; reflexivity.
Qed.

Lemma Encrypt_Ok (p : string) (r r' : rand.Reader) (c : string) :
  p <> ""%string -> Encrypt s p r = (Ok c, r') ->
  nonceSize <= length r /\ r' = drop nonceSize r /\
  exists sealed,
    c = base64.EncodeToString (take nonceSize r ++ sealed)
    /\ length sealed = length (bytes_of_string p) + cipher.Overhead (gcm s)
    /\ cipher.Open (gcm s) [] (take nonceSize r) sealed [] = Ok (bytes_of_string p).
Proof.
  intros Hp. rewrite Encrypt_EncryptBytes by assumption.
  destruct (EncryptBytes s (bytes_of_string p) r) as [[cb| |] r1] eqn:HE;
    cbn [fst snd bind]; try discriminate.
  intros [= <- <-].
  apply EncryptBytes_Ok in HE as (Hlen & Hr & sealed & -> & Hl & Hopen);
    [|now apply bytes_of_string_nonempty].
  repeat split; auto. exists sealed. auto.
Qed.

Lemma Encrypt_succeeds (p : string) (r : rand.Reader) :
  p <> ""%string -> nonceSize <= length r ->
  (N.of_nat (length (bytes_of_string p)) <= cipher.gcmMaxPlaintext)%N ->
  exists c, Encrypt s p r = (Ok c, drop nonceSize r).
Proof.
  intros Hp Hr Hsz. rewrite Encrypt_EncryptBytes by assumption.
  destruct (EncryptBytes_succeeds (bytes_of_string p) r) as (cb & ->); auto.
  - now apply bytes_of_string_nonempty.
  - cbn [fst snd bind]. eauto.
Qed.

(** The only error [Encrypt] returns is [ErrEncryptionFailed]. *)
Lemma Encrypt_Err (p : string) (r r' : rand.Reader) (e : error) :
  Encrypt s p r = (Err e, r') -> e = ErrEncryptionFailed /\ length r < nonceSize.
Proof.
  unfold Encrypt. destruct (decide (p = ""%string)); [discriminate|].
  unfold io.ReadFull.
  destruct (decide (nonceSize <= length r)) as [Hle|Hle].
  - assert (Hn : length (take nonceSize r) = nonceSize) by (rewrite length_take; lia).
    destruct (N.le_gt_cases (N.of_nat (length (bytes_of_string p))) cipher.gcmMaxPlaintext)
      as [Hsz|Hsz].
    + destruct (seal_open _ Hs (take nonceSize r) (take nonceSize r) (bytes_of_string p) []
                  Hn Hsz) as (sealed & -> & _). discriminate.
    + destruct (seal_large _ Hs (take nonceSize r) (take nonceSize r) (bytes_of_string p) []
                  Hn Hsz) as (msg & ->). discriminate.
  - intros [= <- <-]. split; [reflexivity|lia].
Qed.

(** Every call on a non-empty input reads one nonce from the random source:
    it consumes the next [nonceSize] bytes, or fails if they are not
    there. *)
Lemma EncryptBytes_draws (p : list byte) (r : rand.Reader) :
  p <> [] ->
  (nonceSize <= length r -> snd (EncryptBytes s p r) = drop nonceSize r)
  /\ (length r < nonceSize -> EncryptBytes s p r = (Err ErrEncryptionFailed, [])).
Proof.
  intros Hp. unfold EncryptBytes, io.ReadFull.
  rewrite decide_False by (destruct p; [congruence | discriminate]).
  split; intros H.
  - now rewrite decide_True by assumption.
  - now rewrite decide_False by lia.
Qed.

Lemma Encrypt_draws (p : string) (r : rand.Reader) :
  p <> ""%string ->
  (nonceSize <= length r -> snd (Encrypt s p r) = drop nonceSize r)
  /\ (length r < nonceSize -> Encrypt s p r = (Err ErrEncryptionFailed, [])).
Proof.
  intros Hp. unfold Encrypt, io.ReadFull.
  rewrite decide_False by assumption.
  split; intros H.
  - now rewrite decide_True by assumption.
  - now rewrite decide_False by lia.
Qed.

(** [DecryptBytes] on a nonce followed by a message that opens. *)
Lemma DecryptBytes_sealed (nonce sealed p : list byte) :
  length nonce = nonceSize ->
  cipher.Open (gcm s) [] nonce sealed [] = Ok p ->
  DecryptBytes s (nonce ++ sealed) = Ok p.
Proof.
  intros Hn Hopen. unfold DecryptBytes.
  pose proof (nonce_size_pos _ Hs) as Hpos.
  rewrite decide_False by (rewrite length_app; lia).
  rewrite decide_False by (rewrite length_app; lia).
  rewrite take_app_length', drop_app_length' by lia.
  now rewrite Hopen.
Qed.

(** [Decrypt] is the base64 decoding followed by [DecryptBytes]. *)
Lemma Decrypt_DecryptBytes (c : string) (data : list byte) :
  c <> ""%string -> base64.DecodeString c = Ok data ->
  Decrypt s c =
  if decide (length data < nonceSize) then Err ErrInvalidData
  else p <- DecryptBytes s data ;; Ok (string_of_bytes p).
Proof.
  intros Hc Hd. unfold Decrypt, DecryptBytes.
  rewrite decide_False by assumption. rewrite Hd.
  destruct (decide (length data < nonceSize)) as [Hlt|Hlt]; [reflexivity|].
  pose proof (nonce_size_pos _ Hs) as Hpos.
  rewrite decide_False by lia.
  destruct (cipher.Open (gcm s) [] (take nonceSize data) (drop nonceSize data) []);
    reflexivity.
Qed.

Lemma Decrypt_sealed (nonce sealed p : list byte) :
  length nonce = nonceSize ->
  cipher.Open (gcm s) [] nonce sealed [] = Ok p ->
  Decrypt s (base64.EncodeToString (nonce ++ sealed)) = Ok (string_of_bytes p).
Proof.
  intros Hn Hopen.
  pose proof (nonce_size_pos _ Hs) as Hpos.
  rewrite (Decrypt_DecryptBytes _ (nonce ++ sealed)).
  - rewrite decide_False by (rewrite length_app; lia).
    now rewrite (DecryptBytes_sealed nonce sealed p).
  - apply base64_EncodeToString_nonempty. destruct nonce; [simpl in Hn; lia|discriminate].
  - apply base64_DecodeString_EncodeToString.
Qed.

(** Round trip, for any Service whose AEAD meets its contract. *)
Lemma Decrypt_Encrypt (p : string) (r r' : rand.Reader) (c : string) :
  p <> ""%string -> Encrypt s p r = (Ok c, r') -> Decrypt s c = Ok p.
Proof.
  intros Hp HE. apply Encrypt_Ok in HE as (Hlen & _ & sealed & -> & _ & Hopen); auto.
  rewrite (Decrypt_sealed _ _ (bytes_of_string p)); auto.
  - now rewrite string_of_bytes_of_string.
  - rewrite length_take. lia.
Qed.

Lemma DecryptBytes_EncryptBytes (p : list byte) (r r' : rand.Reader) (c : list byte) :
  p <> [] -> EncryptBytes s p r = (Ok c, r') -> DecryptBytes s c = Ok p.
Proof.
  intros Hp HE. apply EncryptBytes_Ok in HE as (Hlen & _ & sealed & -> & _ & Hopen); auto.
  apply DecryptBytes_sealed; auto. rewrite length_take. lia.
Qed.

(** The outcomes of [DecryptBytes] and [Decrypt], case by case. *)
Lemma DecryptBytes_cases (c : list byte) :
  c <> [] ->
  (length c < nonceSize /\ DecryptBytes s c = Err ErrInvalidData)
  \/ (nonceSize <= length c /\
      ((exists e, cipher.Open (gcm s) [] (take nonceSize c) (drop nonceSize c) [] = Err e
                  /\ DecryptBytes s c = Err ErrDecryptionFailed)
       \/ (exists p, cipher.Open (gcm s) [] (take nonceSize c) (drop nonceSize c) [] = Ok p
                     /\ DecryptBytes s c = Ok p))).
Proof.
  intros Hc. unfold DecryptBytes.
  rewrite decide_False by (destruct c; [congruence|discriminate]).
  destruct (decide (length c < nonceSize)) as [Hlt|Hlt]; [left; auto|].
  right. split; [lia|].
  destruct (cipher.Open (gcm s) [] (take nonceSize c) (drop nonceSize c) [])
    as [p|e|msg] eqn:Hopen; eauto.
  exfalso. eapply (open_no_panic _ Hs); [|exact Hopen]. rewrite length_take. lia.
Qed.

End Core.

(** ** The record transformers as functions on the list of fields *)

Lemma EncryptStruct_eq (s : Service) : EncryptStruct s = transformStruct (encrypt_op s).
Proof. reflexivity. Qed.

Lemma DecryptStruct_eq (s : Service) : DecryptStruct s = transformStruct (decrypt_op s).
Proof. reflexivity. Qed.

Lemma EncryptFields_eq (s : Service) : EncryptFields s = transformFields (encrypt_op s).
Proof. reflexivity. Qed.

Lemma DecryptFields_eq (s : Service) : DecryptFields s = transformFields (decrypt_op s).
Proof. reflexivity. Qed.

Section Transformers.

Variable op : cipher_op.

Lemma lookup_map {A B : Type} (f : A -> B) (l : list A) (i : nat) :
  map f l !! i = option_map f (l !! i).
Proof.
  revert i. induction l as [|x l IH]; intros [|i]; cbn; auto.
Qed.

Lemma insert_middle {A : Type} (l1 l2 : list A) (x y : A) :
  <[length l1 := y]> (l1 ++ x :: l2) = l1 ++ y :: l2.
Proof. rewrite insert_app_r_alt, Nat.sub_diag by lia. reflexivity. Qed.

Lemma TypeOf_fields (fs : list field) :
  reflect.Type_fields (reflect.TypeOf (VStruct fs)) = map fst fs.
Proof.
  cbn [reflect.TypeOf reflect.Type_fields]. rewrite map_map.
  apply map_ext. now intros [sf y].
Qed.

Lemma existsb_Anonymous (fs : list field) :
  existsb (fun fld : StructField * rtype => Anonymous (fst fld))
          (map (fun '(sf, y) => (sf, reflect.TypeOf y)) fs)
  = existsb (fun fld : field => Anonymous (fst fld)) fs.
Proof.
  induction fs as [|[sf y] fs IH]; [reflexivity|]. cbn. now rewrite IH.
Qed.

Lemma no_embedded_existsb (fs : list field) :
  no_embedded fs -> existsb (fun fld : field => Anonymous (fst fld)) fs = false.
Proof.
  induction 1 as [|fld fs H _ IH]; [reflexivity|]. cbn. now rewrite H, IH.
Qed.

(** A declared field is found at once, whatever the struct embeds. *)
Lemma Type_FieldByName_declared (fs : list field) (name : string) (i : nat) :
  declared_field (map fst fs) name = Some i ->
  reflect.Type_FieldByName (reflect.TypeOf (VStruct fs)) name = Some [i].
Proof.
  unfold declared_field, reflect.Type_FieldByName.
  pose proof (TypeOf_fields fs) as E. cbn [reflect.TypeOf reflect.Type_fields] in E.
  cbn [reflect.TypeOf]. rewrite E.
  destruct (decide (name = "")); [discriminate|]. now intros ->.
Qed.

(** Without embedded fields a name resolves to a declared field or to
    nothing. *)
Lemma Type_FieldByName_plain (fs : list field) (name : string) :
  no_embedded fs ->
  reflect.Type_FieldByName (reflect.TypeOf (VStruct fs)) name
  = option_map (fun i => [i]) (declared_field (map fst fs) name).
Proof.
  intros Hno. unfold declared_field, reflect.Type_FieldByName.
  pose proof (TypeOf_fields fs) as E. cbn [reflect.TypeOf reflect.Type_fields] in E.
  cbn [reflect.TypeOf]. rewrite E.
  destruct (decide (name = "")); [reflexivity|].
  destruct (reflect.lookup_name (map fst fs) name 0); [reflexivity|].
  now rewrite existsb_Anonymous, no_embedded_existsb.
Qed.

Lemma no_embedded_types (fs fs' : list field) :
  map fst fs' = map fst fs -> no_embedded fs -> no_embedded fs'.
Proof.
  unfold no_embedded. revert fs'. induction fs as [|fld fs IH]; intros [|fld' fs'] E H;
    try discriminate; constructor.
  - injection E as E _. rewrite E. now inversion H.
  - injection E as _ E. apply IH; [exact E|now inversion H].
Qed.

(** One iteration of the tag-driven loop, at the field that follows
    [done]. *)
Lemma struct_body_at (fs0 done rest : list field) (sf : StructField) (x : value)
  (r : rand.Reader) :
  map fst (done ++ (sf, x) :: rest) = map fst fs0 ->
  struct_body op (pointee fs0) (reflect.TypeOf (VStruct fs0))
              (length done) (VPtr (inl (VStruct (done ++ (sf, x) :: rest)))) r
  = if tagged sf && exported sf then
      let '(res, fld', r') := transform_field op (sf, x) r in
      (res, VPtr (inl (VStruct (done ++ fld' :: rest))), r')
    else (Ok tt, VPtr (inl (VStruct (done ++ (sf, x) :: rest))), r).
Proof.
  intros Hty. unfold struct_body, pointee.
  cbn [reflect.Value_Field reflect.load app].
  rewrite list_lookup_middle by reflexivity.
  assert (HT : reflect.Type_Field (reflect.TypeOf (VStruct fs0)) (length done) = sf).
  { unfold reflect.Type_Field. rewrite TypeOf_fields, <- Hty, map_app. cbn [map fst].
    rewrite nth_lookup, list_lookup_middle by (now rewrite length_map). reflexivity. }
  rewrite HT. unfold tagged, exported.
  destruct (decide (reflect.StructTag_Get (Tag sf) "encrypt" <> "true")) as [Ht|Ht].
  { rewrite bool_decide_eq_false_2 by assumption. reflexivity. }
  apply dec_stable in Ht. rewrite (bool_decide_eq_true_2 _ Ht). cbn [andb].
  cbn [reflect.Value_Kind reflect.Value_CanSet orb andb].
  destruct (bool_decide (PkgPath sf = "")); cbn [negb andb orb].
  2:{ destruct (Anonymous sf); cbn [negb andb orb]; rewrite orb_true_r; reflexivity. }
  rewrite orb_false_r.
  destruct x as [|bo|z|text|bs|t|fs]; cbn [reflect.kind_of transform_field];
    try (rewrite bool_decide_eq_true_2 by discriminate; reflexivity).
  rewrite bool_decide_eq_false_2 by (intros H; now apply H).
  cbn [reflect.Value_String].
  destruct (decide (text = "")) as [He|He]; [reflexivity|].
  destruct (op text r) as [[text'|e|msg] r']; try reflexivity.
  cbn [reflect.Value_SetString reflect.store].
  rewrite list_lookup_middle by reflexivity. rewrite insert_middle. reflexivity.
Qed.

Lemma struct_loop (fs0 rest done : list field) (r : rand.Reader) :
  map fst (done ++ rest) = map fst fs0 ->
  for_range (seq (length done) (length rest))
            (struct_body op (pointee fs0) (reflect.TypeOf (VStruct fs0)))
            (VPtr (inl (VStruct (done ++ rest)))) r
  = let '(res, rest', r') := tagged_fields op rest r in
    (res, VPtr (inl (VStruct (done ++ rest'))), r').
Proof.
  revert done r. induction rest as [|[sf x] rest IH]; intros done r Hty.
  { reflexivity. }
  cbn [length seq for_range tagged_fields fst].
  rewrite struct_body_at by assumption.
  destruct (tagged sf && exported sf).
  - destruct (transform_field op (sf, x) r) as [[res fld'] r'] eqn:Hf.
    assert (Hsf : fst fld' = sf).
    { unfold transform_field in Hf. destruct x; try (injection Hf as <- <- <-; reflexivity).
      destruct (decide (s = "")); [injection Hf as <- <- <-; reflexivity|].
      destruct (op s r) as [[?|?|?] ?]; injection Hf as <- <- <-; reflexivity. }
    destruct res as [u|e|msg]; try reflexivity.
    specialize (IH (done ++ [fld']) r').
    rewrite length_app, Nat.add_1_r, <- !app_assoc in IH. cbn [app] in IH.
    rewrite IH.
    + destruct (tagged_fields op rest r') as [[res rest'] r''].
      now rewrite <- app_assoc.
    + rewrite <- Hty, !map_app. cbn [map fst]. now rewrite Hsf.
  - specialize (IH (done ++ [(sf, x)]) r).
    rewrite length_app, Nat.add_1_r, <- !app_assoc in IH. cbn [app] in IH.
    etrans; [exact (IH Hty)|].
    destruct (tagged_fields op rest r) as [[res rest'] r'].
    now rewrite <- app_assoc.
Qed.

(** [EncryptStruct] / [DecryptStruct] on a pointer to a struct. *)
Lemma transformStruct_ptr (fs : list field) (r : rand.Reader) :
  transformStruct op (VPtr (inl (VStruct fs))) r
  = let '(res, fs', r') := tagged_fields op fs r in
    (res, VPtr (inl (VStruct fs')), r').
Proof.
  unfold transformStruct.
  cbn [reflect.ValueOf reflect.Value_Kind reflect.kind_of reflect.Value_Elem app
       reflect.Value_NumField reflect.Value_Type].
  destruct (decide (reflect.Ptr = reflect.Ptr)) as [_|H]; [|now contradict H].
  cbn [reflect.Value_Kind reflect.kind_of reflect.Value_NumField reflect.Value_Type].
  destruct (decide (reflect.Struct <> reflect.Struct)) as [H|_]; [now contradict H|].
  apply (struct_loop fs fs []). reflexivity.
Qed.

Lemma for_range_skip {A : Type} (xs : list A)
  (body : A -> value -> rand.Reader -> effect) (m : value) (r : rand.Reader) :
  (forall x, In x xs -> body x m r = (Ok tt, m, r)) ->
  for_range xs body m r = (Ok tt, m, r).
Proof.
  induction xs as [|x xs IH]; intros H; [reflexivity|].
  cbn [for_range]. rewrite H by (left; reflexivity).
  apply IH. intros y Hy. apply H. now right.
Qed.

(** A struct passed by value is a copy: nothing in it is settable. *)
Lemma transformStruct_value (fs : list field) (r : rand.Reader) :
  transformStruct op (VStruct fs) r = (Ok tt, VStruct fs, r).
Proof.
  unfold transformStruct.
  cbn [reflect.ValueOf reflect.Value_Kind reflect.kind_of].
  destruct (decide (reflect.Struct = reflect.Ptr)) as [H|_]; [discriminate|].
  cbn [reflect.Value_Kind reflect.kind_of].
  destruct (decide (reflect.Struct <> reflect.Struct)) as [H|_]; [now contradict H|].
  apply for_range_skip. intros i _. unfold struct_body.
  destruct (decide (_ <> "true")); [reflexivity|].
  cbn [reflect.Value_Field reflect.load].
  destruct (fs !! i) as [[sf x]|]; cbn [reflect.Value_CanSet andb negb];
    now rewrite orb_true_r.
Qed.

(** Anything that is neither a struct nor a pointer to a struct is left
    alone. *)
Lemma non_record_kind (v : value) :
  ~ is_record v ->
  reflect.Value_Kind
    (if decide (reflect.Value_Kind (reflect.ValueOf v) = reflect.Ptr)
     then reflect.Value_Elem (reflect.ValueOf v) else reflect.ValueOf v)
  <> reflect.Struct.
Proof.
  intros Hv. destruct v as [|bo|z|text|bs|[t|ty]|fs]; try destruct t;
    cbn in *; try discriminate; tauto.
Qed.

Lemma transformStruct_other (v : value) (r : rand.Reader) :
  ~ is_record v -> transformStruct op v r = (Ok tt, v, r).
Proof.
  intros Hv. unfold transformStruct. cbv zeta.
  destruct (decide (_ <> reflect.Struct)) as [_|H]; [reflexivity|].
  exfalso. apply H. now apply non_record_kind.
Qed.

Lemma transform_field_fst (fld fld' : field) (r r' : rand.Reader) (res : result unit) :
  transform_field op fld r = (res, fld', r') -> fst fld' = fst fld.
Proof.
  unfold transform_field. destruct fld as [sf x].
  destruct x; try (intros [= <- <- <-]; reflexivity).
  destruct (decide (s = "")); [intros [= <- <- <-]; reflexivity|].
  destruct (op s r) as [[?|?|?] ?]; intros [= <- <- <-]; reflexivity.
Qed.

(** When the text operation fails the field is kept. *)
Lemma transform_field_stop (fld fld' : field) (r r' : rand.Reader) (res : result unit) :
  transform_field op fld r = (res, fld', r') -> res <> Ok tt -> fld' = fld.
Proof.
  unfold transform_field. destruct fld as [sf x].
  destruct x; try (intros [= <- <- <-]; reflexivity).
  destruct (decide (s = "")); [intros [= <- <- <-]; reflexivity|].
  destruct (op s r) as [[?|?|?] ?]; intros [= <- <- <-]; try reflexivity.
  intros H. now contradict H.
Qed.

(** One iteration of the name-driven loop, on a struct without embedded
    fields. *)
Lemma fields_body_at (fs0 fs : list field) (name : string) (r : rand.Reader) :
  map fst fs = map fst fs0 -> no_embedded fs0 ->
  fields_body op (pointee fs0) name (VPtr (inl (VStruct fs))) r
  = let '(res, fs', r') := named_field op fs name r in
    (res, VPtr (inl (VStruct fs')), r').
Proof.
  intros Hty Hno. unfold fields_body, named_field, reflect.Value_FieldByName, pointee.
  cbn [reflect.Value_Kind reflect.kind_of reflect.Value_Type].
  destruct (decide (reflect.Struct = reflect.Struct)) as [_|H]; [|now contradict H].
  rewrite Type_FieldByName_plain by assumption. rewrite Hty.
  destruct (declared_field (map fst fs0) name) as [i|]; [|reflexivity].
  cbn [option_map reflect.Value_FieldByIndex reflect.Value_Field reflect.load app].
  destruct (fs !! i) as [[sf x]|] eqn:Hi; [|reflexivity].
  assert (Hsf : Anonymous sf = false).
  { apply (no_embedded_types fs0 fs) in Hno; [|exact Hty].
    exact (Forall_lookup_1 _ _ _ _ Hno Hi). }
  rewrite Hsf.
  cbn [reflect.Value_IsValid reflect.Value_CanSet negb orb andb fst].
  unfold exported. rewrite !andb_false_r.
  destruct (bool_decide (PkgPath sf = "")); cbn [negb orb andb]; [|reflexivity].
  destruct x as [|bo|z|text|bs|t|fs1]; cbn [reflect.Value_Kind reflect.kind_of transform_field];
    try (destruct (decide (_ <> reflect.String)) as [_|H];
         [now rewrite list_insert_id | exfalso; apply H; discriminate]).
  destruct (decide (reflect.String <> reflect.String)) as [H|_]; [now contradict H|].
  cbn [reflect.Value_String].
  destruct (decide (text = "")) as [He|He]; [now rewrite list_insert_id|].
  destruct (op text r) as [[text'|e|msg] r']; try (now rewrite list_insert_id).
  cbn [reflect.Value_SetString reflect.store]. rewrite Hi. reflexivity.
Qed.

Lemma named_field_types (fs fs' : list field) (name : string) (r r' : rand.Reader)
  (res : result unit) :
  named_field op fs name r = (res, fs', r') -> map fst fs' = map fst fs.
Proof.
  unfold named_field.
  destruct (declared_field (map fst fs) name) as [i|]; [|now intros [= <- <- <-]].
  destruct (fs !! i) as [fld|] eqn:Hi; [|now intros [= <- <- <-]].
  destruct (exported (fst fld)); [|now intros [= <- <- <-]].
  destruct (transform_field op fld r) as [[res1 fld'] r1] eqn:Hf.
  intros [= <- <- <-]. apply transform_field_fst in Hf.
  apply list_eq. intros j. rewrite !lookup_map.
  destruct (decide (j = i)) as [->|Hj].
  - rewrite list_lookup_insert_eq by (now apply lookup_lt_Some in Hi).
    rewrite Hi. cbn. now rewrite Hf.
  - now rewrite list_lookup_insert_ne by auto.
Qed.

Lemma fields_loop (fs0 : list field) (names : list string) (fs : list field)
  (r : rand.Reader) :
  map fst fs = map fst fs0 -> no_embedded fs0 ->
  for_range names (fields_body op (pointee fs0)) (VPtr (inl (VStruct fs))) r
  = let '(res, fs', r') := named_fields op fs names r in
    (res, VPtr (inl (VStruct fs')), r').
Proof.
  intros Hty Hno. revert fs r Hty.
  induction names as [|name names IH]; intros fs r Hty; [reflexivity|].
  cbn [for_range named_fields]. rewrite fields_body_at by assumption.
  destruct (named_field op fs name r) as [[res fs1] r1] eqn:Hn.
  apply named_field_types in Hn.
  destruct res as [u|e|msg]; try reflexivity.
  apply IH. congruence.
Qed.

Lemma transformFields_pointee (fs : list field) (names : list string) (r : rand.Reader) :
  transformFields op (VPtr (inl (VStruct fs))) names r
  = for_range names (fields_body op (pointee fs)) (VPtr (inl (VStruct fs))) r.
Proof.
  unfold transformFields.
  cbn [reflect.ValueOf reflect.Value_Kind reflect.kind_of reflect.Value_Elem app].
  destruct (decide (reflect.Ptr = reflect.Ptr)) as [_|H]; [|now contradict H].
  reflexivity.
Qed.

(** [EncryptFields] / [DecryptFields] on a pointer to a struct without
    embedded fields, on such a struct passed by value, and on anything that
    is not a struct. *)
Lemma transformFields_ptr (fs : list field) (names : list string) (r : rand.Reader) :
  no_embedded fs ->
  transformFields op (VPtr (inl (VStruct fs))) names r
  = let '(res, fs', r') := named_fields op fs names r in
    (res, VPtr (inl (VStruct fs')), r').
Proof.
  intros Hno. rewrite transformFields_pointee. now apply fields_loop.
Qed.

Lemma transformFields_value (fs : list field) (names : list string) (r : rand.Reader) :
  no_embedded fs ->
  transformFields op (VStruct fs) names r = (Ok tt, VStruct fs, r).
Proof.
  intros Hno. unfold transformFields.
  cbn [reflect.ValueOf reflect.Value_Kind reflect.kind_of].
  destruct (decide (reflect.Struct = reflect.Ptr)) as [H|_]; [discriminate|].
  apply for_range_skip. intros name _. unfold fields_body, reflect.Value_FieldByName.
  cbn [reflect.Value_Kind reflect.kind_of reflect.Value_Type].
  destruct (decide (reflect.Struct = reflect.Struct)) as [_|H]; [|now contradict H].
  rewrite Type_FieldByName_plain by assumption.
  destruct (declared_field (map fst fs) name) as [i|]; [|reflexivity].
  cbn [option_map reflect.Value_FieldByIndex reflect.Value_Field reflect.load].
  destruct (fs !! i) as [[sf x]|]; [|reflexivity].
  cbn [reflect.Value_IsValid reflect.Value_CanSet andb negb orb]. reflexivity.
Qed.

Lemma transformFields_other (v : value) (name : string) (names : list string)
  (r : rand.Reader) :
  ~ is_record v ->
  exists msg, transformFields op v (name :: names) r = (Panic msg, v, r).
Proof.
  intros Hv. unfold transformFields. cbv zeta. cbn [for_range].
  unfold fields_body at 1. unfold reflect.Value_FieldByName.
  destruct (decide (_ = reflect.Struct)) as [H|_]; [|eexists; reflexivity].
  exfalso. revert H. now apply non_record_kind.
Qed.

Lemma transformFields_nil (v : value) (r : rand.Reader) :
  transformFields op v [] r = (Ok tt, v, r).
Proof. reflexivity. Qed.

End Transformers.

(** ** Resolving a name: [FieldByName] and promoted fields *)

Lemma lookup_name_Some (t : list StructField) (name : string) (k i : nat) :
  reflect.lookup_name t name k = Some i ->
  k <= i /\ exists sf, t !! (i - k) = Some sf /\ Name sf = name.
Proof.
  revert k. induction t as [|sf t IH]; intros k; cbn; [discriminate|].
  destruct (decide (Name sf = name)) as [E|_].
  - intros [= <-]. split; [lia|]. exists sf. now rewrite Nat.sub_diag.
  - intros H. apply IH in H as [Hk (sf' & Hl & Hn)]. split; [lia|].
    exists sf'. split; [|exact Hn].
    replace (i - k) with (S (i - S k)) by lia. exact Hl.
Qed.

Lemma lookup_name_None (t : list StructField) (name : string) (k : nat) :
  reflect.lookup_name t name k = None <-> Forall (fun sf => Name sf <> name) t.
Proof.
  revert k. induction t as [|sf t IH]; intros k; cbn.
  - split; [constructor|reflexivity].
  - destruct (decide (Name sf = name)) as [E|E].
    + split; [discriminate|]. intros H. inversion H; contradiction.
    + rewrite IH. split; [now constructor|]. intros H. now inversion H.
Qed.

Section Search.

Variable root : structType.
Variable match_ : string -> bool.

Lemma found_in_root_snoc (sc : reflect.fieldScan) (i : nat) (f : StructField) (u : rtype) :
  scan_in_root root sc -> reflect.typ sc !! i = Some (f, u) -> match_ (Name f) = true ->
  found_in_root root match_ (reflect.index sc ++ [i]).
Proof.
  intros [[Hi Ht]|(i0 & rest & f0 & u0 & Hi & Hr & Ha)] Hf Hm.
  - rewrite Hi. exists i, [], f, u. rewrite <- Ht.
    split; [reflexivity|]. split; [exact Hf|]. split; [auto|]. intros H. now contradict H.
  - rewrite Hi. exists i0, (rest ++ [i]), f0, u0.
    split; [reflexivity|]. split; [exact Hr|]. split; [|auto].
    intros H. now apply app_eq_nil in H as [_ H].
Qed.

Lemma scan_in_root_snoc (sc : reflect.fieldScan) (i : nat) (f : StructField) (u : rtype)
  (styp : structType) :
  scan_in_root root sc -> reflect.typ sc !! i = Some (f, u) -> Anonymous f = true ->
  scan_in_root root {| reflect.typ := styp; reflect.index := reflect.index sc ++ [i] |}.
Proof.
  intros [[Hi Ht]|(i0 & rest & f0 & u0 & Hi & Hr & Ha)] Hf Hm; right; cbn; rewrite Hi.
  - exists i, [], f, u. rewrite <- Ht. auto.
  - exists i0, (rest ++ [i]), f0, u0. auto.
Qed.

Lemma scan_fields_in_root (count_t : nat) (sc : reflect.fieldScan) (fields : structType)
  (i : nat) (st st' : reflect.search) :
  scan_in_root root sc ->
  (forall j fld, fields !! j = Some fld -> reflect.typ sc !! (i + j) = Some fld) ->
  search_in_root root match_ st ->
  reflect.scan_fields match_ count_t (reflect.index sc) fields i st = Some st' ->
  search_in_root root match_ st'.
Proof.
  intros Hsc. revert i st. induction fields as [|[f ftyp] fields IH]; intros i st Hsuf Hst.
  { cbn. now intros [= <-]. }
  assert (Hhere : reflect.typ sc !! i = Some (f, ftyp)).
  { specialize (Hsuf 0 (f, ftyp) eq_refl). now rewrite Nat.add_0_r in Hsuf. }
  assert (Hrest : forall j fld, fields !! j = Some fld ->
                                reflect.typ sc !! (S i + j) = Some fld).
  { intros j fld Hj. specialize (Hsuf (S j) fld Hj).
    now replace (S i + j) with (i + S j) by lia. }
  cbn [reflect.scan_fields].
  destruct (match_ (Name f)) eqn:Hm.
  - destruct (_ || _); [discriminate|].
    apply IH; [exact Hrest|]. split; cbn.
    + intros idx [= <-]. eapply found_in_root_snoc; eauto.
    + apply Hst.
  - destruct (reflect.found st) eqn:Hfound.
    { destruct (Anonymous f); now apply IH. }
    destruct (Anonymous f) eqn:Ha; [|now apply IH].
    assert (Hq : forall styp nc,
              search_in_root root match_
                {| reflect.found := None;
                   reflect.next := reflect.next st
                     ++ [{| reflect.typ := styp; reflect.index := reflect.index sc ++ [i] |}];
                   reflect.nextCount := nc |}).
    { intros styp nc. split; cbn; [discriminate|].
      apply Forall_app. split; [apply Hst|]. constructor; [|constructor].
      eapply scan_in_root_snoc; eauto. }
    assert (Hk : forall nc,
              search_in_root root match_
                {| reflect.found := None; reflect.next := reflect.next st;
                   reflect.nextCount := nc |}).
    { intros nc. split; cbn; [discriminate|apply Hst]. }
    destruct ftyp as [| | | | |elem|styp]; try (now apply IH).
    + destruct elem as [| | | | |elem'|styp]; try (now apply IH).
      destruct (0 <? _); apply IH; auto.
    + destruct (0 <? _); apply IH; auto.
Qed.

Lemma scan_level_in_root (count : reflect.counts) (current : list reflect.fieldScan)
  (visited visited' : list structType) (st st' : reflect.search) :
  Forall (scan_in_root root) current -> search_in_root root match_ st ->
  reflect.scan_level match_ count current visited st = Some (st', visited') ->
  search_in_root root match_ st'.
Proof.
  intros Hcur. revert visited st.
  induction Hcur as [|sc current Hsc _ IH]; intros visited st Hst; cbn.
  { now intros [= <- _]. }
  destruct (reflect.was_visited visited (reflect.typ sc)); [now apply IH|].
  destruct (reflect.scan_fields _ _ _ _ _ _) as [st1|] eqn:Hscan; [|discriminate].
  apply IH. eapply scan_fields_in_root; eauto.
  intros j fld Hj. exact Hj.
Qed.

Lemma search_levels_in_root (fuel : nat) (next_ : list reflect.fieldScan)
  (nextCount_ : reflect.counts) (visited : list structType) (idx : list nat) :
  Forall (scan_in_root root) next_ ->
  reflect.search_levels fuel match_ next_ nextCount_ visited = Some idx ->
  found_in_root root match_ idx.
Proof.
  revert next_ nextCount_ visited.
  induction fuel as [|fuel IH]; intros next_ nextCount_ visited Hnext; cbn; [discriminate|].
  destruct next_ as [|sc next_]; [discriminate|].
  destruct (reflect.scan_level _ _ _ _ _) as [[st visited']|] eqn:Hlevel; [|discriminate].
  apply scan_level_in_root in Hlevel; [|exact Hnext|split; cbn; [discriminate|constructor]].
  destruct (reflect.found st) as [index|] eqn:Hf.
  - intros [= <-]. now apply Hlevel.
  - apply IH, Hlevel.
Qed.

Lemma Type_FieldByNameFunc_in_root (idx : list nat) :
  reflect.Type_FieldByNameFunc root match_ = Some idx -> found_in_root root match_ idx.
Proof.
  apply search_levels_in_root. constructor; [|constructor]. left. split; reflexivity.
Qed.

End Search.

(** The index sequence a name resolves to starts with a declared field of
    that name, and then ends there, or with an embedded field. *)
Lemma Type_FieldByName_shape (fs : structType) (name : string) (idx : list nat) :
  reflect.Type_FieldByName (TStruct fs) name = Some idx ->
  exists i rest f u,
    idx = i :: rest /\ fs !! i = Some (f, u)
    /\ (rest = [] -> Name f = name)
    /\ (rest <> [] -> Anonymous f = true).
Proof.
  unfold reflect.Type_FieldByName.
  destruct (decide (name = "")); [discriminate|].
  destruct (reflect.lookup_name (map fst fs) name 0) as [i|] eqn:Hl.
  - intros [= <-]. apply lookup_name_Some in Hl as (_ & sf & Hi & Hn).
    rewrite Nat.sub_0_r in Hi.
    change (map fst fs) with (fst <$> fs) in Hi.
    rewrite list_lookup_fmap in Hi.
    destruct (fs !! i) as [[f u]|] eqn:Hfi; [|discriminate]. injection Hi as <-.
    exists i, [], f, u.
    split; [reflexivity|]. split; [exact Hfi|]. split; [auto|]. intros H. now contradict H.
  - destruct (existsb _ fs); [|discriminate].
    intros H. apply Type_FieldByNameFunc_in_root in H as (i & rest & f & u & -> & Hi & H1 & H2).
    exists i, rest, f, u.
    split; [reflexivity|]. split; [exact Hi|]. split; [|exact H2].
    intros Hr. specialize (H1 Hr). apply String.eqb_eq in H1. now symmetry.
Qed.

(** *** The search ends before its fuel does *)

Lemma depth_fields (fs : structType) (d : nat) :
  reflect.depth (TStruct fs) <= S d -> Forall (fun fld => reflect.depth (snd fld) <= d) fs.
Proof.
  cbn [reflect.depth]. intros H. apply le_S_n in H.
  apply list_max_le in H. rewrite List.Forall_map in H.
  eapply Forall_impl; [exact H|]. now intros [f u].
Qed.

Lemma scan_fields_below (match_ : string -> bool) (count_t : nat) (scan_index : list nat)
  (fields : structType) (i d : nat) (st st' : reflect.search) :
  Forall (fun fld => reflect.depth (snd fld) <= d) fields ->
  scans_below d (reflect.next st) ->
  reflect.scan_fields match_ count_t scan_index fields i st = Some st' ->
  scans_below d (reflect.next st').
Proof.
  intros Hf. revert i st. induction Hf as [|[f ftyp] fields Hd _ IH]; intros i st Hst.
  { cbn. now intros [= <-]. }
  cbn [reflect.scan_fields]. cbn [snd] in Hd.
  destruct (match_ (Name f)).
  { destruct (_ || _); [discriminate|]. now apply IH. }
  destruct (reflect.found st); [destruct (Anonymous f); now apply IH|].
  destruct (Anonymous f); [|now apply IH].
  assert (Hq : forall styp idx nc,
            reflect.depth (TStruct styp) <= d ->
            scans_below d (reflect.next
              {| reflect.found := None;
                 reflect.next := reflect.next st
                   ++ [{| reflect.typ := styp; reflect.index := idx |}];
                 reflect.nextCount := nc |})).
  { intros styp idx nc Hs. cbn. apply Forall_app. split; [exact Hst|].
    constructor; [exact Hs|constructor]. }
  destruct ftyp as [| | | | |elem|styp]; try (now apply IH).
  - destruct elem as [| | | | |elem'|styp]; try (now apply IH).
    destruct (0 <? _); apply IH; auto. apply Hq. cbn [reflect.depth] in *. lia.
  - destruct (0 <? _); apply IH; auto.
Qed.

Lemma scan_level_below (match_ : string -> bool) (count : reflect.counts)
  (current : list reflect.fieldScan) (visited visited' : list structType) (d : nat)
  (st st' : reflect.search) :
  scans_below (S d) current -> scans_below d (reflect.next st) ->
  reflect.scan_level match_ count current visited st = Some (st', visited') ->
  scans_below d (reflect.next st').
Proof.
  intros Hcur. revert visited st.
  induction Hcur as [|sc current Hsc _ IH]; intros visited st Hst; cbn.
  { now intros [= <- _]. }
  destruct (reflect.was_visited visited (reflect.typ sc)); [now apply IH|].
  destruct (reflect.scan_fields _ _ _ _ _ _) as [st1|] eqn:Hscan; [|discriminate].
  apply IH. eapply scan_fields_below; [|exact Hst|exact Hscan]. now apply depth_fields.
Qed.

(** With the queue nested at most [d] deep, [d] rounds are enough: more
    fuel changes nothing. *)
Lemma search_levels_fuel (match_ : string -> bool) (d fuel fuel' : nat)
  (next_ : list reflect.fieldScan) (nextCount_ : reflect.counts)
  (visited : list structType) :
  scans_below d next_ -> d <= fuel -> d <= fuel' ->
  reflect.search_levels fuel match_ next_ nextCount_ visited
  = reflect.search_levels fuel' match_ next_ nextCount_ visited.
Proof.
  revert fuel fuel' next_ nextCount_ visited.
  induction d as [|d IH]; intros fuel fuel' next_ nextCount_ visited Hb Hf Hf'.
  - assert (next_ = []) as ->.
    { destruct next_ as [|sc next_]; [reflexivity|]. inversion Hb as [|? ? H0 _].
      cbn in H0. lia. }
    destruct fuel, fuel'; reflexivity.
  - destruct fuel as [|fuel]; [lia|]. destruct fuel' as [|fuel']; [lia|].
    cbn [reflect.search_levels]. destruct next_ as [|sc next_]; [reflexivity|].
    destruct (reflect.scan_level _ _ _ _ _) as [[st visited']|] eqn:Hlevel; [|reflexivity].
    destruct (reflect.found st); [reflexivity|].
    apply IH; [|lia|lia].
    eapply scan_level_below; [exact Hb| |exact Hlevel]. constructor.
Qed.

Lemma Type_FieldByNameFunc_fuel (t : structType) (match_ : string -> bool) (k : nat) :
  reflect.search_levels (reflect.depth (TStruct t) + k) match_
                        [{| reflect.typ := t; reflect.index := [] |}] [] []
  = reflect.Type_FieldByNameFunc t match_.
Proof.
  unfold reflect.Type_FieldByNameFunc.
  apply (search_levels_fuel _ (reflect.depth (TStruct t))); [|lia|lia].
  constructor; [reflexivity|constructor].
Qed.

(** *** Places in the data *)

Lemma load_app (m : value) (p q : reflect.path) :
  reflect.load m (p ++ q) = reflect.load m p ≫= (fun y => reflect.load y q).
Proof.
  revert m. induction p as [|[|i] p IH]; intros m; cbn; [reflexivity| |].
  - destruct m as [| | | | |[t|ty]|]; cbn; auto.
  - destruct m as [| | | | | |fs]; cbn; auto.
    destruct (fs !! i) as [[sf y]|]; cbn; auto.
Qed.

Lemma store_app (m y : value) (p q : reflect.path) (x : value) :
  reflect.load m p = Some y ->
  reflect.store m (p ++ q) x = reflect.store m p (reflect.store y q x).
Proof.
  revert m. induction p as [|[|i] p IH]; intros m; cbn.
  - now intros [= ->].
  - destruct m as [| | | | |[t|ty]|]; try discriminate. intros H. now rewrite IH.
  - destruct m as [| | | | | |fs]; try discriminate.
    destruct (fs !! i) as [[sf z]|]; try discriminate. intros H. now rewrite IH.
Qed.

Lemma kind_of_TypeOf (x : value) : reflect.kind_of x = reflect.Type_Kind (reflect.TypeOf x).
Proof. destruct x as [| | | | |[t|ty]|]; reflexivity. Qed.

(** Writing a string where a string is leaves every type as it was. *)
Lemma store_TypeOf (m : value) (p : reflect.path) (text text' : string) :
  reflect.load m p = Some (VString text) ->
  reflect.TypeOf (reflect.store m p (VString text')) = reflect.TypeOf m.
Proof.
  revert m. induction p as [|[|i] p IH]; intros m; cbn [reflect.load reflect.store].
  - now intros [= ->].
  - destruct m as [| | | | |[t|ty]|]; try discriminate. intros H.
    cbn [reflect.TypeOf]. now rewrite IH.
  - destruct m as [| | | | | |fs]; try discriminate.
    destruct (fs !! i) as [[sf z]|] eqn:Hi; try discriminate. intros H.
    cbn [reflect.TypeOf]. f_equal.
    change (map ?f (<[i := ?x]> fs)) with (f <$> (<[i := x]> fs)).
    rewrite list_fmap_insert. rewrite IH by exact H.
    apply list_insert_id. rewrite list_lookup_fmap, Hi. reflexivity.
Qed.

Lemma store_load (m : value) (p : reflect.path) (x : value) :
  reflect.load m p = Some x -> reflect.store m p x = m.
Proof.
  revert m. induction p as [|[|i] p IH]; intros m; cbn [reflect.load reflect.store].
  - now intros [= ->].
  - destruct m as [| | | | |[t|ty]|]; try discriminate. intros H. now rewrite IH.
  - destruct m as [| | | | | |fs]; try discriminate.
    destruct (fs !! i) as [[sf z]|] eqn:Hi; try discriminate. intros H.
    rewrite IH by exact H. now rewrite list_insert_id.
Qed.

Lemma load_store (m : value) (p : reflect.path) (x y : value) :
  reflect.load m p = Some y -> reflect.load (reflect.store m p x) p = Some x.
Proof.
  revert m. induction p as [|[|i] p IH]; intros m; cbn [reflect.load reflect.store].
  - reflexivity.
  - destruct m as [| | | | |[t|ty]|]; try discriminate. intros H.
    cbn [reflect.load]. now apply IH.
  - destruct m as [| | | | | |fs]; try discriminate.
    destruct (fs !! i) as [[sf z]|] eqn:Hi; try discriminate. intros H.
    cbn [reflect.load]. rewrite list_lookup_insert_eq by (now apply lookup_lt_Some in Hi).
    now apply IH.
Qed.

Lemma store_store (m : value) (p : reflect.path) (x y : value) :
  reflect.store (reflect.store m p x) p y = reflect.store m p y.
Proof.
  revert m. induction p as [|[|i] p IH]; intros m; cbn [reflect.store].
  - reflexivity.
  - destruct m as [| | | | |[t|ty]|]; try reflexivity. cbn [reflect.store]. now rewrite IH.
  - destruct m as [| | | | | |gs]; try reflexivity.
    destruct (gs !! i) as [[sf z]|] eqn:Hi; cbn [reflect.store]; [|now rewrite Hi].
    rewrite list_lookup_insert_eq by (now apply lookup_lt_Some in Hi).
    now rewrite list_insert_insert_eq, IH.
Qed.

(** *** The Value a name resolves to *)

Lemma Value_Field_place (m : value) (v : reflect.Value) (i : nat) (x : value)
  (q : reflect.path) (a s e : bool) :
  reflect.Value_Field m v i = reflect.MkValue x q a s e ->
  q = ptr_of v ++ [reflect.Fld i] /\ reflect.load m q = Some x.
Proof.
  destruct v as [|this p a0 s0 e0]; cbn; [discriminate|].
  destruct (reflect.load m p) as [[| | | | | |fs]|] eqn:Hp; try discriminate.
  destruct (fs !! i) as [[sf y]|] eqn:Hi; try discriminate.
  intros [= <- <- _ _ _]. split; [reflexivity|].
  rewrite load_app, Hp. cbn. now rewrite Hi.
Qed.

Lemma FieldByIndex_loop_Zero (m : value) (idx : list nat) (first : bool) :
  reflect.FieldByIndex_loop m reflect.ZeroValue idx first = Ok reflect.ZeroValue.
Proof.
  revert first. induction idx as [|x idx IH]; intros first; cbn; [reflexivity|].
  rewrite andb_false_r. apply IH.
Qed.

Lemma ptr_of_Elem (v : reflect.Value) :
  reflect.Value_Elem v = reflect.ZeroValue
  \/ ptr_of (reflect.Value_Elem v) = ptr_of v ++ [reflect.Deref].
Proof.
  destruct v as [|[| | | | |[t|ty]|] p a s e]; cbn; auto.
Qed.

Lemma Value_Field_Zero (m : value) (i : nat) :
  reflect.Value_Field m reflect.ZeroValue i = reflect.ZeroValue.
Proof. reflexivity. Qed.

(** The place [FieldByIndex] ends at lies under the first index, and one
    index leads to a field of the struct itself. *)
Lemma FieldByIndex_loop_place (m : value) (idx : list nat) (v f : reflect.Value)
  (first : bool) :
  idx <> [] ->
  reflect.FieldByIndex_loop m v idx first = Ok f ->
  f = reflect.ZeroValue
  \/ exists x q a s e pre i rest qt,
       f = reflect.MkValue x q a s e /\ reflect.load m q = Some x
       /\ idx = i :: rest /\ q = ptr_of v ++ pre ++ reflect.Fld i :: qt
       /\ (first = true -> pre = []) /\ (rest = [] -> qt = []).
Proof.
  revert v first. induction idx as [|x idx IH]; intros v first Hne; [now contradict Hne|].
  cbn [reflect.FieldByIndex_loop].
  assert (Hstep : forall v1 pre,
            (v1 = reflect.ZeroValue \/ ptr_of v1 = ptr_of v ++ pre) ->
            (first = true -> pre = []) ->
            reflect.FieldByIndex_loop m (reflect.Value_Field m v1 x) idx false = Ok f ->
            f = reflect.ZeroValue
            \/ exists x0 q a s e pre0 i rest qt,
                 f = reflect.MkValue x0 q a s e /\ reflect.load m q = Some x0
                 /\ x :: idx = i :: rest /\ q = ptr_of v ++ pre0 ++ reflect.Fld i :: qt
                 /\ (first = true -> pre0 = []) /\ (rest = [] -> qt = [])).
  { intros v1 pre Hv1 Hpre Hrun.
    destruct Hv1 as [->|Hv1].
    { rewrite Value_Field_Zero, FieldByIndex_loop_Zero in Hrun. left. congruence. }
    destruct (reflect.Value_Field m v1 x) as [|y q1 a1 s1 e1] eqn:Hfld.
    { rewrite FieldByIndex_loop_Zero in Hrun. left. congruence. }
    apply Value_Field_place in Hfld as [Hq1 Hl1].
    rewrite Hv1, <- app_assoc in Hq1. subst q1.
    destruct idx as [|x2 idx].
    - cbn in Hrun. injection Hrun as <-. right.
      exists y, (ptr_of v ++ pre ++ [reflect.Fld x]), a1, s1, e1, pre, x, [], [].
      auto 10.
    - apply IH in Hrun; [|discriminate].
      destruct Hrun as [->|(x0 & q & a & s & e & pre2 & i2 & rest2 & qt2 & -> & Hl & _ & Hq & _)];
        [now left|right].
      exists x0, q, a, s, e, pre, x, (x2 :: idx), (pre2 ++ reflect.Fld i2 :: qt2).
      cbn [ptr_of] in Hq. rewrite <- !app_assoc in Hq. cbn [app] in Hq.
      split; [reflexivity|]. split; [exact Hl|]. split; [reflexivity|].
      split; [exact Hq|]. split; [exact Hpre|]. discriminate. }
  destruct (negb first && reflect.pointer_to_struct v) eqn:Hp.
  - destruct (reflect.Value_IsNil v); [discriminate|].
    apply (Hstep _ [reflect.Deref]).
    + apply ptr_of_Elem.
    + intros ->. discriminate Hp.
  - apply (Hstep v []); [right; now rewrite app_nil_r|auto].
Qed.

Lemma FieldByIndex_loop_stop (m : value) (idx : list nat) (v : reflect.Value)
  (first : bool) :
  (exists f, reflect.FieldByIndex_loop m v idx first = Ok f)
  \/ (reflect.FieldByIndex_loop m v idx first = Panic nil_embedded
      /\ (first = true -> 2 <= length idx)).
Proof.
  revert v first. induction idx as [|x idx IH]; intros v first; cbn [reflect.FieldByIndex_loop].
  { left. eauto. }
  destruct (negb first && reflect.pointer_to_struct v) eqn:Hp.
  - destruct (reflect.Value_IsNil v).
    + right. split; [reflexivity|]. intros ->. discriminate Hp.
    + destruct (IH (reflect.Value_Field m (reflect.Value_Elem v) x) false)
        as [H|[H _]]; [now left|].
      right. split; [exact H|]. intros ->. discriminate Hp.
  - destruct (IH (reflect.Value_Field m v x) false) as [H|[H _]]; [now left|].
    right. split; [exact H|]. intros _.
    destruct idx as [|x2 idx]; [discriminate H|cbn; lia].
Qed.

Lemma Value_FieldByIndex_loop (m : value) (v : reflect.Value) (idx : list nat) :
  reflect.Value_Kind v = reflect.Struct ->
  reflect.Value_FieldByIndex m v idx = reflect.FieldByIndex_loop m v idx true.
Proof.
  intros Hk. unfold reflect.Value_FieldByIndex.
  destruct idx as [|x [|x2 idx]]; try (now rewrite decide_True by exact Hk).
  reflexivity.
Qed.

(** [FieldByIndex] looks at the struct it starts from only for its place
    and its flags. *)
Lemma FieldByIndex_loop_this (m this this' : value) (p : reflect.path) (a s e : bool)
  (idx : list nat) :
  idx <> [] ->
  reflect.FieldByIndex_loop m (reflect.MkValue this p a s e) idx true
  = reflect.FieldByIndex_loop m (reflect.MkValue this' p a s e) idx true.
Proof. destruct idx as [|x idx]; [intros H; now contradict H|reflexivity]. Qed.

Section Steps.

Variable op : cipher_op.

(** What one iteration of the name-driven loop does: nothing; or it panics
    on a nil embedded pointer; or it finds a non-empty string at a place
    under the first index the name resolves to, and applies the text
    operation to it. *)
Lemma fields_body_cases (val : reflect.Value) (name : string) (m m' : value)
  (r r' : rand.Reader) (res : result unit) :
  reflect.Value_Kind val = reflect.Struct ->
  fields_body op val name m r = (res, m', r') ->
  (res = Ok tt /\ m' = m /\ r' = r)
  \/ (res = Panic nil_embedded /\ m' = m /\ r' = r
      /\ exists idx, reflect.Type_FieldByName (reflect.Value_Type val) name = Some idx
                     /\ 2 <= length idx)
  \/ (exists i rest qt text,
        reflect.Type_FieldByName (reflect.Value_Type val) name = Some (i :: rest)
        /\ (rest = [] -> qt = [])
        /\ reflect.load m (ptr_of val ++ reflect.Fld i :: qt) = Some (VString text)
        /\ text <> ""%string
        /\ ((exists text', op text r = (Ok text', r') /\ res = Ok tt
               /\ m' = reflect.store m (ptr_of val ++ reflect.Fld i :: qt) (VString text'))
            \/ (m' = m /\ ((exists e, op text r = (Err e, r') /\ res = Err e)
                           \/ (exists msg, op text r = (Panic msg, r') /\ res = Panic msg))))).
Proof.
  intros Hk. unfold fields_body, reflect.Value_FieldByName.
  rewrite decide_True by exact Hk.
  destruct (reflect.Type_FieldByName (reflect.Value_Type val) name) as [idx|] eqn:Hidx.
  2:{ cbn. intros [= <- <- <-]. now left. }
  rewrite Value_FieldByIndex_loop by exact Hk.
  destruct idx as [|i rest].
  { cbn [reflect.FieldByIndex_loop].
    destruct (negb _ || negb _); [intros [= <- <- <-]; now left|].
    rewrite Hk. destruct (decide (reflect.Struct <> reflect.String)) as [_|H];
      [intros [= <- <- <-]; now left|]. exfalso. apply H. discriminate. }
  destruct (FieldByIndex_loop_stop m (i :: rest) val true) as [[f Hf]|[Hp Hlen]].
  2:{ rewrite Hp. intros [= <- <- <-]. right. left. repeat split; auto.
      exists (i :: rest). split; [reflexivity|]. now apply Hlen. }
  rewrite Hf. apply FieldByIndex_loop_place in Hf; [|discriminate].
  destruct Hf as [->|(x & q & a & s & e & pre & i' & rest' & qt & -> & Hl & [= <- <-] & Hq & Hpre & Hqt)].
  { cbn. intros [= <- <- <-]. now left. }
  rewrite (Hpre eq_refl) in Hq. cbn [app] in Hq. subst q.
  cbn [reflect.Value_IsValid negb orb].
  destruct (negb (reflect.Value_CanSet _)); [intros [= <- <- <-]; now left|].
  cbn [reflect.Value_Kind].
  destruct (decide (reflect.kind_of x <> reflect.String)) as [_|Hx];
    [intros [= <- <- <-]; now left|].
  destruct x as [| | |text| | |]; try (exfalso; apply Hx; discriminate).
  cbn [reflect.Value_String].
  destruct (decide (text = "")) as [_|Hne]; [intros [= <- <- <-]; now left|].
  intros H. right. right. exists i, rest, qt, text.
  split; [reflexivity|]. split; [exact Hqt|]. split; [exact Hl|]. split; [exact Hne|].
  destruct (op text r) as [[text'|err|msg] r1]; injection H as <- <- <-.
  - left. exists text'. cbn [reflect.Value_SetString]. auto.
  - right. split; [reflexivity|]. left. eauto.
  - right. split; [reflexivity|]. right. eauto.
Qed.

(** The loop looks at the struct it starts from only for its type. *)
Lemma fields_body_this (this this' : value) (p : reflect.path) (a s e : bool)
  (name : string) (m : value) (r : rand.Reader) :
  reflect.TypeOf this = reflect.TypeOf this' ->
  fields_body op (reflect.MkValue this p a s e) name m r
  = fields_body op (reflect.MkValue this' p a s e) name m r.
Proof.
  intros Hty. unfold fields_body, reflect.Value_FieldByName.
  cbn [reflect.Value_Kind reflect.Value_Type]. rewrite !kind_of_TypeOf, <- Hty.
  destruct (decide (_ = reflect.Struct)) as [Hk|Hk]; [|reflexivity].
  destruct (reflect.Type_FieldByName (reflect.TypeOf this) name) as [idx|]; [|reflexivity].
  rewrite !Value_FieldByIndex_loop
    by (cbn [reflect.Value_Kind]; rewrite kind_of_TypeOf; congruence).
  destruct idx as [|i rest]; [|now rewrite (FieldByIndex_loop_this m this this')].
  cbn [reflect.FieldByIndex_loop reflect.Value_IsValid reflect.Value_CanSet
       reflect.Value_Kind].
  destruct (negb true || _); [reflexivity|].
  rewrite !kind_of_TypeOf, <- Hty, Hk.
  destruct (decide (reflect.Struct <> reflect.String)) as [_|H]; [reflexivity|].
  exfalso. apply H. discriminate.
Qed.

Lemma for_range_app {A : Type} (xs ys : list A)
  (body : A -> value -> rand.Reader -> effect) (m : value) (r : rand.Reader) :
  for_range (xs ++ ys) body m r
  = match for_range xs body m r with
    | (Ok _, m1, r1) => for_range ys body m1 r1
    | stop => stop
    end.
Proof.
  revert m r. induction xs as [|x xs IH]; intros m r; cbn [app for_range]; [reflexivity|].
  destruct (body x m r) as [[[u|e|msg] m1] r1]; auto.
Qed.

Lemma for_range_ext {A : Type} (xs : list A)
  (body body' : A -> value -> rand.Reader -> effect) (m : value) (r : rand.Reader) :
  (forall x m r, body x m r = body' x m r) ->
  for_range xs body m r = for_range xs body' m r.
Proof.
  intros H. revert m r. induction xs as [|x xs IH]; intros m r; cbn [for_range]; [reflexivity|].
  rewrite H. destruct (body' x m r) as [[[u|e|msg] m1] r1]; auto.
Qed.

Lemma TypeOf_insert (fs : list field) (i : nat) (sf : StructField) (y y' : value) :
  fs !! i = Some (sf, y) -> reflect.TypeOf y' = reflect.TypeOf y ->
  reflect.TypeOf (VStruct (<[i := (sf, y')]> fs)) = reflect.TypeOf (VStruct fs).
Proof.
  intros Hi Hy. cbn [reflect.TypeOf]. f_equal.
  change (map ?f (<[i := ?x]> fs)) with (f <$> (<[i := x]> fs)).
  rewrite list_fmap_insert, Hy. apply list_insert_id.
  now rewrite list_lookup_fmap, Hi.
Qed.

Lemma TypeOf_struct_fields (fs fs' : list field) :
  reflect.TypeOf (VStruct fs') = reflect.TypeOf (VStruct fs) -> map fst fs' = map fst fs.
Proof.
  intros H. rewrite <- !TypeOf_fields. now rewrite H.
Qed.

(** One iteration, seen from the struct the loop runs on: at most one
    field changes, the one under the first index, and it keeps its
    type. *)
Lemma step_frame (this0 : value) (p0 : reflect.path) (a s e : bool) (fs : list field)
  (name : string) (m m' : value) (r r' : rand.Reader) (res : result unit) :
  reflect.kind_of this0 = reflect.Struct ->
  reflect.load m p0 = Some (VStruct fs) ->
  fields_body op (reflect.MkValue this0 p0 a s e) name m r = (res, m', r') ->
  (m' = m /\ (res = Ok tt -> r' = r))
  \/ exists i rest qt sf y text text',
       reflect.Type_FieldByName (reflect.TypeOf this0) name = Some (i :: rest)
       /\ (rest = [] -> qt = [])
       /\ fs !! i = Some (sf, y)
       /\ reflect.load y qt = Some (VString text) /\ text <> ""%string
       /\ op text r = (Ok text', r') /\ res = Ok tt
       /\ m' = reflect.store m p0
                 (VStruct (<[i := (sf, reflect.store y qt (VString text'))]> fs)).
Proof.
  intros Hk Hp H. apply fields_body_cases in H; [|exact Hk].
  destruct H as [(-> & -> & ->)|[(-> & -> & -> & _)|
    (i & rest & qt & text & Hidx & Hqt & Hl & Hne & [(text' & Hop & -> & ->)|(-> & Hstop)])]].
  - left. auto.
  - left. split; [reflexivity|discriminate].
  - right. cbn [ptr_of reflect.Value_Type] in *.
    rewrite load_app, Hp in Hl. cbn [mbind option_bind reflect.load] in Hl.
    destruct (fs !! i) as [[sf y]|] eqn:Hi; [|discriminate].
    exists i, rest, qt, sf, y, text, text'.
    repeat (split; [assumption || reflexivity|]).
    rewrite (store_app m (VStruct fs)) by exact Hp.
    cbn [reflect.store]. now rewrite Hi.
  - left. split; [reflexivity|].
    destruct Hstop as [(err & _ & ->)|(msg & _ & ->)]; discriminate.
Qed.

(** The name-driven loop, seen from the struct it runs on. The struct
    keeps its type; a field changes only if a name resolves to it or to a
    field promoted from it; and a field that holds no non-empty string,
    itself or further down, does not change. *)
Lemma loop_frame (this0 : value) (p0 : reflect.path) (a s e : bool) (names : list string)
  (fs : list field) (m m' : value) (r r' : rand.Reader) (res : result unit) :
  reflect.kind_of this0 = reflect.Struct ->
  reflect.load m p0 = Some (VStruct fs) ->
  for_range names (fields_body op (reflect.MkValue this0 p0 a s e)) m r = (res, m', r') ->
  exists fs',
    m' = reflect.store m p0 (VStruct fs')
    /\ reflect.TypeOf (VStruct fs') = reflect.TypeOf (VStruct fs)
    /\ forall k fld, fs !! k = Some fld ->
         (forall name idx, In name names ->
            reflect.Type_FieldByName (reflect.TypeOf this0) name = Some idx ->
            hd_error idx <> Some k)
         \/ (forall qt text, reflect.load (snd fld) qt = Some (VString text) ->
                             text = ""%string) ->
         fs' !! k = Some fld.
Proof.
  intros Hk. revert fs m r.
  induction names as [|name names IH]; intros fs m r Hp; cbn [for_range].
  { intros [= <- <- <-]. exists fs. split; [now rewrite store_load|]. auto. }
  destruct (fields_body op _ name m r) as [[res1 m1] r1] eqn:Hstep.
  pose proof Hstep as Hcases. apply (step_frame _ _ _ _ _ fs) in Hcases; [|exact Hk|exact Hp].
  assert (Hsame : m1 = m ->
            (let '(res2, m2, r2) :=
               match res1 with
               | Ok _ => for_range names (fields_body op (reflect.MkValue this0 p0 a s e)) m1 r1
               | _ => (res1, m1, r1)
               end in (res2, m2, r2)) = (res, m', r') ->
            exists fs',
              m' = reflect.store m p0 (VStruct fs')
              /\ reflect.TypeOf (VStruct fs') = reflect.TypeOf (VStruct fs)
              /\ forall k fld, fs !! k = Some fld ->
                   (forall name0 idx, In name0 (name :: names) ->
                      reflect.Type_FieldByName (reflect.TypeOf this0) name0 = Some idx ->
                      hd_error idx <> Some k)
                   \/ (forall qt text, reflect.load (snd fld) qt = Some (VString text) ->
                                       text = ""%string) ->
                   fs' !! k = Some fld).
  { intros -> Hrun. destruct res1 as [u|err|msg].
    - destruct (for_range names _ m r1) as [[res2 m2] r2] eqn:Hrest.
      injection Hrun as <- <- <-.
      apply (IH fs) in Hrest as (fs' & -> & Hty & Hfr); [|exact Hp].
      exists fs'. split; [reflexivity|]. split; [exact Hty|].
      intros k fld Hkf [Hno|Hst]; apply (Hfr k fld Hkf); [left|now right].
      intros name0 idx Hin. apply Hno. now right.
    - injection Hrun as <- <- <-. exists fs. split; [now rewrite store_load|]. auto.
    - injection Hrun as <- <- <-. exists fs. split; [now rewrite store_load|]. auto. }
  destruct Hcases as [[Hm _]|(i & rest & qt & sf & y & text & text' & Hidx & Hqt & Hi & Hl
                              & Hne & Hop & -> & ->)].
  { intros Hrun. apply Hsame; [exact Hm|].
    destruct res1; [destruct (for_range _ _ _ _) as [[? ?] ?]|..]; exact Hrun. }
  clear Hsame. intros Hrun.
  set (fs1 := <[i := (sf, reflect.store y qt (VString text'))]> fs) in *.
  assert (Hty1 : reflect.TypeOf (VStruct fs1) = reflect.TypeOf (VStruct fs)).
  { unfold fs1. apply (TypeOf_insert fs i sf y); [exact Hi|]. now apply (store_TypeOf _ _ text). }
  assert (Hp1 : reflect.load (reflect.store m p0 (VStruct fs1)) p0 = Some (VStruct fs1)).
  { now apply (load_store _ _ _ (VStruct fs)). }
  apply (IH fs1) in Hrun as (fs' & -> & Hty & Hfr); [|exact Hp1].
  exists fs'. split.
  { apply store_store. }
  split; [congruence|].
  intros k fld Hkf Hor. apply (Hfr k fld).
  - destruct (decide (k = i)) as [->|Hki].
    + exfalso. rewrite Hi in Hkf. injection Hkf as <-.
      destruct Hor as [Hno|Hst].
      * apply (Hno name (i :: rest)); [now left|exact Hidx|reflexivity].
      * apply Hne. apply (Hst qt). exact Hl.
    + unfold fs1. now rewrite list_lookup_insert_ne by auto.
  - destruct Hor as [Hno|Hst]; [left|now right].
    intros name0 idx Hin. apply Hno. now right.
Qed.

End Steps.

(** ** The name-driven loop as a sequence of updates of places *)

Lemma shape_struct (fs : list field) :
  shape (VStruct fs) = VStruct ((fun fld => (fst fld, shape (snd fld))) <$> fs).
Proof.
  cbn [shape]. f_equal. apply map_ext. now intros [sf y].
Qed.

Lemma shape_kind (x y : value) : shape x = shape y -> reflect.kind_of x = reflect.kind_of y.
Proof.
  destruct x as [| | | | |[t|ty]|fs], y as [| | | | |[t'|ty']|fs']; cbn; congruence.
Qed.

Lemma shape_string (x : value) (text : string) :
  shape x = shape (VString text) -> exists text', x = VString text'.
Proof.
  destruct x as [| | |text'| |[t|ty]|fs]; cbn; try discriminate. eauto.
Qed.

Lemma load_shape (m : value) (p : reflect.path) :
  reflect.load (shape m) p = shape <$> reflect.load m p.
Proof.
  revert m. induction p as [|[|i] p IH]; intros m; cbn [reflect.load]; [reflexivity| |].
  - destruct m as [| | | | |[t|ty]|fs]; cbn; auto.
  - destruct m as [| | | | |[t|ty]|fs]; try reflexivity.
    rewrite shape_struct. rewrite list_lookup_fmap.
    destruct (fs !! i) as [[sf y]|]; cbn; auto.
Qed.

Lemma shape_store (m : value) (q : reflect.path) (text text' : string) :
  reflect.load m q = Some (VString text) ->
  shape (reflect.store m q (VString text')) = shape m.
Proof.
  revert m. induction q as [|[|i] q IH]; intros m; cbn [reflect.load reflect.store].
  - now intros [= ->].
  - destruct m as [| | | | |[t|ty]|]; try discriminate. intros H.
    cbn [shape]. now rewrite IH.
  - destruct m as [| | | | | |fs]; try discriminate.
    destruct (fs !! i) as [[sf z]|] eqn:Hi; try discriminate. intros H.
    rewrite !shape_struct. f_equal.
    rewrite list_fmap_insert. cbn [fst snd]. rewrite IH by exact H.
    apply list_insert_id. now rewrite list_lookup_fmap, Hi.
Qed.

Lemma load_same (m m' : value) (p : reflect.path) :
  shape m = shape m' ->
  match reflect.load m p, reflect.load m' p with
  | Some y, Some y' => shape y = shape y'
  | None, None => True
  | _, _ => False
  end.
Proof.
  intros H. pose proof (load_shape m p) as E. rewrite H, load_shape in E.
  destruct (reflect.load m p), (reflect.load m' p); cbn in E; try discriminate; auto.
  now injection E.
Qed.

Lemma Vsame_refl (f : reflect.Value) : Vsame f f.
Proof. destruct f; cbn; auto. Qed.

Lemma Value_Field_same (m m' : value) (v v' : reflect.Value) (i : nat) :
  shape m = shape m' -> Vsame v v' ->
  Vsame (reflect.Value_Field m v i) (reflect.Value_Field m' v' i).
Proof.
  intros Hm Hv.
  destruct v as [|x p a s e], v' as [|x' p' a' s' e']; try contradiction; [exact I|].
  destruct Hv as (_ & <- & <- & <- & <-). cbn [reflect.Value_Field].
  pose proof (load_same m m' p Hm) as Hl.
  destruct (reflect.load m p) as [y|], (reflect.load m' p) as [y'|]; try contradiction;
    [|exact I].
  destruct y as [| | | | |[t|ty]|fs], y' as [| | | | |[t'|ty']|fs'];
    try discriminate Hl; try exact I.
  rewrite !shape_struct in Hl. injection Hl as Hl.
  apply (f_equal (fun l => l !! i)) in Hl. rewrite !list_lookup_fmap in Hl.
  destruct (fs !! i) as [[sf z]|], (fs' !! i) as [[sf' z']|]; try discriminate Hl;
    [|exact I].
  cbn in Hl. injection Hl as <- Hz. cbn. auto.
Qed.

Lemma Value_Elem_same (v v' : reflect.Value) :
  Vsame v v' -> Vsame (reflect.Value_Elem v) (reflect.Value_Elem v').
Proof.
  destruct v as [|x p a s e], v' as [|x' p' a' s' e']; try contradiction; [auto|].
  intros (Hx & <- & <- & <- & <-).
  destruct x as [| | | | |[t|ty]|fs], x' as [| | | | |[t'|ty']|fs'];
    try discriminate Hx; try exact I.
  cbn in *. injection Hx as Hx. auto.
Qed.

Lemma pointer_to_struct_same (v v' : reflect.Value) :
  Vsame v v' ->
  reflect.pointer_to_struct v = reflect.pointer_to_struct v'
  /\ reflect.Value_IsNil v = reflect.Value_IsNil v'.
Proof.
  destruct v as [|x p a s e], v' as [|x' p' a' s' e']; try contradiction; [auto|].
  intros (Hx & _).
  destruct x as [| | | | |[t|ty]|fs], x' as [| | | | |[t'|ty']|fs'];
    try discriminate Hx; auto.
  - cbn in Hx. injection Hx as Hx. cbn. split; [|reflexivity].
    apply shape_kind in Hx.
    destruct t as [| | | | |[?|?]|?], t' as [| | | | |[?|?]|?]; try discriminate Hx;
      reflexivity.
  - cbn in Hx. now injection Hx as ->.
Qed.

(** Two results of [FieldByIndex] that agree up to the strings held. *)
Lemma FieldByIndex_loop_same (m m' : value) (idx : list nat) (v v' : reflect.Value)
  (first : bool) :
  shape m = shape m' -> Vsame v v' ->
  match reflect.FieldByIndex_loop m v idx first,
        reflect.FieldByIndex_loop m' v' idx first with
  | Ok f, Ok f' => Vsame f f'
  | Panic msg, Panic msg' => msg = msg'
  | _, _ => False
  end.
Proof.
  intros Hm. revert v v' first.
  induction idx as [|x idx IH]; intros v v' first Hv; cbn [reflect.FieldByIndex_loop].
  { exact Hv. }
  destruct (pointer_to_struct_same v v' Hv) as [<- <-].
  destruct (negb first && reflect.pointer_to_struct v).
  - destruct (reflect.Value_IsNil v); [reflexivity|].
    apply IH. apply Value_Field_same; [exact Hm|]. now apply Value_Elem_same.
  - apply IH. now apply Value_Field_same.
Qed.

(** Where a name leads depends on the shape of the data only. *)
Lemma target_same (val : reflect.Value) (name : string) (m m' : value) :
  reflect.Value_Kind val = reflect.Struct ->
  shape m = shape m' -> target val name m = target val name m'.
Proof.
  intros Hk Hm. unfold target, reflect.Value_FieldByName.
  destruct (decide (reflect.Value_Kind val = reflect.Struct)) as [_|Hn]; [|contradiction].
  destruct (reflect.Type_FieldByName (reflect.Value_Type val) name) as [idx|];
    [|reflexivity].
  rewrite !Value_FieldByIndex_loop by exact Hk.
  pose proof (FieldByIndex_loop_same m m' idx val val true Hm (Vsame_refl val)) as H.
  destruct (reflect.FieldByIndex_loop m val idx true) as [f|e|msg],
           (reflect.FieldByIndex_loop m' val idx true) as [f'|e'|msg'];
    try contradiction; [|now subst].
  destruct f as [|x q a s e], f' as [|x' q' a' s' e']; try contradiction; [reflexivity|].
  destruct H as (Hx & <- & <- & <- & <-).
  cbn [reflect.Value_IsValid reflect.Value_CanSet reflect.Value_Kind ptr_of].
  now rewrite (shape_kind x x' Hx).
Qed.

(** A string a name resolves to is the string at the place the Value
    refers to. *)
Lemma Value_FieldByName_string (val f : reflect.Value) (name : string) (m : value) :
  reflect.Value_Kind val = reflect.Struct ->
  reflect.Value_FieldByName m val name = Ok f ->
  reflect.Value_Kind f = reflect.String ->
  exists text q a s e,
    f = reflect.MkValue (VString text) q a s e /\ reflect.load m q = Some (VString text).
Proof.
  intros Hk. unfold reflect.Value_FieldByName.
  destruct (decide (reflect.Value_Kind val = reflect.Struct)) as [_|Hn]; [|contradiction].
  destruct (reflect.Type_FieldByName (reflect.Value_Type val) name) as [idx|].
  2:{ intros [= <-]. discriminate. }
  rewrite Value_FieldByIndex_loop by exact Hk.
  intros Hf Hs. destruct idx as [|i rest].
  { cbn in Hf. injection Hf as <-. congruence. }
  apply FieldByIndex_loop_place in Hf; [|discriminate].
  destruct Hf as [->|(x & q & a & s & e & pre & i' & rest' & qt & -> & Hl & _)];
    [discriminate Hs|].
  cbn in Hs. destruct x; try discriminate Hs. eauto 10.
Qed.

(** A name that leads to a place leads to a string. *)
Lemma target_place (val : reflect.Value) (name : string) (m : value) (q : reflect.path) :
  reflect.Value_Kind val = reflect.Struct ->
  target val name m = Ok (Some q) ->
  exists text, reflect.load m q = Some (VString text).
Proof.
  intros Hk. unfold target.
  destruct (reflect.Value_FieldByName m val name) as [f|e|msg] eqn:Hf; try discriminate.
  destruct (negb _ || negb _); [discriminate|].
  destruct (decide (reflect.Value_Kind f <> reflect.String)) as [|Hs]; [discriminate|].
  intros [= <-]. apply dec_stable in Hs.
  destruct (Value_FieldByName_string val f name m Hk Hf Hs)
    as (text & q & a & s & e & -> & Hl). cbn [ptr_of]. eauto.
Qed.

Section Cells.

Variable op : cipher_op.

(** One iteration of the name-driven loop is the text operation at the
    place the name leads to. *)
Lemma fields_body_target (val : reflect.Value) (name : string) (m : value)
  (r : rand.Reader) :
  reflect.Value_Kind val = reflect.Struct ->
  fields_body op val name m r = cell_step op (target val name m) m r.
Proof.
  intros Hk. unfold fields_body, cell_step, target.
  destruct (reflect.Value_FieldByName m val name) as [f|e|msg] eqn:Hf; try reflexivity.
  destruct (negb _ || negb _); [reflexivity|].
  destruct (decide (reflect.Value_Kind f <> reflect.String)) as [|Hs]; [reflexivity|].
  apply dec_stable in Hs.
  destruct (Value_FieldByName_string val f name m Hk Hf Hs)
    as (text & q & a & s & e & -> & Hl).
  cbn [ptr_of reflect.Value_String reflect.Value_SetString]. now rewrite Hl.
Qed.

(** A step leaves the shape of the data as it was. *)
Lemma cell_step_shape (t : result (option reflect.path)) (m m' : value)
  (r r' : rand.Reader) (res : result unit) :
  cell_step op t m r = (res, m', r') -> shape m' = shape m.
Proof.
  unfold cell_step. destruct t as [[q|]|e|msg]; try (now intros [= _ <- _]).
  destruct (reflect.load m q) as [[| | |text| | |]|] eqn:Hl; try (now intros [= _ <- _]).
  destruct (decide (text = "")); [now intros [= _ <- _]|].
  destruct (op text r) as [[text'|e|msg] r1]; intros [= _ <- _]; try reflexivity.
  now apply (shape_store _ _ text).
Qed.

End Cells.


(** ** Properties of the two loops *)

Section Loops.

Variable op : cipher_op.

Lemma transform_field_id (fld : field) (r : rand.Reader) :
  ~ (exists text, snd fld = VString text /\ text <> ""%string) ->
  transform_field op fld r = (Ok tt, fld, r).
Proof.
  intros H. destruct fld as [sf x]. unfold transform_field.
  destruct x; try reflexivity.
  destruct (decide (s = "")); [reflexivity|]. exfalso. apply H. eauto.
Qed.

Lemma transform_field_Ok (sf : StructField) (text text' : string) (r r' : rand.Reader) :
  text <> ""%string -> op text r = (Ok text', r') ->
  transform_field op (sf, VString text) r = (Ok tt, (sf, VString text'), r').
Proof.
  intros Ht Hop. unfold transform_field. rewrite decide_False by assumption.
  now rewrite Hop.
Qed.

Lemma transform_field_Err (sf : StructField) (text : string) (r r' : rand.Reader)
  (e : error) :
  text <> ""%string -> op text r = (Err e, r') ->
  transform_field op (sf, VString text) r = (Err e, (sf, VString text), r').
Proof.
  intros Ht Hop. unfold transform_field. rewrite decide_False by assumption.
  now rewrite Hop.
Qed.

(** *** The tag-driven loop *)

Lemma tagged_fields_length (fs fs' : list field) (r r' : rand.Reader) (res : result unit) :
  tagged_fields op fs r = (res, fs', r') -> length fs' = length fs.
Proof.
  revert fs' r r' res. induction fs as [|fld fs IH]; intros fs' r r' res.
  { now intros [= <- <- <-]. }
  cbn [tagged_fields]. destruct (tagged (fst fld) && exported (fst fld)).
  - destruct (transform_field op fld r) as [[res1 fld'] r1].
    destruct res1 as [u|e|msg]; try (now intros [= <- <- <-]).
    destruct (tagged_fields op fs r1) as [[res2 fs2] r2] eqn:Hrest.
    intros [= <- <- <-]. cbn [length]. f_equal. eapply IH; eauto.
  - destruct (tagged_fields op fs r) as [[res2 fs2] r2] eqn:Hrest.
    intros [= <- <- <-]. cbn [length]. f_equal. eapply IH; eauto.
Qed.

(** A field changes only if it is tagged and transformable. *)
Lemma tagged_fields_frame (fs fs' : list field) (r r' : rand.Reader) (res : result unit)
  (i : nat) (fld : field) :
  tagged_fields op fs r = (res, fs', r') ->
  fs !! i = Some fld ->
  ~ (tagged (fst fld) = true /\ transformable fld) ->
  fs' !! i = Some fld.
Proof.
  revert fs' r r' res i. induction fs as [|f fs IH]; intros fs' r r' res i.
  { now intros [= <- <- <-]. }
  cbn [tagged_fields]. intros Hrun Hi Hno.
  destruct (tagged (fst f) && exported (fst f)) eqn:Hsel.
  - destruct (transform_field op f r) as [[res1 f'] r1] eqn:Hf.
    destruct i as [|i].
    + injection Hi as ->.
      assert (Hid : transform_field op fld r = (Ok tt, fld, r)).
      { apply transform_field_id. intros Ht. apply Hno.
        apply andb_true_iff in Hsel as [? ?]. split; [|split]; auto. }
      rewrite Hid in Hf. injection Hf as <- <- <-.
      destruct (tagged_fields op fs r) as [[res2 fs2] r2].
      now injection Hrun as <- <- <-.
    + destruct res1 as [u|e|msg]; try (now injection Hrun as <- <- <-).
      destruct (tagged_fields op fs r1) as [[res2 fs2] r2] eqn:Hrest.
      injection Hrun as <- <- <-. cbn. eapply IH; eauto.
  - destruct (tagged_fields op fs r) as [[res2 fs2] r2] eqn:Hrest.
    injection Hrun as <- <- <-. destruct i as [|i]; [assumption|].
    cbn. eapply IH; eauto.
Qed.

(** The declarations never change. *)
Lemma tagged_fields_types (fs fs' : list field) (r r' : rand.Reader) (res : result unit) :
  tagged_fields op fs r = (res, fs', r') -> map fst fs' = map fst fs.
Proof.
  revert fs' r r' res. induction fs as [|fld fs IH]; intros fs' r r' res.
  { now intros [= <- <- <-]. }
  cbn [tagged_fields]. destruct (tagged (fst fld) && exported (fst fld)).
  - destruct (transform_field op fld r) as [[res1 fld'] r1] eqn:Hf.
    apply transform_field_fst in Hf.
    destruct res1 as [u|e|msg]; try (intros [= <- <- <-]; cbn; now rewrite Hf).
    destruct (tagged_fields op fs r1) as [[res2 fs2] r2] eqn:Hrest.
    intros [= <- <- <-]. cbn. rewrite Hf. f_equal. eapply IH; eauto.
  - destruct (tagged_fields op fs r) as [[res2 fs2] r2] eqn:Hrest.
    intros [= <- <- <-]. cbn. f_equal. eapply IH; eauto.
Qed.

(** With nothing to transform the loop succeeds and changes nothing. *)
Lemma tagged_fields_idle (fs : list field) (r : rand.Reader) :
  Forall (fun fld => ~ (tagged (fst fld) = true /\ transformable fld)) fs ->
  tagged_fields op fs r = (Ok tt, fs, r).
Proof.
  induction 1 as [|fld fs Hno _ IH]; [reflexivity|].
  cbn [tagged_fields]. destruct (tagged (fst fld) && exported (fst fld)) eqn:Hsel.
  - rewrite transform_field_id, IH; [reflexivity|].
    intros Ht. apply Hno. apply andb_true_iff in Hsel as [? ?]. split; [|split]; auto.
  - now rewrite IH.
Qed.

(** The loop over [pre ++ post] is the loop over [pre] followed, if that
    succeeded, by the loop over [post]. *)
Lemma tagged_fields_app (pre post : list field) (r : rand.Reader) :
  tagged_fields op (pre ++ post) r
  = match tagged_fields op pre r with
    | (Ok _, pre', r1) =>
        let '(res, post', r2) := tagged_fields op post r1 in (res, pre' ++ post', r2)
    | (stop, pre', r1) => (stop, pre' ++ post, r1)
    end.
Proof.
  revert r. induction pre as [|fld pre IH]; intros r.
  { cbn. now destruct (tagged_fields op post r) as [[? ?] ?]. }
  cbn [app tagged_fields]. destruct (tagged (fst fld) && exported (fst fld)).
  - destruct (transform_field op fld r) as [[res1 fld'] r1].
    destruct res1 as [u|e|msg]; try reflexivity.
    rewrite IH. destruct (tagged_fields op pre r1) as [[[u'|e|msg] pre'] r2]; try reflexivity.
    now destruct (tagged_fields op post r2) as [[? ?] ?].
  - rewrite IH. destruct (tagged_fields op pre r) as [[[u'|e|msg] pre'] r2]; try reflexivity.
    now destruct (tagged_fields op post r2) as [[? ?] ?].
Qed.

(** The first failing field stops the loop: the fields before it are as
    the loop left them, the failing field and the fields after it are
    untouched, and the error is the one the text operation returned. *)
Lemma tagged_fields_abort (pre post pre' : list field) (sf : StructField) (text : string)
  (r r1 r2 : rand.Reader) (e : error) :
  tagged_fields op pre r = (Ok tt, pre', r1) ->
  tagged sf = true -> exported sf = true -> text <> ""%string ->
  op text r1 = (Err e, r2) ->
  tagged_fields op (pre ++ (sf, VString text) :: post) r
  = (Err e, pre' ++ (sf, VString text) :: post, r2).
Proof.
  intros Hpre Ht Hx Hne Hop. rewrite tagged_fields_app, Hpre.
  cbn [tagged_fields fst]. rewrite Ht, Hx. cbn [andb].
  now rewrite (transform_field_Err sf text r1 r2 e).
Qed.

(** After a successful run every tagged, settable, non-empty string field
    holds a result of the text operation. *)
Lemma tagged_fields_Ok (fs fs' : list field) (r r' : rand.Reader) (j : nat)
  (sf : StructField) (text : string) :
  tagged_fields op fs r = (Ok tt, fs', r') ->
  fs !! j = Some (sf, VString text) ->
  tagged sf = true -> exported sf = true -> text <> ""%string ->
  exists text' rj rj', op text rj = (Ok text', rj') /\ fs' !! j = Some (sf, VString text').
Proof.
  revert fs' r r' j. induction fs as [|fld fs IH]; intros fs' r r' j Hrun Hj Ht Hx Hne.
  { discriminate Hj. }
  cbn [tagged_fields] in Hrun. destruct j as [|j].
  - injection Hj as ->. cbn [fst] in Hrun. rewrite Ht, Hx in Hrun. cbn [andb] in Hrun.
    unfold transform_field in Hrun. rewrite decide_False in Hrun by assumption.
    destruct (op text r) as [[text'|e|msg] r1] eqn:Hop; try discriminate Hrun.
    destruct (tagged_fields op fs r1) as [[res2 fs2] r2].
    injection Hrun as _ <- _. exists text', r, r1. auto.
  - destruct (tagged (fst fld) && exported (fst fld)).
    + destruct (transform_field op fld r) as [[[u|e|msg] fld'] r1]; try discriminate Hrun.
      destruct (tagged_fields op fs r1) as [[res2 fs2] r2] eqn:Hrest.
      injection Hrun as -> <- ->. cbn. eapply IH; eauto.
    + destruct (tagged_fields op fs r) as [[res2 fs2] r2] eqn:Hrest.
      injection Hrun as -> <- ->. cbn. eapply IH; eauto.
Qed.

(** *** The name-driven loop *)


Lemma Type_FieldByName_Some (t : list StructField) (name : string) (i : nat) :
  declared_field t name = Some i ->
  exists sf, t !! i = Some sf /\ Name sf = name.
Proof.
  unfold declared_field. destruct (decide (name = "")); [discriminate|].
  intros H. apply lookup_name_Some in H as (_ & sf & Hl & Hn).
  rewrite Nat.sub_0_r in Hl. eauto.
Qed.


(** A name changes at most the field it resolves to. *)
Lemma named_field_frame (fs fs' : list field) (name : string) (r r' : rand.Reader)
  (res : result unit) (i : nat) (fld : field) :
  named_field op fs name r = (res, fs', r') ->
  fs !! i = Some fld ->
  ~ (Name (fst fld) = name /\ transformable fld) ->
  fs' !! i = Some fld.
Proof.
  unfold named_field. intros Hrun Hi Hno.
  destruct (declared_field (map fst fs) name) as [j|] eqn:Hres;
    [|now injection Hrun as <- <- <-].
  destruct (fs !! j) as [f|] eqn:Hj; [|now injection Hrun as <- <- <-].
  destruct (exported (fst f)) eqn:Hx; [|now injection Hrun as <- <- <-].
  destruct (transform_field op f r) as [[res1 f'] r1] eqn:Hf.
  injection Hrun as <- <- <-.
  destruct (decide (i = j)) as [->|Hij].
  - assert (f = fld) as -> by congruence.
    apply Type_FieldByName_Some in Hres as (sf & Hsf & Hname).
    rewrite lookup_map, Hj in Hsf. injection Hsf as <-.
    rewrite transform_field_id in Hf.
    + injection Hf as <- <- <-. now rewrite list_insert_id.
    + intros Ht. apply Hno. split; [|split]; auto.
  - now rewrite list_lookup_insert_ne.
Qed.

Lemma named_fields_types (names : list string) (fs fs' : list field) (r r' : rand.Reader)
  (res : result unit) :
  named_fields op fs names r = (res, fs', r') -> map fst fs' = map fst fs.
Proof.
  revert fs r. induction names as [|name names IH]; intros fs r.
  { now intros [= <- <- <-]. }
  cbn [named_fields]. destruct (named_field op fs name r) as [[res1 fs1] r1] eqn:Hn.
  apply (named_field_types op) in Hn.
  destruct res1 as [u|e|msg]; try (now intros [= <- <- <-]).
  intros H. apply IH in H. congruence.
Qed.

(** A field changes only if it is transformable and named in the list. *)
Lemma named_fields_frame (names : list string) (fs fs' : list field) (r r' : rand.Reader)
  (res : result unit) (i : nat) (fld : field) :
  named_fields op fs names r = (res, fs', r') ->
  fs !! i = Some fld ->
  ~ (In (Name (fst fld)) names /\ transformable fld) ->
  fs' !! i = Some fld.
Proof.
  revert fs r. induction names as [|name names IH]; intros fs r Hrun Hi Hno.
  { now injection Hrun as <- <- <-. }
  cbn [named_fields] in Hrun.
  destruct (named_field op fs name r) as [[res1 fs1] r1] eqn:Hn.
  assert (H1 : fs1 !! i = Some fld).
  { eapply named_field_frame; eauto. intros [Hname Ht]. apply Hno. split; [now left|auto]. }
  destruct res1 as [u|e|msg]; try (now injection Hrun as <- <- <-).
  eapply IH; eauto. intros [Hin Ht]. apply Hno. split; [now right|auto].
Qed.

(** A name that resolves to nothing, or to a field that is not
    transformable, is skipped. *)
Lemma named_field_skip (fs : list field) (name : string) (r : rand.Reader) :
  (forall i fld, declared_field (map fst fs) name = Some i ->
                 fs !! i = Some fld -> ~ transformable fld) ->
  named_field op fs name r = (Ok tt, fs, r).
Proof.
  intros H. unfold named_field.
  destruct (declared_field (map fst fs) name) as [i|] eqn:Hres; [|reflexivity].
  destruct (fs !! i) as [fld|] eqn:Hi; [|reflexivity].
  destruct (exported (fst fld)) eqn:Hx; [|reflexivity].
  rewrite transform_field_id.
  - now rewrite list_insert_id.
  - intros Ht. apply (H i fld); auto. split; auto.
Qed.

Lemma named_fields_app (pre post : list string) (fs : list field) (r : rand.Reader) :
  named_fields op fs (pre ++ post) r
  = match named_fields op fs pre r with
    | (Ok _, fs1, r1) => named_fields op fs1 post r1
    | stop => stop
    end.
Proof.
  revert fs r. induction pre as [|name pre IH]; intros fs r; [reflexivity|].
  cbn [app named_fields].
  destruct (named_field op fs name r) as [[[u|e|msg] fs1] r1]; try reflexivity.
  apply IH.
Qed.

(** A name that resolves to a settable, non-empty string field. *)
Lemma named_field_Ok (fs : list field) (name : string) (i : nat) (sf : StructField)
  (text text' : string) (r r' : rand.Reader) :
  declared_field (map fst fs) name = Some i ->
  fs !! i = Some (sf, VString text) -> exported sf = true -> text <> ""%string ->
  op text r = (Ok text', r') ->
  named_field op fs name r = (Ok tt, <[i := (sf, VString text')]> fs, r').
Proof.
  intros Hres Hi Hx Hne Hop. unfold named_field. rewrite Hres, Hi. cbn [fst].
  rewrite Hx. now rewrite (transform_field_Ok sf text text' r r').
Qed.

Lemma named_field_Err (fs : list field) (name : string) (i : nat) (sf : StructField)
  (text : string) (r r' : rand.Reader) (e : error) :
  declared_field (map fst fs) name = Some i ->
  fs !! i = Some (sf, VString text) -> exported sf = true -> text <> ""%string ->
  op text r = (Err e, r') ->
  named_field op fs name r = (Err e, fs, r').
Proof.
  intros Hres Hi Hx Hne Hop. unfold named_field. rewrite Hres, Hi. cbn [fst].
  rewrite Hx. rewrite (transform_field_Err sf text r r' e) by assumption.
  now rewrite list_insert_id.
Qed.

(** The first failing name stops the loop. *)
Lemma named_fields_abort (pre post : list string) (name : string) (fs fs1 : list field)
  (i : nat) (sf : StructField) (text : string) (r r1 r2 : rand.Reader) (e : error) :
  named_fields op fs pre r = (Ok tt, fs1, r1) ->
  declared_field (map fst fs1) name = Some i ->
  fs1 !! i = Some (sf, VString text) -> exported sf = true -> text <> ""%string ->
  op text r1 = (Err e, r2) ->
  named_fields op fs (pre ++ name :: post) r = (Err e, fs1, r2).
Proof.
  intros Hpre Hres Hi Hx Hne Hop. rewrite named_fields_app, Hpre.
  cbn [named_fields]. now rewrite (named_field_Err fs1 name i sf text r1 r2 e).
Qed.

End Loops.

(** ** NewService and the key length *)

Lemma NewService_valid (key : list byte) :
  valid_key_length key -> exists s, NewService key = Ok s.
Proof.
  intros H. unfold NewService.
  destruct (aes_NewCipher_valid key H) as (blk & Hblk). rewrite Hblk.
  apply aes_NewCipher_ok in Hblk as [Hsz _].
  unfold cipher.NewGCM. rewrite Hsz. cbn. eauto.
Qed.

Lemma NewService_invalid (key : list byte) :
  ~ valid_key_length key -> NewService key = Err (aes_KeySizeError (length key)).
Proof.
  intros H. unfold NewService. now rewrite aes_NewCipher_invalid.
Qed.

Lemma NewService_key16 : NewService key16 = Ok service16.
Proof. reflexivity. Qed.

(** ** From the loops to the four transformers *)

Lemma tagged_true (sf : StructField) :
  tagged sf = true <-> reflect.StructTag_Get (Tag sf) "encrypt" = "true"%string.
Proof. unfold tagged. apply bool_decide_eq_true. Qed.

Lemma exported_true (sf : StructField) : exported sf = true <-> PkgPath sf = ""%string.
Proof. unfold exported. apply bool_decide_eq_true. Qed.

Lemma not_tag_selected (fld : field) :
  ~ tag_selected fld -> ~ (tagged (fst fld) = true /\ transformable fld).
Proof.
  intros H [Ht [Hx (text & Hs & _)]]. apply H.
  split; [now apply tagged_true|]. split; [now apply exported_true|]. eauto.
Qed.

Lemma empty_not_transformable (sf : StructField) : ~ transformable (sf, VString "").
Proof. intros [_ (text & [= <-] & Hne)]. now apply Hne. Qed.

Lemma record_not_transformable (sf : StructField) (x : value) :
  is_record x -> ~ transformable (sf, x).
Proof. intros Hx [_ (text & Hs & _)]. cbn in Hs. subst x. exact Hx. Qed.


(** The tag-driven transformers on a pointer to a struct: the result is a
    pointer to a struct with as many fields, and a field changes only if it
    is tagged and transformable. *)
Lemma transformStruct_frame (op : cipher_op) (fs : list field) (r r' : rand.Reader)
  (res : result unit) (v' : value) :
  transformStruct op (VPtr (inl (VStruct fs))) r = (res, v', r') ->
  exists fs', v' = VPtr (inl (VStruct fs')) /\ length fs' = length fs
    /\ forall i fld, fs !! i = Some fld ->
         ~ (tagged (fst fld) = true /\ transformable fld) -> fs' !! i = Some fld.
Proof.
  rewrite transformStruct_ptr.
  destruct (tagged_fields op fs r) as [[res1 fs1] r1] eqn:Hrun.
  intros [= <- <- <-]. exists fs1. split; [reflexivity|]. split.
  - eapply tagged_fields_length; eauto.
  - intros i fld. eapply tagged_fields_frame; eauto.
Qed.


Lemma transformStruct_idle (op : cipher_op) (fs : list field) (r : rand.Reader) :
  Forall (fun fld => ~ (tagged (fst fld) = true /\ transformable fld)) fs ->
  transformStruct op (VPtr (inl (VStruct fs))) r = (Ok tt, VPtr (inl (VStruct fs)), r).
Proof. intros H. now rewrite transformStruct_ptr, tagged_fields_idle. Qed.




(** A pointer to a struct stays one, so a run on a prefix of the fields
    can be read back as a run of the loop. *)
Lemma transformStruct_ptr_inv (op : cipher_op) (fs fs' : list field) (r r' : rand.Reader)
  (res : result unit) :
  transformStruct op (VPtr (inl (VStruct fs))) r = (res, VPtr (inl (VStruct fs')), r') ->
  tagged_fields op fs r = (res, fs', r').
Proof.
  rewrite transformStruct_ptr.
  destruct (tagged_fields op fs r) as [[res1 fs1] r1]. now intros [= <- <- <-].
Qed.

Lemma transformStruct_abort (op : cipher_op) (pre post pre' : list field)
  (sf : StructField) (text : string) (r r1 r2 : rand.Reader) (e : error) :
  transformStruct op (VPtr (inl (VStruct pre))) r
  = (Ok tt, VPtr (inl (VStruct pre')), r1) ->
  tag_selected (sf, VString text) -> text <> ""%string ->
  op text r1 = (Err e, r2) ->
  transformStruct op (VPtr (inl (VStruct (pre ++ (sf, VString text) :: post)))) r
  = (Err e, VPtr (inl (VStruct (pre' ++ (sf, VString text) :: post))), r2).
Proof.
  intros Hpre (Ht & Hx & _) Hne Hop. apply transformStruct_ptr_inv in Hpre.
  rewrite transformStruct_ptr.
  rewrite (tagged_fields_abort op pre post pre' sf text r r1 r2 e); auto.
  - now apply tagged_true.
  - now apply exported_true.
Qed.





(** *** The name-driven transformers on a pointer to a struct *)

Lemma store_pointee (fs fs' : list field) :
  reflect.store (VPtr (inl (VStruct fs))) [reflect.Deref] (VStruct fs')
  = VPtr (inl (VStruct fs')).
Proof. reflexivity. Qed.

Lemma TypeOf_length (fs fs' : list field) :
  reflect.TypeOf (VStruct fs') = reflect.TypeOf (VStruct fs) -> length fs' = length fs.
Proof.
  intros H. apply TypeOf_struct_fields in H.
  rewrite <- (length_map fst fs'), H. apply length_map.
Qed.

(** A field that is neither named nor embedded is none that a name of the
    list resolves to or into. *)
Lemma not_named_not_embedded (fs : list field) (names : list string) (k : nat)
  (fld : field) :
  fs !! k = Some fld ->
  ~ In (Name (fst fld)) names -> Anonymous (fst fld) = false ->
  forall name idx, In name names ->
    reflect.Type_FieldByName (reflect.TypeOf (VStruct fs)) name = Some idx ->
    hd_error idx <> Some k.
Proof.
  intros Hk Hno Han name idx Hin Hres.
  apply Type_FieldByName_shape in Hres as (i & rest & f & u & -> & Hi & Hdirect & Hemb).
  cbn. intros [= ->].
  change (map ?g fs) with (g <$> fs) in Hi. rewrite list_lookup_fmap, Hk in Hi.
  destruct fld as [sf y]. cbn in Hi. injection Hi as <- _. cbn in Hno, Han.
  destruct rest as [|j rest].
  - apply Hno. now rewrite Hdirect.
  - rewrite Hemb in Han by discriminate. discriminate.
Qed.

(** The result is a pointer to a struct of the same type. A field changes
    only if a name resolves to it or to a field promoted from it: so not if
    it is neither named nor embedded; and not if there is no non-empty
    string in it. *)
Lemma transformFields_frame (op : cipher_op) (fs : list field) (names : list string)
  (r r' : rand.Reader) (res : result unit) (v' : value) :
  transformFields op (VPtr (inl (VStruct fs))) names r = (res, v', r') ->
  exists fs', v' = VPtr (inl (VStruct fs')) /\ length fs' = length fs
    /\ reflect.TypeOf (VStruct fs') = reflect.TypeOf (VStruct fs)
    /\ forall i fld, fs !! i = Some fld ->
         (~ In (Name (fst fld)) names /\ Anonymous (fst fld) = false)
         \/ (forall qt text, reflect.load (snd fld) qt = Some (VString text) ->
                              text = ""%string) ->
         fs' !! i = Some fld.
Proof.
  rewrite transformFields_pointee. unfold pointee. intros H.
  apply (loop_frame op _ _ _ _ _ _ fs) in H as (fs' & -> & Hty & Hfr); [|reflexivity..].
  exists fs'. split; [reflexivity|]. split; [now apply TypeOf_length|].
  split; [exact Hty|].
  intros i fld Hi [[Hno Han]|Hst]; apply (Hfr i fld Hi); [left|now right].
  now apply (not_named_not_embedded fs names i fld).
Qed.

(** A run of the loop goes on from a struct of the same type as from the
    struct it started with. *)
Lemma transformFields_resume (op : cipher_op) (fs fs1 : list field) (names : list string)
  (r : rand.Reader) :
  reflect.TypeOf (VStruct fs1) = reflect.TypeOf (VStruct fs) ->
  for_range names (fields_body op (pointee fs)) (VPtr (inl (VStruct fs1))) r
  = transformFields op (VPtr (inl (VStruct fs1))) names r.
Proof.
  intros Hty. rewrite transformFields_pointee. apply for_range_ext.
  intros name m r0. unfold pointee. now apply fields_body_this.
Qed.


Lemma record_cases (v : value) :
  (exists fs, v = VPtr (inl (VStruct fs))) \/ (exists fs, v = VStruct fs) \/ ~ is_record v.
Proof.
  destruct v as [| | | | |[x|ty]|fs]; try solve [right; right; intros []].
  - destruct x; try solve [right; right; intros []]. left. eauto.
  - right. left. eauto.
Qed.

Lemma transformFields_start (op : cipher_op) (v : value) (names : list string)
  (r : rand.Reader) :
  transformFields op v names r = for_range names (fields_body op (start_of v)) v r.
Proof. reflexivity. Qed.

(** On a record the loop starts from a struct, at a place of the data. *)
Lemma start_of_record (v : value) :
  is_record v ->
  exists fs p0 a,
    start_of v = reflect.MkValue (VStruct fs) p0 a false false
    /\ reflect.load v p0 = Some (VStruct fs)
    /\ forall fs', start_of (reflect.store v p0 (VStruct fs'))
                  = reflect.MkValue (VStruct fs') p0 a false false.
Proof.
  intros Hv. destruct (record_cases v) as [[fs ->]|[[fs ->]|H]]; [| |contradiction].
  - exists fs, [reflect.Deref], true. repeat split.
  - exists fs, [], false. repeat split.
Qed.

Lemma transformFields_app (op : cipher_op) (v : value) (pre post : list string)
  (r : rand.Reader) :
  transformFields op v (pre ++ post) r
  = match transformFields op v pre r with
    | (Ok _, v1, r1) => transformFields op v1 post r1
    | stop => stop
    end.
Proof.
  destruct (record_cases v) as [Hrec|[Hrec|Hv]].
  1,2: assert (Hv : is_record v) by (destruct Hrec as [fs ->]; exact I).
  1,2: destruct (start_of_record v Hv) as (fs & p0 & a & Hstart & Hload & Hnext).
  1,2: rewrite !transformFields_start, for_range_app.
  1,2: destruct (for_range pre _ v r) as [[res v1] r1] eqn:Hpre.
  1,2: destruct res as [[]| |]; [|reflexivity..].
  1,2: rewrite Hstart in Hpre.
  1,2: apply (loop_frame op _ _ _ _ _ _ fs) in Hpre as (fs1 & -> & Hty & _);
       [|reflexivity|exact Hload].
  1,2: rewrite transformFields_start, Hnext, Hstart.
  1,2: apply for_range_ext; intros name m r0; now apply fields_body_this.
  destruct pre as [|name pre]; [reflexivity|].
  destruct (transformFields_other op v name [] r Hv) as [msg H].
  revert H. unfold transformFields. cbv zeta. cbn [for_range app].
  destruct (fields_body op _ name v r) as [[res v1] r1].
  destruct res as [[]| |]; [discriminate|reflexivity..].
Qed.

(** How the name-driven loop can end: with nil, with the panic of
    [FieldByName] on a nil embedded pointer, or with what the text
    operation returned on some non-empty text. *)
Lemma loop_stops (op : cipher_op) (val : reflect.Value) (names : list string)
  (m m' : value) (r r' : rand.Reader) (res : result unit) :
  reflect.Value_Kind val = reflect.Struct ->
  for_range names (fields_body op val) m r = (res, m', r') ->
  res = Ok tt \/ res = Panic nil_embedded
  \/ exists text (r1 : rand.Reader) x r2,
       text <> ""%string /\ op text r1 = (x, r2)
       /\ match x with
          | Ok _ => False
          | Err e => res = Err e
          | Panic msg => res = Panic msg
          end.
Proof.
  intros Hk. revert m r. induction names as [|name names IH]; intros m r; cbn [for_range].
  { intros [= <- _ _]. now left. }
  destruct (fields_body op val name m r) as [[res1 m1] r1] eqn:Hstep.
  apply fields_body_cases in Hstep; [|exact Hk].
  destruct Hstep as [(-> & _)|[(-> & _)|(i & rest & qt & text & _ & _ & _ & Hne & Hcase)]].
  - apply IH.
  - intros [= <- _ _]. right. now left.
  - destruct Hcase as [(text' & _ & -> & _)|(_ & [(e & Hop & ->)|(msg & Hop & ->)])].
    + apply IH.
    + intros [= <- _ _]. right. right. exists text, r, (Err e), r1. auto.
    + intros [= <- _ _]. right. right. exists text, r, (Panic msg), r1. auto.
Qed.

(** A loop whose text operation leaves the random source alone leaves it
    alone. *)
Lemma loop_reader (op : cipher_op) (val : reflect.Value) (names : list string)
  (m m' : value) (r r' : rand.Reader) (res : result unit) :
  reflect.Value_Kind val = reflect.Struct ->
  (forall text r1 x r2, op text r1 = (x, r2) -> r2 = r1) ->
  for_range names (fields_body op val) m r = (res, m', r') -> r' = r.
Proof.
  intros Hk Hop. revert m r. induction names as [|name names IH]; intros m r; cbn [for_range].
  { now intros [= _ _ <-]. }
  destruct (fields_body op val name m r) as [[res1 m1] r1] eqn:Hstep.
  apply fields_body_cases in Hstep; [|exact Hk].
  assert (Hr : r1 = r).
  { destruct Hstep as [(_ & _ & ->)|[(_ & _ & -> & _)|(i & rest & qt & text & _ & _ & _ & _ & Hcase)]];
      try reflexivity.
    destruct Hcase as [(text' & H & _)|(_ & [(e & H & _)|(msg & H & _)])];
      now apply Hop in H. }
  subst r1. destruct res1 as [[]| |]; [apply IH|now intros [= _ _ <-]..].
Qed.

Lemma start_of_kind (v : value) :
  is_record v -> reflect.Value_Kind (start_of v) = reflect.Struct.
Proof.
  intros Hv. destruct (start_of_record v Hv) as (fs & p0 & a & -> & _). reflexivity.
Qed.

(** One iteration at a declared field that is exported and holds a
    string. *)
Lemma fields_body_declared (op : cipher_op) (fs0 fs : list field) (name : string)
  (i : nat) (sf : StructField) (text : string) (r : rand.Reader) :
  reflect.Type_FieldByName (reflect.TypeOf (VStruct fs0)) name = Some [i] ->
  fs !! i = Some (sf, VString text) -> PkgPath sf = ""%string ->
  fields_body op (pointee fs0) name (VPtr (inl (VStruct fs))) r
  = if decide (text = "") then (Ok tt, VPtr (inl (VStruct fs)), r)
    else match op text r with
         | (Ok text', r') => (Ok tt, VPtr (inl (VStruct (<[i := (sf, VString text')]> fs))), r')
         | (Err e, r') => (Err e, VPtr (inl (VStruct fs)), r')
         | (Panic msg, r') => (Panic msg, VPtr (inl (VStruct fs)), r')
         end.
Proof.
  intros Hres Hi Hx. unfold fields_body, reflect.Value_FieldByName, pointee.
  cbn [reflect.Value_Kind reflect.kind_of reflect.Value_Type].
  destruct (decide (reflect.Struct = reflect.Struct)) as [_|H]; [|now contradict H].
  rewrite Hres.
  cbn [reflect.Value_FieldByIndex reflect.Value_Field reflect.load app].
  rewrite Hi. rewrite (bool_decide_eq_true_2 _ Hx).
  cbn [reflect.Value_IsValid reflect.Value_CanSet negb orb andb reflect.Value_Kind
       reflect.kind_of].
  destruct (decide (reflect.String <> reflect.String)) as [H|_]; [now contradict H|].
  cbn [reflect.Value_String].
  destruct (decide (text = "")); [reflexivity|].
  destruct (op text r) as [[text'|e|msg] r']; try reflexivity.
  cbn [reflect.Value_SetString reflect.store]. now rewrite Hi.
Qed.

Lemma transformFields_abort (op : cipher_op) (fs fs1 : list field)
  (pre post : list string) (name : string) (i : nat) (sf : StructField) (text : string)
  (r r1 r2 : rand.Reader) (e : error) :
  transformFields op (VPtr (inl (VStruct fs))) pre r
  = (Ok tt, VPtr (inl (VStruct fs1)), r1) ->
  reflect.Type_FieldByName (reflect.TypeOf (VStruct fs1)) name = Some [i] ->
  fs1 !! i = Some (sf, VString text) -> PkgPath sf = ""%string -> text <> ""%string ->
  op text r1 = (Err e, r2) ->
  transformFields op (VPtr (inl (VStruct fs))) (pre ++ name :: post) r
  = (Err e, VPtr (inl (VStruct fs1)), r2).
Proof.
  intros Hpre Hres Hi Hx Hne Hop. rewrite transformFields_app, Hpre.
  rewrite transformFields_pointee. cbn [for_range].
  rewrite (fields_body_declared op fs1 fs1 name i sf text r1 Hres Hi Hx).
  rewrite decide_False by exact Hne. now rewrite Hop.
Qed.

Lemma transformFields_step (op : cipher_op) (fs : list field) (name : string)
  (names : list string) (i : nat) (sf : StructField) (text text' : string)
  (r r' : rand.Reader) :
  reflect.Type_FieldByName (reflect.TypeOf (VStruct fs)) name = Some [i] ->
  fs !! i = Some (sf, VString text) -> PkgPath sf = ""%string -> text <> ""%string ->
  op text r = (Ok text', r') ->
  transformFields op (VPtr (inl (VStruct fs))) (name :: names) r
  = transformFields op (VPtr (inl (VStruct (<[i := (sf, VString text')]> fs)))) names r'.
Proof.
  intros Hres Hi Hx Hne Hop. rewrite transformFields_pointee. cbn [for_range].
  rewrite (fields_body_declared op fs fs name i sf text r Hres Hi Hx).
  rewrite decide_False by exact Hne. rewrite Hop.
  apply transformFields_resume. now apply (TypeOf_insert fs i sf (VString text)).
Qed.

(** One iteration at a name that leads to a non-empty string, declared or
    promoted. *)
Lemma transformFields_target (op : cipher_op) (fs : list field) (name : string)
  (names : list string) (q : reflect.path) (text text' : string) (r r' : rand.Reader) :
  target (pointee fs) name (VPtr (inl (VStruct fs))) = Ok (Some q) ->
  reflect.load (VPtr (inl (VStruct fs))) q = Some (VString text) -> text <> ""%string ->
  op text r = (Ok text', r') ->
  transformFields op (VPtr (inl (VStruct fs))) (name :: names) r
  = transformFields op (reflect.store (VPtr (inl (VStruct fs))) q (VString text')) names r'.
Proof.
  intros Ht Hl Hne Hop.
  assert (Hone : transformFields op (VPtr (inl (VStruct fs))) [name] r
                 = (Ok tt, reflect.store (VPtr (inl (VStruct fs))) q (VString text'), r')).
  { rewrite transformFields_pointee. cbn [for_range].
    rewrite fields_body_target by reflexivity. rewrite Ht. cbn [cell_step].
    rewrite Hl, decide_False by exact Hne. now rewrite Hop. }
  change (name :: names) with ([name] ++ names).
  now rewrite transformFields_app, Hone.
Qed.

(** One iteration at a name that is skipped. *)
Lemma fields_body_skipped (op : cipher_op) (fs : list field) (name : string)
  (r : rand.Reader) :
  name_skipped fs name ->
  fields_body op (pointee fs) name (VPtr (inl (VStruct fs))) r
  = (Ok tt, VPtr (inl (VStruct fs)), r).
Proof.
  unfold name_skipped, fields_body, reflect.Value_FieldByName.
  cbn [pointee reflect.Value_Kind reflect.kind_of reflect.Value_Type].
  destruct (decide (reflect.Struct = reflect.Struct)) as [_|H]; [|now contradict H].
  destruct (reflect.Type_FieldByName _ name) as [idx|]; [|reflexivity].
  unfold pointee.
  destruct (reflect.Value_FieldByIndex _ _ idx) as [field|err|msg];
    [|intros H; contradiction..].
  intros [Hc|Hk].
  - rewrite Hc. cbn [negb]. now rewrite orb_true_r.
  - destruct (negb _ || negb _); [reflexivity|].
    now rewrite decide_True by exact Hk.
Qed.

Lemma transformFields_skip (op : cipher_op) (fs : list field) (name : string)
  (names : list string) (r : rand.Reader) :
  name_skipped fs name ->
  transformFields op (VPtr (inl (VStruct fs))) (name :: names) r
  = transformFields op (VPtr (inl (VStruct fs))) names r.
Proof.
  intros H. rewrite !transformFields_pointee. cbn [for_range].
  now rewrite fields_body_skipped.
Qed.

Lemma transformFields_idle (op : cipher_op) (fs : list field) (names : list string)
  (r : rand.Reader) :
  Forall (name_skipped fs) names ->
  transformFields op (VPtr (inl (VStruct fs))) names r
  = (Ok tt, VPtr (inl (VStruct fs)), r).
Proof.
  induction 1 as [|name names Hn _ IH]; [reflexivity|].
  now rewrite transformFields_skip.
Qed.

(** Two ways a name is skipped: no declared field has it and nothing is
    embedded; or the declared field it resolves to is unexported or holds
    no string. *)
Lemma name_skipped_undeclared (fs : list field) (name : string) :
  Forall (fun fld => Name (fst fld) <> name /\ Anonymous (fst fld) = false) fs ->
  name_skipped fs name.
Proof.
  intros H. unfold name_skipped.
  rewrite Type_FieldByName_plain.
  - unfold declared_field. destruct (decide (name = "")); [exact I|].
    assert (Hl : reflect.lookup_name (map fst fs) name 0 = None).
    { apply lookup_name_None. rewrite List.Forall_map.
      eapply Forall_impl; [exact H|]. now intros fld [Hn _]. }
    rewrite Hl. exact I.
  - eapply Forall_impl; [exact H|]. now intros fld [_ Ha].
Qed.

Lemma name_skipped_declared (fs : list field) (name : string) (i : nat)
  (sf : StructField) (x : value) :
  reflect.Type_FieldByName (reflect.TypeOf (VStruct fs)) name = Some [i] ->
  fs !! i = Some (sf, x) ->
  PkgPath sf <> ""%string \/ (forall text, x <> VString text) ->
  name_skipped fs name.
Proof.
  intros Hres Hi Hx. unfold name_skipped, pointee. rewrite Hres.
  cbn [reflect.Value_FieldByIndex reflect.Value_Field reflect.load app]. rewrite Hi.
  destruct Hx as [Hx|Hx].
  - left. cbn [reflect.Value_CanSet]. rewrite (bool_decide_eq_false_2 _ Hx).
    cbn [negb andb orb]. destruct (Anonymous sf); reflexivity.
  - right. cbn [reflect.Value_Kind]. destruct x; try discriminate. now contradiction (Hx s).
Qed.

(** *** Structs without embedded fields *)

Lemma named_fields_idle (op : cipher_op) (fs : list field) (names : list string)
  (r : rand.Reader) :
  Forall (fun name => forall i fld,
            declared_field (map fst fs) name = Some i ->
            fs !! i = Some fld -> ~ transformable fld) names ->
  named_fields op fs names r = (Ok tt, fs, r).
Proof.
  induction 1 as [|name names Hn _ IH]; [reflexivity|].
  cbn [named_fields]. now rewrite named_field_skip.
Qed.

Lemma transformFields_ptr_inv (op : cipher_op) (fs fs' : list field) (names : list string)
  (r r' : rand.Reader) (res : result unit) :
  no_embedded fs ->
  transformFields op (VPtr (inl (VStruct fs))) names r
  = (res, VPtr (inl (VStruct fs')), r') ->
  named_fields op fs names r = (res, fs', r').
Proof.
  intros Hno. rewrite transformFields_ptr by exact Hno.
  destruct (named_fields op fs names r) as [[res1 fs1] r1]. now intros [= <- <- <-].
Qed.
(* ================================================================= *)
(** * The claims                                                       *)
(* ================================================================= *)

(** C1 -- Round trip. For every key of valid length there is a Service, and
    in it: whenever [Encrypt] returns a ciphertext for a non-empty plaintext
    [p], [Decrypt] of that ciphertext returns [p] with no error; likewise
    [DecryptBytes] after [EncryptBytes] for every non-empty byte sequence.
    The ciphertext is indeed returned whenever the random source delivers
    the twelve nonce bytes and the plaintext is within the size GCM
    accepts. *)
Theorem round_trip (key : list byte) :
  valid_key_length key ->
  exists s, NewService key = Ok s
    /\ (forall p r c r', p <> ""%string ->
          Encrypt s p r = (Ok c, r') -> Decrypt s c = Ok p)
    /\ (forall p r c r', p <> [] ->
          EncryptBytes s p r = (Ok c, r') -> DecryptBytes s c = Ok p)
    /\ (forall p r, p <> ""%string -> 12 <= length r ->
          (N.of_nat (length (bytes_of_string p)) <= cipher.gcmMaxPlaintext)%N ->
          exists c, Encrypt s p r = (Ok c, drop 12 r))
    /\ (forall p r, p <> [] -> 12 <= length r ->
          (N.of_nat (length p) <= cipher.gcmMaxPlaintext)%N ->
          exists c, EncryptBytes s p r = (Ok c, drop 12 r)).
Proof.
  intros Hkey. destruct (NewService_valid key Hkey) as (s & Hs).
  exists s. split; [exact Hs|].
  pose proof (NewService_ok key s Hs) as Hok.
  destruct (NewService_NonceSize key s Hs) as [Hn _].
  split; [|split; [|split]].
  - intros p r c r'. now apply Decrypt_Encrypt.
  - intros p r c r'. now apply DecryptBytes_EncryptBytes.
  - intros p r Hp Hr Hsz. rewrite <- Hn. apply Encrypt_succeeds; auto. now rewrite Hn.
  - intros p r Hp Hr Hsz. rewrite <- Hn. apply EncryptBytes_succeeds; auto. now rewrite Hn.
Qed.

Lemma round_trip_witness :
  valid_key_length key16
  /\ Encrypt service16 "a@b.com" tape
     = (Ok "bm9uY2UtbnVtYmVy5H+ATDmoXLl2FcGy+WAh6IpzRM4eCNY="%string, drop 12 tape)
  /\ Decrypt service16 "bm9uY2UtbnVtYmVy5H+ATDmoXLl2FcGy+WAh6IpzRM4eCNY=" = Ok "a@b.com"%string
  /\ DecryptBytes service16
       (unhex "6e6f6e63652d6e756d626572e47f804c39a85cb97615c1b2f96021e88a7344ce1e08d6")
     = Ok (bytes_of_string "a@b.com").
Proof.
  assert (Hkey : valid_key_length key16) by (left; reflexivity).
  split; [exact Hkey|].
  destruct (round_trip key16 Hkey) as (s & Hs & Htext & Hbytes & _).
  assert (s = service16) as -> by (rewrite NewService_key16 in Hs; congruence).
  assert (HE : Encrypt service16 "a@b.com" tape
               = (Ok "bm9uY2UtbnVtYmVy5H+ATDmoXLl2FcGy+WAh6IpzRM4eCNY="%string, drop 12 tape))
    by (vm_compute; reflexivity).
  split; [exact HE|]. split.
  - apply (Htext "a@b.com"%string tape _ (drop 12 tape)); [discriminate|exact HE].
  - apply (Hbytes (bytes_of_string "a@b.com") tape _ (drop 12 tape)); [discriminate|].
    vm_compute. reflexivity.
Defined.

(** C2 -- Key-length validation. [NewService] succeeds exactly for keys of
    16, 24 or 32 bytes. For every other length (15, 17, 23, 25, 31 and 33
    among them) it fails, but with the [KeySizeError] of crypto/aes that it
    passes on unchanged: no input makes it return [ErrInvalidKeyLength], the
    sentinel the package declares for this case. *)
Theorem NewService_key_length :
  (forall key, valid_key_length key -> exists s, NewService key = Ok s)
  /\ (forall key, ~ valid_key_length key ->
        NewService key = Err (aes_KeySizeError (length key)))
  /\ (forall key, NewService key <> Err ErrInvalidKeyLength)
  /\ Forall (fun n => NewService (replicate n x00) = Err (aes_KeySizeError n))
            [15; 17; 23; 25; 31; 33]
  /\ Forall (fun n => exists s, NewService (replicate n x00) = Ok s) [16; 24; 32].
Proof.
  split; [exact NewService_valid|]. split; [exact NewService_invalid|]. split.
  - intros key H.
    destruct (decide (length key = 16 \/ length key = 24 \/ length key = 32)) as [Hk|Hk].
    + destruct (NewService_valid key Hk) as (s & Hs). congruence.
    + rewrite (NewService_invalid key Hk) in H. discriminate.
  - split.
    + repeat constructor.
    + repeat constructor; apply NewService_valid; unfold valid_key_length;
        rewrite length_replicate; auto.
Qed.

(** C3 (as amended) -- No recursion into nested composites.
    [EncryptStruct] and [DecryptStruct] visit only the fields of the record
    they are given: a member that is itself a nested composite (a struct, or
    a pointer to one) keeps its exact prior value, whatever else the call
    does, so a tagged string field inside it is not transformed, at any
    depth; and a record all of whose members are nested composites comes
    back unchanged with no error. *)
Theorem nested_composites_untouched (s : Service) (fs : list field)
  (sf : StructField) (x : value) (i : nat) :
  fs !! i = Some (sf, x) -> is_record x ->
  (forall r res v' r',
     EncryptStruct s (VPtr (inl (VStruct fs))) r = (res, v', r') ->
     exists fs', v' = VPtr (inl (VStruct fs')) /\ fs' !! i = Some (sf, x))
  /\ (forall r res v' r',
     DecryptStruct s (VPtr (inl (VStruct fs))) r = (res, v', r') ->
     exists fs', v' = VPtr (inl (VStruct fs')) /\ fs' !! i = Some (sf, x))
  /\ (Forall (fun fld => is_record (snd fld)) fs ->
      forall r,
        EncryptStruct s (VPtr (inl (VStruct fs))) r = (Ok tt, VPtr (inl (VStruct fs)), r)
        /\ DecryptStruct s (VPtr (inl (VStruct fs))) r
           = (Ok tt, VPtr (inl (VStruct fs)), r)).
Proof.
  intros Hi Hx.
  assert (Hframe : forall op r res v' r',
     transformStruct op (VPtr (inl (VStruct fs))) r = (res, v', r') ->
     exists fs', v' = VPtr (inl (VStruct fs')) /\ fs' !! i = Some (sf, x)).
  { intros op r res v' r' H.
    apply transformStruct_frame in H as (fs' & -> & _ & Hf).
    exists fs'. split; [reflexivity|]. apply Hf; [exact Hi|].
    intros [_ Ht]. now apply (record_not_transformable sf x). }
  split; [|split].
  - intros r res v' r'. rewrite EncryptStruct_eq. apply Hframe.
  - intros r res v' r'. rewrite DecryptStruct_eq. apply Hframe.
  - intros Hall r. rewrite EncryptStruct_eq, DecryptStruct_eq.
    assert (Hidle : Forall (fun fld => ~ (tagged (fst fld) = true /\ transformable fld)) fs).
    { eapply Forall_impl; [exact Hall|]. intros [sf' y] Hy [_ Ht].
      now apply (record_not_transformable sf' y). }
    split; now apply transformStruct_idle.
Qed.

(** One level down, two levels down, and behind a pointer. *)
Lemma nested_composites_untouched_witness :
  EncryptStruct service16 (VPtr (inl nested1)) tape = (Ok tt, VPtr (inl nested1), tape)
  /\ EncryptStruct service16 (VPtr (inl nested2)) tape = (Ok tt, VPtr (inl nested2), tape)
  /\ DecryptStruct service16 (VPtr (inl nested2)) tape = (Ok tt, VPtr (inl nested2), tape)
  /\ EncryptStruct service16 (VPtr (inl nested_ptr)) tape
     = (Ok tt, VPtr (inl nested_ptr), tape).
Proof.
  assert (H1 : [(public "Contact" [], contact)] !! 0 = Some (public "Contact" [], contact))
    by reflexivity.
  assert (H2 : [(public "Profile" [], nested1)] !! 0 = Some (public "Profile" [], nested1))
    by reflexivity.
  assert (H3 : [(public "Contact" [], VPtr (inl contact))] !! 0
               = Some (public "Contact" [], VPtr (inl contact))) by reflexivity.
  destruct (nested_composites_untouched service16 _ _ _ _ H1 I) as (_ & _ & Hn1).
  destruct (nested_composites_untouched service16 _ _ _ _ H2 I) as (_ & _ & Hn2).
  destruct (nested_composites_untouched service16 _ _ _ _ H3 I) as (_ & _ & Hn3).
  split; [|split; [|split]].
  - apply Hn1. repeat constructor.
  - apply Hn2. repeat constructor.
  - apply Hn2. repeat constructor.
  - apply Hn3. repeat constructor.
Defined.

(** C3, as the specification states it, fails on the code. A tagged string
    field at the top of a record is encrypted; the same field one level down
    is left as it was, where the traversal of section 4.2 of the
    specification encrypts it; and it is left as it was two levels down as
    well. *)
Lemma nested_field_not_transformed :
  EncryptStruct service16 (VPtr (inl contact)) tape
  = (Ok tt,
     VPtr (inl (VStruct [ (public "Email" encrypt_true,
                            VString "bm9uY2UtbnVtYmVy5H+ATDmoXLl2FcGy+WAh6IpzRM4eCNY=") ])),
     drop 12 tape)
  /\ EncryptStruct service16 (VPtr (inl nested1)) tape = (Ok tt, VPtr (inl nested1), tape)
  /\ spec_EncryptRecord service16 (VPtr (inl nested1)) tape
     = (Ok tt,
        VPtr (inl (VStruct [ (public "Contact" [],
                 VStruct [ (public "Email" encrypt_true,
                            VString "bm9uY2UtbnVtYmVy5H+ATDmoXLl2FcGy+WAh6IpzRM4eCNY=") ]) ])),
        drop 12 tape)
  /\ EncryptStruct service16 (VPtr (inl nested2)) tape = (Ok tt, VPtr (inl nested2), tape)
  /\ EncryptStruct service16 (VPtr (inl nested1)) tape
     <> spec_EncryptRecord service16 (VPtr (inl nested1)) tape.
Proof.
  assert (H1 : EncryptStruct service16 (VPtr (inl nested1)) tape
               = (Ok tt, VPtr (inl nested1), tape)) by (vm_compute; reflexivity).
  assert (H2 : spec_EncryptRecord service16 (VPtr (inl nested1)) tape
     = (Ok tt,
        VPtr (inl (VStruct [ (public "Contact" [],
                 VStruct [ (public "Email" encrypt_true,
                            VString "bm9uY2UtbnVtYmVy5H+ATDmoXLl2FcGy+WAh6IpzRM4eCNY=") ]) ])),
        drop 12 tape)) by (vm_compute; reflexivity).
  split; [vm_compute; reflexivity|]. split; [exact H1|]. split; [exact H2|].
  split; [vm_compute; reflexivity|].
  rewrite H1, H2. vm_compute. discriminate.
Qed.

(** C4 -- The two decryption errors. In a Service made by [NewService], for
    every non-empty input: [Decrypt] fails with [ErrInvalidData] exactly
    when the text is malformed (not standard base64, or decoding to fewer
    than twelve bytes), and with [ErrDecryptionFailed] exactly when the text
    is well-formed but the authenticated open rejects it; it returns no
    other error and never panics; a blob cut short after the nonce is
    rejected by the open, hence [ErrDecryptionFailed]. [DecryptBytes]
    behaves the same on raw blobs. A failed call carries no plaintext: an
    [Err] result has none. *)
Theorem decrypt_error_kinds (key : list byte) (s : Service) :
  NewService key = Ok s ->
  (forall c, c <> ""%string ->
     (Decrypt s c = Err ErrInvalidData <-> malformed 12 c)
     /\ (Decrypt s c = Err ErrDecryptionFailed <-> unauthentic s c)
     /\ (forall e, Decrypt s c = Err e -> e = ErrInvalidData \/ e = ErrDecryptionFailed)
     /\ (forall msg, Decrypt s c <> Panic msg)
     /\ (forall data, base64.DecodeString c = Ok data ->
           12 <= length data < 28 -> Decrypt s c = Err ErrDecryptionFailed))
  /\ (forall c, c <> [] ->
     (DecryptBytes s c = Err ErrInvalidData <-> length c < 12)
     /\ (DecryptBytes s c = Err ErrDecryptionFailed <-> unauthentic_bytes s c)
     /\ (forall e, DecryptBytes s c = Err e -> e = ErrInvalidData \/ e = ErrDecryptionFailed)
     /\ (forall msg, DecryptBytes s c <> Panic msg)
     /\ (12 <= length c < 28 -> DecryptBytes s c = Err ErrDecryptionFailed)).
Proof.
  intros Hs. pose proof (NewService_ok key s Hs) as Hok.
  destruct (NewService_NonceSize key s Hs) as [Hn Hov].
  assert (Hbytes : forall c, c <> [] ->
     (DecryptBytes s c = Err ErrInvalidData <-> length c < 12)
     /\ (DecryptBytes s c = Err ErrDecryptionFailed <-> unauthentic_bytes s c)
     /\ (forall e, DecryptBytes s c = Err e -> e = ErrInvalidData \/ e = ErrDecryptionFailed)
     /\ (forall msg, DecryptBytes s c <> Panic msg)
     /\ (12 <= length c < 28 -> DecryptBytes s c = Err ErrDecryptionFailed)).
  { intros c Hc. unfold unauthentic_bytes. rewrite Hn.
    destruct (DecryptBytes_cases s Hok c Hc) as [[Hlt ->]|[Hge [(e & Ho & ->)|(p & Ho & ->)]]];
      rewrite Hn in *.
    - repeat split; try tauto; try discriminate; try lia.
      + intros (e & Hge & _). lia.
      + intros e [= <-]. auto.
    - repeat split; try discriminate; try lia; eauto.
      intros e' [= <-]. auto.
    - repeat split; try discriminate; try lia.
      + intros (e & _ & He). congruence.
      + intros [_ Hlt]. rewrite (open_short _ Hok) in Ho; [discriminate| |].
        * rewrite length_take. lia.
        * rewrite length_drop, Hov. lia. }
  split; [|exact Hbytes].
  intros c Hc. unfold malformed, unauthentic. rewrite Hn.
  destruct (base64.DecodeString c) as [data|e|msg] eqn:Hd.
  - rewrite (Decrypt_DecryptBytes s Hok c data Hc Hd), Hn.
    destruct (decide (length data < 12)) as [Hlt|Hge].
    + repeat split; try discriminate; try lia; eauto.
      * intros (d & e & [= <-] & Hge & _). lia.
      * intros e [= <-]. auto.
      * intros d [= <-]. lia.
    + assert (Hne : data <> []) by (intros ->; simpl in Hge; lia).
      destruct (Hbytes data Hne) as (H1 & H2 & H3 & H4 & H5).
      unfold unauthentic_bytes in H2. rewrite Hn in H2.
      destruct (DecryptBytes s data) as [p|e|msg] eqn:HD; cbn [bind].
      * repeat split; try discriminate.
        -- intros [[=]|(d & [= <-] & Hlt)]. lia.
        -- intros (d & e & [= <-] & _ & He).
           assert (Hx : Ok p = Err ErrDecryptionFailed)
             by (apply H2; exists e; split; [lia|exact He]).
           discriminate.
        -- intros d [= <-] Hr. specialize (H5 Hr). discriminate.
      * destruct (H3 e eq_refl) as [->| ->].
        -- exfalso. assert (length data < 12) by now apply H1. lia.
        -- repeat split; auto; try discriminate.
           ++ intros [[=]|(d & [= <-] & Hlt)]. lia.
           ++ intros _. destruct H2 as [H2 _]. destruct (H2 eq_refl) as (e & Hge' & He).
              exists data, e. auto.
           ++ intros e [= <-]. auto.
      * exfalso. now apply (H4 msg).
  - assert (e = base64_CorruptInputError) as ->.
    { unfold base64.DecodeString in Hd. destruct (base64.Decode _); congruence. }
    assert (HD : Decrypt s c = Err ErrInvalidData).
    { unfold Decrypt. rewrite decide_False by assumption. now rewrite Hd. }
    rewrite HD. repeat split; auto; try discriminate.
    + intros (d & e & [=] & _).
    + intros e [= <-]. auto.
  - unfold base64.DecodeString in Hd. destruct (base64.Decode _); discriminate.
Qed.

Lemma decrypt_error_kinds_witness :
  NewService key16 = Ok service16
  /\ Decrypt service16 "not-base64!!" = Err ErrInvalidData
  /\ Decrypt service16 "AAAA" = Err ErrInvalidData
  /\ Decrypt service16 "bm9uY2UtbnVtYmVy5H+BTDmoXLl2FcGy+WAh6IpzRM4eCNY="
     = Err ErrDecryptionFailed
  /\ Decrypt service16 "bm9uY2UtbnVtYmVy5H+A" = Err ErrDecryptionFailed
  /\ Decrypt service16 "bm9uY2UtbnVtYmVyw/Hbm9Km6b4kMT2jv9u7tdow6L41wGg="
     = Err ErrDecryptionFailed.
Proof.
  split; [reflexivity|].
  destruct (decrypt_error_kinds key16 service16 NewService_key16) as [Htext _].
  split; [|split; [|split; [|split]]].
  - apply (Htext "not-base64!!"%string); [discriminate|]. left. reflexivity.
  - apply (Htext "AAAA"%string); [discriminate|]. right.
    exists [x00; x00; x00]. split; [reflexivity|simpl; lia].
  - apply (Htext "bm9uY2UtbnVtYmVy5H+BTDmoXLl2FcGy+WAh6IpzRM4eCNY="%string); [discriminate|].
    eexists _, cipher_errOpen. split; [reflexivity|]. split; [vm_compute; lia|].
    vm_compute. reflexivity.
  - destruct (Htext "bm9uY2UtbnVtYmVy5H+A"%string) as (_ & _ & _ & _ & Hcut); [discriminate|].
    eapply Hcut; [reflexivity|]. vm_compute. lia.
  - apply (Htext "bm9uY2UtbnVtYmVyw/Hbm9Km6b4kMT2jv9u7tdow6L41wGg="%string); [discriminate|].
    eexists _, cipher_errOpen. split; [reflexivity|]. split; [vm_compute; lia|].
    vm_compute. reflexivity.
Defined.

(** C5 -- Ciphertext diversity. In a Service made by [NewService], every
    [Encrypt] / [EncryptBytes] call on a non-empty input reads its nonce
    from the random source: it consumes the next twelve bytes, or fails with
    [ErrEncryptionFailed] when they cannot be had. A successful call returns
    that nonce followed by the message sealed under it (base64-encoded by
    [Encrypt]); so two encryptions of the same plaintext whose drawn nonces
    differ return different ciphertexts. *)
Theorem ciphertext_diversity (key : list byte) (s : Service) :
  NewService key = Ok s ->
  (forall p r, p <> ""%string ->
     (12 <= length r -> snd (Encrypt s p r) = drop 12 r)
     /\ (length r < 12 -> Encrypt s p r = (Err ErrEncryptionFailed, [])))
  /\ (forall p r, p <> [] ->
     (12 <= length r -> snd (EncryptBytes s p r) = drop 12 r)
     /\ (length r < 12 -> EncryptBytes s p r = (Err ErrEncryptionFailed, [])))
  /\ (forall p r c r', p <> ""%string -> Encrypt s p r = (Ok c, r') ->
     12 <= length r /\ r' = drop 12 r
     /\ exists sealed,
          base64.DecodeString c = Ok (take 12 r ++ sealed)
          /\ cipher.Open (gcm s) [] (take 12 r) sealed [] = Ok (bytes_of_string p))
  /\ (forall p r c r', p <> [] -> EncryptBytes s p r = (Ok c, r') ->
     12 <= length r /\ r' = drop 12 r
     /\ exists sealed,
          c = take 12 r ++ sealed
          /\ cipher.Open (gcm s) [] (take 12 r) sealed [] = Ok p)
  /\ (forall p r1 r2 c1 c2 r1' r2', p <> ""%string ->
     Encrypt s p r1 = (Ok c1, r1') -> Encrypt s p r2 = (Ok c2, r2') ->
     take 12 r1 <> take 12 r2 -> c1 <> c2)
  /\ (forall p r1 r2 c1 c2 r1' r2', p <> [] ->
     EncryptBytes s p r1 = (Ok c1, r1') -> EncryptBytes s p r2 = (Ok c2, r2') ->
     take 12 r1 <> take 12 r2 -> c1 <> c2).
Proof.
  intros Hs. pose proof (NewService_ok key s Hs) as Hok.
  destruct (NewService_NonceSize key s Hs) as [Hn _].
  assert (Hsplit : forall (r1 r2 : rand.Reader) (s1 s2 : list byte),
            12 <= length r1 -> 12 <= length r2 ->
            take 12 r1 ++ s1 = take 12 r2 ++ s2 -> take 12 r1 = take 12 r2).
  { intros r1 r2 s1 s2 H1 H2 H. apply app_inj_1 in H as [H _]; [exact H|].
    rewrite !length_take. lia. }
  split; [|split; [|split; [|split; [|split]]]].
  - intros p r Hp. rewrite <- Hn. now apply Encrypt_draws.
  - intros p r Hp. rewrite <- Hn. now apply EncryptBytes_draws.
  - intros p r c r' Hp HE.
    apply (Encrypt_Ok s Hok) in HE as (Hlen & Hr & sealed & -> & _ & Hopen); auto.
    rewrite Hn in *. repeat split; auto.
    exists sealed. split; [apply base64_DecodeString_EncodeToString|exact Hopen].
  - intros p r c r' Hp HE.
    apply (EncryptBytes_Ok s Hok) in HE as (Hlen & Hr & sealed & -> & _ & Hopen); auto.
    rewrite Hn in *. repeat split; auto. now exists sealed.
  - intros p r1 r2 c1 c2 r1' r2' Hp H1 H2 Hdiff.
    apply (Encrypt_Ok s Hok) in H1 as (Hl1 & _ & s1 & -> & _); auto.
    apply (Encrypt_Ok s Hok) in H2 as (Hl2 & _ & s2 & -> & _); auto.
    rewrite Hn in *. intros Heq. apply base64_EncodeToString_inj in Heq.
    apply Hdiff. eapply Hsplit; eauto.
  - intros p r1 r2 c1 c2 r1' r2' Hp H1 H2 Hdiff.
    apply (EncryptBytes_Ok s Hok) in H1 as (Hl1 & _ & s1 & -> & _); auto.
    apply (EncryptBytes_Ok s Hok) in H2 as (Hl2 & _ & s2 & -> & _); auto.
    rewrite Hn in *. intros Heq. apply Hdiff. eapply Hsplit; eauto.
Qed.

(** Two calls in a row on the same plaintext: the second draws the next
    twelve bytes and its ciphertext differs from the first. *)
Lemma ciphertext_diversity_witness :
  NewService key16 = Ok service16
  /\ Encrypt service16 "a@b.com" tape
     = (Ok "bm9uY2UtbnVtYmVy5H+ATDmoXLl2FcGy+WAh6IpzRM4eCNY="%string, drop 12 tape)
  /\ Encrypt service16 "a@b.com" (drop 12 tape)
     = (Ok "MW5vbmNlLW51bWJlmFsQISRrkHUZcupXsY962hGHKd6UwOg="%string, drop 24 tape)
  /\ "bm9uY2UtbnVtYmVy5H+ATDmoXLl2FcGy+WAh6IpzRM4eCNY="%string
     <> "MW5vbmNlLW51bWJlmFsQISRrkHUZcupXsY962hGHKd6UwOg="%string.
Proof.
  split; [reflexivity|].
  destruct (ciphertext_diversity key16 service16 NewService_key16)
    as (_ & _ & _ & _ & Hdiv & _).
  assert (H1 : Encrypt service16 "a@b.com" tape
     = (Ok "bm9uY2UtbnVtYmVy5H+ATDmoXLl2FcGy+WAh6IpzRM4eCNY="%string, drop 12 tape))
    by (vm_compute; reflexivity).
  assert (H2 : Encrypt service16 "a@b.com" (drop 12 tape)
     = (Ok "MW5vbmNlLW51bWJlmFsQISRrkHUZcupXsY962hGHKd6UwOg="%string, drop 24 tape))
    by (vm_compute; reflexivity).
  split; [exact H1|]. split; [exact H2|].
  apply (Hdiv "a@b.com"%string tape (drop 12 tape) _ _ _ _ ltac:(discriminate) H1 H2).
  vm_compute. discriminate.
Defined.

(** C6 -- Abort on the first error, without rollback. In each of the four
    transformers, when the run over the fields (or names) before some point
    has succeeded and the cipher core fails on the next selected field, the
    call returns exactly that error at once; the record is as the run over
    the earlier fields left it, and the failing field and everything after
    it are untouched. What a successful tag-driven run leaves in a selected
    non-empty field is a result of the cipher core, so the earlier fields
    stay transformed. *)
Theorem abort_on_first_error (s : Service) :
  (forall pre post pre' sf text r r1 r2 e,
     EncryptStruct s (VPtr (inl (VStruct pre))) r
     = (Ok tt, VPtr (inl (VStruct pre')), r1) ->
     tag_selected (sf, VString text) -> text <> ""%string ->
     Encrypt s text r1 = (Err e, r2) ->
     EncryptStruct s (VPtr (inl (VStruct (pre ++ (sf, VString text) :: post)))) r
     = (Err e, VPtr (inl (VStruct (pre' ++ (sf, VString text) :: post))), r2))
  /\ (forall pre post pre' sf text r r1 e,
     DecryptStruct s (VPtr (inl (VStruct pre))) r
     = (Ok tt, VPtr (inl (VStruct pre')), r1) ->
     tag_selected (sf, VString text) -> text <> ""%string ->
     Decrypt s text = Err e ->
     DecryptStruct s (VPtr (inl (VStruct (pre ++ (sf, VString text) :: post)))) r
     = (Err e, VPtr (inl (VStruct (pre' ++ (sf, VString text) :: post))), r1))
  /\ (forall fs fs1 pre post name i sf text r r1 r2 e,
     EncryptFields s (VPtr (inl (VStruct fs))) pre r
     = (Ok tt, VPtr (inl (VStruct fs1)), r1) ->
     reflect.Type_FieldByName (reflect.TypeOf (VStruct fs1)) name = Some [i] ->
     fs1 !! i = Some (sf, VString text) -> PkgPath sf = ""%string -> text <> ""%string ->
     Encrypt s text r1 = (Err e, r2) ->
     EncryptFields s (VPtr (inl (VStruct fs))) (pre ++ name :: post) r
     = (Err e, VPtr (inl (VStruct fs1)), r2))
  /\ (forall fs fs1 pre post name i sf text r r1 e,
     DecryptFields s (VPtr (inl (VStruct fs))) pre r
     = (Ok tt, VPtr (inl (VStruct fs1)), r1) ->
     reflect.Type_FieldByName (reflect.TypeOf (VStruct fs1)) name = Some [i] ->
     fs1 !! i = Some (sf, VString text) -> PkgPath sf = ""%string -> text <> ""%string ->
     Decrypt s text = Err e ->
     DecryptFields s (VPtr (inl (VStruct fs))) (pre ++ name :: post) r
     = (Err e, VPtr (inl (VStruct fs1)), r1))
  /\ (forall pre pre' r r1 j sf text,
     EncryptStruct s (VPtr (inl (VStruct pre))) r
     = (Ok tt, VPtr (inl (VStruct pre')), r1) ->
     pre !! j = Some (sf, VString text) ->
     tag_selected (sf, VString text) -> text <> ""%string ->
     exists c rj rj', Encrypt s text rj = (Ok c, rj') /\ pre' !! j = Some (sf, VString c))
  /\ (forall pre pre' r r1 j sf text,
     DecryptStruct s (VPtr (inl (VStruct pre))) r
     = (Ok tt, VPtr (inl (VStruct pre')), r1) ->
     pre !! j = Some (sf, VString text) ->
     tag_selected (sf, VString text) -> text <> ""%string ->
     exists p, Decrypt s text = Ok p /\ pre' !! j = Some (sf, VString p)).
Proof.
  rewrite EncryptStruct_eq, DecryptStruct_eq, EncryptFields_eq, DecryptFields_eq.
  split; [|split; [|split; [|split; [|split]]]].
  - intros. eapply transformStruct_abort; eauto.
  - intros. eapply transformStruct_abort; eauto. unfold decrypt_op. congruence.
  - intros. eapply transformFields_abort; eauto.
  - intros. eapply transformFields_abort; eauto. unfold decrypt_op. congruence.
  - intros pre pre' r r1 j sf text Hrun Hj (Ht & Hx & _) Hne.
    apply transformStruct_ptr_inv in Hrun.
    apply (tagged_fields_Ok _ _ _ _ _ j sf text Hrun Hj); auto.
    + now apply tagged_true.
    + now apply exported_true.
  - intros pre pre' r r1 j sf text Hrun Hj (Ht & Hx & _) Hne.
    apply transformStruct_ptr_inv in Hrun.
    destruct (tagged_fields_Ok _ _ _ _ _ j sf text Hrun Hj) as (p & rj & rj' & Hop & Hp); auto.
    + now apply tagged_true.
    + now apply exported_true.
    + exists p. split; [|exact Hp]. unfold decrypt_op in Hop. congruence.
Qed.

(** [EncryptStruct] with randomness for one nonce only: [Email] is
    encrypted, [Phone] fails, and the call returns with [Email] still
    encrypted and [Phone] and the rest as they were. [DecryptFields] on a
    stored record: [Email] is decrypted, [Phone] is malformed, [Name] is
    never reached. *)
Lemma abort_on_first_error_witness :
  EncryptStruct service16 (VPtr (inl user)) short_tape
  = (Err ErrEncryptionFailed,
     VPtr (inl (VStruct [ (public "Name" [], VString "Alice");
                           (public "Email" encrypt_true, VString email_sealed);
                           (public "Phone" [("encrypt", "true")], VString "+123");
                           (public "Age" [("encrypt", "true")], VInt 33);
                           (private "secret" [("encrypt", "true")], VString "hidden") ])),
     [])
  /\ DecryptFields service16 (VPtr (inl stored_user)) ["Email"; "Phone"; "Name"]%string tape
     = (Err ErrInvalidData,
        VPtr (inl (VStruct [ (public "Name" [], VString "Alice");
                              (public "Email" encrypt_true, VString "a@b.com");
                              (public "Phone" [("encrypt", "true")], VString "garbage!");
                              (public "Age" [("encrypt", "true")], VInt 33) ])),
        tape).
Proof.
  destruct (abort_on_first_error service16) as (Henc & _ & _ & Hdec & _).
  split.
  - apply (Henc [ (public "Name" [], VString "Alice");
                  (public "Email" encrypt_true, VString "a@b.com") ]
                [ (public "Age" [("encrypt", "true")], VInt 33);
                  (private "secret" [("encrypt", "true")], VString "hidden") ]
                [ (public "Name" [], VString "Alice");
                  (public "Email" encrypt_true, VString email_sealed) ]
                (public "Phone" [("encrypt", "true")]) "+123"%string
                short_tape [] [] ErrEncryptionFailed).
    + vm_compute. reflexivity.
    + split; [reflexivity|]. split; [reflexivity|]. eexists. reflexivity.
    + discriminate.
    + vm_compute. reflexivity.
  - apply (Hdec _ _ ["Email"]%string ["Name"]%string "Phone"%string 2
                (public "Phone" [("encrypt", "true")]) "garbage!"%string
                tape tape ErrInvalidData).
    + vm_compute. reflexivity.
    + reflexivity.
    + reflexivity.
    + reflexivity.
    + discriminate.
    + vm_compute. reflexivity.
Defined.

(** C7 (as amended) -- Frame. In tag mode, for a struct passed by pointer,
    every field that is not selected (its [encrypt] tag is absent or not
    ["true"], or it is not of string kind, or it is not settable) keeps its
    exact prior value, whatever the outcome of the call, and a record
    without selected fields comes back unchanged with no error. In name
    mode every field that is neither in the list nor embedded keeps its
    exact prior value, whatever the outcome of the call; an embedded struct
    changes when a listed name is promoted from it. A struct passed by
    value is a copy: the tag-driven calls return nil and change nothing,
    and so do the name-driven calls when the struct has no embedded
    field. *)
Theorem unselected_fields_unchanged (s : Service) :
  (forall fs r res v' r',
     EncryptStruct s (VPtr (inl (VStruct fs))) r = (res, v', r') ->
     exists fs', v' = VPtr (inl (VStruct fs')) /\ length fs' = length fs
       /\ forall i fld, fs !! i = Some fld -> ~ tag_selected fld -> fs' !! i = Some fld)
  /\ (forall fs r res v' r',
     DecryptStruct s (VPtr (inl (VStruct fs))) r = (res, v', r') ->
     exists fs', v' = VPtr (inl (VStruct fs')) /\ length fs' = length fs
       /\ forall i fld, fs !! i = Some fld -> ~ tag_selected fld -> fs' !! i = Some fld)
  /\ (forall fs r, Forall (fun fld => ~ tag_selected fld) fs ->
     EncryptStruct s (VPtr (inl (VStruct fs))) r = (Ok tt, VPtr (inl (VStruct fs)), r)
     /\ DecryptStruct s (VPtr (inl (VStruct fs))) r = (Ok tt, VPtr (inl (VStruct fs)), r))
  /\ (forall fs names r res v' r',
     EncryptFields s (VPtr (inl (VStruct fs))) names r = (res, v', r') ->
     exists fs', v' = VPtr (inl (VStruct fs')) /\ length fs' = length fs
       /\ forall i fld, fs !! i = Some fld ->
            ~ In (Name (fst fld)) names -> Anonymous (fst fld) = false ->
            fs' !! i = Some fld)
  /\ (forall fs names r res v' r',
     DecryptFields s (VPtr (inl (VStruct fs))) names r = (res, v', r') ->
     exists fs', v' = VPtr (inl (VStruct fs')) /\ length fs' = length fs
       /\ forall i fld, fs !! i = Some fld ->
            ~ In (Name (fst fld)) names -> Anonymous (fst fld) = false ->
            fs' !! i = Some fld)
  /\ (forall fs r,
     EncryptStruct s (VStruct fs) r = (Ok tt, VStruct fs, r)
     /\ DecryptStruct s (VStruct fs) r = (Ok tt, VStruct fs, r))
  /\ (forall fs names r, no_embedded fs ->
     EncryptFields s (VStruct fs) names r = (Ok tt, VStruct fs, r)
     /\ DecryptFields s (VStruct fs) names r = (Ok tt, VStruct fs, r)).
Proof.
  rewrite EncryptStruct_eq, DecryptStruct_eq, EncryptFields_eq, DecryptFields_eq.
  assert (Htag : forall op fs r res v' r',
     transformStruct op (VPtr (inl (VStruct fs))) r = (res, v', r') ->
     exists fs', v' = VPtr (inl (VStruct fs')) /\ length fs' = length fs
       /\ forall i fld, fs !! i = Some fld -> ~ tag_selected fld -> fs' !! i = Some fld).
  { intros op fs r res v' r' H. apply transformStruct_frame in H as (fs' & -> & Hl & Hf).
    exists fs'. repeat split; auto. intros i fld Hi Hno.
    apply (Hf i fld Hi). now apply not_tag_selected. }
  assert (Hname : forall op fs names r res v' r',
     transformFields op (VPtr (inl (VStruct fs))) names r = (res, v', r') ->
     exists fs', v' = VPtr (inl (VStruct fs')) /\ length fs' = length fs
       /\ forall i fld, fs !! i = Some fld ->
            ~ In (Name (fst fld)) names -> Anonymous (fst fld) = false ->
            fs' !! i = Some fld).
  { intros op fs names r res v' r' H.
    apply transformFields_frame in H as (fs' & -> & Hl & _ & Hf).
    exists fs'. split; [reflexivity|]. split; [exact Hl|]. intros i fld Hi Hno Han.
    apply (Hf i fld Hi). left. auto. }
  split; [apply Htag|]. split; [apply Htag|]. split.
  { intros fs r H. split; apply transformStruct_idle;
      (eapply Forall_impl; [exact H|apply not_tag_selected]). }
  split; [apply Hname|]. split; [apply Hname|]. split.
  - intros fs r. split; apply transformStruct_value.
  - intros fs names r Hno. split; now apply transformFields_value.
Qed.

(** On [User]: [Name] has no tag, [Age] is tagged but an int, [secret] is
    tagged but unexported; all three are unchanged by [EncryptStruct], and
    [EncryptFields] with ["Email"] leaves [Phone] unchanged. On [Wrapper],
    [EncryptFields] with ["Email"] leaves [Note] unchanged. *)
Lemma unselected_fields_unchanged_witness :
  (exists fs',
     snd (fst (EncryptStruct service16 (VPtr (inl user)) tape)) = VPtr (inl (VStruct fs'))
     /\ fs' !! 0 = Some (public "Name" [], VString "Alice")
     /\ fs' !! 3 = Some (public "Age" [("encrypt", "true")], VInt 33)
     /\ fs' !! 4 = Some (private "secret" [("encrypt", "true")], VString "hidden"))
  /\ (exists fs',
     snd (fst (EncryptFields service16 (VPtr (inl user)) ["Email"]%string tape))
     = VPtr (inl (VStruct fs'))
     /\ fs' !! 2 = Some (public "Phone" [("encrypt", "true")], VString "+123"))
  /\ (exists fs',
     snd (fst (EncryptFields service16 (VPtr (inl wrapper)) ["Email"]%string tape))
     = VPtr (inl (VStruct fs'))
     /\ fs' !! 1 = Some (public "Note" [], VString "n")).
Proof.
  destruct (unselected_fields_unchanged service16) as (Htag & _ & _ & Hname & _).
  split; [|split].
  - destruct (EncryptStruct service16 (VPtr (inl user)) tape) as [[res v'] r'] eqn:Hrun.
    apply Htag in Hrun as (fs' & -> & _ & Hf). exists fs'. split; [reflexivity|].
    split; [|split]; apply Hf; try reflexivity.
    + intros (Ht & _). discriminate Ht.
    + intros (_ & _ & text & Hs). discriminate Hs.
    + intros (_ & Hx & _). discriminate Hx.
  - destruct (EncryptFields service16 (VPtr (inl user)) ["Email"]%string tape)
      as [[res v'] r'] eqn:Hrun.
    apply Hname in Hrun as (fs' & -> & _ & Hf). exists fs'. split; [reflexivity|].
    apply Hf; [reflexivity| |reflexivity]. intros [H|[]]. discriminate H.
  - destruct (EncryptFields service16 (VPtr (inl wrapper)) ["Email"]%string tape)
      as [[res v'] r'] eqn:Hrun.
    apply Hname in Hrun as (fs' & -> & _ & Hf). exists fs'. split; [reflexivity|].
    apply Hf; [reflexivity| |reflexivity]. intros [H|[]]. discriminate H.
Defined.

(** C7, as the specification states it, fails on the code. [Wrapper]
    embeds [Contact]; [EncryptFields] with the one name ["Email"] resolves
    it to the promoted field [Contact.Email] and encrypts it, so the field
    [Contact] of the record, which is not in the name list, does not keep
    its prior value. *)
Lemma unnamed_field_changed :
  exists fs',
    EncryptFields service16 (VPtr (inl wrapper)) ["Email"]%string tape
    = (Ok tt, VPtr (inl (VStruct fs')), drop 12 tape)
    /\ ~ In "Contact"%string ["Email"]%string
    /\ (exists fs, wrapper = VStruct fs /\ fs !! 0 = Some (embedded "Contact", contact))
    /\ fs' !! 0 <> Some (embedded "Contact", contact).
Proof.
  eexists. split; [vm_compute; reflexivity|].
  split; [intros [H|[]]; discriminate H|].
  split; [eexists; split; reflexivity|]. cbn. intros H. discriminate H.
Qed.

(** C8 (as amended) -- Name mode ignores the tag and skips silently. On a
    struct passed by pointer, a name that resolves to a declared exported
    field holding a non-empty string has that field replaced by the cipher
    core's result, whatever the field's tag, and the call goes on with the
    remaining names; so has a name that resolves to a field promoted from
    an embedded struct, where that field is settable and holds a non-empty
    string; a name that resolves to no field, neither a declared
    one nor one promoted from an embedded struct, or to a field that is
    not settable or not of string kind, is skipped, so a call in which
    every name is of that sort returns nil and changes nothing. A name no
    declared field has is skipped when the struct embeds nothing, and a
    name of a declared field when that field is unexported or no string.
    On a struct without embedded fields passed by value no field is
    settable and every name is skipped. *)
Theorem named_fields_ignore_tags (s : Service) :
  (forall fs name names i sf text c r r',
     reflect.Type_FieldByName (reflect.TypeOf (VStruct fs)) name = Some [i] ->
     fs !! i = Some (sf, VString text) -> PkgPath sf = ""%string -> text <> ""%string ->
     Encrypt s text r = (Ok c, r') ->
     EncryptFields s (VPtr (inl (VStruct fs))) (name :: names) r
     = EncryptFields s (VPtr (inl (VStruct (<[i := (sf, VString c)]> fs)))) names r')
  /\ (forall fs name names i sf text p r,
     reflect.Type_FieldByName (reflect.TypeOf (VStruct fs)) name = Some [i] ->
     fs !! i = Some (sf, VString text) -> PkgPath sf = ""%string -> text <> ""%string ->
     Decrypt s text = Ok p ->
     DecryptFields s (VPtr (inl (VStruct fs))) (name :: names) r
     = DecryptFields s (VPtr (inl (VStruct (<[i := (sf, VString p)]> fs)))) names r)
  /\ (forall fs name names q text c r r',
     target (pointee fs) name (VPtr (inl (VStruct fs))) = Ok (Some q) ->
     reflect.load (VPtr (inl (VStruct fs))) q = Some (VString text) -> text <> ""%string ->
     Encrypt s text r = (Ok c, r') ->
     EncryptFields s (VPtr (inl (VStruct fs))) (name :: names) r
     = EncryptFields s (reflect.store (VPtr (inl (VStruct fs))) q (VString c)) names r')
  /\ (forall fs name names q text p r,
     target (pointee fs) name (VPtr (inl (VStruct fs))) = Ok (Some q) ->
     reflect.load (VPtr (inl (VStruct fs))) q = Some (VString text) -> text <> ""%string ->
     Decrypt s text = Ok p ->
     DecryptFields s (VPtr (inl (VStruct fs))) (name :: names) r
     = DecryptFields s (reflect.store (VPtr (inl (VStruct fs))) q (VString p)) names r)
  /\ (forall fs name names r, name_skipped fs name ->
     EncryptFields s (VPtr (inl (VStruct fs))) (name :: names) r
     = EncryptFields s (VPtr (inl (VStruct fs))) names r
     /\ DecryptFields s (VPtr (inl (VStruct fs))) (name :: names) r
        = DecryptFields s (VPtr (inl (VStruct fs))) names r)
  /\ (forall fs names r, Forall (name_skipped fs) names ->
     EncryptFields s (VPtr (inl (VStruct fs))) names r = (Ok tt, VPtr (inl (VStruct fs)), r)
     /\ DecryptFields s (VPtr (inl (VStruct fs))) names r
        = (Ok tt, VPtr (inl (VStruct fs)), r))
  /\ (forall fs name,
     Forall (fun fld => Name (fst fld) <> name /\ Anonymous (fst fld) = false) fs ->
     name_skipped fs name)
  /\ (forall fs name i sf x,
     reflect.Type_FieldByName (reflect.TypeOf (VStruct fs)) name = Some [i] ->
     fs !! i = Some (sf, x) ->
     PkgPath sf <> ""%string \/ (forall text, x <> VString text) ->
     name_skipped fs name)
  /\ (forall fs names r, no_embedded fs ->
     EncryptFields s (VStruct fs) names r = (Ok tt, VStruct fs, r)
     /\ DecryptFields s (VStruct fs) names r = (Ok tt, VStruct fs, r)).
Proof.
  rewrite EncryptFields_eq, DecryptFields_eq.
  split; [|split; [|split; [|split; [|split; [|split; [|split; [|split]]]]]]].
  - intros. eapply transformFields_step; eauto.
  - intros. eapply transformFields_step; eauto. unfold decrypt_op. congruence.
  - intros. eapply transformFields_target; eauto.
  - intros. eapply transformFields_target; eauto. unfold decrypt_op. congruence.
  - intros fs name names r H. split; now apply transformFields_skip.
  - intros fs names r H. split; now apply transformFields_idle.
  - intros fs name H. now apply name_skipped_undeclared.
  - intros fs name i sf x Hres Hi Hx. now apply (name_skipped_declared fs name i sf x).
  - intros fs names r Hno. split; now apply transformFields_value.
Qed.

(** On [User]: [Name] carries no tag and is encrypted when named; ["Nope"]
    names no field, ["Age"] names an int and ["secret"] an unexported
    field, and all three are ignored without error. On [Wrapper]: [Email]
    is promoted from [Contact] and is encrypted there. *)
Lemma named_fields_ignore_tags_witness :
  EncryptFields service16 (VPtr (inl user)) ["Nope"; "Name"; "Age"; "secret"]%string tape
  = (Ok tt,
     VPtr (inl (VStruct [ (public "Name" [],
                            VString "bm9uY2UtbnVtYmVyxFOLAT+qlx0/RbT4ZaKXf14rtPMH");
                           (public "Email" encrypt_true, VString "a@b.com");
                           (public "Phone" [("encrypt", "true")], VString "+123");
                           (public "Age" [("encrypt", "true")], VInt 33);
                           (private "secret" [("encrypt", "true")], VString "hidden") ])),
     drop 12 tape)
  /\ EncryptFields service16 (VPtr (inl wrapper)) ["Email"]%string tape
     = (Ok tt, VPtr (inl wrapper_sealed), drop 12 tape).
Proof.
  destruct (named_fields_ignore_tags service16)
    as (Hstep & _ & Hprom & _ & Hskip & Hidle & Hnone & Hdecl & _).
  split.
  2:{ unfold wrapper.
      rewrite (Hprom _ "Email"%string [] [reflect.Deref; reflect.Fld 0; reflect.Fld 0]
                     "a@b.com"%string email_sealed tape (drop 12 tape));
        [reflexivity|vm_compute; reflexivity|reflexivity|discriminate|
         vm_compute; reflexivity]. }
  unfold user.
  assert (Hnope : name_skipped user_fields "Nope").
  { apply Hnone. repeat constructor; discriminate. }
  rewrite (proj1 (Hskip user_fields "Nope"%string _ tape Hnope)).
  rewrite (Hstep user_fields "Name"%string _ 0 (public "Name" []) "Alice"%string
                 "bm9uY2UtbnVtYmVyxFOLAT+qlx0/RbT4ZaKXf14rtPMH"%string tape (drop 12 tape)
                 eq_refl eq_refl eq_refl).
  - apply (Hidle _ ["Age"; "secret"]%string).
    constructor; [|constructor; [|constructor]].
    + apply (Hdecl _ "Age"%string 3 (public "Age" [("encrypt", "true")]) (VInt 33));
        [reflexivity|reflexivity|]. right. intros text. discriminate.
    + apply (Hdecl _ "secret"%string 4 (private "secret" [("encrypt", "true")])
                   (VString "hidden")); [reflexivity|reflexivity|]. left. discriminate.
  - discriminate.
  - vm_compute. reflexivity.
Defined.

(** C8, as the specification states it, fails on the code. No field of
    [Wrapper] is named [Email], so the name does not resolve to a field of
    the top-level record; yet it is not skipped: [EncryptFields] encrypts
    the promoted field [Contact.Email]. And where the embedded field is a
    nil pointer the call does not return success: [FieldByName] panics. *)
Lemma promoted_name_not_skipped :
  (exists fs, wrapper = VStruct fs
              /\ Forall (fun fld => Name (fst fld) <> "Email"%string) fs)
  /\ EncryptFields service16 (VPtr (inl wrapper)) ["Email"]%string tape
     = (Ok tt, VPtr (inl wrapper_sealed), drop 12 tape)
  /\ wrapper_sealed <> wrapper
  /\ (exists fs, wrapper_nil = VStruct fs
                 /\ Forall (fun fld => Name (fst fld) <> "Email"%string) fs)
  /\ DecryptFields service16 (VPtr (inl wrapper_nil)) ["Email"]%string tape
     = (Panic "reflect: indirection through nil pointer to embedded struct",
        VPtr (inl wrapper_nil), tape).
Proof.
  split; [eexists; split; [reflexivity|repeat constructor; discriminate]|].
  split; [vm_compute; reflexivity|]. split; [discriminate|].
  split; [eexists; split; [reflexivity|repeat constructor; discriminate]|].
  vm_compute. reflexivity.
Qed.

(** C9 -- Empty values pass through. In every Service, [Encrypt] and
    [Decrypt] return the empty string for the empty string, and
    [EncryptBytes] and [DecryptBytes] an empty result for an empty input,
    with no error and without touching the random source. In all four
    record transformers a field holding the empty string keeps it, whatever
    the outcome of the call. A record whose string fields are all empty
    comes back unchanged with no error from the tag-driven transformers,
    and from the name-driven ones when it has no embedded field. *)
Theorem empty_passes_through (s : Service) :
  (forall r, Encrypt s "" r = (Ok ""%string, r))
  /\ Decrypt s "" = Ok ""%string
  /\ (forall r, EncryptBytes s [] r = (Ok [], r))
  /\ DecryptBytes s [] = Ok []
  /\ (forall fs i sf names r res v' r',
        fs !! i = Some (sf, VString "") ->
        EncryptStruct s (VPtr (inl (VStruct fs))) r = (res, v', r')
        \/ DecryptStruct s (VPtr (inl (VStruct fs))) r = (res, v', r')
        \/ EncryptFields s (VPtr (inl (VStruct fs))) names r = (res, v', r')
        \/ DecryptFields s (VPtr (inl (VStruct fs))) names r = (res, v', r') ->
        exists fs', v' = VPtr (inl (VStruct fs')) /\ fs' !! i = Some (sf, VString ""))
  /\ (forall fs r,
        (forall i sf text, fs !! i = Some (sf, VString text) -> text = ""%string) ->
        EncryptStruct s (VPtr (inl (VStruct fs))) r = (Ok tt, VPtr (inl (VStruct fs)), r)
        /\ DecryptStruct s (VPtr (inl (VStruct fs))) r
           = (Ok tt, VPtr (inl (VStruct fs)), r))
  /\ (forall fs names r,
        (forall i sf text, fs !! i = Some (sf, VString text) -> text = ""%string) ->
        no_embedded fs ->
        EncryptFields s (VPtr (inl (VStruct fs))) names r
        = (Ok tt, VPtr (inl (VStruct fs)), r)
        /\ DecryptFields s (VPtr (inl (VStruct fs))) names r
           = (Ok tt, VPtr (inl (VStruct fs)), r)).
Proof.
  split; [reflexivity|]. split; [reflexivity|]. split; [reflexivity|]. split; [reflexivity|].
  rewrite EncryptStruct_eq, DecryptStruct_eq, EncryptFields_eq, DecryptFields_eq.
  assert (Hnone : forall fs : list field,
            (forall i sf text, fs !! i = Some (sf, VString text) -> text = ""%string) ->
            forall i fld, fs !! i = Some fld -> ~ transformable fld).
  { intros fs Hall i [sf x] Hi [_ (text & Hs & Hne)]. cbn in Hs. subst x.
    apply Hne. eapply Hall; eauto. }
  split; [|split].
  - intros fs i sf names r res v' r' Hi [H|[H|[H|H]]].
    1,2: apply transformStruct_frame in H as (fs' & -> & _ & Hf).
    3,4: apply transformFields_frame in H as (fs' & -> & _ & _ & Hf).
    1,2: exists fs'; split; [reflexivity|]; apply Hf; [exact Hi|];
         intros [_ Ht]; now apply empty_not_transformable in Ht.
    all: exists fs'; split; [reflexivity|]; apply (Hf i _ Hi); right.
    all: intros [|[|j] qt] text; cbn; [now intros [= <-]|discriminate|discriminate].
  - intros fs r Hall.
    assert (Hidle : Forall (fun fld => ~ (tagged (fst fld) = true /\ transformable fld)) fs).
    { apply Forall_lookup. intros i fld Hi [_ Ht]. eapply Hnone; eauto. }
    split; now apply transformStruct_idle.
  - intros fs names r Hall Hno.
    assert (Hnames : Forall (fun name => forall i fld,
                   declared_field (map fst fs) name = Some i ->
                   fs !! i = Some fld -> ~ transformable fld) names).
    { apply Forall_forall. intros name _ i fld _ Hi. eapply Hnone; eauto. }
    split; (rewrite transformFields_ptr by exact Hno); now rewrite named_fields_idle.
Qed.

Lemma empty_passes_through_witness :
  EncryptStruct service16
    (VPtr (inl (VStruct [ (public "Email" encrypt_true, VString "") ]))) tape
  = (Ok tt, VPtr (inl (VStruct [ (public "Email" encrypt_true, VString "") ])), tape)
  /\ DecryptFields service16
       (VPtr (inl (VStruct [ (public "Email" encrypt_true, VString "") ])))
       ["Email"]%string tape
     = (Ok tt, VPtr (inl (VStruct [ (public "Email" encrypt_true, VString "") ])), tape).
Proof.
  destruct (empty_passes_through service16) as (_ & _ & _ & _ & _ & Htag & Hname).
  assert (Hall : forall i sf text,
            [ (public "Email" encrypt_true, VString "") ] !! i = Some (sf, VString text) ->
            text = ""%string).
  { intros [|i] sf text H; [now injection H as _ <-|destruct i; discriminate H]. }
  assert (Hno : no_embedded [ (public "Email" encrypt_true, VString "") ]).
  { repeat constructor. }
  split; [exact (proj1 (Htag _ tape Hall))|exact (proj2 (Hname _ ["Email"]%string tape Hall Hno))].
Defined.

(** C10 -- Inputs that are not records. Given a value that is neither a
    struct nor a pointer to a struct (the nil interface, a scalar, a
    string, a slice, a nil pointer, a pointer to anything but a struct),
    [EncryptStruct] and [DecryptStruct] return nil and change nothing.
    [EncryptFields] and [DecryptFields] have no such guard: with an empty
    name list they return nil, and with any non-empty name list they panic
    in [FieldByName] at the first name, before anything is changed. *)
Theorem non_record_inputs (s : Service) (v : value) (r : rand.Reader) :
  ~ is_record v ->
  EncryptStruct s v r = (Ok tt, v, r)
  /\ DecryptStruct s v r = (Ok tt, v, r)
  /\ EncryptFields s v [] r = (Ok tt, v, r)
  /\ DecryptFields s v [] r = (Ok tt, v, r)
  /\ (forall name names,
        (exists msg, EncryptFields s v (name :: names) r = (Panic msg, v, r))
        /\ (exists msg, DecryptFields s v (name :: names) r = (Panic msg, v, r))).
Proof.
  intros Hv.
  rewrite EncryptStruct_eq, DecryptStruct_eq, EncryptFields_eq, DecryptFields_eq.
  repeat split; try (now apply transformStruct_other); now apply transformFields_other.
Qed.

(** An int, a string, a nil [*User] and the nil interface. *)
Lemma non_record_inputs_witness :
  ~ is_record (VInt 42)
  /\ EncryptStruct service16 (VInt 42) tape = (Ok tt, VInt 42, tape)
  /\ DecryptStruct service16 (VString "x") tape = (Ok tt, VString "x", tape)
  /\ EncryptFields service16 (VInt 42) ["Email"]%string tape
     = (Panic "reflect: call of reflect.Value.FieldByName on int Value", VInt 42, tape)
  /\ DecryptFields service16 (VString "x") ["Email"]%string tape
     = (Panic "reflect: call of reflect.Value.FieldByName on string Value",
        VString "x", tape)
  /\ EncryptFields service16 nil_user ["Email"]%string tape
     = (Panic "reflect: call of reflect.Value.FieldByName on zero Value", nil_user, tape)
  /\ EncryptFields service16 Nil ["Email"]%string tape
     = (Panic "reflect: call of reflect.Value.FieldByName on zero Value", Nil, tape).
Proof.
  assert (Hint : ~ is_record (VInt 42)) by (intros H; exact H).
  assert (Hstr : ~ is_record (VString "x")) by (intros H; exact H).
  assert (Hptr : ~ is_record nil_user) by (intros H; exact H).
  assert (Hnil : ~ is_record Nil) by (intros H; exact H).
  split; [exact Hint|].
  destruct (non_record_inputs service16 (VInt 42) tape Hint) as (H1 & _ & _ & _ & H5).
  destruct (non_record_inputs service16 (VString "x") tape Hstr) as (_ & H2 & _ & _ & H6).
  destruct (non_record_inputs service16 nil_user tape Hptr) as (_ & _ & _ & _ & H7).
  destruct (non_record_inputs service16 Nil tape Hnil) as (_ & _ & _ & _ & H8).
  split; [exact H1|]. split; [exact H2|].
  destruct (H5 "Email"%string []) as [(m5 & E5) _].
  destruct (H6 "Email"%string []) as [_ (m6 & E6)].
  destruct (H7 "Email"%string []) as [(m7 & E7) _].
  destruct (H8 "Email"%string []) as [(m8 & E8) _].
  assert (m5 = "reflect: call of reflect.Value.FieldByName on int Value"%string)
    as -> by (vm_compute in E5; congruence).
  assert (m6 = "reflect: call of reflect.Value.FieldByName on string Value"%string)
    as -> by (vm_compute in E6; congruence).
  assert (m7 = "reflect: call of reflect.Value.FieldByName on zero Value"%string)
    as -> by (vm_compute in E7; congruence).
  assert (m8 = "reflect: call of reflect.Value.FieldByName on zero Value"%string)
    as -> by (vm_compute in E8; congruence).
  split; [exact E5|]. split; [exact E6|]. split; [exact E7|exact E8].
Defined.

(* ================================================================= *)
(** * Further properties of package encrypt                            *)
(* ================================================================= *)

(** ** Helper lemmas *)


Lemma NewService_gcm (key : list byte) (s : Service) :
  NewService key = Ok s ->
  exists b, Block_ok b
    /\ cipher.NonceSize (gcm s) = 12 /\ cipher.Overhead (gcm s) = 16
    /\ cipher.Seal (gcm s) = cipher.gcm_Seal b
    /\ cipher.Open (gcm s) = cipher.gcm_Open b.
Proof.
  unfold NewService.
  destruct (aes.NewCipher key) as [blk| |] eqn:Hk; try discriminate.
  unfold cipher.NewGCM. destruct (negb _); try discriminate.
  intros [= <-]. exists blk. split; [eapply aes_NewCipher_ok; eauto|].
  repeat split; reflexivity.
Qed.

Section RoundTrips.

Variable s : Service.
Hypothesis Hs : AEAD_ok (gcm s).

Lemma Encrypt_nonempty (p : string) (r r' : rand.Reader) (c : string) :
  p <> ""%string -> Encrypt s p r = (Ok c, r') -> c <> ""%string.
Proof.
  intros Hp HE. pose proof (nonce_size_pos _ Hs) as Hpos.
  apply Encrypt_Ok in HE as (Hlen & _ & sealed & -> & _ & _); auto.
  apply base64_EncodeToString_nonempty.
  destruct (take _ r) eqn:E; [|discriminate].
  apply (f_equal length) in E. rewrite length_take in E. simpl in E. lia.
Qed.

Lemma transform_field_round_trip (fld fld' : field) (r r' : rand.Reader) :
  transform_field (encrypt_op s) fld r = (Ok tt, fld', r') ->
  forall r2, transform_field (decrypt_op s) fld' r2 = (Ok tt, fld, r2).
Proof.
  destruct fld as [sf x]. destruct x as [| | |text| | |]; simpl;
    try (intros [= <- <-] r2; reflexivity).
  destruct (decide (text = "")) as [->|Hne].
  - intros [= <- <-] r2. reflexivity.
  - unfold encrypt_op. destruct (Encrypt s text r) as [[c| |] r1] eqn:E; try discriminate.
    intros [= <- <-] r2. simpl.
    rewrite decide_False by (eapply Encrypt_nonempty; eauto).
    unfold decrypt_op. now rewrite (Decrypt_Encrypt s Hs text r r1 c).
Qed.

Lemma tagged_fields_round_trip (fs fs' : list field) (r r' : rand.Reader) :
  tagged_fields (encrypt_op s) fs r = (Ok tt, fs', r') ->
  forall r2, tagged_fields (decrypt_op s) fs' r2 = (Ok tt, fs, r2).
Proof.
  revert fs' r r'. induction fs as [|fld fs IH]; intros fs' r r'; simpl.
  - intros [= <- <-] r2. reflexivity.
  - destruct (tagged (fst fld) && exported (fst fld)) eqn:Hsel.
    + destruct (transform_field (encrypt_op s) fld r) as [[res fld1] r1] eqn:Hf.
      pose proof (transform_field_fst _ _ _ _ _ _ Hf) as Hty.
      destruct res as [[]| |]; try (intros [= ]; fail).
      destruct (tagged_fields (encrypt_op s) fs r1) as [[res2 fs1] r2'] eqn:Hrest.
      intros [= -> <- <-] r2. simpl. rewrite Hty, Hsel.
      rewrite (transform_field_round_trip _ _ _ _ Hf r2).
      now rewrite (IH _ _ _ Hrest r2).
    + destruct (tagged_fields (encrypt_op s) fs r) as [[res2 fs1] r2'] eqn:Hrest.
      intros [= -> <- <-] r2. simpl. rewrite Hsel.
      now rewrite (IH _ _ _ Hrest r2).
Qed.

End RoundTrips.

Section DecryptReader.

Variable s : Service.

Lemma transform_field_decrypt (fld fld' : field) (r r' : rand.Reader) (res : result unit) :
  transform_field (decrypt_op s) fld r = (res, fld', r') ->
  r' = r /\ forall r2, transform_field (decrypt_op s) fld r2 = (res, fld', r2).
Proof.
  destruct fld as [sf x]. destruct x as [| | |text| | |]; simpl;
    try (intros [= <- <- <-]; split; reflexivity).
  destruct (decide (text = "")); [intros [= <- <- <-]; split; reflexivity|].
  unfold decrypt_op. destruct (Decrypt s text) as [p| |];
    intros [= <- <- <-]; split; reflexivity.
Qed.

Lemma named_field_decrypt (fs fs' : list field) (name : string) (r r' : rand.Reader)
  (res : result unit) :
  named_field (decrypt_op s) fs name r = (res, fs', r') ->
  r' = r /\ forall r2, named_field (decrypt_op s) fs name r2 = (res, fs', r2).
Proof.
  unfold named_field.
  destruct (declared_field _ _) as [i|]; [|intros [= <- <- <-]; split; reflexivity].
  destruct (fs !! i) as [fld|]; [|intros [= <- <- <-]; split; reflexivity].
  destruct (exported _); [|intros [= <- <- <-]; split; reflexivity].
  destruct (transform_field (decrypt_op s) fld r) as [[res1 fld1] r1] eqn:Hf.
  apply transform_field_decrypt in Hf as [-> Hf].
  intros [= <- <- <-]. split; [reflexivity|]. intros r2. now rewrite Hf.
Qed.

Lemma named_fields_decrypt (names : list string) (fs fs' : list field) (r r' : rand.Reader)
  (res : result unit) :
  named_fields (decrypt_op s) fs names r = (res, fs', r') ->
  r' = r /\ forall r2, named_fields (decrypt_op s) fs names r2 = (res, fs', r2).
Proof.
  revert fs. induction names as [|name names IH]; intros fs; simpl.
  - intros [= <- <- <-]. split; reflexivity.
  - destruct (named_field (decrypt_op s) fs name r) as [[res1 fs1] r1] eqn:H1.
    apply named_field_decrypt in H1 as [-> H1].
    destruct res1 as [[]| |].
    + intros H. apply IH in H as [-> H]. split; [reflexivity|].
      intros r2. now rewrite H1, H.
    + intros [= <- <- <-]. split; [reflexivity|]. intros r2. now rewrite H1.
    + intros [= <- <- <-]. split; [reflexivity|]. intros r2. now rewrite H1.
Qed.

End DecryptReader.


(** ** The name-driven loop: round trip and order *)

(** *** Two places that hold strings do not overlap *)

Lemma load_store_other (m : value) (qa qb : reflect.path) (x : value) (ta tb : string) :
  reflect.load m qa = Some (VString ta) -> reflect.load m qb = Some (VString tb) ->
  qa <> qb ->
  reflect.load (reflect.store m qa x) qb = Some (VString tb).
Proof.
  revert m qb. induction qa as [|[|i] qa IH]; intros m qb; cbn [reflect.load reflect.store].
  - intros [= ->]. destruct qb as [|[|j] qb]; cbn; [congruence|discriminate..].
  - destruct m as [| | | | |[t|ty]|]; try discriminate. intros Ha.
    destruct qb as [|[|j] qb]; cbn [reflect.load]; try discriminate.
    intros Hb Hne. apply IH; auto. congruence.
  - destruct m as [| | | | | |fs]; try discriminate.
    destruct (fs !! i) as [[sf z]|] eqn:Hi; try discriminate. intros Ha.
    destruct qb as [|[|j] qb]; cbn [reflect.load]; try discriminate.
    intros Hb Hne. destruct (decide (j = i)) as [->|Hji].
    + rewrite list_lookup_insert_eq by (now apply lookup_lt_Some in Hi).
      rewrite Hi in Hb. apply IH; auto. congruence.
    + now rewrite list_lookup_insert_ne by auto.
Qed.

Lemma store_commute (m : value) (qa qb : reflect.path) (x y : value) (ta tb : string) :
  reflect.load m qa = Some (VString ta) -> reflect.load m qb = Some (VString tb) ->
  qa <> qb ->
  reflect.store (reflect.store m qa x) qb y = reflect.store (reflect.store m qb y) qa x.
Proof.
  revert m qb. induction qa as [|[|i] qa IH]; intros m qb; cbn [reflect.load].
  - intros [= ->]. destruct qb as [|[|j] qb]; cbn; [congruence|discriminate..].
  - destruct m as [| | | | |[t|ty]|]; try discriminate. intros Ha.
    destruct qb as [|[|j] qb]; cbn [reflect.load]; try discriminate.
    intros Hb Hne. cbn [reflect.store]. f_equal. f_equal. apply (IH t qb); auto. congruence.
  - destruct m as [| | | | | |fs]; try discriminate.
    destruct (fs !! i) as [[sf z]|] eqn:Hi; try discriminate. intros Ha.
    destruct qb as [|[|j] qb]; cbn [reflect.load]; try discriminate.
    destruct (fs !! j) as [[sf' z']|] eqn:Hj; try discriminate.
    intros Hb Hne. cbn [reflect.store]. rewrite Hi, Hj. cbn [reflect.store].
    destruct (decide (j = i)) as [->|Hji].
    + rewrite Hi in Hj. injection Hj as <- <-.
      rewrite !list_lookup_insert_eq by (now apply lookup_lt_Some in Hi).
      rewrite !list_insert_insert_eq. f_equal. f_equal. f_equal.
      apply IH; auto. congruence.
    + rewrite !list_lookup_insert_ne by auto. rewrite Hi, Hj.
      f_equal. apply list_insert_insert_ne. auto.
Qed.

(** *** Round trip and order of the name-driven loop *)

Section OrderOfNames.

Variable s : Service.
Hypothesis Hs : AEAD_ok (gcm s).
Variable val : reflect.Value.
Hypothesis Hval : reflect.Value_Kind val = reflect.Struct.

Lemma step_round_trip (name : string) (m m1 : value) (r r1 : rand.Reader) :
  fields_body (encrypt_op s) val name m r = (Ok tt, m1, r1) ->
  forall r2, fields_body (decrypt_op s) val name m1 r2 = (Ok tt, m, r2).
Proof.
  intros H r2. rewrite fields_body_target in H |- * by exact Hval.
  rewrite (target_same val name m1 m Hval (cell_step_shape _ _ _ _ _ _ _ H)).
  revert H. unfold cell_step.
  destruct (target val name m) as [[q|]|e|msg]; try discriminate;
    [|now intros [= <- _]].
  destruct (reflect.load m q) as [[| | |text| | |]|] eqn:Hl;
    try (intros [= <- _]; now rewrite Hl).
  destruct (decide (text = "")) as [->|Hne].
  { intros [= <- _]. rewrite Hl. now rewrite decide_True. }
  unfold encrypt_op. destruct (Encrypt s text r) as [[c|e|msg] r'] eqn:HE; try discriminate.
  intros [= <- _]. rewrite (load_store _ _ _ _ Hl).
  rewrite decide_False by (eapply Encrypt_nonempty; eauto).
  unfold decrypt_op. rewrite (Decrypt_Encrypt s Hs text r r' c Hne HE).
  now rewrite store_store, store_load.
Qed.

Lemma loop_round_trip_rev (names : list string) (m m' : value) (r r' : rand.Reader) :
  for_range names (fields_body (encrypt_op s) val) m r = (Ok tt, m', r') ->
  forall r2, for_range (rev names) (fields_body (decrypt_op s) val) m' r2 = (Ok tt, m, r2).
Proof.
  revert m r. induction names as [|name names IH]; intros m r; cbn [for_range rev].
  { now intros [= <- _]. }
  destruct (fields_body (encrypt_op s) val name m r) as [[res1 m1] r1] eqn:Hstep.
  destruct res1 as [[]| |]; try discriminate. intros Hrest r2.
  rewrite for_range_app, (IH _ _ Hrest r2). cbn [for_range].
  now rewrite (step_round_trip _ _ _ _ _ Hstep).
Qed.

(** Two decryption steps in a row can be swapped. *)
Lemma steps_swap (a b : string) (m m2 : value) (r r2 : rand.Reader) :
  for_range [a; b] (fields_body (decrypt_op s) val) m r = (Ok tt, m2, r2) ->
  for_range [b; a] (fields_body (decrypt_op s) val) m r = (Ok tt, m2, r2).
Proof.
  cbn [for_range]. rewrite !fields_body_target by exact Hval.
  destruct (cell_step (decrypt_op s) (target val a m) m r) as [[res1 m1] r1] eqn:Ha.
  destruct res1 as [[]| |]; try discriminate.
  rewrite !fields_body_target by exact Hval.
  pose proof (cell_step_shape _ _ _ _ _ _ _ Ha) as Hsh1.
  rewrite (target_same val b m1 m Hval Hsh1).
  destruct (cell_step (decrypt_op s) (target val b m) m1 r1) as [[res2 m2'] r2'] eqn:Hb.
  destruct res2 as [[]| |]; try discriminate. intros [= -> ->].
  pose proof (target_place val a m) as Hpa. pose proof (target_place val b m) as Hpb.
  destruct (target val a m) as [[qa|]|ea|msga] eqn:Hta;
    try (cbn in Ha; discriminate Ha).
  2:{ cbn in Ha. injection Ha as <- <-. rewrite Hb.
      rewrite fields_body_target by exact Hval.
      rewrite (target_same val a m2 m Hval (cell_step_shape _ _ _ _ _ _ _ Hb)), Hta.
      reflexivity. }
  destruct (target val b m) as [[qb|]|eb|msgb] eqn:Htb;
    try (cbn in Hb; discriminate Hb).
  2:{ cbn in Hb. injection Hb as <- <-. cbn [cell_step].
      rewrite fields_body_target by exact Hval. now rewrite Hta, Ha. }
  destruct (Hpa qa Hval eq_refl) as (ta & Hla). destruct (Hpb qb Hval eq_refl) as (tb & Hlb).
  destruct (decide (qa = qb)) as [<-|Hne].
  { rewrite Ha. rewrite fields_body_target by exact Hval.
    rewrite (target_same val a m1 m Hval Hsh1), Hta. now rewrite Hb. }
  assert (Hr1 : r1 = r /\ (m1 = m \/ exists pa, m1 = reflect.store m qa (VString pa))).
  { revert Ha. cbn [cell_step]. rewrite Hla.
    destruct (decide (ta = "")); [intros [= <- <-]; auto|].
    unfold decrypt_op. destruct (Decrypt s ta); try discriminate.
    intros [= <- <-]. eauto. }
  destruct Hr1 as [-> Hm1].
  assert (Hlb1 : reflect.load m1 qb = Some (VString tb)).
  { destruct Hm1 as [->|(pa & ->)]; [exact Hlb|].
    now apply (load_store_other m qa qb _ ta tb). }
  revert Ha Hb. cbn [cell_step]. rewrite Hla, Hlb, Hlb1.
  destruct (decide (tb = "")) as [->|Hneb].
  { intros Ha [= <- <-]. rewrite fields_body_target by exact Hval.
    rewrite Hta. cbn [cell_step]. rewrite Hla. now rewrite Ha. }
  unfold decrypt_op at 2 3. destruct (Decrypt s tb) as [pb| |]; try discriminate.
  intros Ha [= <- <-].
  rewrite fields_body_target by exact Hval.
  rewrite (target_same val a (reflect.store m qb (VString pb)) m Hval)
    by (now apply (shape_store _ _ tb)).
  rewrite Hta. cbn [cell_step].
  rewrite (load_store_other m qb qa _ tb ta) by auto.
  revert Ha. destruct (decide (ta = "")); [now intros [= <-]|].
  unfold decrypt_op. destruct (Decrypt s ta) as [pa| |]; try discriminate.
  intros [= <-]. f_equal. f_equal.
  now apply (store_commute m qb qa _ _ tb ta).
Qed.

(** A decryption loop that returns nil returns nil, with the same data,
    for every order of the names. *)
Lemma loop_any_order (names names' : list string) :
  Permutation names names' ->
  forall m m' r r',
    for_range names (fields_body (decrypt_op s) val) m r = (Ok tt, m', r') ->
    for_range names' (fields_body (decrypt_op s) val) m r = (Ok tt, m', r').
Proof.
  induction 1 as [|x l l' _ IH|x y l|l l' l'' _ IH1 _ IH2]; intros m m' r r'.
  - auto.
  - cbn [for_range]. destruct (fields_body _ val x m r) as [[[[]| |] m1] r1]; auto.
  - change (y :: x :: l) with ([y; x] ++ l). change (x :: y :: l) with ([x; y] ++ l).
    rewrite !for_range_app.
    destruct (for_range [y; x] _ m r) as [[res1 m1] r1] eqn:E.
    destruct res1 as [[]| |]; try discriminate.
    now rewrite (steps_swap _ _ _ _ _ _ E).
  - intros H. apply IH2, IH1, H.
Qed.

Lemma loop_round_trip (names : list string) (m m' : value) (r r' : rand.Reader) :
  for_range names (fields_body (encrypt_op s) val) m r = (Ok tt, m', r') ->
  forall r2, for_range names (fields_body (decrypt_op s) val) m' r2 = (Ok tt, m, r2).
Proof.
  intros H r2. apply (loop_any_order (rev names) names); [symmetry; apply Permutation_rev|].
  eapply loop_round_trip_rev; eauto.
Qed.

End OrderOfNames.

(** After a call on a record the loop starts from the same place, with
    the same flags, in a struct of the same type. *)
Lemma start_of_after (op : cipher_op) (v v' : value) (names : list string)
  (r r' : rand.Reader) (res : result unit) :
  is_record v ->
  transformFields op v names r = (res, v', r') ->
  is_record v'
  /\ forall op' names' m r0,
       for_range names' (fields_body op' (start_of v')) m r0
       = for_range names' (fields_body op' (start_of v)) m r0.
Proof.
  intros Hv. rewrite transformFields_start.
  destruct (start_of_record v Hv) as (fs & p0 & a & Hstart & Hload & Hnext).
  rewrite Hstart. intros H.
  apply (loop_frame op _ _ _ _ _ _ fs) in H as (fs1 & -> & Hty & _);
    [|reflexivity|exact Hload].
  split.
  - destruct (record_cases v) as [[gs ->]|[[gs ->]|Hn]]; [| |contradiction].
    + destruct p0 as [|[|i] [|st p0]]; cbn in Hload |- *; try discriminate; exact I.
    + destruct p0 as [|[|i] p0]; cbn in Hload |- *; try exact I.
      destruct (gs !! i) as [[sf x]|]; exact I.
  - intros op' names' m r0. rewrite Hnext. apply for_range_ext.
    intros name m0 r1. now apply fields_body_this.
Qed.

(** ** Round trips of whole records *)

(** X1 -- Record round trip, by tag. In a Service made by [NewService],
    whenever [EncryptStruct] returns nil, [DecryptStruct] applied to what
    it left behind returns nil and restores the value exactly as it was
    before the encryption, every field of it; decryption draws nothing from
    the random source. This holds for every input, a record or not. *)
Theorem struct_round_trip (key : list byte) (s : Service) (v v' : value)
  (r r' r2 : rand.Reader) :
  NewService key = Ok s ->
  EncryptStruct s v r = (Ok tt, v', r') ->
  DecryptStruct s v' r2 = (Ok tt, v, r2).
Proof.
  intros Hkey. apply NewService_ok in Hkey.
  rewrite EncryptStruct_eq, DecryptStruct_eq.
  destruct (record_cases v) as [[fs ->]|[[fs ->]|Hv]].
  - rewrite transformStruct_ptr.
    destruct (tagged_fields (encrypt_op s) fs r) as [[res fs'] r1] eqn:H.
    intros [= -> <- <-]. rewrite transformStruct_ptr.
    now rewrite (tagged_fields_round_trip s Hkey _ _ _ _ H r2).
  - rewrite transformStruct_value. intros [= <- <-]. apply transformStruct_value.
  - rewrite transformStruct_other by assumption. intros [= <- <-].
    now apply transformStruct_other.
Qed.

Lemma struct_round_trip_witness :
  EncryptStruct service16 (VPtr (inl user)) tape
  = (Ok tt, VPtr (inl sealed_user), drop 24 tape)
  /\ DecryptStruct service16 (VPtr (inl sealed_user)) []
     = (Ok tt, VPtr (inl user), []).
Proof.
  assert (H : EncryptStruct service16 (VPtr (inl user)) tape
              = (Ok tt, VPtr (inl sealed_user), drop 24 tape)) by (vm_compute; reflexivity).
  split; [exact H|].
  exact (struct_round_trip key16 service16 _ _ _ _ [] NewService_key16 H).
Defined.

(** X2 -- Record round trip, by name. In a Service made by [NewService],
    whenever [EncryptFields] returns nil for a list of names,
    [DecryptFields] with the same list applied to what it left behind
    returns nil and restores the value exactly, fields promoted from
    embedded structs included; a name listed twice is encrypted twice and
    decrypted twice. *)
Theorem fields_round_trip (key : list byte) (s : Service) (v v' : value)
  (names : list string) (r r' r2 : rand.Reader) :
  NewService key = Ok s ->
  EncryptFields s v names r = (Ok tt, v', r') ->
  DecryptFields s v' names r2 = (Ok tt, v, r2).
Proof.
  intros Hkey. apply NewService_ok in Hkey.
  rewrite EncryptFields_eq, DecryptFields_eq.
  destruct (record_cases v) as [Hrec|[Hrec|Hv]].
  1,2: assert (Hv : is_record v) by (destruct Hrec as [fs ->]; exact I).
  1,2: intros H; destruct (start_of_after _ _ _ _ _ _ _ Hv H) as [_ Hstart].
  1,2: rewrite transformFields_start in *; rewrite Hstart.
  1,2: apply (loop_round_trip s Hkey _ (start_of_kind v Hv) _ _ _ _ _ H).
  destruct names as [|name names].
  - rewrite transformFields_nil. intros [= <- <-]. apply transformFields_nil.
  - destruct (transformFields_other (encrypt_op s) v name names r Hv) as [msg ->].
    discriminate.
Qed.

Lemma fields_round_trip_witness :
  EncryptFields service16 (VPtr (inl user)) ["Phone"; "Email"; "Phone"]%string tape
  = (Ok tt, VPtr (inl resealed_user), drop 36 tape)
  /\ DecryptFields service16 (VPtr (inl resealed_user)) ["Phone"; "Email"; "Phone"]%string []
     = (Ok tt, VPtr (inl user), [])
  /\ EncryptFields service16 (VPtr (inl wrapper)) ["Email"]%string tape
     = (Ok tt, VPtr (inl wrapper_sealed), drop 12 tape)
  /\ DecryptFields service16 (VPtr (inl wrapper_sealed)) ["Email"]%string []
     = (Ok tt, VPtr (inl wrapper), []).
Proof.
  assert (H : EncryptFields service16 (VPtr (inl user)) ["Phone"; "Email"; "Phone"]%string tape
              = (Ok tt, VPtr (inl resealed_user), drop 36 tape)) by (vm_compute; reflexivity).
  assert (H' : EncryptFields service16 (VPtr (inl wrapper)) ["Email"]%string tape
               = (Ok tt, VPtr (inl wrapper_sealed), drop 12 tape)) by (vm_compute; reflexivity).
  split; [exact H|]. split.
  - exact (fields_round_trip key16 service16 _ _ _ _ _ [] NewService_key16 H).
  - split; [exact H'|].
    exact (fields_round_trip key16 service16 _ _ _ _ _ [] NewService_key16 H').
Defined.

(** X3 -- Decryption by name is independent of the order of the names.
    When [DecryptFields] returns nil for a list of names, it returns nil
    and leaves the same record for every reordering of that list. *)
Theorem DecryptFields_any_order (s : Service) (v v' : value) (names names' : list string)
  (r r' : rand.Reader) :
  Permutation names names' ->
  DecryptFields s v names r = (Ok tt, v', r') ->
  DecryptFields s v names' r = (Ok tt, v', r').
Proof.
  intros Hp. rewrite DecryptFields_eq.
  destruct (record_cases v) as [Hrec|[Hrec|Hv]].
  1,2: assert (Hv : is_record v) by (destruct Hrec as [fs ->]; exact I).
  1,2: rewrite !transformFields_start.
  1,2: now apply (loop_any_order s _ (start_of_kind v Hv) names names' Hp).
  destruct names as [|name names].
  - apply Permutation_nil_l in Hp as ->. auto.
  - destruct (transformFields_other (decrypt_op s) v name names r Hv) as [msg ->].
    discriminate.
Qed.

Lemma DecryptFields_any_order_witness :
  DecryptFields service16 (VPtr (inl sealed_user)) ["Email"; "Phone"]%string tape
  = (Ok tt, VPtr (inl user), tape)
  /\ DecryptFields service16 (VPtr (inl sealed_user)) ["Phone"; "Email"]%string tape
     = (Ok tt, VPtr (inl user), tape).
Proof.
  assert (H : DecryptFields service16 (VPtr (inl sealed_user)) ["Email"; "Phone"]%string tape
              = (Ok tt, VPtr (inl user), tape)) by (vm_compute; reflexivity).
  split; [exact H|].
  apply (DecryptFields_any_order service16 _ _ ["Email"; "Phone"]%string); [|exact H].
  apply perm_swap.
Defined.

(** ** Sizes *)

Lemma string_of_bytes_length (l : list byte) : String.length (string_of_bytes l) = length l.
Proof. induction l as [|a l IH]; simpl; [reflexivity|f_equal; exact IH]. Qed.

Lemma bytes_of_string_length (p : string) : length (bytes_of_string p) = String.length p.
Proof. induction p as [|a p IH]; simpl; [reflexivity|f_equal; exact IH]. Qed.

Lemma base64_Encode_length_le (n : nat) (src : list byte) :
  length src <= n -> length (base64.Encode src) = 4 * ((length src + 2) / 3).
Proof.
  revert src. induction n as [|n IH]; intros src Hn.
  - destruct src; [reflexivity|simpl in Hn; lia].
  - destruct src as [|a [|b [|c rest]]]; try reflexivity.
    cbn [base64.Encode length]. rewrite IH by (simpl in Hn; lia).
    replace (S (S (S (length rest))) + 2) with (1 * 3 + (length rest + 2)) by lia.
    rewrite Nat.div_add_l by lia. lia.
Qed.

Lemma base64_EncodeToString_length (src : list byte) :
  String.length (base64.EncodeToString src) = 4 * ((length src + 2) / 3).
Proof.
  unfold base64.EncodeToString. rewrite string_of_bytes_length.
  now apply (base64_Encode_length_le (length src)).
Qed.

Section Open.

Variable b : cipher.Block.
Hypothesis Hb : Block_ok b.

Lemma gcm_Open_Ok (nonce sealed data p : list byte) :
  cipher.gcm_Open b [] nonce sealed data = Ok p ->
  16 <= length sealed /\ length p + 16 = length sealed
  /\ take 16 (cipher.auth b (take (length sealed - 16) sealed) data
                (cipher.Encrypt b (cipher.deriveCounter nonce)))
     = drop (length sealed - 16) sealed.
Proof.
  unfold cipher.gcm_Open, cipher.gcmTagSize, subtle.ConstantTimeCompare.
  destruct (negb _); [discriminate|].
  destruct (length sealed <? 16) eqn:Hlen; [discriminate|].
  apply Nat.ltb_ge in Hlen.
  destruct (_ <? _)%N; [discriminate|].
  destruct (bytes_eqb _ _) eqn:Htag; [|discriminate].
  apply bytes_eqb_eq in Htag. cbn [negb N.eqb Pos.eqb].
  intros [= <-]. rewrite counterCrypt_length, length_take by exact Hb.
  repeat split; [assumption|lia|assumption].
Qed.

Lemma gcm_Open_tag (nonce sealed sealed' data p : list byte) :
  cipher.gcm_Open b [] nonce sealed data = Ok p ->
  length sealed' = length sealed ->
  take (length sealed - 16) sealed' = take (length sealed - 16) sealed ->
  sealed' <> sealed ->
  cipher.gcm_Open b [] nonce sealed' data = Err cipher_errOpen.
Proof.
  intros Hopen Hlen Hbody Hne.
  pose proof (gcm_Open_Ok _ _ _ _ Hopen) as (H16 & _ & Htag).
  revert Hopen. unfold cipher.gcm_Open, cipher.gcmTagSize, subtle.ConstantTimeCompare.
  destruct (negb _); [discriminate|].
  rewrite Hlen.
  destruct (length sealed <? 16); [reflexivity|].
  destruct (_ <? _)%N; [reflexivity|].
  intros _. rewrite Hbody, Htag.
  destruct (bytes_eqb _ (drop (length sealed - 16) sealed')) eqn:E; [|reflexivity].
  apply bytes_eqb_eq in E. exfalso. apply Hne.
  rewrite <- (take_drop (length sealed - 16) sealed'), Hbody, <- E. apply take_drop.
Qed.

End Open.

Lemma Encrypt_size (key : list byte) (s : Service) (p : string) (r r' : rand.Reader)
  (c : string) :
  NewService key = Ok s ->
  p <> ""%string -> Encrypt s p r = (Ok c, r') ->
  String.length c = 4 * ((String.length p + 30) / 3)
  /\ String.length p < String.length c /\ c <> p.
Proof.
  intros Hkey Hp HE. pose proof (NewService_ok _ _ Hkey) as Hs.
  destruct (NewService_NonceSize _ _ Hkey) as [Hn Ho].
  apply (Encrypt_Ok s Hs) in HE as (Hr & _ & sealed & -> & Hlen & _); auto.
  assert (Hsize : String.length (base64.EncodeToString (take (cipher.NonceSize (gcm s)) r ++ sealed))
                  = 4 * ((String.length p + 30) / 3)).
  { rewrite base64_EncodeToString_length, length_app, length_take, Hlen.
    rewrite Hn in *. rewrite Ho, bytes_of_string_length, Nat.min_l by exact Hr.
    f_equal. f_equal. lia. }
  assert (Hlt : String.length p < 4 * ((String.length p + 30) / 3)).
  { pose proof (Nat.div_mod_eq (String.length p + 30) 3).
    pose proof (Nat.mod_upper_bound (String.length p + 30) 3). lia. }
  rewrite Hsize. repeat split; [assumption|].
  intros E. rewrite E in Hsize. lia.
Qed.

(** X4 -- Ciphertext sizes. In a Service made by [NewService], whatever the
    key length: the blob [EncryptBytes] returns is 28 bytes longer than its
    input (a 12-byte nonce and a 16-byte tag); the text [Encrypt] returns
    is the base64 form of such a blob, 4 * ceil((n + 28) / 3) characters
    for an n-byte plaintext, so always longer than, and different from, the
    plaintext; and whatever [DecryptBytes] accepts is 28 bytes longer than
    what it returns. *)
Theorem ciphertext_size (key : list byte) (s : Service) :
  NewService key = Ok s ->
  (forall p r c r', p <> [] -> EncryptBytes s p r = (Ok c, r') ->
     length c = length p + 28)
  /\ (forall p r c r', p <> ""%string -> Encrypt s p r = (Ok c, r') ->
     String.length c = 4 * ((String.length p + 30) / 3)
     /\ String.length p < String.length c /\ c <> p)
  /\ (forall c p, c <> [] -> DecryptBytes s c = Ok p -> length c = length p + 28).
Proof.
  intros Hkey. pose proof (NewService_ok _ _ Hkey) as Hs.
  destruct (NewService_gcm _ _ Hkey) as (b & Hb & Hn & Ho & _ & Hopen).
  split; [|split].
  - intros p r c r' Hp HE.
    apply (EncryptBytes_Ok s Hs) in HE as (Hr & _ & sealed & -> & Hlen & _); auto.
    rewrite length_app, length_take, Hlen. rewrite Hn in *. rewrite Ho.
    rewrite Nat.min_l by exact Hr. lia.
  - intros p r c r' Hp HE. now apply (Encrypt_size key s p r r' c).
  - intros c p Hc. unfold DecryptBytes.
    destruct (decide (length c = 0)) as [H0|_]; [destruct c; [congruence|discriminate]|].
    rewrite Hn, Hopen. destruct (decide (length c < 12)); [discriminate|].
    destruct (cipher.gcm_Open b [] (take 12 c) (drop 12 c) []) as [q| |] eqn:E; try discriminate.
    intros [= ->]. apply (gcm_Open_Ok b Hb) in E as (_ & E & _).
    rewrite length_drop in E. lia.
Qed.

Lemma ciphertext_size_witness :
  String.length email_sealed = 4 * ((String.length "a@b.com" + 30) / 3)
  /\ String.length "a@b.com" < String.length email_sealed
  /\ email_sealed <> "a@b.com"%string
  /\ length blob = length (bytes_of_string "a@b.com") + 28.
Proof.
  destruct (ciphertext_size key16 service16 NewService_key16) as (_ & Htext & Hopen).
  assert (HE : Encrypt service16 "a@b.com" tape = (Ok email_sealed, drop 12 tape))
    by (vm_compute; reflexivity).
  assert (HD : DecryptBytes service16 blob = Ok (bytes_of_string "a@b.com"))
    by (vm_compute; reflexivity).
  destruct (Htext "a@b.com"%string tape email_sealed (drop 12 tape)) as (H1 & H2 & H3);
    [discriminate|exact HE|].
  split; [exact H1|]. split; [exact H2|]. split; [exact H3|].
  apply Hopen; [discriminate|exact HD].
Defined.

(** X5 -- A forged tag is rejected. In a Service made by [NewService], if
    [DecryptBytes] accepts a blob, then every other blob of the same length
    that agrees with it on all but the last sixteen bytes is rejected with
    [ErrDecryptionFailed]: for a given nonce and body exactly one tag
    passes. The same holds for [Decrypt] on the decoded text. *)
Theorem forged_tag_rejected (key : list byte) (s : Service) :
  NewService key = Ok s ->
  (forall c c' p, c <> [] -> DecryptBytes s c = Ok p ->
     same_but_tag c c' -> c' <> c ->
     DecryptBytes s c' = Err ErrDecryptionFailed)
  /\ (forall t t' data data' p, t <> ""%string -> t' <> ""%string ->
     base64.DecodeString t = Ok data -> base64.DecodeString t' = Ok data' ->
     Decrypt s t = Ok p ->
     same_but_tag data data' -> data' <> data ->
     Decrypt s t' = Err ErrDecryptionFailed).
Proof.
  intros Hkey. pose proof (NewService_ok _ _ Hkey) as Hs.
  destruct (NewService_gcm _ _ Hkey) as (b & Hb & Hn & Ho & _ & Hopen).
  assert (Hbytes : forall c c' p, c <> [] -> DecryptBytes s c = Ok p ->
     same_but_tag c c' -> c' <> c -> DecryptBytes s c' = Err ErrDecryptionFailed).
  { intros c c' p Hc HD [Hlen Hbody] Hne. revert HD. unfold DecryptBytes.
    rewrite Hlen.
    destruct (decide (length c = 0)) as [H0|_]; [destruct c; [congruence|discriminate]|].
    rewrite Hn, Hopen. destruct (decide (length c < 12)); [discriminate|].
    destruct (cipher.gcm_Open b [] (take 12 c) (drop 12 c) []) as [q| |] eqn:E; try discriminate.
    intros _.
    pose proof (gcm_Open_Ok b Hb _ _ _ _ E) as (H16 & _ & _). rewrite length_drop in H16.
    assert (Hnonce : take 12 c' = take 12 c).
    { replace 12 with (Nat.min 12 (length c - 16)) by (apply Nat.min_l; lia).
      now rewrite <- !take_take, Hbody. }
    rewrite Hnonce.
    rewrite (gcm_Open_tag b Hb (take 12 c) (drop 12 c) (drop 12 c') [] q); auto.
    - now rewrite !length_drop, Hlen.
    - rewrite length_drop, !take_drop_commute.
      replace (12 + (length c - 12 - 16)) with (length c - 16) by lia. now rewrite Hbody.
    - intros Hd. apply Hne.
      rewrite <- (take_drop 12 c'), Hnonce, Hd. apply take_drop. }
  split; [exact Hbytes|].
  intros t t' data data' p Ht Ht' Hd Hd' HD Hsame Hne.
  rewrite (Decrypt_DecryptBytes s Hs t data) in HD by assumption.
  rewrite (Decrypt_DecryptBytes s Hs t' data') by assumption.
  rewrite Hn in *. destruct Hsame as [Hlen Hbody]. rewrite Hlen.
  destruct (decide (length data < 12)); [discriminate|].
  destruct (DecryptBytes s data) as [q| |] eqn:E; try discriminate.
  rewrite (Hbytes data data' q); auto.
  - intros ->. simpl in *. lia.
  - split; assumption.
Qed.

Lemma forged_tag_rejected_witness :
  DecryptBytes service16 blob = Ok (bytes_of_string "a@b.com")
  /\ same_but_tag blob forged_blob
  /\ DecryptBytes service16 forged_blob = Err ErrDecryptionFailed.
Proof.
  assert (HD : DecryptBytes service16 blob = Ok (bytes_of_string "a@b.com"))
    by (vm_compute; reflexivity).
  assert (Hsame : same_but_tag blob forged_blob) by (split; vm_compute; reflexivity).
  split; [exact HD|]. split; [exact Hsame|].
  destruct (forged_tag_rejected key16 service16 NewService_key16) as [Hbytes _].
  apply (Hbytes blob forged_blob (bytes_of_string "a@b.com"));
    [discriminate|exact HD|exact Hsame|vm_compute; discriminate].
Defined.

(** ** Randomness drawn by a run over a record *)

Section Entropy.

Variable s : Service.
Hypothesis Hs : AEAD_ok (gcm s).
Hypothesis Hn : cipher.NonceSize (gcm s) = 12.

Lemma encrypts_true (fld : field) :
  encrypts fld = true ->
  tagged (fst fld) && exported (fst fld) = true
  /\ exists text, snd fld = VString text /\ text <> ""%string.
Proof.
  unfold encrypts. intros H. apply andb_true_iff in H as [H1 H2]. split; [assumption|].
  destruct (snd fld) as [| | |text| | |]; try discriminate.
  exists text. split; [reflexivity|]. intros ->. discriminate.
Qed.

Lemma encrypts_false (fld : field) (r : rand.Reader) :
  encrypts fld = false -> tagged (fst fld) && exported (fst fld) = true ->
  transform_field (encrypt_op s) fld r = (Ok tt, fld, r).
Proof.
  unfold encrypts. intros H Hsel. rewrite Hsel in H. simpl in H.
  apply transform_field_id. intros (text & Htext & Hne). rewrite Htext in H.
  apply Hne. apply String.eqb_eq. now destruct (String.eqb text "").
Qed.

Lemma tagged_fields_draws (fs : list field) (r : rand.Reader) :
  forallb sealable fs = true ->
  (12 * nonces_drawn fs <= length r ->
     exists fs', tagged_fields (encrypt_op s) fs r = (Ok tt, fs', drop (12 * nonces_drawn fs) r))
  /\ (length r < 12 * nonces_drawn fs ->
     exists fs', tagged_fields (encrypt_op s) fs r = (Err ErrEncryptionFailed, fs', [])).
Proof.
  revert r. induction fs as [|fld fs IH]; intros r Hseal.
  - split; [intros _; exists []; reflexivity|unfold nonces_drawn; simpl; lia].
  - simpl in Hseal. apply andb_true_iff in Hseal as [Hfld Hseal].
    unfold nonces_drawn in *. cbn [List.filter tagged_fields].
    destruct (encrypts fld) eqn:Henc.
    + destruct (encrypts_true _ Henc) as (Hsel & text & Htext & Hne). rewrite Hsel.
      destruct fld as [sf x]. simpl in Htext. subst x.
      unfold sealable in Hfld. simpl in Hfld. apply N.leb_le in Hfld.
      cbn [length]. split.
      * intros Hr.
        destruct (Encrypt_succeeds s Hs text r Hne) as [c Hc]; [lia|assumption|].
        rewrite Hn in Hc.
        rewrite (transform_field_Ok (encrypt_op s) sf text c r (drop 12 r) Hne Hc).
        destruct (IH (drop 12 r) Hseal) as [[fs' ->] _]; [rewrite length_drop; lia|].
        eexists. rewrite drop_drop. do 2 f_equal. lia.
      * intros Hr. destruct (decide (length r < 12)) as [Hshort|Hlong].
        -- destruct (Encrypt_draws s text r Hne) as [_ HE].
           rewrite (transform_field_Err (encrypt_op s) sf text r [] ErrEncryptionFailed Hne)
             by (apply HE; lia).
           eexists. reflexivity.
        -- destruct (Encrypt_succeeds s Hs text r Hne) as [c Hc]; [lia|assumption|].
           rewrite Hn in Hc.
           rewrite (transform_field_Ok (encrypt_op s) sf text c r (drop 12 r) Hne Hc).
           destruct (IH (drop 12 r) Hseal) as [_ [fs' ->]]; [rewrite length_drop; lia|].
           eexists. reflexivity.
    + destruct (tagged (fst fld) && exported (fst fld)) eqn:Hsel.
      * rewrite (encrypts_false _ _ Henc Hsel).
        destruct (IH r Hseal) as [IH1 IH2]. split; intros Hr.
        -- destruct (IH1 Hr) as [fs' ->]. eexists. reflexivity.
        -- destruct (IH2 Hr) as [fs' ->]. eexists. reflexivity.
      * destruct (IH r Hseal) as [IH1 IH2]. split; intros Hr.
        -- destruct (IH1 Hr) as [fs' ->]. eexists. reflexivity.
        -- destruct (IH2 Hr) as [fs' ->]. eexists. reflexivity.
Qed.

End Entropy.

(** X6 -- Randomness drawn by [EncryptStruct]. In a Service made by
    [NewService], on a struct passed by pointer whose texts are within the
    size GCM accepts: the call succeeds exactly when the random source can
    deliver twelve bytes for every field that is tagged, exported and holds
    a non-empty string; it then has consumed exactly that many bytes, one
    fresh nonce per encrypted field, and with fewer bytes available it
    fails with [ErrEncryptionFailed]. *)
Theorem EncryptStruct_entropy (key : list byte) (s : Service) (fs : list field)
  (r : rand.Reader) :
  NewService key = Ok s ->
  forallb sealable fs = true ->
  (12 * nonces_drawn fs <= length r ->
     exists fs', EncryptStruct s (VPtr (inl (VStruct fs))) r
                 = (Ok tt, VPtr (inl (VStruct fs')), drop (12 * nonces_drawn fs) r))
  /\ (length r < 12 * nonces_drawn fs ->
     exists fs', EncryptStruct s (VPtr (inl (VStruct fs))) r
                 = (Err ErrEncryptionFailed, VPtr (inl (VStruct fs')), [])).
Proof.
  intros Hkey Hseal. pose proof (NewService_ok _ _ Hkey) as Hs.
  destruct (NewService_NonceSize _ _ Hkey) as [Hn _].
  rewrite EncryptStruct_eq, transformStruct_ptr.
  destruct (tagged_fields_draws s Hs Hn fs r Hseal) as [H1 H2].
  split; intros Hr.
  - destruct (H1 Hr) as [fs' ->]. eauto.
  - destruct (H2 Hr) as [fs' ->]. eauto.
Qed.

Lemma EncryptStruct_entropy_witness :
  nonces_drawn user_fields = 2
  /\ (exists fs', EncryptStruct service16 (VPtr (inl user)) tape
                  = (Ok tt, VPtr (inl (VStruct fs')), drop 24 tape))
  /\ (exists fs', EncryptStruct service16 (VPtr (inl user)) short_tape
                  = (Err ErrEncryptionFailed, VPtr (inl (VStruct fs')), [])).
Proof.
  destruct (EncryptStruct_entropy key16 service16 user_fields tape NewService_key16) as [H1 _];
    [reflexivity|].
  destruct (EncryptStruct_entropy key16 service16 user_fields short_tape NewService_key16)
    as [_ H2]; [reflexivity|].
  split; [reflexivity|]. split.
  - apply H1. vm_compute. lia.
  - apply H2. vm_compute. lia.
Defined.

(** ** The outcomes of the transformers *)

Section Outcomes.

Variable op : cipher_op.

Lemma transform_field_stops (fld fld' : field) (r r' : rand.Reader) (res : result unit) :
  transform_field op fld r = (res, fld', r') ->
  res = Ok tt
  \/ exists text x, text <> ""%string /\ op text r = (x, r')
       /\ match x with
          | Ok _ => False
          | Err e => res = Err e
          | Panic msg => res = Panic msg
          end.
Proof.
  destruct fld as [sf x]. destruct x as [| | |text| | |]; simpl;
    try (intros [= <- <- <-]; left; reflexivity).
  destruct (decide (text = "")); [intros [= <- <- <-]; left; reflexivity|].
  destruct (op text r) as [[c|e|msg] r1] eqn:E; intros [= <- <- <-].
  - left. reflexivity.
  - right. exists text, (Err e). auto.
  - right. exists text, (Panic msg). auto.
Qed.

Lemma tagged_fields_stops (fs fs' : list field) (r r' : rand.Reader) (res : result unit) :
  tagged_fields op fs r = (res, fs', r') ->
  res = Ok tt
  \/ exists text r1 x, text <> ""%string /\ op text r1 = (x, r')
       /\ match x with
          | Ok _ => False
          | Err e => res = Err e
          | Panic msg => res = Panic msg
          end.
Proof.
  revert fs' r. induction fs as [|fld fs IH]; intros fs' r; simpl.
  - intros [= <- <- <-]. now left.
  - destruct (tagged (fst fld) && exported (fst fld)).
    + destruct (transform_field op fld r) as [[res1 fld1] r1] eqn:Hf.
      destruct (transform_field_stops _ _ _ _ _ Hf) as [->|(text & x & Hne & Hop & Hx)].
      * destruct (tagged_fields op fs r1) as [[res2 fs1] r2] eqn:Hrest.
        intros [= <- <- <-]. eapply IH; eauto.
      * destruct res1 as [[]| |].
        -- destruct x; try contradiction; discriminate Hx.
        -- intros [= <- <- <-]. right. exists text, r, x. auto.
        -- intros [= <- <- <-]. right. exists text, r, x. auto.
    + destruct (tagged_fields op fs r) as [[res2 fs1] r2] eqn:Hrest.
      intros [= <- <- <-]. eapply IH; eauto.
Qed.

Lemma named_fields_stops (names : list string) (fs fs' : list field) (r r' : rand.Reader)
  (res : result unit) :
  named_fields op fs names r = (res, fs', r') ->
  res = Ok tt
  \/ exists text r1 x, text <> ""%string /\ op text r1 = (x, r')
       /\ match x with
          | Ok _ => False
          | Err e => res = Err e
          | Panic msg => res = Panic msg
          end.
Proof.
  revert fs r. induction names as [|name names IH]; intros fs r; simpl.
  - intros [= <- <- <-]. now left.
  - destruct (named_field op fs name r) as [[res1 fs1] r1] eqn:H1.
    assert (Hstep : res1 = Ok tt
      \/ exists text x, text <> ""%string /\ op text r = (x, r1)
           /\ match x with
              | Ok _ => False
              | Err e => res1 = Err e
              | Panic msg => res1 = Panic msg
              end).
    { revert H1. unfold named_field.
      destruct (declared_field _ _) as [i|]; [|intros [= <- <- <-]; now left].
      destruct (fs !! i) as [fld|]; [|intros [= <- <- <-]; now left].
      destruct (exported _); [|intros [= <- <- <-]; now left].
      destruct (transform_field op fld r) as [[res2 fld2] r2] eqn:Hf.
      intros [= <- <- <-]. eapply transform_field_stops; eauto. }
    destruct Hstep as [->|(text & x & Hne & Hop & Hx)]; [apply IH|].
    destruct res1 as [[]| |].
    + destruct x; try contradiction; discriminate Hx.
    + intros [= <- <- <-]. right. exists text, r, x. auto.
    + intros [= <- <- <-]. right. exists text, r, x. auto.
Qed.

End Outcomes.

Lemma Decrypt_outcome (s : Service) (c : string) :
  AEAD_ok (gcm s) ->
  (exists p, Decrypt s c = Ok p)
  \/ Decrypt s c = Err ErrInvalidData \/ Decrypt s c = Err ErrDecryptionFailed.
Proof.
  intros Hs. unfold Decrypt.
  destruct (decide (c = "")); [left; eauto|].
  destruct (base64.DecodeString c) as [data| |]; [|right; left; reflexivity..].
  destruct (decide (length data < _)) as [|Hlen]; [right; left; reflexivity|].
  destruct (cipher.Open _ _ _ _ _) as [p|e|msg] eqn:E; [left; eauto|right; right; reflexivity|].
  exfalso. revert E. apply (open_no_panic _ Hs). rewrite length_take. lia.
Qed.

Lemma decrypt_stop (s : Service) (res : result unit) :
  AEAD_ok (gcm s) ->
  (res = Ok tt
   \/ exists text (r1 : rand.Reader) x r', text <> ""%string /\ decrypt_op s text r1 = (x, r')
        /\ match x with
           | Ok _ => False
           | Err e => res = Err e
           | Panic msg => res = Panic msg
           end) ->
  res = Ok tt \/ res = Err ErrInvalidData \/ res = Err ErrDecryptionFailed.
Proof.
  intros Hs [->|(text & r1 & x & r' & _ & Hop & Hx)]; [now left|].
  unfold decrypt_op in Hop. injection Hop as <- _.
  destruct (Decrypt_outcome s text Hs) as [[p E]|[E|E]]; rewrite E in Hx;
    [contradiction|auto..].
Qed.

(** X7 -- What the transformers can return. In a Service made by
    [NewService]: [DecryptStruct], on any input, never panics, draws
    nothing from the random source and returns nil, [ErrInvalidData] or
    [ErrDecryptionFailed]; [DecryptFields], on a record, draws nothing
    and returns one of these three or panics in [FieldByName] on a nil
    embedded pointer, which it cannot on a record without embedded fields;
    the only error [EncryptStruct] and [EncryptFields] return is
    [ErrEncryptionFailed]. So no transformer returns [ErrMissingKey] or
    [ErrInvalidKeyLength]. *)
Theorem transformer_outcomes (key : list byte) (s : Service) :
  NewService key = Ok s ->
  (forall v r res v' r', DecryptStruct s v r = (res, v', r') ->
     r' = r /\ (res = Ok tt \/ res = Err ErrInvalidData \/ res = Err ErrDecryptionFailed))
  /\ (forall v names r res v' r', is_record v ->
     DecryptFields s v names r = (res, v', r') ->
     r' = r
     /\ (res = Ok tt \/ res = Err ErrInvalidData \/ res = Err ErrDecryptionFailed
         \/ res = Panic "reflect: indirection through nil pointer to embedded struct"))
  /\ (forall v names r res v' r', is_record v -> plain v ->
     DecryptFields s v names r = (res, v', r') ->
     res = Ok tt \/ res = Err ErrInvalidData \/ res = Err ErrDecryptionFailed)
  /\ (forall v r e v' r', EncryptStruct s v r = (Err e, v', r') -> e = ErrEncryptionFailed)
  /\ (forall v names r e v' r', EncryptFields s v names r = (Err e, v', r') ->
     e = ErrEncryptionFailed).
Proof.
  intros Hkey. pose proof (NewService_ok _ _ Hkey) as Hs.
  assert (Henc : forall res : result unit, forall e,
    (res = Ok tt
     \/ exists text (r1 : rand.Reader) x r', text <> ""%string /\ encrypt_op s text r1 = (x, r')
          /\ match x with
             | Ok _ => False
             | Err e => res = Err e
             | Panic msg => res = Panic msg
             end) -> res = Err e -> e = ErrEncryptionFailed).
  { intros res e H ->. destruct H as [H|(text & r1 & x & r' & _ & Hop & Hx)]; [discriminate|].
    destruct x as [|e'|]; try contradiction; try discriminate.
    injection Hx as ->. now apply (Encrypt_Err s Hs) in Hop. }
  split; [|split; [|split; [|split]]].
  - intros v r res v' r'. rewrite DecryptStruct_eq.
    destruct (record_cases v) as [[fs ->]|[[fs ->]|Hv]].
    + rewrite transformStruct_ptr.
      destruct (tagged_fields (decrypt_op s) fs r) as [[res1 fs1] r1] eqn:H.
      intros [= <- <- <-]. split.
      * clear Henc. revert fs1 r H. induction fs as [|fld fs IH]; intros fs1 r; simpl.
        -- now intros [= <- <- <-].
        -- destruct (tagged (fst fld) && exported (fst fld)).
           ++ destruct (transform_field (decrypt_op s) fld r) as [[res2 fld2] r2] eqn:Hf.
              apply transform_field_decrypt in Hf as [-> _].
              destruct res2 as [[]| |]; try (now intros [= <- <- <-]).
              destruct (tagged_fields (decrypt_op s) fs r) as [[res3 fs3] r3] eqn:Hrest.
              intros [= <- <- <-]. eapply IH; eauto.
           ++ destruct (tagged_fields (decrypt_op s) fs r) as [[res3 fs3] r3] eqn:Hrest.
              intros [= <- <- <-]. eapply IH; eauto.
      * apply (decrypt_stop s _ Hs).
        destruct (tagged_fields_stops _ _ _ _ _ _ H) as [->|(text & r0 & x & ? & ? & ?)];
          [now left|right; eauto 8].
    + rewrite transformStruct_value. intros [= <- <- <-]. auto.
    + rewrite transformStruct_other by assumption. intros [= <- <- <-]. auto.
  - intros v names r res v' r' Hv. rewrite DecryptFields_eq, transformFields_start.
    intros H. split.
    + apply loop_reader in H; [exact H|now apply start_of_kind|].
      unfold decrypt_op. now intros text r1 x r2 [= _ <-].
    + apply loop_stops in H; [|now apply start_of_kind].
      destruct H as [->|[->|Hstop]]; [auto|auto 6|].
      destruct (decrypt_stop s res Hs) as [->|[->| ->]]; auto.
  - intros v names r res v' r' Hv Hplain. rewrite DecryptFields_eq.
    destruct (record_cases v) as [[fs ->]|[[fs ->]|Hv']]; [| |contradiction].
    + cbn in Hplain. rewrite transformFields_ptr by exact Hplain.
      destruct (named_fields (decrypt_op s) fs names r) as [[res1 fs1] r1] eqn:H.
      intros [= <- <- <-]. apply (decrypt_stop s _ Hs).
      destruct (named_fields_stops _ _ _ _ _ _ _ H) as [->|(text & r0 & x & ? & ? & ?)];
        [now left|right; eauto 8].
    + cbn in Hplain. rewrite transformFields_value by exact Hplain.
      intros [= <- <- <-]. auto.
  - intros v r e v' r'. rewrite EncryptStruct_eq.
    destruct (record_cases v) as [[fs ->]|[[fs ->]|Hv]].
    + rewrite transformStruct_ptr.
      destruct (tagged_fields (encrypt_op s) fs r) as [[res1 fs1] r1] eqn:H.
      intros [= -> <- <-]. apply (Henc (Err e)); [|reflexivity].
      destruct (tagged_fields_stops _ _ _ _ _ _ H) as [->|(text & r0 & x & ? & ? & ?)];
        [now left|right; eauto 8].
    + rewrite transformStruct_value. discriminate.
    + rewrite transformStruct_other by assumption. discriminate.
  - intros v names r e v' r'. rewrite EncryptFields_eq.
    destruct (record_cases v) as [Hrec|[Hrec|Hv]].
    1,2: assert (Hv : is_record v) by (destruct Hrec as [fs ->]; exact I).
    1,2: rewrite transformFields_start; intros H.
    1,2: apply loop_stops in H; [|now apply start_of_kind].
    1,2: destruct H as [H|[H|Hstop]]; [discriminate H|discriminate H|].
    1,2: apply (Henc (Err e)); [now right|reflexivity].
    destruct names as [|name names]; [rewrite transformFields_nil; discriminate|].
    destruct (transformFields_other (encrypt_op s) v name names r Hv) as [msg ->].
    discriminate.
Qed.

Lemma transformer_outcomes_witness :
  snd (DecryptStruct service16 (VPtr (inl stored_user)) tape) = tape
  /\ fst (fst (DecryptStruct service16 (VPtr (inl stored_user)) tape)) = Err ErrInvalidData
  /\ fst (fst (EncryptStruct service16 (VPtr (inl user)) short_tape))
     = Err ErrEncryptionFailed.
Proof.
  destruct (transformer_outcomes key16 service16 NewService_key16) as (HD & _ & _ & HE & _).
  destruct (DecryptStruct service16 (VPtr (inl stored_user)) tape) as [[res v'] r'] eqn:E.
  destruct (HD _ _ _ _ _ E) as [-> _].
  assert (res = Err ErrInvalidData) as ->
    by (vm_compute in E; congruence).
  split; [reflexivity|]. split; [reflexivity|].
  destruct (EncryptStruct service16 (VPtr (inl user)) short_tape) as [[res2 v2] r2] eqn:E2.
  destruct res2 as [|e|]; [vm_compute in E2; discriminate| |vm_compute in E2; discriminate].
  simpl. f_equal. exact (HE _ _ _ _ _ E2).
Defined.

(** ** Splitting a list of names *)


(** X8 -- A list of names can be split. [EncryptFields] over the names
    [pre ++ post] does what [EncryptFields] over [pre] followed, if that
    returned nil, by [EncryptFields] over [post] on the result does; when
    the first call fails or panics, so does the whole, with the same
    outcome. The same holds for [DecryptFields]. *)
Theorem fields_calls_compose (s : Service) (v : value) (pre post : list string)
  (r : rand.Reader) :
  EncryptFields s v (pre ++ post) r
  = match EncryptFields s v pre r with
    | (Ok _, v1, r1) => EncryptFields s v1 post r1
    | stop => stop
    end
  /\ DecryptFields s v (pre ++ post) r
     = match DecryptFields s v pre r with
       | (Ok _, v1, r1) => DecryptFields s v1 post r1
       | stop => stop
       end.
Proof.
  rewrite EncryptFields_eq, DecryptFields_eq. split; apply transformFields_app.
Qed.

(** ** Line breaks in a ciphertext *)

Lemma DecodeString_without_newlines (c c' : string) :
  without_newlines c = without_newlines c' ->
  base64.DecodeString c = base64.DecodeString c'.
Proof.
  unfold without_newlines, base64.DecodeString, base64.Decode. now intros ->.
Qed.

Lemma bytes_of_string_app (a b : string) :
  bytes_of_string (String.append a b) = bytes_of_string a ++ bytes_of_string b.
Proof.
  unfold bytes_of_string, list_byte_of_string.
  induction a as [|x a IH]; simpl; [reflexivity|f_equal; exact IH].
Qed.

(** X9 -- Line breaks in a ciphertext are ignored. In a Service made by
    [NewService], two non-empty texts that differ only in carriage returns
    and line feeds decrypt alike; so a ciphertext with a trailing LF or
    CRLF, or wrapped into lines, decrypts as the original does. A text
    made of line breaks only is not treated as empty: it is
    [ErrInvalidData]. *)
Theorem Decrypt_ignores_line_breaks (key : list byte) (s : Service) :
  NewService key = Ok s ->
  (forall c c', c <> ""%string -> c' <> ""%string ->
     without_newlines c = without_newlines c' -> Decrypt s c = Decrypt s c')
  /\ (forall c, c <> ""%string ->
     Decrypt s (String.append c (String "010" "")) = Decrypt s c
     /\ Decrypt s (String.append c (String "013" (String "010" ""))) = Decrypt s c)
  /\ (forall c, c <> ""%string -> without_newlines c = [] ->
     Decrypt s c = Err ErrInvalidData).
Proof.
  intros Hkey. destruct (NewService_NonceSize _ _ Hkey) as [Hn _].
  assert (H1 : forall c c', c <> ""%string -> c' <> ""%string ->
     without_newlines c = without_newlines c' -> Decrypt s c = Decrypt s c').
  { intros c c' Hc Hc' Heq. unfold Decrypt.
    rewrite !decide_False by assumption.
    now rewrite (DecodeString_without_newlines c c' Heq). }
  assert (Happ : forall c d, c <> ""%string -> String.append c d <> ""%string).
  { intros [|x c] d Hc; [congruence|discriminate]. }
  split; [exact H1|]. split.
  - intros c Hc. split; apply H1; auto; unfold without_newlines;
      rewrite bytes_of_string_app, List.filter_app; simpl; apply app_nil_r.
  - intros c Hc Hnl. unfold Decrypt. rewrite decide_False by assumption.
    unfold base64.DecodeString, base64.Decode. fold (without_newlines c). rewrite Hnl.
    simpl. rewrite Hn. reflexivity.
Qed.

Lemma Decrypt_ignores_line_breaks_witness :
  Decrypt service16 (String.append email_sealed (String "013" (String "010" "")))
  = Ok "a@b.com"%string
  /\ Decrypt service16 (String "010" "") = Err ErrInvalidData.
Proof.
  destruct (Decrypt_ignores_line_breaks key16 service16 NewService_key16) as (_ & H2 & H3).
  split.
  - destruct (H2 email_sealed) as [_ ->]; [discriminate|]. vm_compute. reflexivity.
  - apply H3; [discriminate|reflexivity].
Defined.

(** ** The text functions and the byte functions *)

(** X23 -- The text functions are the byte functions behind base64. In
    every Service, [Encrypt] of a non-empty text draws the same nonce and
    returns the base64 form of the blob [EncryptBytes] returns for the
    bytes of the text, or the same error; and [Decrypt] of a text that
    decodes to a non-empty blob returns what [DecryptBytes] returns for
    that blob, read as a string, or the same error. *)
Theorem text_functions_wrap_bytes (s : Service) :
  (forall p r, p <> ""%string ->
     Encrypt s p r
     = (c <- fst (EncryptBytes s (bytes_of_string p) r) ;; Ok (base64.EncodeToString c),
        snd (EncryptBytes s (bytes_of_string p) r)))
  /\ (forall c data, c <> ""%string -> base64.DecodeString c = Ok data -> data <> [] ->
     Decrypt s c = (p <- DecryptBytes s data ;; Ok (string_of_bytes p))).
Proof.
  split.
  - intros p r Hp. now apply Encrypt_EncryptBytes.
  - intros c data Hc Hd Hdata. unfold Decrypt, DecryptBytes.
    rewrite decide_False by assumption. rewrite Hd.
    rewrite (decide_False (P := length data = 0))
      by (intros H; apply length_zero_iff_nil in H; contradiction).
    destruct (decide (length data < _)); [reflexivity|].
    destruct (cipher.Open _ _ _ _ _); reflexivity.
Qed.

Lemma text_functions_wrap_bytes_witness :
  Encrypt service16 "a@b.com" tape = (Ok email_sealed, drop 12 tape)
  /\ EncryptBytes service16 (bytes_of_string "a@b.com") tape = (Ok blob, drop 12 tape)
  /\ email_sealed = base64.EncodeToString blob
  /\ Decrypt service16 email_sealed = Ok "a@b.com"%string.
Proof.
  destruct (text_functions_wrap_bytes service16) as [HE HD].
  assert (HB : EncryptBytes service16 (bytes_of_string "a@b.com") tape = (Ok blob, drop 12 tape))
    by (vm_compute; reflexivity).
  pose proof (HE "a@b.com"%string tape) as H1. rewrite HB in H1.
  split; [apply H1; discriminate|]. split; [exact HB|]. split; [reflexivity|].
  rewrite (HD email_sealed blob); [vm_compute; reflexivity|discriminate|reflexivity|discriminate].
Defined.

(** ** Encrypting what is encrypted already *)

Lemma transform_field_encrypts (key : list byte) (s : Service) (fld fld' : field)
  (r r' : rand.Reader) :
  NewService key = Ok s ->
  transform_field (encrypt_op s) fld r = (Ok tt, fld', r') ->
  tagged (fst fld) && exported (fst fld) = true ->
  encrypts fld' = encrypts fld.
Proof.
  intros Hkey H Hsel. pose proof (NewService_ok _ _ Hkey) as Hs.
  pose proof (transform_field_fst _ _ _ _ _ _ H) as Hty.
  unfold encrypts. rewrite Hty, Hsel. simpl.
  destruct fld as [sf x]. destruct x as [| | |text| | |]; simpl in *;
    try (injection H as <- _; reflexivity).
  destruct (decide (text = "")) as [->|Hne]; [injection H as <- _; reflexivity|].
  unfold encrypt_op in H. destruct (Encrypt s text r) as [[c| |] r1] eqn:E; try discriminate.
  injection H as <- _. simpl.
  pose proof (Encrypt_nonempty s Hs _ _ _ _ Hne E) as Hc.
  destruct (String.eqb_spec c ""); [contradiction|].
  destruct (String.eqb_spec text ""); [contradiction|]. reflexivity.
Qed.

Lemma tagged_fields_encrypts (key : list byte) (s : Service) (fs fs' : list field)
  (r r' : rand.Reader) :
  NewService key = Ok s ->
  tagged_fields (encrypt_op s) fs r = (Ok tt, fs', r') ->
  map encrypts fs' = map encrypts fs.
Proof.
  intros Hkey. revert fs' r. induction fs as [|fld fs IH]; intros fs' r; simpl.
  - now intros [= <- <-].
  - destruct (tagged (fst fld) && exported (fst fld)) eqn:Hsel.
    + destruct (transform_field (encrypt_op s) fld r) as [[res fld1] r1] eqn:Hf.
      destruct res as [[]| |]; try (intros [=]; fail).
      destruct (tagged_fields (encrypt_op s) fs r1) as [[res2 fs1] r2] eqn:Hrest.
      intros [= -> <- <-]. simpl.
      rewrite (transform_field_encrypts key s _ _ _ _ Hkey Hf Hsel).
      f_equal. eapply IH; eauto.
    + destruct (tagged_fields (encrypt_op s) fs r) as [[res2 fs1] r2] eqn:Hrest.
      intros [= -> <- <-]. simpl. f_equal. eapply IH; eauto.
Qed.

Lemma filter_map_length {A : Type} (f : A -> bool) (l l' : list A) :
  map f l' = map f l -> length (List.filter f l') = length (List.filter f l).
Proof.
  revert l'. induction l as [|x l IH]; intros [|y l']; simpl; try discriminate; auto.
  intros [= -> H]. destruct (f x); simpl; auto.
Qed.

(** X24 -- [EncryptStruct] is not idempotent. In a Service made by
    [NewService], after a call that returns nil every field that was
    tagged, exported and held a non-empty string holds a different,
    longer, non-empty string, which [Decrypt] turns back into the old
    one; so the same fields are selected again, and a second call
    encrypts the ciphertexts once more, drawing as many nonces as the
    first. *)
Theorem EncryptStruct_encrypts_again (key : list byte) (s : Service) (fs fs' : list field)
  (r r' : rand.Reader) :
  NewService key = Ok s ->
  EncryptStruct s (VPtr (inl (VStruct fs))) r = (Ok tt, VPtr (inl (VStruct fs')), r') ->
  nonces_drawn fs' = nonces_drawn fs
  /\ forall i fld, fs !! i = Some fld -> encrypts fld = true ->
       exists text c,
         snd fld = VString text /\ fs' !! i = Some (fst fld, VString c)
         /\ c <> text /\ String.length text < String.length c
         /\ Decrypt s c = Ok text
         /\ encrypts (fst fld, VString c) = true.
Proof.
  intros Hkey. pose proof (NewService_ok _ _ Hkey) as Hs.
  rewrite EncryptStruct_eq. intros H. apply transformStruct_ptr_inv in H.
  pose proof (tagged_fields_encrypts key s _ _ _ _ Hkey H) as Henc.
  split; [unfold nonces_drawn; now apply filter_map_length|].
  intros i [sf x] Hi Hsel.
  destruct (encrypts_true _ Hsel) as (Htag & text & Htext & Hne).
  simpl in Htext. subst x. simpl in Htag. apply andb_true_iff in Htag as [Ht Hx].
  destruct (tagged_fields_Ok (encrypt_op s) fs fs' r r' i sf text H Hi Ht Hx Hne)
    as (c & rj & rj' & Hop & Hi').
  unfold encrypt_op in Hop.
  destruct (Encrypt_size key s text rj rj' c Hkey Hne Hop) as (_ & Hlt & Hneq).
  exists text, c. repeat split; try assumption.
  - exact (Decrypt_Encrypt s Hs text rj rj' c Hne Hop).
  - assert (Hmap : map encrypts fs' !! i = map encrypts fs !! i) by now rewrite Henc.
    rewrite !list_lookup_fmap, Hi, Hi' in Hmap. simpl in Hmap.
    injection Hmap as Hmap. now rewrite <- Hsel.
Qed.

Lemma EncryptStruct_encrypts_again_witness :
  nonces_drawn user_fields = 2
  /\ (exists fs',
        sealed_user = VStruct fs' /\ nonces_drawn fs' = 2
        /\ fs' !! 1 = Some (public "Email" encrypt_true, VString email_sealed))
  /\ Decrypt service16 email_sealed = Ok "a@b.com"%string.
Proof.
  assert (H : EncryptStruct service16 (VPtr (inl (VStruct user_fields))) tape
              = (Ok tt, VPtr (inl sealed_user), drop 24 tape)) by (vm_compute; reflexivity).
  destruct (EncryptStruct_encrypts_again key16 service16 user_fields _ tape _ NewService_key16 H)
    as [Hn Hall].
  destruct (Hall 1 (public "Email" encrypt_true, VString "a@b.com") eq_refl eq_refl)
    as (text & c & Htext & Hc & _ & _ & HD & _).
  injection Htext as <-. injection Hc as <-.
  split; [reflexivity|]. split; [|exact HD].
  eexists. split; [reflexivity|]. split; [exact Hn|reflexivity].
Defined.


(* ================================================================= *)
(** * Package astrortsp: the bounding box                              *)
(* ================================================================= *)

Lemma min_if (a b : Z) : (if (a <? b)%Z then a else b) = Z.min a b.
Proof. destruct (Z.ltb_spec a b); lia. Qed.

Lemma max_if (a b : Z) : (if (a >? b)%Z then a else b) = Z.max a b.
Proof. rewrite Z.gtb_ltb. destruct (Z.ltb_spec b a); lia. Qed.

Lemma wrap_small (z : Z) : astrortsp.is_int z -> astrortsp.wrap z = z.
Proof. unfold astrortsp.is_int, astrortsp.minInt, astrortsp.maxInt, astrortsp.wrap. lia. Qed.

Lemma wrap_is_int (z : Z) : astrortsp.is_int (astrortsp.wrap z).
Proof. unfold astrortsp.is_int, astrortsp.minInt, astrortsp.maxInt, astrortsp.wrap. lia. Qed.

(** The corner of the box is the least abscissa and the least ordinate of
    the four points, and its sides are the differences, on [int], to the
    greatest ones. *)
Lemma ExtractBoundingBox_extrema (p1 p2 p3 p4 : astrortsp.Point.t) :
  let r := astrortsp.ExtractBoundingBox p1 p2 p3 p4 in
  let xs := map astrortsp.Point.X [p1; p2; p3; p4] in
  let ys := map astrortsp.Point.Y [p1; p2; p3; p4] in
  (In (astrortsp.Rectangle.X r) xs /\ (forall x, In x xs -> astrortsp.Rectangle.X r <= x)%Z)
  /\ (In (astrortsp.Rectangle.Y r) ys /\ (forall y, In y ys -> astrortsp.Rectangle.Y r <= y)%Z)
  /\ (exists M, In M xs /\ (forall x, In x xs -> x <= M)%Z
        /\ astrortsp.Rectangle.Width r = astrortsp.sub M (astrortsp.Rectangle.X r))
  /\ (exists M, In M ys /\ (forall y, In y ys -> y <= M)%Z
        /\ astrortsp.Rectangle.Height r = astrortsp.sub M (astrortsp.Rectangle.Y r)).
Proof.
  unfold astrortsp.ExtractBoundingBox. cbn [drop fold_left astrortsp.widen map].
  rewrite !min_if, !max_if. cbn [astrortsp.Rectangle.X astrortsp.Rectangle.Y
    astrortsp.Rectangle.Width astrortsp.Rectangle.Height].
  destruct p1 as [x1 y1], p2 as [x2 y2], p3 as [x3 y3], p4 as [x4 y4].
  cbn [astrortsp.Point.X astrortsp.Point.Y].
  repeat split.
  - simpl. lia.
  - simpl. intros x Hx. lia.
  - simpl. lia.
  - simpl. intros y Hy. lia.
  - eexists. split; [|split; [|reflexivity]]; simpl; [lia|intros x Hx; lia].
  - eexists. split; [|split; [|reflexivity]]; simpl; [lia|intros y Hy; lia].
Qed.

Lemma In_map_X (points : list astrortsp.Point.t) (x : Z) :
  In x (map astrortsp.Point.X points) -> exists p, In p points /\ astrortsp.Point.X p = x.
Proof. intros H. apply in_map_iff in H as (p & <- & Hp). eauto. Qed.

Lemma In_map_Y (points : list astrortsp.Point.t) (y : Z) :
  In y (map astrortsp.Point.Y points) -> exists p, In p points /\ astrortsp.Point.Y p = y.
Proof. intros H. apply in_map_iff in H as (p & <- & Hp). eauto. Qed.

(** X10 -- The bounding box encloses the points and is the smallest
    that does. When no two of the four points are further apart than
    [maxInt] along either axis, the rectangle [ExtractBoundingBox] returns
    has non-negative width and height, contains each of the four points,
    and each of its four sides passes through one of them. *)
Theorem bounding_box_encloses (p1 p2 p3 p4 : astrortsp.Point.t) :
  let r := astrortsp.ExtractBoundingBox p1 p2 p3 p4 in
  let points := [p1; p2; p3; p4] in
  (forall p q, In p points -> In q points ->
     (astrortsp.Point.X p - astrortsp.Point.X q <= astrortsp.maxInt
      /\ astrortsp.Point.Y p - astrortsp.Point.Y q <= astrortsp.maxInt)%Z) ->
  (0 <= astrortsp.Rectangle.Width r /\ 0 <= astrortsp.Rectangle.Height r)%Z
  /\ (forall p, In p points ->
        (astrortsp.Rectangle.X r <= astrortsp.Point.X p
           <= astrortsp.Rectangle.X r + astrortsp.Rectangle.Width r
         /\ astrortsp.Rectangle.Y r <= astrortsp.Point.Y p
           <= astrortsp.Rectangle.Y r + astrortsp.Rectangle.Height r)%Z)
  /\ (exists p, In p points /\ astrortsp.Point.X p = astrortsp.Rectangle.X r)
  /\ (exists p, In p points
        /\ astrortsp.Point.X p = (astrortsp.Rectangle.X r + astrortsp.Rectangle.Width r)%Z)
  /\ (exists p, In p points /\ astrortsp.Point.Y p = astrortsp.Rectangle.Y r)
  /\ (exists p, In p points
        /\ astrortsp.Point.Y p = (astrortsp.Rectangle.Y r + astrortsp.Rectangle.Height r)%Z).
Proof.
  intros r points Hspread.
  destruct (ExtractBoundingBox_extrema p1 p2 p3 p4)
    as ((Hx & Hminx) & (Hy & Hminy) & (Mx & HMx & Hmaxx & Hw) & (My & HMy & Hmaxy & Hh)).
  fold r in Hx, Hminx, Hy, Hminy, Hw, Hh. fold points in Hx, Hminx, Hy, Hminy, HMx, Hmaxx, HMy, Hmaxy.
  destruct (In_map_X _ _ Hx) as (px & Hpx & Epx).
  destruct (In_map_Y _ _ Hy) as (py & Hpy & Epy).
  destruct (In_map_X _ _ HMx) as (qx & Hqx & Eqx).
  destruct (In_map_Y _ _ HMy) as (qy & Hqy & Eqy).
  assert (Hwx : astrortsp.Rectangle.Width r = (Mx - astrortsp.Rectangle.X r)%Z).
  { rewrite Hw. apply wrap_small. pose proof (Hspread qx px Hqx Hpx) as [H _].
    pose proof (Hminx Mx HMx). unfold astrortsp.is_int, astrortsp.minInt, astrortsp.maxInt in *.
    rewrite Eqx, Epx in H. lia. }
  assert (Hhy : astrortsp.Rectangle.Height r = (My - astrortsp.Rectangle.Y r)%Z).
  { rewrite Hh. apply wrap_small. pose proof (Hspread qy py Hqy Hpy) as [_ H].
    pose proof (Hminy My HMy). unfold astrortsp.is_int, astrortsp.minInt, astrortsp.maxInt in *.
    rewrite Eqy, Epy in H. lia. }
  pose proof (Hminx Mx HMx). pose proof (Hminy My HMy).
  split; [split; lia|]. split.
  - intros p Hp.
    pose proof (Hminx _ (in_map astrortsp.Point.X _ _ Hp)).
    pose proof (Hmaxx _ (in_map astrortsp.Point.X _ _ Hp)).
    pose proof (Hminy _ (in_map astrortsp.Point.Y _ _ Hp)).
    pose proof (Hmaxy _ (in_map astrortsp.Point.Y _ _ Hp)). lia.
  - split; [eauto|]. split; [exists qx; split; [assumption|lia]|].
    split; [eauto|]. exists qy. split; [assumption|lia].
Qed.

Lemma bounding_box_encloses_witness :
  astrortsp.ExtractBoundingBox corner1 corner2 corner3 corner4
  = {| astrortsp.Rectangle.X := 10; astrortsp.Rectangle.Y := 5;
       astrortsp.Rectangle.Width := 20; astrortsp.Rectangle.Height := 35 |}
  /\ forall p, In p [corner1; corner2; corner3; corner4] ->
       (10 <= astrortsp.Point.X p <= 30 /\ 5 <= astrortsp.Point.Y p <= 40)%Z.
Proof.
  split; [reflexivity|].
  refine (proj1 (proj2 (bounding_box_encloses corner1 corner2 corner3 corner4 _))).
  intros p q Hp Hq. unfold astrortsp.maxInt.
  repeat (destruct Hp as [<-|Hp]; [|]); try contradiction;
    repeat (destruct Hq as [<-|Hq]; [|]); try contradiction; simpl; lia.
Defined.

(** X11 -- The bounding box does not depend on the order of the points:
    the four points given in any other order produce the same rectangle,
    overflow or not. *)
Theorem bounding_box_any_order (p1 p2 p3 p4 q1 q2 q3 q4 : astrortsp.Point.t) :
  Permutation [p1; p2; p3; p4] [q1; q2; q3; q4] ->
  astrortsp.ExtractBoundingBox p1 p2 p3 p4 = astrortsp.ExtractBoundingBox q1 q2 q3 q4.
Proof.
  intros Hperm.
  assert (HX : Permutation (map astrortsp.Point.X [p1; p2; p3; p4])
                           (map astrortsp.Point.X [q1; q2; q3; q4]))
    by now apply Permutation_map.
  assert (HY : Permutation (map astrortsp.Point.Y [p1; p2; p3; p4])
                           (map astrortsp.Point.Y [q1; q2; q3; q4]))
    by now apply Permutation_map.
  destruct (ExtractBoundingBox_extrema p1 p2 p3 p4)
    as ((Hx & Hminx) & (Hy & Hminy) & (Mx & HMx & Hmaxx & Hw) & (My & HMy & Hmaxy & Hh)).
  destruct (ExtractBoundingBox_extrema q1 q2 q3 q4)
    as ((Hx' & Hminx') & (Hy' & Hminy') & (Mx' & HMx' & Hmaxx' & Hw') & (My' & HMy' & Hmaxy' & Hh')).
  destruct (astrortsp.ExtractBoundingBox p1 p2 p3 p4) as [x y w h].
  destruct (astrortsp.ExtractBoundingBox q1 q2 q3 q4) as [x' y' w' h'].
  cbn [astrortsp.Rectangle.X astrortsp.Rectangle.Y
       astrortsp.Rectangle.Width astrortsp.Rectangle.Height] in *.
  assert (x = x') as <-.
  { pose proof (Hminx x' (Permutation_in _ (Permutation_sym HX) Hx')).
    pose proof (Hminx' x (Permutation_in _ HX Hx)). lia. }
  assert (y = y') as <-.
  { pose proof (Hminy y' (Permutation_in _ (Permutation_sym HY) Hy')).
    pose proof (Hminy' y (Permutation_in _ HY Hy)). lia. }
  assert (Mx = Mx') as <-.
  { pose proof (Hmaxx Mx' (Permutation_in _ (Permutation_sym HX) HMx')).
    pose proof (Hmaxx' Mx (Permutation_in _ HX HMx)). lia. }
  assert (My = My') as <-.
  { pose proof (Hmaxy My' (Permutation_in _ (Permutation_sym HY) HMy')).
    pose proof (Hmaxy' My (Permutation_in _ HY HMy)). lia. }
  congruence.
Qed.

Lemma bounding_box_any_order_witness :
  astrortsp.ExtractBoundingBox corner4 corner3 corner2 corner1
  = astrortsp.ExtractBoundingBox corner1 corner2 corner3 corner4.
Proof.
  apply bounding_box_any_order.
  exact (Permutation_sym (Permutation_rev [corner1; corner2; corner3; corner4])).
Defined.

(** X12 -- Overflow of the width. For points with [int] coordinates, as
    soon as two of them are further apart than [maxInt] along the x axis,
    the subtraction wraps around and the width returned is negative: it is
    the true extent minus 2^64. The height behaves the same along y. *)
Theorem bounding_box_overflow (p1 p2 p3 p4 : astrortsp.Point.t) :
  let r := astrortsp.ExtractBoundingBox p1 p2 p3 p4 in
  let points := [p1; p2; p3; p4] in
  Forall astrortsp.valid_point points ->
  ((exists p q, In p points /\ In q points
      /\ (astrortsp.maxInt < astrortsp.Point.X p - astrortsp.Point.X q)%Z) ->
   (astrortsp.Rectangle.Width r < 0)%Z
   /\ exists p q, In p points /\ In q points
        /\ astrortsp.Rectangle.Width r
           = (astrortsp.Point.X p - astrortsp.Point.X q - 2 ^ 64)%Z)
  /\ ((exists p q, In p points /\ In q points
      /\ (astrortsp.maxInt < astrortsp.Point.Y p - astrortsp.Point.Y q)%Z) ->
   (astrortsp.Rectangle.Height r < 0)%Z
   /\ exists p q, In p points /\ In q points
        /\ astrortsp.Rectangle.Height r
           = (astrortsp.Point.Y p - astrortsp.Point.Y q - 2 ^ 64)%Z).
Proof.
  intros r points Hvalid.
  destruct (ExtractBoundingBox_extrema p1 p2 p3 p4)
    as ((Hx & Hminx) & (Hy & Hminy) & (Mx & HMx & Hmaxx & Hw) & (My & HMy & Hmaxy & Hh)).
  fold r in Hx, Hminx, Hy, Hminy, Hw, Hh. fold points in Hx, Hminx, Hy, Hminy, HMx, Hmaxx, HMy, Hmaxy.
  destruct (In_map_X _ _ Hx) as (px & Hpx & Epx).
  destruct (In_map_Y _ _ Hy) as (py & Hpy & Epy).
  destruct (In_map_X _ _ HMx) as (qx & Hqx & Eqx).
  destruct (In_map_Y _ _ HMy) as (qy & Hqy & Eqy).
  rewrite List.Forall_forall in Hvalid.
  split.
  - intros (p & q & Hp & Hq & Hfar).
    pose proof (Hmaxx _ (in_map astrortsp.Point.X _ _ Hp)).
    pose proof (Hminx _ (in_map astrortsp.Point.X _ _ Hq)).
    destruct (Hvalid _ Hpx) as [Vp _]. destruct (Hvalid _ Hqx) as [Vq _].
    assert (Hwx : astrortsp.Rectangle.Width r = (Mx - astrortsp.Rectangle.X r - 2 ^ 64)%Z).
    { rewrite Hw. unfold astrortsp.sub, astrortsp.wrap.
      unfold astrortsp.is_int, astrortsp.minInt, astrortsp.maxInt in *.
      rewrite Epx in Vp. rewrite Eqx in Vq. lia. }
    split.
    + unfold astrortsp.is_int, astrortsp.minInt, astrortsp.maxInt in *.
      rewrite Epx in Vp. rewrite Eqx in Vq. lia.
    + exists qx, px. rewrite Eqx, Epx. auto.
  - intros (p & q & Hp & Hq & Hfar).
    pose proof (Hmaxy _ (in_map astrortsp.Point.Y _ _ Hp)).
    pose proof (Hminy _ (in_map astrortsp.Point.Y _ _ Hq)).
    destruct (Hvalid _ Hpy) as [_ Vp]. destruct (Hvalid _ Hqy) as [_ Vq].
    assert (Hhy : astrortsp.Rectangle.Height r = (My - astrortsp.Rectangle.Y r - 2 ^ 64)%Z).
    { rewrite Hh. unfold astrortsp.sub, astrortsp.wrap.
      unfold astrortsp.is_int, astrortsp.minInt, astrortsp.maxInt in *.
      rewrite Epy in Vp. rewrite Eqy in Vq. lia. }
    split.
    + unfold astrortsp.is_int, astrortsp.minInt, astrortsp.maxInt in *.
      rewrite Epy in Vp. rewrite Eqy in Vq. lia.
    + exists qy, py. rewrite Eqy, Epy. auto.
Qed.

Lemma bounding_box_overflow_witness :
  astrortsp.Rectangle.Width
    (astrortsp.ExtractBoundingBox far_left far_right (point 0 0) (point 0 0)) = (-1)%Z
  /\ (astrortsp.Rectangle.Width
        (astrortsp.ExtractBoundingBox far_left far_right (point 0 0) (point 0 0)) < 0)%Z.
Proof.
  split; [reflexivity|].
  refine (proj1 (proj1 (bounding_box_overflow far_left far_right (point 0 0) (point 0 0) _) _)).
  - repeat (apply List.Forall_cons;
              [split; split; vm_compute; intros H; discriminate H|]).
    apply List.Forall_nil.
  - exists far_right, far_left. split; [right; left; reflexivity|]. split; [left; reflexivity|].
    vm_compute. reflexivity.
Defined.


(* ================================================================= *)
(** * Package astrolog: the caller field                               *)
(* ================================================================= *)

Lemma append_cons (x : ascii) (a b : string) : String x a +:+ b = String x (a +:+ b).
Proof. reflexivity. Qed.

Lemma append_nil (b : string) : EmptyString +:+ b = b.
Proof. reflexivity. Qed.

Lemma append_length (a b : string) :
  String.length (a +:+ b) = String.length a + String.length b.
Proof.
  induction a as [|x a IH]; rewrite ?append_nil, ?append_cons; simpl;
    [reflexivity|f_equal; exact IH].
Qed.

Lemma append_assoc (a b c : string) : (a +:+ b) +:+ c = a +:+ (b +:+ c).
Proof.
  induction a as [|x a IH]; rewrite ?append_nil, ?append_cons;
    [reflexivity|f_equal; exact IH].
Qed.

Lemma substring_app_l (a b : string) : substring 0 (String.length a) (a +:+ b) = a.
Proof.
  induction a as [|x a IH]; rewrite ?append_nil, ?append_cons; simpl;
    [now destruct b|f_equal; exact IH].
Qed.

Lemma substring_app_r (a b : string) :
  substring (String.length a) (String.length b) (a +:+ b) = b.
Proof.
  induction a as [|x a IH]; rewrite ?append_nil, ?append_cons; simpl; [|exact IH].
  induction b as [|y b IHb]; simpl; [reflexivity|f_equal; exact IHb].
Qed.

Lemma free_of_app (c : ascii) (a b : string) :
  free_of c (a +:+ b) = free_of c a && free_of c b.
Proof.
  induction a as [|x a IH]; rewrite ?append_nil, ?append_cons; simpl; [reflexivity|].
  rewrite IH. now rewrite andb_assoc.
Qed.

Lemma free_of_substring (c : ascii) (s : string) (n m : nat) :
  free_of c s = true -> free_of c (substring n m s) = true.
Proof.
  revert n m. induction s as [|x s IH]; intros n m H; simpl in *.
  - now destruct n, m.
  - apply andb_true_iff in H as [Hx Hs].
    destruct n as [|n]; [destruct m as [|m]; simpl; [reflexivity|]|now apply IH].
    rewrite Hx. simpl. now apply IH.
Qed.

Lemma cut_Some (s : string) (sep : ascii) (a b : string) :
  strings.cut s sep = Some (a, b) -> s = a +:+ String sep b /\ free_of sep a = true.
Proof.
  revert a. induction s as [|x s IH]; intros a; simpl; [discriminate|].
  destruct (Ascii.eqb_spec x sep) as [->|Hne].
  - intros [= <- <-]. auto.
  - destruct (strings.cut s sep) as [[a' b']|]; [|discriminate].
    intros [= <- <-]. destruct (IH a' eq_refl) as [-> Hfree]. rewrite append_cons. simpl.
    split; [reflexivity|]. rewrite Hfree.
    destruct (Ascii.eqb_spec x sep); [contradiction|reflexivity].
Qed.

Lemma cut_None (s : string) (sep : ascii) :
  strings.cut s sep = None <-> free_of sep s = true.
Proof.
  induction s as [|x s IH]; simpl; [tauto|].
  destruct (Ascii.eqb x sep); simpl; [split; discriminate|].
  destruct (strings.cut s sep) as [[a b]|]; [|tauto].
  split; [discriminate|]. intros H. apply IH in H. discriminate.
Qed.

Lemma cut_app (a b : string) (sep : ascii) :
  free_of sep a = true -> strings.cut (a +:+ String sep b) sep = Some (a, b).
Proof.
  induction a as [|x a IH]; rewrite ?append_nil, ?append_cons; simpl.
  - intros _. now rewrite Ascii.eqb_refl.
  - intros H. apply andb_true_iff in H as [Hx Ha].
    destruct (Ascii.eqb x sep); [discriminate|]. now rewrite IH.
Qed.

Lemma genSplit_step (s : string) (sep : ascii) (n : nat) :
  strings.genSplit s sep (S (S n))
  = match strings.cut s sep with
    | Some (before, after) => before :: strings.genSplit after sep (S n)
    | None => [s]
    end.
Proof. reflexivity. Qed.

Lemma genSplit_free (s : string) (sep : ascii) (n : nat) :
  free_of sep s = true -> 0 < n -> strings.genSplit s sep n = [s].
Proof.
  intros H Hn. destruct n as [|[|n]]; [lia|reflexivity|].
  rewrite genSplit_step. apply cut_None in H. now rewrite H.
Qed.

Lemma genSplit_nonempty (s : string) (sep : ascii) (n : nat) :
  0 < n -> strings.genSplit s sep n <> [].
Proof.
  intros Hn. destruct n as [|[|n]]; [lia|discriminate|].
  rewrite genSplit_step. destruct (strings.cut s sep) as [[a b]|]; discriminate.
Qed.

Lemma last_cons {A : Type} (x : A) (l : list A) (d : A) :
  l <> [] -> List.last (x :: l) d = List.last l d.
Proof. destruct l; [congruence|reflexivity]. Qed.

Lemma free_or_cut (s : string) (sep : ascii) :
  free_of sep s = true
  \/ exists a b, s = a +:+ String sep b /\ free_of sep a = true.
Proof.
  destruct (strings.cut s sep) as [[a b]|] eqn:E.
  - right. exists a, b. now apply cut_Some.
  - left. now apply cut_None.
Qed.

Lemma last_genSplit (sep : ascii) (n : nat) (dir name d : string) :
  free_of sep name = true ->
  String.length (dir +:+ String sep name) < n ->
  List.last (strings.genSplit (dir +:+ String sep name) sep n) d = name.
Proof.
  intros Hname. revert dir. induction n as [|n IH]; intros dir Hlen; [lia|].
  destruct n as [|n]; [rewrite append_length in Hlen; simpl in Hlen; lia|].
  rewrite genSplit_step.
  destruct (free_or_cut dir sep) as [Hfree|(a & b & -> & Hfree)].
  - rewrite cut_app by assumption.
    rewrite genSplit_free by (assumption || lia). reflexivity.
  - rewrite append_assoc, append_cons. rewrite cut_app by assumption.
    rewrite last_cons by (apply genSplit_nonempty; lia).
    apply IH. rewrite append_assoc, append_cons, append_length in Hlen.
    cbn [String.length] in Hlen. lia.
Qed.

Lemma genSplit_pieces_free (sep : ascii) (n : nat) (s : string) :
  String.length s < n -> Forall (fun piece => free_of sep piece = true) (strings.genSplit s sep n).
Proof.
  revert s. induction n as [|n IH]; intros s Hlen; [lia|].
  destruct n as [|n]; [destruct s; [repeat constructor|simpl in Hlen; lia]|].
  rewrite genSplit_step.
  destruct (strings.cut s sep) as [[a b]|] eqn:E.
  - apply cut_Some in E as [-> Hfree]. constructor; [assumption|].
    apply IH. rewrite append_length in Hlen. simpl in Hlen. lia.
  - apply cut_None in E. repeat constructor. assumption.
Qed.

Lemma last_Forall {A : Type} (P : A -> Prop) (l : list A) (d : A) :
  Forall P l -> P d -> P (List.last l d).
Proof.
  induction 1 as [|x l Hx Hl IH]; intros Hd; [assumption|].
  destruct l; [assumption|]. now apply IH.
Qed.

Lemma TrimSuffix_free (c : ascii) (s suffix : string) :
  free_of c s = true -> free_of c (strings.TrimSuffix s suffix) = true.
Proof.
  intros H. unfold strings.TrimSuffix. destruct (strings.HasSuffix s suffix); [|assumption].
  now apply free_of_substring.
Qed.

Lemma TrimSuffix_app (s suffix : string) : strings.TrimSuffix (s +:+ suffix) suffix = s.
Proof.
  unfold strings.TrimSuffix, strings.HasSuffix. rewrite append_length.
  replace (String.length s + String.length suffix - String.length suffix)
    with (String.length s) by lia.
  rewrite substring_app_r, String.eqb_refl, substring_app_l.
  replace (String.length suffix <=? String.length s + String.length suffix) with true
    by (symmetry; apply Nat.leb_le; lia).
  reflexivity.
Qed.

Lemma stripCallerPath_dir (dir name : string) :
  free_of "/" name = true ->
  astrolog.stripCallerPath (dir +:+ String "/" name) = strings.TrimSuffix name ".go".
Proof.
  intros Hname. unfold astrolog.stripCallerPath.
  rewrite decide_False by (destruct dir; discriminate).
  cbv zeta. unfold strings.Split. now rewrite last_genSplit by (assumption || lia).
Qed.

Lemma stripCallerPath_plain (name : string) :
  free_of "/" name = true ->
  astrolog.stripCallerPath name = strings.TrimSuffix name ".go".
Proof.
  intros Hname. unfold astrolog.stripCallerPath.
  destruct (decide (name = "")) as [->|_]; [reflexivity|].
  cbv zeta. unfold strings.Split. now rewrite genSplit_free by (assumption || lia).
Qed.

(** X13 -- The caller field is the file's base name. For a file name
    [base] without a slash, [stripCallerPath] maps [dir/base.go] and
    [base.go] to [base], for every directory part [dir], however many
    slashes it has; a last component without the [.go] suffix is
    returned as it is; only one [.go] is removed; and the result never
    contains a slash. *)
Theorem stripCallerPath_base (dir base : string) :
  free_of "/" base = true ->
  astrolog.stripCallerPath (dir +:+ "/" +:+ base +:+ ".go") = base
  /\ astrolog.stripCallerPath (base +:+ ".go") = base
  /\ astrolog.stripCallerPath (dir +:+ "/" +:+ base) = strings.TrimSuffix base ".go"
  /\ forall file, free_of "/" (astrolog.stripCallerPath file) = true.
Proof.
  intros Hbase.
  assert (Hgo : free_of "/" (base +:+ ".go") = true) by now rewrite free_of_app, Hbase.
  split; [|split; [|split]].
  - change (dir +:+ "/" +:+ base +:+ ".go") with (dir +:+ String "/" (base +:+ ".go")).
    rewrite stripCallerPath_dir by assumption. apply TrimSuffix_app.
  - rewrite stripCallerPath_plain by assumption. apply TrimSuffix_app.
  - change (dir +:+ "/" +:+ base) with (dir +:+ String "/" base).
    now apply stripCallerPath_dir.
  - intros file. unfold astrolog.stripCallerPath.
    destruct (decide (file = "")) as [->|_]; [reflexivity|].
    cbv zeta. apply TrimSuffix_free. apply last_Forall; [|reflexivity].
    apply genSplit_pieces_free. lia.
Qed.

Lemma stripCallerPath_base_witness :
  astrolog.stripCallerPath "/home/dev/asterogo/pkg/astrolog/logger.go" = "logger"%string
  /\ astrolog.stripCallerPath "main.go" = "main"%string
  /\ astrolog.stripCallerPath "cmd/tool" = "tool"%string.
Proof.
  destruct (stripCallerPath_base "/home/dev/asterogo/pkg/astrolog" "logger" eq_refl)
    as (H1 & _ & _ & _).
  destruct (stripCallerPath_base "cmd" "main" eq_refl) as (_ & H2 & _ & _).
  destruct (stripCallerPath_base "cmd" "tool" eq_refl) as (_ & _ & H3 & _).
  split; [exact H1|]. split; [exact H2|exact H3].
Defined.


(* ================================================================= *)
(** * Package astroenv: the configuration loader                       *)
(* ================================================================= *)

(** Induction on configuration values, through the lists of fields. *)
Lemma config_value_ind (P : astroenv.value -> Prop) :
  (forall b, P (astroenv.VBool b)) ->
  (forall k n, P (astroenv.VInt k n)) ->
  (forall k f, P (astroenv.VFloat k f)) ->
  (forall s, P (astroenv.VString s)) ->
  (forall fields, Forall (fun fld => P (snd fld)) fields -> P (astroenv.VStruct fields)) ->
  (forall k, P (astroenv.VOther k)) ->
  forall v, P v.
Proof.
  intros HBool HInt HFloat HString HStruct HOther.
  fix IH 1.
  intros [b|k n|k f|s|fields|k];
    [apply HBool|apply HInt|apply HFloat|apply HString| |apply HOther].
  apply HStruct. induction fields as [|fld fields IHfields]; constructor.
  - apply IH.
  - exact IHfields.
Qed.

Section LoaderFacts.

Variable ParseFloat : string -> option N.
Variable float32 : N -> N.
Variable env : os.Environ.

Local Abbreviation parseStruct := (astroenv.parseStruct ParseFloat float32 env).
Local Abbreviation parseFields :=
  (astroenv.parseFields ParseFloat float32 env (astroenv.parseStruct ParseFloat float32 env)).
Local Abbreviation parseField := (astroenv.parseField ParseFloat float32 env).
Local Abbreviation parseLeaves := (parseLeaves ParseFloat float32 env).

Lemma parseStruct_struct (ro : bool) (fields : list (StructField * astroenv.value)) :
  parseStruct ro (astroenv.VStruct fields)
  = let '(res, fields') := parseFields ro fields in (res, astroenv.VStruct fields').
Proof. reflexivity. Qed.

Lemma parseLeaves_app (pre post : list leaf) :
  parseLeaves (pre ++ post)
  = match parseLeaves pre with
    | (astroenv.Returns _, pre') =>
        let '(res, post') := parseLeaves post in (res, pre' ++ post')
    | (stop, pre') => (stop, pre' ++ post)
    end.
Proof.
  induction pre as [|[[ro sf] x] pre IH]; simpl.
  - now destruct (parseLeaves post).
  - destruct (parseField ro sf x) as [x'| |]; [|reflexivity..].
    rewrite IH. destruct (parseLeaves pre) as [[[]| |] pre'];
      [destruct (parseLeaves post)|..]; reflexivity.
Qed.

Lemma parseLeaves_stop (ls ls' : list leaf) (res : astroenv.outcome unit) :
  parseLeaves ls = (res, ls') -> length ls' = length ls.
Proof.
  revert ls' res. induction ls as [|[[ro sf] x] ls IH]; intros ls' res; simpl.
  - now intros [= <- <-].
  - destruct (parseField ro sf x) as [x'| |]; try (now intros [= <- <-]).
    destruct (parseLeaves ls) as [res1 ls1] eqn:E. intros [= <- <-]. simpl.
    f_equal. eapply IH. reflexivity.
Qed.

(** The loader on a struct is the flat loop on its leaves. *)
Lemma parseFields_leaves (fields : list (StructField * astroenv.value)) :
  Forall (fun fld => forall ro fs, snd fld = astroenv.VStruct fs ->
            forall res v', parseStruct ro (snd fld) = (res, v') ->
            (exists fs', v' = astroenv.VStruct fs')
            /\ parseLeaves (leaves ro (snd fld)) = (res, leaves ro v')
            /\ skeleton v' = skeleton (snd fld)) fields ->
  forall ro res fields',
    parseFields ro fields = (res, fields') ->
    parseLeaves (leaves_of leaves ro fields) = (res, leaves_of leaves ro fields')
    /\ skeleton_of skeleton fields' = skeleton_of skeleton fields.
Proof.
  induction 1 as [|[sf x] fields Hx _ IH]; intros ro res fields'.
  - simpl. now intros [= <- <-].
  - cbn [astroenv.parseFields leaves_of skeleton_of]. simpl snd in Hx.
    rewrite parseLeaves_app.
    destruct x as [b|k n|k f|s|fs|k];
      try (destruct (parseField (ro || negb (exported sf)) sf _) as [x'| |] eqn:Hf;
           [destruct (parseFields ro fields) as [res1 rest'] eqn:Hrest;
            intros [= <- <-]; destruct (IH ro res1 rest' Hrest) as [IH1 IH2];
            cbn [parseLeaves leaves_of skeleton_of]; rewrite Hf, IH1, IH2;
            assert (Hk : forall fs, x' <> astroenv.VStruct fs)
              by (intros fs ->; revert Hf; unfold astroenv.parseField;
                  destruct (decide _); [discriminate|];
                  destruct (astroenv.parseTag _) as [[? ?] ?];
                  destruct (astroenv.resolveValue _ _ _ _ _); try discriminate;
                  simpl; unfold astroenv.set;
                  repeat (match goal with
                          | |- context [match ?t with _ => _ end] => destruct t
                          end; try discriminate));
            destruct x'; try (exfalso; eapply Hk; reflexivity); split; reflexivity
           |intros [= <- <-]; cbn [parseLeaves leaves_of skeleton_of app]; rewrite Hf;
            split; reflexivity
           |intros [= <- <-]; cbn [parseLeaves leaves_of skeleton_of app]; rewrite Hf;
            split; reflexivity]).
    destruct (parseStruct (ro || (negb (exported sf) && negb (Anonymous sf)))
                          (astroenv.VStruct fs)) as [res0 v0] eqn:Hs.
    destruct (Hx _ fs eq_refl _ _ Hs) as ((fs' & ->) & Hl & Hsk).
    rewrite Hl. destruct res0 as [[]| |].
    + destruct (parseFields ro fields) as [res1 rest'] eqn:Hrest.
      intros [= <- <-]. destruct (IH ro res1 rest' Hrest) as [IH1 IH2].
      cbn [leaves_of skeleton_of]. rewrite IH1, IH2, Hsk. split; reflexivity.
    + intros [= <- <-]. cbn [leaves_of skeleton_of]. rewrite Hsk. split; reflexivity.
    + intros [= <- <-]. cbn [leaves_of skeleton_of]. rewrite Hsk. split; reflexivity.
Qed.

Lemma parseStruct_leaves (v : astroenv.value) :
  forall ro fs, v = astroenv.VStruct fs ->
  forall res v', parseStruct ro v = (res, v') ->
  (exists fs', v' = astroenv.VStruct fs')
  /\ parseLeaves (leaves ro v) = (res, leaves ro v')
  /\ skeleton v' = skeleton v.
Proof.
  induction v as [| | | |fields IH|] using config_value_ind; intros ro fs [=].
  subst fs. intros res v'. rewrite parseStruct_struct.
  destruct (parseFields ro fields) as [res1 fields'] eqn:E.
  intros [= <- <-]. destruct (parseFields_leaves fields IH ro res1 fields' E) as [H1 H2].
  split; [eauto|]. cbn [leaves skeleton]. rewrite H2. split; [exact H1|reflexivity].
Qed.

End LoaderFacts.

Section LoaderTheorems.

Variable ParseFloat : string -> option N.
Variable float32 : N -> N.

Local Abbreviation parseStruct := (astroenv.parseStruct ParseFloat float32).
Local Abbreviation parseField := (astroenv.parseField ParseFloat float32).
Local Abbreviation setField := (astroenv.setField ParseFloat float32).
Local Abbreviation LoadEnvVarible := (astroenv.LoadEnvVarible ParseFloat float32).
Local Abbreviation parseLeaves := (parseLeaves ParseFloat float32).

(** Nothing is ever set in a read-only field. *)
Lemma setField_read_only (field : astroenv.value) (fieldName rawVal : string)
  (field' : astroenv.value) :
  setField true field fieldName rawVal <> astroenv.Returns field'.
Proof.
  destruct field as [b|k n|k f|s|fs|k]; simpl; try discriminate.
  - destruct (strconv.ParseBool rawVal); discriminate.
  - destruct (strconv.ParseInt rawVal); discriminate.
  - destruct (ParseFloat rawVal); discriminate.
Qed.

Lemma setField_flag (ro : bool) (field : astroenv.value) (fieldName rawVal : string)
  (field' : astroenv.value) :
  setField ro field fieldName rawVal = astroenv.Returns field' ->
  ro = false.
Proof.
  destruct ro; [|reflexivity]. intros H. now apply setField_read_only in H.
Qed.

Lemma parseField_tagged (env : os.Environ) (ro : bool) (sf : StructField)
  (field : astroenv.value) :
  reflect.StructTag_Get (Tag sf) "env" <> EmptyString ->
  parseField env ro sf field
  = match astroenv.resolveValue env
            (astroenv.parseTag (reflect.StructTag_Get (Tag sf) "env")).1.1
            (astroenv.parseTag (reflect.StructTag_Get (Tag sf) "env")).1.2
            (astroenv.parseTag (reflect.StructTag_Get (Tag sf) "env")).2 (Name sf) with
    | astroenv.Returns rawVal => setField ro field (Name sf) rawVal
    | astroenv.Fails err => astroenv.Fails err
    | astroenv.Panics msg => astroenv.Panics msg
    end.
Proof.
  intros Htag. unfold astroenv.parseField. rewrite decide_False by assumption.
  now destruct (astroenv.parseTag _) as [[key def] has].
Qed.

Lemma parseField_loaded (env : os.Environ) (ro : bool) (sf : StructField)
  (field field' : astroenv.value) :
  parseField env ro sf field = astroenv.Returns field' ->
  loaded ParseFloat float32 env (ro, sf, field) (ro, sf, field').
Proof.
  intros H. unfold loaded. exists field'. split; [reflexivity|].
  destruct (decide (reflect.StructTag_Get (Tag sf) "env" = EmptyString)) as [Htag|Htag].
  - revert H. unfold astroenv.parseField. rewrite decide_True by assumption. congruence.
  - rewrite parseField_tagged in H by assumption.
    destruct (astroenv.resolveValue _ _ _ _ _) as [rawVal| |]; try discriminate.
    exists rawVal. split; [reflexivity|].
    pose proof (setField_flag _ _ _ _ _ H) as ->. auto.
Qed.

Lemma parseLeaves_Returns (env : os.Environ) (ls ls' : list leaf) :
  parseLeaves env ls = (astroenv.Returns tt, ls') ->
  Forall2 (loaded ParseFloat float32 env) ls ls'.
Proof.
  revert ls'. induction ls as [|[[ro sf] x] ls IH]; intros ls'; simpl.
  - intros [= <-]. constructor.
  - destruct (parseField env ro sf x) as [x'| |] eqn:Hf; try discriminate.
    destruct (parseLeaves env ls) as [res rest'] eqn:Hrest.
    intros [= -> <-]. constructor; [now apply parseField_loaded|now apply IH].
Qed.

Lemma parseLeaves_first_stop (env : os.Environ) (done done' rest : list leaf)
  (ro : bool) (sf : StructField) (field : astroenv.value) (stop : astroenv.outcome unit) :
  parseLeaves env done = (astroenv.Returns tt, done') ->
  match parseField env ro sf field with
  | astroenv.Returns _ => False
  | astroenv.Fails err => stop = astroenv.Fails err
  | astroenv.Panics msg => stop = astroenv.Panics msg
  end ->
  parseLeaves env (done ++ (ro, sf, field) :: rest) = (stop, done' ++ (ro, sf, field) :: rest).
Proof.
  intros Hdone Hstop. rewrite parseLeaves_app, Hdone. simpl.
  destruct (parseField env ro sf field) as [x'| |]; [contradiction| |]; now subst stop.
Qed.

Lemma Forall2_In_l {A B : Type} (R : A -> B -> Prop) (l : list A) (l' : list B) (x : A) :
  Forall2 R l l' -> In x l -> exists y, R x y.
Proof.
  induction 1 as [|a b l l' Hab _ IH]; intros Hin; [contradiction|].
  destruct Hin as [->|Hin]; eauto.
Qed.

(** X14 -- Nested structs are loaded like flat ones. [parseStruct] on a
    struct does to its leaves -- the fields that are not structs, at any
    depth, taken depth first -- exactly what a single loop does that
    resolves and sets each leaf in turn and stops at the first error or
    panic; it changes nothing but leaves; and the [env] tag of a field
    that is itself a struct is never read. *)
Theorem parseStruct_flat (env : os.Environ) (ro : bool)
  (fields : list (StructField * astroenv.value)) :
  parseLeaves env (leaves ro (astroenv.VStruct fields))
  = ((parseStruct env ro (astroenv.VStruct fields)).1,
     leaves ro (parseStruct env ro (astroenv.VStruct fields)).2)
  /\ skeleton (parseStruct env ro (astroenv.VStruct fields)).2
     = skeleton (astroenv.VStruct fields).
Proof.
  destruct (parseStruct env ro (astroenv.VStruct fields)) as [res v'] eqn:E.
  destruct (parseStruct_leaves ParseFloat float32 env _ ro fields eq_refl res v' E)
    as (_ & H1 & H2).
  split; assumption.
Qed.

Lemma LoadEnvVarible_Returns (dotenv : option (gmap string string)) (env env' : os.Environ)
  (cfg cfg' : astroenv.config) :
  LoadEnvVarible dotenv env cfg = (astroenv.Returns tt, cfg', env') ->
  godotenv.Load dotenv env = Some env'
  /\ exists fields v',
       cfg = astroenv.Ptr (Some (astroenv.VStruct fields))
       /\ cfg' = astroenv.Ptr (Some v')
       /\ skeleton v' = skeleton (astroenv.VStruct fields)
       /\ Forall2 (loaded ParseFloat float32 env')
                  (leaves false (astroenv.VStruct fields)) (leaves false v').
Proof.
  unfold astroenv.LoadEnvVarible.
  destruct (godotenv.Load dotenv env) as [env1|]; [|discriminate].
  destruct cfg as [|[v|]|v]; try discriminate.
  destruct v as [b|k n|k f|s|fields|k]; try discriminate.
  destruct (parseStruct env1 false (astroenv.VStruct fields)) as [res v'] eqn:E.
  intros [= -> <- <-]. split; [reflexivity|]. exists fields, v'.
  destruct (parseStruct_leaves ParseFloat float32 env1 _ false fields eq_refl _ v' E)
    as (_ & H1 & H2).
  repeat split; try assumption. now apply parseLeaves_Returns.
Qed.

Lemma parseLeaves_all (env : os.Environ) (ls : list leaf) :
  Forall (fun l : leaf => exists field', parseField env l.1.1 l.1.2 l.2 = astroenv.Returns field') ls ->
  exists ls', parseLeaves env ls = (astroenv.Returns tt, ls').
Proof.
  induction 1 as [|[[ro sf] x] ls (x' & Hx) _ (ls' & IH)]; simpl; [eauto|].
  simpl in Hx. rewrite Hx, IH. eauto.
Qed.

(** X15 -- What a successful load leaves behind. When [LoadEnvVarible]
    returns nil, the [.env] file was read, [cfg] is a pointer to a struct,
    and in that struct, whose shape is unchanged, every leaf without an
    [env] tag has its prior value, while every leaf with one is not
    read-only (it is exported, and so is every field that is not embedded
    on the way to it) and holds the converted value of its variable, or of
    its default when the variable is unset or empty. *)
Theorem LoadEnvVarible_loaded (dotenv : option (gmap string string)) (env env' : os.Environ)
  (cfg cfg' : astroenv.config) :
  LoadEnvVarible dotenv env cfg = (astroenv.Returns tt, cfg', env') ->
  godotenv.Load dotenv env = Some env'
  /\ exists fields v',
       cfg = astroenv.Ptr (Some (astroenv.VStruct fields))
       /\ cfg' = astroenv.Ptr (Some v')
       /\ skeleton v' = skeleton (astroenv.VStruct fields)
       /\ Forall2 (loaded ParseFloat float32 env')
                  (leaves false (astroenv.VStruct fields)) (leaves false v').
Proof. apply LoadEnvVarible_Returns. Qed.

(** X16 -- The first leaf that cannot be loaded ends the call, and what
    was set stays set. When the [.env] file is read and [cfg] points to a
    struct whose leaves before some leaf all load, and that leaf fails
    (its required variable is missing, its text does not convert, or its
    kind is not supported) or panics, [LoadEnvVarible] returns exactly
    that error or panic; the earlier leaves hold their loaded values, the
    failing leaf and those after it are as they were. *)
Theorem LoadEnvVarible_first_failure (dotenv : option (gmap string string))
  (env env' : os.Environ) (fields : list (StructField * astroenv.value))
  (done done' rest : list leaf) (ro : bool) (sf : StructField) (field : astroenv.value)
  (stop : astroenv.outcome unit) :
  godotenv.Load dotenv env = Some env' ->
  leaves false (astroenv.VStruct fields) = done ++ (ro, sf, field) :: rest ->
  parseLeaves env' done = (astroenv.Returns tt, done') ->
  match parseField env' ro sf field with
  | astroenv.Returns _ => False
  | astroenv.Fails err => stop = astroenv.Fails err
  | astroenv.Panics msg => stop = astroenv.Panics msg
  end ->
  exists v',
    LoadEnvVarible dotenv env (astroenv.Ptr (Some (astroenv.VStruct fields)))
    = (stop, astroenv.Ptr (Some v'), env')
    /\ skeleton v' = skeleton (astroenv.VStruct fields)
    /\ leaves false v' = done' ++ (ro, sf, field) :: rest.
Proof.
  intros Hload Hleaves Hdone Hstop. unfold astroenv.LoadEnvVarible. rewrite Hload.
  destruct (parseStruct env' false (astroenv.VStruct fields)) as [res v'] eqn:E.
  destruct (parseStruct_leaves ParseFloat float32 env' _ false fields eq_refl _ v' E)
    as (_ & H1 & H2).
  rewrite Hleaves, (parseLeaves_first_stop env' _ _ _ _ _ _ stop Hdone Hstop) in H1.
  injection H1 as <- Hl. exists v'. auto.
Qed.

(** X17 -- A tagged field behind an unexported field cannot be loaded. A
    leaf with an [env] tag that is read-only (it is unexported, or inside
    a struct held in an unexported field that is not embedded) never
    loads: once its value is resolved, a string is refused by [SetString]
    with a panic, and so are a number or a boolean whose text converts. So
    no call that reaches such a leaf returns nil. *)
Theorem unexported_leaf_never_loads (env : os.Environ) (sf : StructField)
  (field : astroenv.value) :
  reflect.StructTag_Get (Tag sf) "env" <> EmptyString ->
  (forall field', parseField env true sf field <> astroenv.Returns field')
  /\ (forall rawVal s,
        astroenv.resolveValue env
          (astroenv.parseTag (reflect.StructTag_Get (Tag sf) "env")).1.1
          (astroenv.parseTag (reflect.StructTag_Get (Tag sf) "env")).1.2
          (astroenv.parseTag (reflect.StructTag_Get (Tag sf) "env")).2 (Name sf)
        = astroenv.Returns rawVal ->
        field = astroenv.VString s ->
        parseField env true sf field
        = astroenv.Panics
            "reflect: reflect.Value.SetString using value obtained using unexported field")
  /\ (forall dotenv env0 fields cfg',
        godotenv.Load dotenv env0 = Some env ->
        In (true, sf, field) (leaves false (astroenv.VStruct fields)) ->
        LoadEnvVarible dotenv env0 (astroenv.Ptr (Some (astroenv.VStruct fields)))
        <> (astroenv.Returns tt, cfg', env)).
Proof.
  intros Htag. split; [|split].
  - intros field'. rewrite parseField_tagged by assumption.
    destruct (astroenv.resolveValue _ _ _ _ _) as [rawVal| |]; try discriminate.
    apply setField_read_only.
  - intros rawVal s Hres ->. rewrite parseField_tagged by assumption. now rewrite Hres.
  - intros dotenv env0 fields cfg' Hload Hin H.
    apply LoadEnvVarible_Returns in H as (_ & fields0 & v' & [= <-] & _ & _ & Hall).
    destruct (Forall2_In_l _ _ _ _ Hall Hin) as (l' & Hl).
    unfold loaded in Hl. destruct Hl as (field' & _ & Hl).
    rewrite decide_False in Hl by assumption.
    destruct Hl as (rawVal & _ & Hro & _). discriminate.
Qed.

(** X22 -- When every leaf can be loaded, the call returns nil. If the
    [.env] file is read and [cfg] points to a struct each leaf of which,
    taken alone, can be resolved and set, then [LoadEnvVarible] returns
    nil: nothing but a leaf makes it fail. *)
Theorem LoadEnvVarible_succeeds (dotenv : option (gmap string string))
  (env env' : os.Environ) (fields : list (StructField * astroenv.value)) :
  godotenv.Load dotenv env = Some env' ->
  Forall (fun l : leaf =>
            exists field', parseField env' l.1.1 l.1.2 l.2 = astroenv.Returns field')
         (leaves false (astroenv.VStruct fields)) ->
  exists v',
    LoadEnvVarible dotenv env (astroenv.Ptr (Some (astroenv.VStruct fields)))
    = (astroenv.Returns tt, astroenv.Ptr (Some v'), env').
Proof.
  intros Hload Hall. unfold astroenv.LoadEnvVarible. rewrite Hload.
  destruct (parseStruct env' false (astroenv.VStruct fields)) as [res v'] eqn:E.
  destruct (parseStruct_leaves ParseFloat float32 env' _ false fields eq_refl _ v' E)
    as (_ & H1 & _).
  destruct (parseLeaves_all env' _ Hall) as (ls' & Hls).
  rewrite Hls in H1. injection H1 as <- _. eauto.
Qed.

(** Under an unexported field that is not embedded every leaf is
    read-only. *)
Lemma leaves_read_only (v : astroenv.value) :
  Forall (fun l : leaf => l.1.1 = true) (leaves true v).
Proof.
  induction v as [| | | |fields IH|] using config_value_ind; try constructor.
  cbn [leaves]. induction IH as [|[sf x] fields Hx _ IHf]; [constructor|].
  cbn [leaves_of]. apply Forall_app. split; [|exact IHf].
  cbn [orb]. destruct x; try (repeat constructor). exact Hx.
Qed.

(** X25 -- An embedded struct is loaded as if its fields were declared in
    the struct that embeds it, whether its type is exported or not:
    [LoadEnvVarible] on a pointer to a struct that embeds one struct
    returns what it returns on a pointer to the embedded struct, and
    leaves that struct's fields as it would leave them there. Under a
    named unexported field, instead, every leaf is read-only. *)
Theorem embedded_struct_loads (dotenv : option (gmap string string)) (env : os.Environ)
  (sf : StructField) (inner : list (StructField * astroenv.value)) :
  (Anonymous sf = true ->
   LoadEnvVarible dotenv env
     (astroenv.Ptr (Some (astroenv.VStruct [(sf, astroenv.VStruct inner)])))
   = let '(res, cfg', env') :=
       LoadEnvVarible dotenv env (astroenv.Ptr (Some (astroenv.VStruct inner))) in
     (res,
      match cfg' with
      | astroenv.Ptr (Some v') => astroenv.Ptr (Some (astroenv.VStruct [(sf, v')]))
      | _ => cfg'
      end, env'))
  /\ (Anonymous sf = false -> exported sf = false ->
      Forall (fun l : leaf => l.1.1 = true)
             (leaves false (astroenv.VStruct [(sf, astroenv.VStruct inner)]))).
Proof.
  split.
  - intros Ha. unfold astroenv.LoadEnvVarible.
    destruct (godotenv.Load dotenv env) as [env1|]; [|reflexivity].
    rewrite !(parseStruct_struct ParseFloat float32).
    cbn [astroenv.parseFields]. rewrite Ha. cbn [negb]. rewrite andb_false_r. cbn [orb].
    rewrite (parseStruct_struct ParseFloat float32).
    destruct (astroenv.parseFields ParseFloat float32 env1 _ false inner) as [res inner'].
    destruct res as [[]| |]; reflexivity.
  - intros Ha Hx. cbn [leaves leaves_of]. rewrite Ha, Hx. cbn [negb andb orb].
    rewrite app_nil_r. apply (leaves_read_only (astroenv.VStruct inner)).
Qed.

End LoaderTheorems.

Lemma embedded_struct_loads_witness :
  astroenv.LoadEnvVarible no_floats id (Some dotenv_file) process_env
    (astroenv.Ptr (Some ConfigEmbedded))
  = (astroenv.Returns tt, astroenv.Ptr (Some ConfigEmbeddedLoaded), loaded_env)
  /\ leaves false ConfigHidden
     = [ (true, public "Port" (env_tag "PORT,3000"), astroenv.VInt astroenv.KInt 0) ]
  /\ astroenv.LoadEnvVarible no_floats id (Some dotenv_file) process_env
       (astroenv.Ptr (Some ConfigHidden))
     = (astroenv.Panics
          "reflect: reflect.Value.SetInt using value obtained using unexported field",
        astroenv.Ptr (Some ConfigHidden), loaded_env).
Proof.
  destruct (embedded_struct_loads no_floats id (Some dotenv_file) process_env
              (embedded_private "base")
              [ (public "Port" (env_tag "PORT,3000"), astroenv.VInt astroenv.KInt 0) ])
    as [Hemb _].
  destruct (embedded_struct_loads no_floats id (Some dotenv_file) process_env
              (private "inner" [])
              [ (public "Port" (env_tag "PORT,3000"), astroenv.VInt astroenv.KInt 0) ])
    as [_ Hhid].
  specialize (Hemb eq_refl). specialize (Hhid eq_refl eq_refl).
  split; [|split].
  - unfold ConfigEmbedded. rewrite Hemb. reflexivity.
  - reflexivity.
  - reflexivity.
Defined.

Lemma unexported_leaf_never_loads_witness :
  astroenv.parseField no_floats id loaded_env true
    (private "secret" (env_tag "SECRET,s3cr3t")) (astroenv.VString "")
  = astroenv.Panics
      "reflect: reflect.Value.SetString using value obtained using unexported field"
  /\ astroenv.LoadEnvVarible no_floats id (Some dotenv_file) process_env
       (astroenv.Ptr (Some ConfigSecret))
     <> (astroenv.Returns tt, astroenv.Ptr (Some ConfigSecret), loaded_env).
Proof.
  destruct (unexported_leaf_never_loads no_floats id loaded_env
              (private "secret" (env_tag "SECRET,s3cr3t")) (astroenv.VString ""))
    as (_ & H2 & H3); [vm_compute; discriminate|].
  split.
  - apply (H2 "s3cr3t"%string ""%string); reflexivity.
  - apply H3; [reflexivity|left; reflexivity].
Defined.

Lemma LoadEnvVarible_first_failure_witness :
  exists v',
    astroenv.LoadEnvVarible no_floats id (Some dotenv_file) process_env
      (astroenv.Ptr (Some ConfigRequired))
    = (astroenv.Fails (astroenv.MissingRequired "API_TOKEN" "Token"),
       astroenv.Ptr (Some v'), loaded_env)
    /\ leaves false v'
       = [ (false, public "Host" (env_tag "SERVER_HOST,localhost"),
            astroenv.VString "0.0.0.0");
           (false, public "Token" (env_tag "API_TOKEN"), astroenv.VString "");
           (false, public "Debug" (env_tag "SERVER_DEBUG,false"), astroenv.VBool false) ].
Proof.
  destruct (LoadEnvVarible_first_failure no_floats id (Some dotenv_file) process_env loaded_env
              [ (public "Host" (env_tag "SERVER_HOST,localhost"), astroenv.VString "");
                (public "Token" (env_tag "API_TOKEN"), astroenv.VString "");
                (public "Debug" (env_tag "SERVER_DEBUG,false"), astroenv.VBool false) ]
              [ (false, public "Host" (env_tag "SERVER_HOST,localhost"), astroenv.VString "") ]
              [ (false, public "Host" (env_tag "SERVER_HOST,localhost"),
                 astroenv.VString "0.0.0.0") ]
              [ (false, public "Debug" (env_tag "SERVER_DEBUG,false"), astroenv.VBool false) ]
              false (public "Token" (env_tag "API_TOKEN")) (astroenv.VString "")
              (astroenv.Fails (astroenv.MissingRequired "API_TOKEN" "Token")))
    as (v' & H1 & _ & H2).
  - reflexivity.
  - reflexivity.
  - reflexivity.
  - vm_compute. reflexivity.
  - exists v'. split; [exact H1|exact H2].
Defined.

Lemma LoadEnvVarible_succeeds_witness :
  exists v',
    astroenv.LoadEnvVarible no_floats id (Some dotenv_file) process_env
      (astroenv.Ptr (Some ConfigExample))
    = (astroenv.Returns tt, astroenv.Ptr (Some v'), loaded_env).
Proof.
  apply LoadEnvVarible_succeeds; [reflexivity|].
  repeat (apply List.Forall_cons; [eexists; vm_compute; reflexivity|]).
  apply List.Forall_nil.
Defined.

Lemma LoadEnvVarible_loaded_witness :
  astroenv.LoadEnvVarible no_floats id (Some dotenv_file) process_env
    (astroenv.Ptr (Some ConfigExample))
  = (astroenv.Returns tt, astroenv.Ptr (Some ConfigLoaded), loaded_env)
  /\ Forall2 (loaded no_floats id loaded_env)
             (leaves false ConfigExample) (leaves false ConfigLoaded).
Proof.
  assert (H : astroenv.LoadEnvVarible no_floats id (Some dotenv_file) process_env
                (astroenv.Ptr (Some ConfigExample))
              = (astroenv.Returns tt, astroenv.Ptr (Some ConfigLoaded), loaded_env))
    by reflexivity.
  split; [exact H|].
  destruct (LoadEnvVarible_loaded no_floats id _ _ _ _ _ H)
    as (_ & fields & v' & [= <-] & [= <-] & _ & Hall).
  exact Hall.
Defined.

(** ** The environment after [godotenv.Load] *)

Lemma Load_lookup (envMap : gmap string string) (env env' : os.Environ) (key : string) :
  godotenv.Load (Some envMap) env = Some env' ->
  env' !! key
  = match env !! key with
    | Some val => Some val
    | None =>
        match envMap !! key with
        | Some val => if os.settable key val then Some val else None
        | None => None
        end
    end.
Proof.
  unfold godotenv.Load. intros [= <-].
  apply (map_fold_weak_ind
    (fun (acc : os.Environ) (m : gmap string string) =>
       acc !! key
       = match env !! key with
         | Some val => Some val
         | None =>
             match m !! key with
             | Some val => if os.settable key val then Some val else None
             | None => None
             end
         end)).
  - rewrite lookup_empty. now destruct (env !! key).
  - intros i x m r Hi IH. cbv beta in *.
    destruct (decide (i = key)) as [->|Hne].
    + rewrite (lookup_insert_eq m key x).
      destruct (env !! key) as [val|] eqn:E; [exact IH|].
      unfold os.Setenv. destruct (os.settable key x).
      * now rewrite (lookup_insert_eq r key x).
      * rewrite IH, Hi. reflexivity.
    + rewrite (lookup_insert_ne m i key x) by assumption.
      destruct (env !! i) as [val|]; [exact IH|].
      unfold os.Setenv. destruct (os.settable i x); [|exact IH].
      now rewrite (lookup_insert_ne r i key x) by assumption.
Qed.

(** X18 -- Where a value comes from. After [godotenv.Load] has read the
    variables of the [.env] file, [resolveValue] returns: the value the
    process environment has for the key when that is set and non-empty;
    otherwise, if the process environment does not set the key, the
    non-empty value the file has for it; otherwise the default of the tag,
    or the error for a missing required variable. A variable that the
    process environment sets to the empty string hides the value of the
    file and counts as missing. *)
Theorem resolveValue_precedence (envMap : gmap string string) (env env' : os.Environ)
  (key defaultVal fieldName : string) (hasDefault : bool) :
  godotenv.Load (Some envMap) env = Some env' ->
  let fallback :=
    if hasDefault then astroenv.Returns defaultVal
    else astroenv.Fails (astroenv.MissingRequired key fieldName) in
  (forall val, env !! key = Some val -> val <> EmptyString ->
     astroenv.resolveValue env' key defaultVal hasDefault fieldName = astroenv.Returns val)
  /\ (env !! key = Some EmptyString ->
     astroenv.resolveValue env' key defaultVal hasDefault fieldName = fallback)
  /\ (forall val, env !! key = None -> envMap !! key = Some val ->
     val <> EmptyString -> os.settable key val = true ->
     astroenv.resolveValue env' key defaultVal hasDefault fieldName = astroenv.Returns val)
  /\ (env !! key = None -> envMap !! key = None \/ envMap !! key = Some EmptyString ->
     astroenv.resolveValue env' key defaultVal hasDefault fieldName = fallback).
Proof.
  intros Hload fallback. pose proof (Load_lookup envMap env env' key Hload) as Hk.
  assert (Hget : forall val, env' !! key = Some val -> val <> EmptyString ->
            astroenv.resolveValue env' key defaultVal hasDefault fieldName
            = astroenv.Returns val).
  { intros val Hval Hne. unfold astroenv.resolveValue, os.Getenv. rewrite Hval.
    cbv [default from_option id]. cbv zeta.
    destruct (decide (val <> EmptyString)); [reflexivity|contradiction]. }
  assert (Hnone : env' !! key = None \/ env' !! key = Some EmptyString ->
            astroenv.resolveValue env' key defaultVal hasDefault fieldName = fallback).
  { intros Hval. unfold astroenv.resolveValue, os.Getenv.
    destruct Hval as [-> | ->]; cbv [default from_option id]; cbv zeta;
      (destruct (decide (EmptyString <> EmptyString)); [congruence|reflexivity]). }
  split; [|split; [|split]].
  - intros val Hval Hne. apply Hget; [|assumption]. now rewrite Hk, Hval.
  - intros Hval. apply Hnone. right. now rewrite Hk, Hval.
  - intros val Hval Hfile Hne Hset. apply Hget; [|assumption].
    now rewrite Hk, Hval, Hfile, Hset.
  - intros Hval [Hfile|Hfile]; apply Hnone; rewrite Hk, Hval, Hfile.
    + now left.
    + destruct (os.settable key ""); [now right|now left].
Qed.

Lemma resolveValue_precedence_witness :
  astroenv.resolveValue loaded_env "PORT" "3000" true "Port" = astroenv.Returns "9090"%string
  /\ astroenv.resolveValue loaded_env "DEBUG_LEVEL" "info" true "DEBUG_LEVEL"
     = astroenv.Returns "info"%string
  /\ astroenv.resolveValue loaded_env "SERVER_HOST" "localhost" true "Host"
     = astroenv.Returns "0.0.0.0"%string
  /\ astroenv.resolveValue loaded_env "API_TOKEN" "" false "Token"
     = astroenv.Fails (astroenv.MissingRequired "API_TOKEN" "Token").
Proof.
  assert (Hload : godotenv.Load (Some dotenv_file) process_env = Some loaded_env)
    by reflexivity.
  split; [|split; [|split]].
  - destruct (resolveValue_precedence dotenv_file process_env loaded_env
                "PORT" "3000" "Port" true Hload) as (H & _).
    apply H; [reflexivity|discriminate].
  - destruct (resolveValue_precedence dotenv_file process_env loaded_env
                "DEBUG_LEVEL" "info" "DEBUG_LEVEL" true Hload) as (_ & H & _).
    apply H. reflexivity.
  - destruct (resolveValue_precedence dotenv_file process_env loaded_env
                "SERVER_HOST" "localhost" "Host" true Hload) as (_ & _ & H & _).
    apply H; [reflexivity|reflexivity|discriminate|reflexivity].
  - destruct (resolveValue_precedence dotenv_file process_env loaded_env
                "API_TOKEN" "" "Token" false Hload) as (_ & _ & _ & H).
    apply H; [reflexivity|left; reflexivity].
Defined.

(** ** Integers *)

Lemma loop_digit (k : N) (c : byte) (rest : list byte) (n : N) :
  u8 c = (48 + k)%N -> (k < 10)%N -> (n * 10 + k <= strconv.maxUint64)%N ->
  strconv.ParseUint_loop (c :: rest) n = strconv.ParseUint_loop rest (n * 10 + k).
Proof.
  intros Hc Hk Hle. cbn [strconv.ParseUint_loop]. rewrite Hc.
  replace ((48 <=? 48 + k)%N && (48 + k <=? 57)%N) with true
    by (symmetry; apply andb_true_iff; split; apply N.leb_le; lia).
  replace (48 + k - 48)%N with k by lia.
  unfold strconv.maxUint64 in *.
  replace ((2 ^ 64 - 1) / 10 + 1 <=? n)%N with false by (symmetry; apply N.leb_gt; lia).
  cbv zeta. rewrite N.mod_small by lia.
  replace (n * 10 + k <? n * 10)%N with false by (symmetry; apply N.ltb_ge; lia).
  replace (2 ^ 64 - 1 <? n * 10 + k)%N with false by (symmetry; apply N.ltb_ge; lia).
  reflexivity.
Qed.

Lemma loop_digit_range (k : N) (c : byte) (rest : list byte) (n : N) :
  u8 c = (48 + k)%N -> (k < 10)%N -> (strconv.maxUint64 < n * 10 + k)%N ->
  strconv.ParseUint_loop (c :: rest) n = inr strconv.ErrRange.
Proof.
  intros Hc Hk Hgt. cbn [strconv.ParseUint_loop]. rewrite Hc.
  replace ((48 <=? 48 + k)%N && (48 + k <=? 57)%N) with true
    by (symmetry; apply andb_true_iff; split; apply N.leb_le; lia).
  replace (48 + k - 48)%N with k by lia.
  unfold strconv.maxUint64 in *.
  destruct ((2 ^ 64 - 1) / 10 + 1 <=? n)%N eqn:Hcut; [reflexivity|].
  apply N.leb_gt in Hcut. cbv zeta.
  replace ((n * 10 + k) mod 2 ^ 64)%N with (n * 10 + k - 2 ^ 64)%N by lia.
  replace (n * 10 + k - 2 ^ 64 <? n * 10)%N with true by (symmetry; apply N.ltb_lt; lia).
  reflexivity.
Qed.

Lemma of_uint_acc_ge (d : Decimal.uint) (acc : positive) :
  (acc <= Pos.of_uint_acc d acc)%positive.
Proof.
  revert acc. induction d; intros acc; simpl; [lia|..];
    (etransitivity; [|apply IHd]); lia.
Qed.

(** The byte of a digit, after the digits read so far. *)
Local Ltac digit_step k l :=
  match goal with
  | |- context [strconv.ParseUint_loop (bytes_of_string (NilEmpty.string_of_uint _)) ?n] =>
      change (strconv.ParseUint_loop _ n)
        with (strconv.ParseUint_loop
                (byte_of_N (48 + k) :: bytes_of_string (NilEmpty.string_of_uint l)) n)
  end.

Local Ltac at_digit k d Hge :=
  digit_step k d;
  match goal with
  | H : (N.pos (Pos.of_uint_acc d ?a) <= _)%N |- _ => specialize (Hge a)
  | H : (_ < N.pos (Pos.of_uint_acc d ?a))%N |- _ => specialize (Hge a)
  end.

Lemma loop_acc (d : Decimal.uint) (acc : positive) :
  (N.pos (Pos.of_uint_acc d acc) <= strconv.maxUint64)%N ->
  strconv.ParseUint_loop (bytes_of_string (NilEmpty.string_of_uint d)) (N.pos acc)
  = inl (N.pos (Pos.of_uint_acc d acc)).
Proof.
  revert acc. induction d as [|d IH|d IH|d IH|d IH|d IH|d IH|d IH|d IH|d IH|d IH];
    intros acc Hle; [reflexivity|..]; cbn [Pos.of_uint_acc] in *;
    pose proof (of_uint_acc_ge d) as Hge;
    [ at_digit 0%N d Hge; rewrite (loop_digit 0)
    | at_digit 1%N d Hge; rewrite (loop_digit 1)
    | at_digit 2%N d Hge; rewrite (loop_digit 2)
    | at_digit 3%N d Hge; rewrite (loop_digit 3)
    | at_digit 4%N d Hge; rewrite (loop_digit 4)
    | at_digit 5%N d Hge; rewrite (loop_digit 5)
    | at_digit 6%N d Hge; rewrite (loop_digit 6)
    | at_digit 7%N d Hge; rewrite (loop_digit 7)
    | at_digit 8%N d Hge; rewrite (loop_digit 8)
    | at_digit 9%N d Hge; rewrite (loop_digit 9) ];
    try reflexivity; try lia;
    (rewrite <- IH by assumption; f_equal; lia).
Qed.

Lemma loop_acc_range (d : Decimal.uint) (acc : positive) :
  (N.pos acc <= strconv.maxUint64)%N ->
  (strconv.maxUint64 < N.pos (Pos.of_uint_acc d acc))%N ->
  strconv.ParseUint_loop (bytes_of_string (NilEmpty.string_of_uint d)) (N.pos acc)
  = inr strconv.ErrRange.
Proof.
  revert acc. induction d as [|d IH|d IH|d IH|d IH|d IH|d IH|d IH|d IH|d IH|d IH];
    intros acc Hacc Hgt; [simpl in Hgt; lia|..]; cbn [Pos.of_uint_acc] in *;
    match goal with
    | H : (_ < N.pos (Pos.of_uint_acc d ?a))%N |- _ =>
        destruct (N.le_gt_cases (N.pos a) strconv.maxUint64) as [Hfit|Hover];
        [pose proof (IH a Hfit H) as Hrec|]
    end;
    [ digit_step 0%N d; rewrite (loop_digit 0) | digit_step 0%N d; rewrite (loop_digit_range 0)
    | digit_step 1%N d; rewrite (loop_digit 1) | digit_step 1%N d; rewrite (loop_digit_range 1)
    | digit_step 2%N d; rewrite (loop_digit 2) | digit_step 2%N d; rewrite (loop_digit_range 2)
    | digit_step 3%N d; rewrite (loop_digit 3) | digit_step 3%N d; rewrite (loop_digit_range 3)
    | digit_step 4%N d; rewrite (loop_digit 4) | digit_step 4%N d; rewrite (loop_digit_range 4)
    | digit_step 5%N d; rewrite (loop_digit 5) | digit_step 5%N d; rewrite (loop_digit_range 5)
    | digit_step 6%N d; rewrite (loop_digit 6) | digit_step 6%N d; rewrite (loop_digit_range 6)
    | digit_step 7%N d; rewrite (loop_digit 7) | digit_step 7%N d; rewrite (loop_digit_range 7)
    | digit_step 8%N d; rewrite (loop_digit 8) | digit_step 8%N d; rewrite (loop_digit_range 8)
    | digit_step 9%N d; rewrite (loop_digit 9) | digit_step 9%N d; rewrite (loop_digit_range 9) ];
    try reflexivity; try lia;
    (rewrite <- Hrec; f_equal; lia).
Qed.

Lemma loop_zero (d : Decimal.uint) :
  ((Pos.of_uint d <= strconv.maxUint64)%N ->
   strconv.ParseUint_loop (bytes_of_string (NilEmpty.string_of_uint d)) 0
   = inl (Pos.of_uint d))
  /\ ((strconv.maxUint64 < Pos.of_uint d)%N ->
   strconv.ParseUint_loop (bytes_of_string (NilEmpty.string_of_uint d)) 0
   = inr strconv.ErrRange).
Proof.
  induction d as [|d IH|d IH|d IH|d IH|d IH|d IH|d IH|d IH|d IH|d IH];
    [split; [reflexivity|unfold strconv.maxUint64; simpl; lia]|..];
    cbn [Pos.of_uint];
    [ digit_step 0%N d; rewrite (loop_digit 0) by (reflexivity || (unfold strconv.maxUint64; lia));
      exact IH
    | digit_step 1%N d; rewrite (loop_digit 1) by (reflexivity || (unfold strconv.maxUint64; lia))
    | digit_step 2%N d; rewrite (loop_digit 2) by (reflexivity || (unfold strconv.maxUint64; lia))
    | digit_step 3%N d; rewrite (loop_digit 3) by (reflexivity || (unfold strconv.maxUint64; lia))
    | digit_step 4%N d; rewrite (loop_digit 4) by (reflexivity || (unfold strconv.maxUint64; lia))
    | digit_step 5%N d; rewrite (loop_digit 5) by (reflexivity || (unfold strconv.maxUint64; lia))
    | digit_step 6%N d; rewrite (loop_digit 6) by (reflexivity || (unfold strconv.maxUint64; lia))
    | digit_step 7%N d; rewrite (loop_digit 7) by (reflexivity || (unfold strconv.maxUint64; lia))
    | digit_step 8%N d; rewrite (loop_digit 8) by (reflexivity || (unfold strconv.maxUint64; lia))
    | digit_step 9%N d; rewrite (loop_digit 9) by (reflexivity || (unfold strconv.maxUint64; lia)) ];
    (split; [apply loop_acc|apply loop_acc_range; unfold strconv.maxUint64; lia]).
Qed.

Lemma string_of_uint_digits (d : Decimal.uint) :
  d <> Decimal.Nil ->
  exists c rest,
    bytes_of_string (NilEmpty.string_of_uint d) = c :: rest
    /\ Byte.eqb c "+" = false /\ Byte.eqb c "-" = false.
Proof.
  destruct d; [congruence|..]; intros _; eexists _, _; repeat split.
Qed.

Lemma ParseUint_decimal (d : Decimal.uint) :
  d <> Decimal.Nil ->
  ((Pos.of_uint d <= strconv.maxUint64)%N ->
   strconv.ParseUint (bytes_of_string (NilEmpty.string_of_uint d)) = inl (Pos.of_uint d))
  /\ ((strconv.maxUint64 < Pos.of_uint d)%N ->
   strconv.ParseUint (bytes_of_string (NilEmpty.string_of_uint d)) = inr strconv.ErrRange).
Proof.
  intros Hd. destruct (string_of_uint_digits d Hd) as (c & rest & E & _).
  unfold strconv.ParseUint. rewrite E, <- E. apply loop_zero.
Qed.

(** X20 -- Decimal integers are read back. [strconv.ParseInt(s, 10, 64)],
    as [setField] calls it, returns [z] for the decimal text of every
    integer [z] between -2^63 and 2^63 - 1, and a range error for the
    decimal text of every integer outside. *)
Theorem ParseInt_decimal (z : Z) :
  ((- 2 ^ 63 <= z < 2 ^ 63)%Z -> strconv.ParseInt (decimal z) = inl z)
  /\ ((z < - 2 ^ 63 \/ 2 ^ 63 <= z)%Z -> strconv.ParseInt (decimal z) = inr strconv.ErrRange).
Proof.
  unfold decimal. destruct z as [|p|p]; [split; [reflexivity|lia]| |].
  - cbn [Z.to_int NilZero.string_of_int].
    pose proof (DecimalPos.Unsigned.to_uint_nonnil p) as Hnil.
    pose proof (DecimalPos.Unsigned.of_to p) as Hval.
    unfold NilZero.string_of_uint.
    replace (match Pos.to_uint p with Decimal.Nil => "0"%string | _ => NilEmpty.string_of_uint (Pos.to_uint p) end)
      with (NilEmpty.string_of_uint (Pos.to_uint p)) by (now destruct (Pos.to_uint p)).
    destruct (ParseUint_decimal _ Hnil) as [Hok Hrange]. rewrite Hval in Hok, Hrange.
    destruct (string_of_uint_digits _ Hnil) as (c & rest & E & Hplus & Hminus).
    unfold strconv.ParseInt. rewrite E, Hplus, Hminus. cbn [orb negb andb]. rewrite <- E.
    unfold strconv.maxUint64 in *.
    destruct (N.le_gt_cases (N.pos p) (2 ^ 64 - 1)) as [Hfit|Hover].
    + rewrite Hok by assumption. split; intros Hz.
      * replace (2 ^ 63 <=? N.pos p)%N with false by (symmetry; apply N.leb_gt; lia).
        reflexivity.
      * replace (2 ^ 63 <=? N.pos p)%N with true by (symmetry; apply N.leb_le; lia).
        reflexivity.
    + rewrite Hrange by assumption. split; [lia|reflexivity].
  - cbn [Z.to_int NilZero.string_of_int].
    pose proof (DecimalPos.Unsigned.to_uint_nonnil p) as Hnil.
    pose proof (DecimalPos.Unsigned.of_to p) as Hval.
    unfold NilZero.string_of_uint.
    replace (match Pos.to_uint p with Decimal.Nil => "0"%string | _ => NilEmpty.string_of_uint (Pos.to_uint p) end)
      with (NilEmpty.string_of_uint (Pos.to_uint p)) by (now destruct (Pos.to_uint p)).
    destruct (ParseUint_decimal _ Hnil) as [Hok Hrange]. rewrite Hval in Hok, Hrange.
    unfold strconv.ParseInt.
    change (bytes_of_string (String "-" (NilEmpty.string_of_uint (Pos.to_uint p))))
      with ("-"%byte :: bytes_of_string (NilEmpty.string_of_uint (Pos.to_uint p))).
    cbn [Byte.eqb orb negb andb]. 
    replace (Byte.eqb "-" "+") with false by reflexivity.
    replace (Byte.eqb "-" "-") with true by reflexivity. cbn [orb negb andb].
    unfold strconv.maxUint64 in *.
    destruct (N.le_gt_cases (N.pos p) (2 ^ 64 - 1)) as [Hfit|Hover].
    + rewrite Hok by assumption. split; intros Hz.
      * replace (2 ^ 63 <? N.pos p)%N with false by (symmetry; apply N.ltb_ge; lia).
        reflexivity.
      * replace (2 ^ 63 <? N.pos p)%N with true by (symmetry; apply N.ltb_lt; lia).
        reflexivity.
    + rewrite Hrange by assumption. split; [lia|reflexivity].
Qed.

Lemma ParseInt_decimal_witness :
  strconv.ParseInt "3000" = inl 3000%Z
  /\ strconv.ParseInt "-9223372036854775808" = inl (- 2 ^ 63)%Z
  /\ strconv.ParseInt "9223372036854775808" = inr strconv.ErrRange.
Proof.
  split; [|split].
  - apply (proj1 (ParseInt_decimal 3000)). lia.
  - apply (proj1 (ParseInt_decimal (- 2 ^ 63))). lia.
  - apply (proj2 (ParseInt_decimal (2 ^ 63))). lia.
Defined.

(** X19 -- An integer field keeps only the low bits. For a field of any of
    the integer kinds, [setField] parses the text as a 64-bit integer and
    stores it converted to the field's kind without a range check: a
    number within the range of the kind is stored as it is, and a number
    outside it, though it parsed without error, is stored as a different
    number, its low bits. *)
Theorem int_field_wraps (ParseFloat : string -> option N) (float32 : N -> N)
  (k : astroenv.IntKind) (old : Z) (fieldName rawVal : string) (n : Z) :
  strconv.ParseInt rawVal = inl n ->
  astroenv.setField ParseFloat float32 false (astroenv.VInt k old) fieldName rawVal
  = astroenv.Returns (astroenv.VInt k (astroenv.convert k n))
  /\ in_range k (astroenv.convert k n)
  /\ (in_range k n -> astroenv.convert k n = n)
  /\ (~ in_range k n -> astroenv.convert k n <> n).
Proof.
  intros Hparse. split.
  - simpl. now rewrite Hparse.
  - unfold in_range, astroenv.convert. destruct k; simpl; lia.
Qed.

Lemma int_field_wraps_witness :
  astroenv.setField no_floats id false (astroenv.VInt astroenv.KInt8 0) "Retries" "300"
  = astroenv.Returns (astroenv.VInt astroenv.KInt8 44)
  /\ astroenv.setField no_floats id false (astroenv.VInt astroenv.KInt16 0) "Port" "70000"
     = astroenv.Returns (astroenv.VInt astroenv.KInt16 4464).
Proof.
  split.
  - exact (proj1 (int_field_wraps no_floats id astroenv.KInt8 0 "Retries" "300" 300 eq_refl)).
  - exact (proj1 (int_field_wraps no_floats id astroenv.KInt16 0 "Port" "70000" 70000 eq_refl)).
Defined.

(** ** Tags *)

Lemma parseTag_comma (key rest : string) :
  free_of "," key = true ->
  astroenv.parseTag (key +:+ String "," rest)
  = (strings.TrimSpace key, strings.TrimSpace rest, true).
Proof.
  intros Hkey. unfold astroenv.parseTag, strings.SplitN.
  rewrite genSplit_step, cut_app by assumption. reflexivity.
Qed.

Lemma parseTag_plain (key : string) :
  free_of "," key = true ->
  astroenv.parseTag key = (strings.TrimSpace key, EmptyString, false).
Proof.
  intros Hkey. unfold astroenv.parseTag, strings.SplitN.
  rewrite genSplit_free by (assumption || lia). reflexivity.
Qed.

(** X21 -- The grammar of the [env] tag. The tag is split at its first
    comma only: the key is what precedes it and the default is all that
    follows, commas included, both with the surrounding white space
    removed; a tag that ends in a comma has the empty string as its
    default; a tag without a comma has no default and names a required
    variable. *)
Theorem parseTag_first_comma (key rest : string) :
  free_of "," key = true ->
  astroenv.parseTag (key +:+ "," +:+ rest)
  = (strings.TrimSpace key, strings.TrimSpace rest, true)
  /\ astroenv.parseTag (key +:+ ",") = (strings.TrimSpace key, EmptyString, true)
  /\ astroenv.parseTag key = (strings.TrimSpace key, EmptyString, false).
Proof.
  intros Hkey. split; [|split].
  - now apply parseTag_comma.
  - now rewrite (parseTag_comma key "").
  - now apply parseTag_plain.
Qed.

Lemma parseTag_first_comma_witness :
  astroenv.parseTag "PORT,3000" = ("PORT", "3000", true)%string
  /\ astroenv.parseTag " DB_URL , postgres://u:p@h/db?a=1,b=2 "
     = ("DB_URL", "postgres://u:p@h/db?a=1,b=2", true)%string
  /\ astroenv.parseTag "API_TOKEN" = ("API_TOKEN", "", false)%string.
Proof.
  split; [|split].
  - exact (proj1 (parseTag_first_comma "PORT" "3000" eq_refl)).
  - exact (proj1 (parseTag_first_comma " DB_URL " " postgres://u:p@h/db?a=1,b=2 " eq_refl)).
  - exact (proj2 (proj2 (parseTag_first_comma "API_TOKEN" "" eq_refl))).
Defined.

